(** * Hash functions over columns: a shallow embedding of FunctionsHashing.h

    The development follows the source file top-down: the error codes and
    the exception monad, the byte-level hash policies that the source
    defines itself (JavaHashImpl, JavaHashUTF16LEImpl, HiveHashImpl), the
    URL hashers, and then the column traversal of FunctionAnyHash and the
    driver of FunctionStringHashFixedString.  Hash primitives that live in
    other libraries (CityHash64, intHash32, intHash64, ...) are section
    variables: nothing is assumed about them. *)

From Stdlib Require Import ZArith List Bool Lia.
From Stdlib.Strings Require Import Byte String.
From stdpp Require Import base list.
Import ListNotations.

Local Open Scope Z_scope.
Set Warnings "-register-all".

(** ** Error codes and the exception monad *)

(** The members of [namespace ErrorCodes] that the file declares. *)
Inductive ErrorCode : Set :=
| ILLEGAL_TYPE_OF_ARGUMENT
| BAD_ARGUMENTS
| LOGICAL_ERROR
| NUMBER_OF_ARGUMENTS_DOESNT_MATCH
| NOT_IMPLEMENTED
| ILLEGAL_COLUMN
| BAD_GET (* thrown by Field::safeGet of Core/Field.h *).

(** A computation either returns or throws [Exception(_, code)]. *)
Inductive result (A : Type) : Type :=
| Ok (a : A)
| Throw (e : ErrorCode).
Arguments Ok {A} a.
Arguments Throw {A} e.

#[global] Instance result_ret : MRet result := fun A a => Ok a.
#[global] Instance result_bind : MBind result := fun A B k m =>
  match m with
  | Ok a => k a
  | Throw e => Throw e
  end.

Definition returns {A : Type} (m : result A) : Prop := exists a, m = Ok a.

(** [for (size_t i = 0; i < n; ++i) body]: [for_loop n i body s] runs the
    [n] remaining iterations starting at index [i]; an exception leaves the
    loop. *)
Fixpoint for_loop {St : Type} (n : nat) (i : nat) (body : nat -> St -> result St) (s : St)
  : result St :=
  match n with
  | O => Ok s
  | S n' => s' ← body i s; for_loop n' (S i) body s'
  end.

(** ** Fixed-width integers *)

Definition UInt8 (b : byte) : Z := Z.of_N (Byte.to_N b).
(** [static_cast<Int8>(c)]: the byte read as a two's complement number. *)
Definition Int8 (b : byte) : Z := if UInt8 b <? 128 then UInt8 b else UInt8 b - 256.

Definition UInt16 (z : Z) : Z := z mod 2 ^ 16.
Definition UInt32 (z : Z) : Z := z mod 2 ^ 32.
Definition UInt64 (z : Z) : Z := z mod 2 ^ 64.
(** [static_cast<Int32>(u)]: two's complement reading of the low 32 bits. *)
Definition Int32 (z : Z) : Z :=
  let u := UInt32 z in if u <? 2 ^ 31 then u else u - 2 ^ 32.

(** The types that the policies of the file declare as [ReturnType]. *)
Inductive HashType : Set := AsUInt32 | AsUInt64 | AsInt32.

(** [static_cast<ToType>(z)]. *)
Definition to_type (t : HashType) (z : Z) : Z :=
  match t with
  | AsUInt32 => UInt32 z
  | AsUInt64 => UInt64 z
  | AsInt32 => Int32 z
  end.

(** [std::is_same_v<ToType, UInt64>]. *)
Definition is_UInt64 (t : HashType) : bool :=
  match t with AsUInt64 => true | _ => false end.

(** ** The Java-compatible policies *)

Module JavaHashImpl.

Definition ReturnType := AsInt32.

(** The loop [h = 31 * h + static_cast<UInt32>(static_cast<Int8>(data[i]))]
    in [UInt32] arithmetic. *)
Fixpoint loop (h : Z) (data : list byte) : Z :=
  match data with
  | [] => h
  | c :: rest => loop (UInt32 (31 * h + UInt32 (Int8 c))) rest
  end.

Definition apply (data : list byte) : Z := Int32 (loop 0 data).

Definition combineHashes (h1 h2 : Z) : result Z := Throw NOT_IMPLEMENTED.

Definition use_int_hash_for_pods := false.

End JavaHashImpl.

Module JavaHashUTF16LEImpl.

Definition ReturnType := AsInt32.

(** Remove Byte-order-mark(0xFFFE) for UTF-16LE. *)
Definition skip_bom (raw_data : list byte) : list byte :=
  match raw_data with
  | c0 :: c1 :: rest =>
      if Byte.eqb c0 xff && Byte.eqb c1 xfe then rest else raw_data
  | _ => raw_data
  end.

(** The loop over [i += 2]:
    [h = 31 * h + static_cast<UInt16>(UInt8(data[i]) | UInt8(data[i + 1]) << 8)].
    It is entered only with an even number of bytes. *)
Fixpoint loop (h : Z) (data : list byte) : Z :=
  match data with
  | c0 :: c1 :: rest =>
      loop (UInt32 (31 * h + UInt16 (Z.lor (UInt8 c0) (Z.shiftl (UInt8 c1) 8)))) rest
  | _ => h
  end.

Definition apply (raw_data : list byte) : result Z :=
  let data := skip_bom raw_data in
  if Nat.odd (length data) then Throw BAD_ARGUMENTS
  else Ok (Int32 (loop 0 data)).

Definition combineHashes (h1 h2 : Z) : result Z := Throw NOT_IMPLEMENTED.

Definition use_int_hash_for_pods := false.

End JavaHashUTF16LEImpl.

Module HiveHashImpl.

Definition ReturnType := AsInt32.

Definition apply (data : list byte) : Z :=
  Int32 (Z.land 0x7FFFFFFF (UInt32 (JavaHashImpl.apply data))).

Definition combineHashes (h1 h2 : Z) : result Z := Throw NOT_IMPLEMENTED.

Definition use_int_hash_for_pods := false.

End HiveHashImpl.

(** ** Reference definitions for the Java string hash *)

(** [String.hashCode] of Java over a sequence of code units:
    [s[0]*31^(n-1) + s[1]*31^(n-2) + ... + s[n-1]] in [int] arithmetic. *)
Fixpoint hashCode_sum (units : list Z) : Z :=
  match units with
  | [] => 0
  | c :: rest => c * 31 ^ Z.of_nat (length rest) + hashCode_sum rest
  end.

Definition java_hashCode (units : list Z) : Z := Int32 (hashCode_sum units).

(** The little-endian 16-bit code units of an even-length byte string. *)
Fixpoint utf16le_units (data : list byte) : list Z :=
  match data with
  | c0 :: c1 :: rest => (UInt8 c0 + 256 * UInt8 c1) :: utf16le_units rest
  | _ => []
  end.

(** A leading byte-order mark [0xFF 0xFE]. *)
Definition has_bom (raw_data : list byte) : bool :=
  match raw_data with
  | c0 :: c1 :: _ => Byte.eqb c0 xff && Byte.eqb c1 xfe
  | _ => false
  end.

(** The Java string hash of the UTF-16LE text in [data], which exists when
    the number of bytes is even. *)
Definition hash_of_utf16le (data : list byte) : result Z :=
  if Nat.odd (length data) then Throw BAD_ARGUMENTS
  else Ok (java_hashCode (utf16le_units data)).

(** ** URL hashing *)

(** [<city.h>]: [CityHash_v1_0_2::CityHash64(s, len)] over the [len] bytes
    it is given. *)
Class city_h := { CityHash64 : list byte -> Z }.

Local Open Scope byte_scope.

(** The plain [char] of the source, read as a number. *)
Definition char (c : byte) : Z := Int8 c.

(** The test [c == '/' || c == '?' || c == '#'] on the byte [c] under [pos]. *)
Definition is_separator (c : byte) : bool :=
  Byte.eqb c "/" || Byte.eqb c "?" || Byte.eqb c "#".

Module URLHashImpl.
Section URLHashImpl.
Context `{city_h}.

(** [apply(data, size)]: [data] is the buffer, [size] the number of bytes
    of it that are hashed. *)
Definition apply (data : list byte) (size : nat) : Z :=
  (* do not take last slash, '?' or '#' character into account *)
  if (0 <? size)%nat && is_separator (nth (size - 1) data x00)
  then CityHash64 (take (size - 1) data)
  else CityHash64 (take size data).

End URLHashImpl.
End URLHashImpl.

Module URLHierarchyHashImpl.
Section URLHierarchyHashImpl.
Context `{city_h}.

(** The test [(c > 'a' && c < 'z') || (c > '0' && c < '9')] on the byte [c]
    under [pos]. *)
Definition is_protocol_char (c : byte) : bool :=
  ((char "a" <? char c) && (char c <? char "z"))
  || ((char "0" <? char c) && (char c <? char "9")).

(** [while (pos < end && p(c)) ++pos;] for the byte [c] under [pos], where
    [rest] is the range
    [pos, end): the position where the loop stops. *)
Fixpoint scan (p : byte -> bool) (rest : list byte) (pos : nat) : nat :=
  match rest with
  | c :: rest' => if p c then scan p rest' (S pos) else pos
  | [] => pos
  end.

(** The test
    [pos == begin || pos == end || !(next == ':' && pos < end && next == '/'
      && pos < end && next == '/' && pos < end)]
    where each [next] reads the byte under [pos] and then increments [pos]:
    [None] when the test holds, and the advanced [pos] otherwise. *)
Definition after_protocol (data : list byte) (pos : nat) : option nat :=
  let end_ := length data in
  if (pos =? 0)%nat || (pos =? end_)%nat then None
  else if negb (Byte.eqb (nth pos data x00) ":") then None
  else if negb (pos + 1 <? end_)%nat then None
  else if negb (Byte.eqb (nth (pos + 1) data x00) "/") then None
  else if negb (pos + 2 <? end_)%nat then None
  else if negb (Byte.eqb (nth (pos + 2) data x00) "/") then None
  else if negb (pos + 3 <? end_)%nat then None
  else Some (pos + 3)%nat.

(** The loop [while (current_level != level && pos < end)]; every turn
    that does not leave the loop moves [pos] forward, so [end - pos]
    turns are enough and [fuel] is set to that by the caller. *)
Fixpoint level_loop (fuel : nat) (level : N) (data : list byte)
    (current_level : N) (pos : nat) : N * nat :=
  let end_ := length data in
  match fuel with
  | O => (current_level, pos)
  | S fuel' =>
      if negb (current_level =? level)%N && (pos <? end_)%nat then
        (* We go to the next `/` or `?` or `#`, skipping all at the beginning. *)
        let pos := scan is_separator (drop pos data) pos in
        if (pos =? end_)%nat then (current_level, pos)
        else
          let pos := scan (fun c => negb (is_separator c)) (drop pos data) pos in
          let pos := if negb (pos =? end_)%nat then S pos else pos in
          level_loop fuel' level data (N.succ current_level) pos
      else (current_level, pos)
  end.

(** [findLevelLength(level, begin, end)] with [data] the bytes of
    [begin, end). *)
Definition findLevelLength (level : N) (data : list byte) : nat :=
  let end_ := length data in
  (* Let's parse everything that goes before the path *)
  let pos := scan is_protocol_char data 0 in
  match after_protocol data pos with
  | None => if (0 =? level)%N then end_ else 0%nat
  | Some pos =>
      (* The domain for simplicity is everything that after the protocol and
         the two slashes, until the next slash or before `?` or `#` *)
      let pos := scan (fun c => negb (is_separator c)) (drop pos data) pos in
      let pos := if negb (pos =? end_)%nat then S pos else pos in
      if (0 =? level)%N then pos
      else
        let '(current_level, pos) := level_loop (end_ - pos) level data 0%N pos in
        if (current_level =? level)%N then pos else 0%nat
  end.

Definition apply (level : N) (data : list byte) (size : nat) : Z :=
  URLHashImpl.apply data (findLevelLength level (take size data)).

End URLHierarchyHashImpl.
End URLHierarchyHashImpl.

(** *** Reference notions for the URL hierarchy *)

(** The length of the longest prefix of [l] whose bytes all satisfy [p]. *)
Fixpoint span_len (p : byte -> bool) (l : list byte) : nat :=
  match l with
  | c :: rest => if p c then S (span_len p rest) else 0%nat
  | [] => 0%nat
  end.

(** The number of path segments of [l]: the maximal runs of bytes other
    than '/', '?' and '#'.  [inside] tells whether the byte before [l]
    belongs to a segment that is still open. *)
Fixpoint count_segments_from (inside : bool) (l : list byte) : nat :=
  match l with
  | [] => 0%nat
  | c :: rest =>
      if is_separator c then count_segments_from false rest
      else ((if inside then 0 else 1) + count_segments_from true rest)%nat
  end.

Definition count_segments (l : list byte) : nat := count_segments_from false l.

(** Lower-case letters and digits: the characters of a protocol name. *)
Definition is_alnum_lower (c : byte) : bool :=
  ((char "a" <=? char c) && (char c <=? char "z"))
  || ((char "0" <=? char c) && (char c <=? char "9")).

(** [data] reads [protocol://rest] with a protocol name and something after
    the two slashes. *)
Definition scheme_form (data : list byte) : Prop :=
  exists protocol rest : list byte,
    data = protocol ++ [":"; "/"; "/"] ++ rest
    /\ protocol <> []
    /\ forallb is_alnum_lower protocol = true
    /\ rest <> [].

(** The prefix of [data] of length [len] covers exactly [n] path segments
    of the path that starts at [path_start]: it holds [n] segments, and it
    stops at the end of [data] or right behind the separator that closes
    the last of them. *)
Definition covers_segments (data : list byte) (path_start n len : nat) : Prop :=
  (path_start <= len <= length data)%nat
  /\ count_segments (take (len - path_start) (drop path_start data)) = n
  /\ (len = length data
      \/ exists c c' : byte,
           data !! (len - 1)%nat = Some c /\ is_separator c = true
           /\ data !! (len - 2)%nat = Some c' /\ is_separator c' = false).

(** Where the path of [protocol://rest] starts: behind the host, which is
    the longest prefix of [rest] without a separator, and behind the one
    separator that follows the host when there is one. *)
Definition path_start (protocol rest : list byte) : nat :=
  let host := span_len (fun c => negb (is_separator c)) rest in
  (length protocol + 3 + host + (if (host <? length rest)%nat then 1 else 0))%nat.

(** The bytes of a string literal. *)
Definition bytes (s : string) : list byte := list_byte_of_string s.

(** [URLHash(url)] and [URLHash(url, level)] on one row. *)
Definition URLHash `{city_h} (url : list byte) : Z :=
  URLHashImpl.apply url (length url).
Definition URLHash_level `{city_h} (url : list byte) (level : N) : Z :=
  URLHierarchyHashImpl.apply level url (length url).

(** ** The integer hash *)

(** [<Common/HashTable/Hash.h>]: [intHash32<salt>(x)] and [intHash64(x)]. *)
Class hash_h := {
  intHash32 : Z -> Z -> Z;
  intHash64 : Z -> Z
}.

Module IntHash32Impl.
Definition ReturnType := AsUInt32.
Definition apply `{hash_h} (x : Z) : Z := intHash32 0x75D9543DE018BF45 x.
End IntHash32Impl.

Module IntHash64Impl.
Definition ReturnType := AsUInt64.
Definition apply `{hash_h} (x : Z) : Z := intHash64 (Z.lxor x 0x4CF2D2BAAE6DA887).
End IntHash64Impl.

(** ** Policies *)

(** What FunctionAnyHash uses of its template argument [Impl].  [apply]
    takes the bytes and the seed; the policies without a seed ignore it. *)
Record Impl : Type := {
  name : string;
  ReturnType : HashType;
  apply : list byte -> Z -> result Z;
  combineHashes : Z -> Z -> result Z;
  use_int_hash_for_pods : bool
}.

Definition JavaHash : Impl := {|
  name := "javaHash";
  ReturnType := JavaHashImpl.ReturnType;
  apply := fun data _ => Ok (JavaHashImpl.apply data);
  combineHashes := JavaHashImpl.combineHashes;
  use_int_hash_for_pods := JavaHashImpl.use_int_hash_for_pods
|}.



(** [<MurmurHash2.h>]: [MurmurHash2(data, size, seed)]. *)
Class murmur_h := { MurmurHash2 : list byte -> Z -> Z }.

Definition MurmurHash2Impl32WithSeed `{hash_h} `{murmur_h} : Impl := {|
  name := "murmurHash2_32WithSeed";
  ReturnType := AsUInt32;
  apply := fun data seed => Ok (MurmurHash2 data seed);
  combineHashes := fun h1 h2 => Ok (Z.lxor (IntHash32Impl.apply h1) h2);
  use_int_hash_for_pods := false
|}.

(** What FunctionStringHashFixedString uses of its [Impl]: the digest has
    [length] bytes. *)
Record FixedImpl : Type := {
  fixed_name : string;
  fixed_length : nat;
  fixed_apply : list byte -> Z -> list byte
}.

(** ** Types and columns *)

(** The element types of ColumnVector and ColumnDecimal. *)
Module FromType.
Inductive t : Set :=
| UInt8 | UInt16 | UInt32 | UInt64 | UInt128 | UInt256
| Int8 | Int16 | Int32 | Int64 | Int128 | Int256
| UUID | Float32 | Float64
| Decimal32 | Decimal64 | Decimal128 | Decimal256.
End FromType.

#[global] Instance FromType_eq_dec : EqDecision FromType.t.
Proof. solve_decision. Defined.

(** The type tags [WhichDataType] tells apart for values of fixed width. *)
Module TypeIndex.
Inductive t : Set :=
| UInt8 | UInt16 | UInt32 | UInt64 | UInt128 | UInt256
| Int8 | Int16 | Int32 | Int64 | Int128 | Int256
| UUID | Enum8 | Enum16 | Date | Date32 | DateTime
| Decimal32 | Decimal64 | Decimal128 | Decimal256
| Float32 | Float64.
End TypeIndex.

Inductive IDataType : Type :=
| DataTypeScalar (idx : TypeIndex.t)
| DataTypeString
| DataTypeFixedString (n : nat)
| DataTypeArray (nested : IDataType)
| DataTypeTuple (elems : list IDataType)
| DataTypeMap (nested : IDataType)      (* [nested] is what getNestedType() returns *)
| DataTypeByteMap (nested : IDataType)
| DataTypeOther.                        (* a type without a branch in executeAny *)

(** A column.  The values of a ColumnVector are numbers (bit patterns for
    floating point); strings are the bytes of all rows, each followed by a
    zero byte, and the offsets behind each row; an array column is the
    column of all elements and the offsets behind each row. *)
Inductive IColumn : Type :=
| ColumnVector (T : FromType.t) (data : list Z)   (* also ColumnDecimal<T> *)
| ColumnString (chars : list byte) (offsets : list nat)
| ColumnFixedString (n : nat) (chars : list byte)
| ColumnArray (data : IColumn) (offsets : list nat)
| ColumnTuple (columns : list IColumn)
| ColumnMap (nested : IColumn)
| ColumnByteMap (nested : IColumn)
| ColumnConst (data : IColumn) (s : nat)
| ColumnOther (rows : list (list byte)).

(** Modelled from the spec: IColumn::size(), the number of rows of a
    columnar value container: the values of a dense one, or how often a
    constant is repeated. *)
Fixpoint size (column : IColumn) : nat :=
  match column with
  | ColumnVector _ data => length data
  | ColumnString _ offsets => length offsets
  | ColumnFixedString n chars => (length chars / n)%nat
  | ColumnArray _ offsets => length offsets
  | ColumnTuple columns => match columns with c :: _ => size c | [] => 0%nat end
  | ColumnMap nested => size nested
  | ColumnByteMap nested => size nested
  | ColumnConst _ s => s
  | ColumnOther rows => length rows
  end.

(** The offsets of [n] copies of rows whose offsets are [offsets] and whose
    elements number [total]. *)
Definition repeat_offsets (n total : nat) (offsets : list nat) : list nat :=
  concat (map (fun j => map (fun o => (j * total + o)%nat) offsets) (seq 0 n)).

(** Modelled from the spec: IColumn::replicate as convertToFullColumn uses
    it, [n] copies of the rows of [column], one after the other. *)
Fixpoint repeat_rows (n : nat) (column : IColumn) : IColumn :=
  match column with
  | ColumnVector T data => ColumnVector T (concat (replicate n data))
  | ColumnString chars offsets =>
      ColumnString (concat (replicate n chars)) (repeat_offsets n (length chars) offsets)
  | ColumnFixedString k chars => ColumnFixedString k (concat (replicate n chars))
  | ColumnArray data offsets =>
      ColumnArray (repeat_rows n data) (repeat_offsets n (size data) offsets)
  | ColumnTuple columns => ColumnTuple (map (repeat_rows n) columns)
  | ColumnMap nested => ColumnMap (repeat_rows n nested)
  | ColumnByteMap nested => ColumnByteMap (repeat_rows n nested)
  | ColumnConst data s => repeat_rows (n * s) data
  | ColumnOther rows => ColumnOther (concat (replicate n rows))
  end.

(** Modelled from the spec: ColumnConst::convertToFullColumn, one of the
    accessors of the surrounding engine (materialize a constant column to a
    full column): the one row of the constant, [s] times. *)
Definition convertToFullColumn (column : IColumn) : IColumn :=
  match column with
  | ColumnConst data s => repeat_rows s data
  | _ => column
  end.

(** What the traversal needs to know about values in memory. *)
Class memory_h := {
  (** the [sizeof(v)] bytes at [&v] for a value [v] of a column of [T] *)
  object_bytes : FromType.t -> Z -> list byte;
  (** [<common/bit_cast.h>]: [bit_cast<UInt64>(v)] and [bit_cast<UInt32>(v)] *)
  bit_cast_UInt64 : FromType.t -> Z -> Z;
  bit_cast_UInt32 : FromType.t -> Z -> Z;
  (** slot [i] of a container that was allocated and not yet written *)
  uninitialized : nat -> Z;
  (** [column->getDataAt(i)], the type-agnostic accessor of IColumn *)
  getDataAt : IColumn -> nat -> list byte
}.

(** A container of [n] elements that was allocated and not yet written. *)
Definition allocate `{memory_h} (n : nat) : list Z := map uninitialized (seq 0 n).

(** [vec[i]]; the source does not check the index, the model reads 0 out
    of range (and [<[i:=v]> vec] then leaves [vec] as it is). *)
Definition at_ (vec : list Z) (i : nat) : Z := nth i vec 0.

(** The bytes [data[start], ..., data[start + len - 1]]. *)
Definition slice (data : list byte) (start len : nat) : list byte :=
  take len (drop start data).

(** ** FunctionAnyHash *)

(** The way a scalar type is traversed: [executeIntType<FromType>] or
    [executeBigIntType<FromType>]. *)
Inductive ScalarPath : Set :=
| IntType (T : FromType.t)
| BigIntType (T : FromType.t).

(** The branches of executeAny for the values of fixed width. *)
Definition scalar_path (which : TypeIndex.t) : ScalarPath :=
  match which with
  | TypeIndex.UInt8 => IntType FromType.UInt8
  | TypeIndex.UInt16 => IntType FromType.UInt16
  | TypeIndex.UInt32 => IntType FromType.UInt32
  | TypeIndex.UInt64 => IntType FromType.UInt64
  | TypeIndex.UInt128 => BigIntType FromType.UInt128
  | TypeIndex.UInt256 => BigIntType FromType.UInt256
  | TypeIndex.Int8 => IntType FromType.Int8
  | TypeIndex.Int16 => IntType FromType.Int16
  | TypeIndex.Int32 => IntType FromType.Int32
  | TypeIndex.Int64 => IntType FromType.Int64
  | TypeIndex.Int128 => BigIntType FromType.Int128
  | TypeIndex.Int256 => BigIntType FromType.Int256
  | TypeIndex.UUID => BigIntType FromType.UUID
  | TypeIndex.Enum8 => IntType FromType.Int8
  | TypeIndex.Enum16 => IntType FromType.Int16
  | TypeIndex.Date => IntType FromType.UInt16
  | TypeIndex.Date32 => IntType FromType.Int32
  | TypeIndex.DateTime => IntType FromType.UInt32
  (* TODO: executeIntType() for Decimal32/64 leads to incompatible result *)
  | TypeIndex.Decimal32 => BigIntType FromType.Decimal32
  | TypeIndex.Decimal64 => BigIntType FromType.Decimal64
  | TypeIndex.Decimal128 => BigIntType FromType.Decimal128
  | TypeIndex.Decimal256 => BigIntType FromType.Decimal256
  | TypeIndex.Float32 => IntType FromType.Float32
  | TypeIndex.Float64 => IntType FromType.Float64
  end.

(** Modelled from the spec: ColumnConst::getValue<String>(), the bytes of
    the one row in [data] of a constant string or fixed string. *)
Definition getValue_String (data : IColumn) : option (list byte) :=
  match data with
  | ColumnString chars offsets => Some (slice chars 0 (nth 0 offsets 0%nat - 1))
  | ColumnFixedString n chars => Some (slice chars 0 n)
  | _ => None
  end.

(** Modelled from the spec: ColumnConst::getValue<UInt32>(), the seed as an
    unsigned 32-bit value.  The Field of the one row in [data] is asked for
    a UInt64, the nearest field type of Core/Field.h, which the unsigned
    types up to 64 bits hold (Field::safeGet throws BAD_GET otherwise); the
    number is then converted to UInt32. *)
Definition getValue_UInt32 (data : IColumn) : result Z :=
  match data with
  | ColumnVector FromType.UInt8 vec
  | ColumnVector FromType.UInt16 vec
  | ColumnVector FromType.UInt32 vec
  | ColumnVector FromType.UInt64 vec => Ok (UInt32 (at_ vec 0))
  | _ => Throw BAD_GET
  end.

Section FunctionAnyHash.
Context `{hash_h} `{memory_h}.
Variable P : Impl.
Variable with_seed : bool.

Definition ToType : HashType := ReturnType P.
(** [static_cast<ToType>(z)], where a value is stored as a [ToType]. *)
Definition as_ToType (z : Z) : Z := to_type ToType z.

(** The traversal reads the member [seed]; executeImpl sets it before the
    traversal starts, so it is an argument here. *)
Definition applyWithSeed (seed : Z) (data : list byte) : result Z :=
  if with_seed then apply P data seed else apply P data 0.

(** [if constexpr (first) vec_to[i] = h;
     else vec_to[i] = Impl::combineHashes(vec_to[i], h);] *)
Definition store (first : bool) (i : nat) (h : Z) (vec_to : list Z) : result (list Z) :=
  if first then Ok (<[i := h]> vec_to)
  else v ← combineHashes P (at_ vec_to i) h; Ok (<[i := as_ToType v]> vec_to).

(** The loop of the branches for constants:
    [for (size_t i = 0; i < size; ++i)
       vec_to[i] = Impl::combineHashes(vec_to[i], hash);] *)
Definition store_const (first : bool) (hash : Z) (vec_to : list Z) : result (list Z) :=
  let size := length vec_to in
  if first then Ok (replicate size hash)   (* vec_to.assign(size, hash) *)
  else for_loop size 0 (fun i vec_to => store false i hash vec_to) vec_to.

(** The hash of one value in executeIntType. *)
Definition hash_pod (seed : Z) (T : FromType.t) (value : Z) : result Z :=
  if use_int_hash_for_pods P then
    if is_UInt64 ToType
    then Ok (as_ToType (IntHash64Impl.apply (bit_cast_UInt64 T value)))
    else Ok (as_ToType (IntHash32Impl.apply (bit_cast_UInt32 T value)))
  else
    h ← applyWithSeed seed (object_bytes T value); Ok (as_ToType h).

Definition executeIntType (seed : Z) (T : FromType.t) (first : bool)
    (column : IColumn) (vec_to : list Z) : result (list Z) :=
  match column with
  | ColumnVector T' vec_from =>
      if decide (T' = T) then
        for_loop (length vec_from) 0
          (fun i vec_to => h ← hash_pod seed T (at_ vec_from i); store first i h vec_to)
          vec_to
      else Throw ILLEGAL_COLUMN
  | ColumnConst (ColumnVector T' data) _ =>
      if decide (T' = T) then
        let value := at_ data 0 in
        hash ← hash_pod seed T value;
        store_const first hash vec_to
      else Throw ILLEGAL_COLUMN
  | _ => Throw ILLEGAL_COLUMN
  end.

Definition executeBigIntType (seed : Z) (T : FromType.t) (first : bool)
    (column : IColumn) (vec_to : list Z) : result (list Z) :=
  match column with
  | ColumnVector T' vec_from =>
      if decide (T' = T) then
        for_loop (length vec_from) 0
          (fun i vec_to =>
             h ← applyWithSeed seed (object_bytes T (at_ vec_from i));
             store first i (as_ToType h) vec_to)
          vec_to
      else Throw ILLEGAL_COLUMN
  | ColumnConst (ColumnVector T' data) _ =>
      if decide (T' = T) then
        let value := at_ data 0 in
        h ← applyWithSeed seed (object_bytes T value);
        store_const first (as_ToType h) vec_to
      else Throw ILLEGAL_COLUMN
  | _ => Throw ILLEGAL_COLUMN
  end.

Definition executeGeneric (seed : Z) (first : bool)
    (column : IColumn) (vec_to : list Z) : result (list Z) :=
  for_loop (size column) 0
    (fun i vec_to =>
       let bytes := getDataAt column i in
       h ← applyWithSeed seed bytes;
       store first i (as_ToType h) vec_to)
    vec_to.

Definition executeString (seed : Z) (first : bool)
    (column : IColumn) (vec_to : list Z) : result (list Z) :=
  match column with
  | ColumnString data offsets =>
      let size := length offsets in
      r ← for_loop size 0
            (fun i '(current_offset, vec_to) =>
               h ← applyWithSeed seed
                     (slice data current_offset (nth i offsets 0 - current_offset - 1)%nat);
               vec_to ← store first i (as_ToType h) vec_to;
               Ok (nth i offsets 0%nat, vec_to))
            (0%nat, vec_to);
      Ok (snd r)
  | ColumnFixedString n data =>
      let size := (length data / n)%nat in
      for_loop size 0
        (fun i vec_to =>
           h ← applyWithSeed seed (slice data (i * n) n);
           store first i (as_ToType h) vec_to)
        vec_to
  | ColumnConst data _ =>
      match getValue_String data with
      | Some value =>
          hash ← applyWithSeed seed value;
          store_const first (as_ToType hash) vec_to
      | None => Throw ILLEGAL_COLUMN
      end
  | _ => Throw ILLEGAL_COLUMN
  end.

(** The hash of the number of elements of a row of an array. *)
Definition hash_size (n : nat) : Z :=
  if is_UInt64 ToType
  then as_ToType (IntHash64Impl.apply (Z.of_nat n))
  else as_ToType (IntHash32Impl.apply (Z.of_nat n)).

(** The branch of executeArray for a ColumnArray; [executeAny_nested] is
    [executeAny<true>(nested_type, _, _)]. *)
Definition executeArray_full
    (executeAny_nested : IColumn -> list Z -> result (list Z))
    (first : bool) (nested_column : IColumn) (offsets : list nat)
    (vec_to : list Z) : result (list Z) :=
  let nested_size := size nested_column in
  vec_temp ← executeAny_nested nested_column (allocate nested_size);
  let size := length offsets in
  r ← for_loop size 0
        (fun i '(current_offset, vec_to) =>
           let next_offset := nth i offsets 0%nat in
           let h := hash_size (next_offset - current_offset) in
           vec_to ← store first i h vec_to;
           vec_to ← for_loop (next_offset - current_offset) current_offset
                      (fun j vec_to => store false i (at_ vec_temp j) vec_to)
                      vec_to;
           Ok (nth i offsets 0%nat, vec_to))
        (0%nat, vec_to);
  Ok (snd r).

(** executeArray, given the traversal of the nested type.  The source
    calls itself on the materialized column, which is a ColumnArray. *)
Definition executeArray_with
    (executeAny_nested : IColumn -> list Z -> result (list Z))
    (first : bool) (column : IColumn) (vec_to : list Z) : result (list Z) :=
  match column with
  | ColumnArray nested_column offsets =>
      executeArray_full executeAny_nested first nested_column offsets vec_to
  | ColumnConst (ColumnArray _ _) _ =>
      (* NOTE: here, of course, you can do without the materialization of the column. *)
      match convertToFullColumn column with
      | ColumnArray nested_column offsets =>
          executeArray_full executeAny_nested first nested_column offsets vec_to
      | _ => Throw ILLEGAL_COLUMN
      end
  | _ => Throw ILLEGAL_COLUMN
  end.

(** The loop of executeTuple over the columns of the tuple;
    [tuple_types[i]] beyond the element types is undefined in the source
    and LOGICAL_ERROR in the model. *)
Fixpoint executeTuple_fields
    (executeAny_field : IDataType -> IColumn -> list Z -> result (list Z))
    (tuple_types : list IDataType) (tuple_columns : list IColumn)
    (vec_to : list Z) : result (list Z) :=
  match tuple_columns with
  | [] => Ok vec_to
  | column :: tuple_columns' =>
      match tuple_types with
      | [] => Throw LOGICAL_ERROR
      | type :: tuple_types' =>
          vec_to ← executeAny_field type column vec_to;
          executeTuple_fields executeAny_field tuple_types' tuple_columns' vec_to
      end
  end.

(** The columns that executeTuple and executeForArgument go through. *)
Definition tuple_columns_of (column : IColumn) : option (list IColumn) :=
  match column with
  | ColumnTuple tuple_columns => Some tuple_columns
  | ColumnConst (ColumnTuple tuple_columns) _ =>
      (* auto tmp = ColumnConst::create(tuple_columns[i], column->size()); *)
      Some (map (fun c => ColumnConst c (size column)) tuple_columns)
  | _ => None
  end.

(** executeMap and executeByteMap behind the test of the column; they
    hand the nested column to executeArray with the nested type, on
    which executeArray casts to DataTypeArray.  For another nested type
    the cast yields a null pointer and the source is undefined; the
    model throws LOGICAL_ERROR. *)
Definition nested_of_map (column : IColumn) : option IColumn :=
  match column with
  | ColumnMap nested => Some nested
  | ColumnConst (ColumnMap _) _ =>
      match convertToFullColumn column with
      | ColumnMap nested => Some nested
      | _ => None
      end
  | _ => None
  end.

Definition nested_of_byte_map (column : IColumn) : option IColumn :=
  match column with
  | ColumnByteMap nested => Some nested
  | ColumnConst (ColumnMap _) _ =>
      (* the materialized ColumnMap is tested again and is no ColumnByteMap *)
      match convertToFullColumn column with
      | ColumnByteMap nested => Some nested
      | _ => None
      end
  | _ => None
  end.

Fixpoint executeAny (seed : Z) (first : bool) (from_type : IDataType)
    (icolumn : IColumn) (vec_to : list Z) {struct from_type} : result (list Z) :=
  match from_type with
  | DataTypeScalar which =>
      match scalar_path which with
      | IntType T => executeIntType seed T first icolumn vec_to
      | BigIntType T => executeBigIntType seed T first icolumn vec_to
      end
  | DataTypeString => executeString seed first icolumn vec_to
  | DataTypeFixedString _ => executeString seed first icolumn vec_to
  | DataTypeArray nested_type =>
      executeArray_with (executeAny seed true nested_type) first icolumn vec_to
  | DataTypeTuple tuple_types =>
      match tuple_columns_of icolumn with
      | Some tuple_columns =>
          executeTuple_fields (executeAny seed first) tuple_types tuple_columns vec_to
      | None => Throw ILLEGAL_COLUMN
      end
  | DataTypeMap nested_type =>
      match nested_of_map icolumn with
      | Some nested =>
          match nested_type with
          | DataTypeArray element_type =>
              executeArray_with (executeAny seed true element_type) first nested vec_to
          | _ => Throw LOGICAL_ERROR
          end
      | None => Throw ILLEGAL_COLUMN
      end
  | DataTypeByteMap nested_type =>
      match nested_of_byte_map icolumn with
      | Some nested =>
          match nested_type with
          | DataTypeArray element_type =>
              executeArray_with (executeAny seed true element_type) first nested vec_to
          | _ => Throw LOGICAL_ERROR
          end
      | None => Throw ILLEGAL_COLUMN
      end
  | DataTypeOther => executeGeneric seed first icolumn vec_to
  end.

(** [executeArray<first>(type, column, vec_to)]. *)
Definition executeArray (seed : Z) (first : bool) (type : IDataType)
    (column : IColumn) (vec_to : list Z) : result (list Z) :=
  match type with
  | DataTypeArray nested_type =>
      executeArray_with (executeAny seed true nested_type) first column vec_to
  | _ => Throw LOGICAL_ERROR
  end.

(** [executeTuple<first>(type, column, vec_to)]. *)
Definition executeTuple (seed : Z) (first : bool) (type : IDataType)
    (column : IColumn) (vec_to : list Z) : result (list Z) :=
  match tuple_columns_of column with
  | Some tuple_columns =>
      match type with
      | DataTypeTuple tuple_types =>
          executeTuple_fields (executeAny seed first) tuple_types tuple_columns vec_to
      | _ => Throw LOGICAL_ERROR
      end
  | None => Throw ILLEGAL_COLUMN
  end.

(** executeForArgument; the state is [vec_to] and the flag [is_first]
    that the source passes by reference.  A column that is a tuple with a
    type that is not makes the cast to DataTypeTuple throw. *)
Fixpoint executeForArgument (seed : Z) (type : IDataType) (column : IColumn)
    (state : list Z * bool) {struct type} : result (list Z * bool) :=
  state ←
    match tuple_columns_of column with
    | Some tuple_columns =>
        (* Flattening of tuples. *)
        match type with
        | DataTypeTuple tuple_types =>
            (fix fields (tuple_types : list IDataType) (tuple_columns : list IColumn)
                 (state : list Z * bool) {struct tuple_types} : result (list Z * bool) :=
               match tuple_columns with
               | [] => Ok state
               | column :: tuple_columns' =>
                   match tuple_types with
                   | [] => Throw LOGICAL_ERROR
                   | type :: tuple_types' =>
                       state ← executeForArgument seed type column state;
                       fields tuple_types' tuple_columns' state
                   end
               end) tuple_types tuple_columns state
        | _ => Throw LOGICAL_ERROR
        end
    | None =>
        let '(vec_to, is_first) := state in
        vec_to ← executeAny seed is_first type column vec_to;
        Ok (vec_to, is_first)
    end;
  Ok (fst state, false).

(** What [getReturnTypeImpl] checks on the types of the arguments. *)
Definition isUnsignedInteger (type : IDataType) : bool :=
  match type with
  | DataTypeScalar (TypeIndex.UInt8 | TypeIndex.UInt16 | TypeIndex.UInt32
                    | TypeIndex.UInt64 | TypeIndex.UInt128 | TypeIndex.UInt256) => true
  | _ => false
  end.

Definition getReturnTypeImpl (arguments : list IDataType) : result HashType :=
  if with_seed then
    match last arguments with
    | None => Throw NUMBER_OF_ARGUMENTS_DOESNT_MATCH
    | Some back =>
        if isUnsignedInteger back then Ok ToType else Throw ILLEGAL_TYPE_OF_ARGUMENT
    end
  else Ok ToType.

(** The part of executeImpl under [if constexpr (with_seed)]: the seed and
    the number of arguments that are left.  [arguments.back()] of no
    arguments is undefined in the source; getReturnTypeImpl has thrown
    NUMBER_OF_ARGUMENTS_DOESNT_MATCH for them before, and so does the model. *)
Definition read_seed (arguments : list (IDataType * IColumn)) : result (Z * nat) :=
  let size := length arguments in
  if with_seed then
    match last arguments with
    | None => Throw NUMBER_OF_ARGUMENTS_DOESNT_MATCH
    | Some (_, column) =>
        match column with
        | ColumnConst data _ =>
            seed ← getValue_UInt32 data;
            Ok (seed, (size - 1)%nat)
        | _ => Throw LOGICAL_ERROR
        end
    end
  else Ok (0, size).

Definition executeImpl (arguments : list (IDataType * IColumn))
    (input_rows_count : nat) : result (list Z) :=
  '(seed, size) ← read_seed arguments;
  let rows := input_rows_count in
  let vec_to := allocate rows in
  let vec_to :=
    if (size =? 0)%nat then
      (* Constant random number from /dev/urandom is used as a hash value of
         empty list of arguments. *)
      replicate rows (as_ToType 0xe28dbde7fe22e41c)
    else vec_to in
  (* The function supports arbitrary number of arguments of arbitrary types. *)
  state ← for_loop size 0
            (fun i state =>
               match arguments !! i with
               | Some (type, column) => executeForArgument seed type column state
               | None => Throw LOGICAL_ERROR
               end)
            (vec_to, true);
  Ok (fst state).

End FunctionAnyHash.

(** ** FunctionStringHashFixedString *)

Section FunctionStringHashFixedString.
Variable F : FixedImpl.
Variable with_seed : bool.

Definition executeImpl_fixed (arguments : list (IDataType * IColumn))
    : result IColumn :=
  seed ←
    (if with_seed then
       match last arguments with
       | None => Throw NUMBER_OF_ARGUMENTS_DOESNT_MATCH
       | Some (_, column) =>
           match column with
           | ColumnConst data _ => getValue_UInt32 data
           | _ => Throw LOGICAL_ERROR
           end
       end
     else Ok 0);
  match arguments !! 0%nat with
  | Some (_, ColumnString data offsets) =>
      let size := length offsets in
      '(_, chars_to) ← for_loop size 0
        (fun i '(current_offset, chars_to) =>
           let digest :=
             fixed_apply F
               (slice data current_offset (nth i offsets 0 - current_offset - 1)%nat)
               seed in
           Ok (nth i offsets 0%nat, chars_to ++ digest))
        (0%nat, []);
      Ok (ColumnFixedString (fixed_length F) chars_to)
  | Some (_, ColumnFixedString length data) =>
      let size := (Datatypes.length data / length)%nat in
      chars_to ← for_loop size 0
        (fun i chars_to =>
           let digest := fixed_apply F (slice data (i * length) length) seed in
           Ok (chars_to ++ digest))
        [];
      Ok (ColumnFixedString (fixed_length F) chars_to)
  | _ => Throw ILLEGAL_COLUMN
  end.

End FunctionStringHashFixedString.

(** ** Reference notions for the traversal *)

Section Reference.
Context `{hash_h} `{memory_h}.
Variable P : Impl.
Variable with_seed : bool.

(** A digest [h] comes to the slot [acc] of a row: assigned, when the
    traversed unit is the first one, or combined into it. *)
Definition assign_or_combine (first : bool) (acc h : Z) : result Z :=
  if first then Ok h else v ← combineHashes P acc h; Ok (as_ToType P v).

(** Row by row, from the first row on: row [i] with the slot [acc] gets
    [f i acc]. *)
Fixpoint map_rows (f : nat -> Z -> result Z) (i : nat) (vec : list Z)
  : result (list Z) :=
  match vec with
  | [] => Ok []
  | acc :: vec' => v ← f i acc; rest ← map_rows f (S i) vec'; Ok (v :: rest)
  end.

(** The digests of the elements of a row folded into [acc], in the order
    of the elements. *)
Fixpoint fold_combine (acc : Z) (elems : list Z) : result Z :=
  match elems with
  | [] => Ok acc
  | e :: elems' => acc' ← assign_or_combine false acc e; fold_combine acc' elems'
  end.

(** The digest of a row of an array whose elements have the digests
    [elems]. *)
Definition array_row_digest (first : bool) (acc : Z) (elems : list Z) : result Z :=
  let count := Z.of_nat (length elems) in
  let h := if is_UInt64 (ReturnType P)
           then IntHash64Impl.apply count else IntHash32Impl.apply count in
  start ← assign_or_combine first acc (as_ToType P h);
  fold_combine start elems.

(** The offset in front of row [i]. *)
Definition prev_offset (offsets : list nat) (i : nat) : nat :=
  match i with O => 0%nat | S j => nth j offsets 0%nat end.

(** The entries of [vec_temp] for the elements of row [i]. *)
Definition row_elements (offsets : list nat) (vec_temp : list Z) (i : nat) : list Z :=
  let current_offset := prev_offset offsets i in
  map (at_ vec_temp) (seq current_offset (nth i offsets 0%nat - current_offset)).

(** The element type of the column of a scalar type. *)
Definition from_type (which : TypeIndex.t) : FromType.t :=
  match scalar_path which with IntType T | BigIntType T => T end.

(** The digest of one value of a scalar type. *)
Definition hash_scalar (seed : Z) (which : TypeIndex.t) (value : Z) : result Z :=
  match scalar_path which with
  | IntType T => hash_pod P with_seed seed T value
  | BigIntType T =>
      h ← applyWithSeed P with_seed seed (object_bytes T value); Ok (as_ToType P h)
  end.

(** The digest of one string. *)
Definition hash_string (seed : Z) (value : list byte) : result Z :=
  h ← applyWithSeed P with_seed seed value; Ok (as_ToType P h).

End Reference.

(** A loop over the elements of a list that threads a state. *)
Fixpoint foldM {St A : Type} (f : St -> A -> result St) (s : St) (l : list A) : result St :=
  match l with
  | [] => Ok s
  | a :: l' => s' ← f s a; foldM f s' l'
  end.

Section ReferenceArguments.
Context `{hash_h} `{memory_h}.
Variable P : Impl.
Variable with_seed : bool.

(** One turn of the loop over the arguments. *)
Definition argument_step (seed : Z) (state : list Z * bool)
    (argument : IDataType * IColumn) : result (list Z * bool) :=
  let '(type, column) := argument in
  executeForArgument P with_seed seed type column state.

(** The arguments other than the seed, traversed from left to right with
    the seed [seed], over [rows] rows. *)
Definition traverse_arguments (seed : Z) (arguments : list (IDataType * IColumn))
    (rows : nat) : result (list Z) :=
  let vec_to :=
    match arguments with
    | [] => replicate rows (as_ToType P 0xe28dbde7fe22e41c)
    | _ => allocate rows
    end in
  state ← foldM (argument_step seed) (vec_to, true) arguments;
  Ok (fst state).

(** The units of an argument: the argument itself, or the units of its
    fields, from left to right, when its column is a tuple. *)
Fixpoint units_of (type : IDataType) (column : IColumn) {struct type}
  : list (IDataType * IColumn) :=
  match tuple_columns_of column, type with
  | Some tuple_columns, DataTypeTuple tuple_types =>
      (fix fields (tuple_types : list IDataType) (tuple_columns : list IColumn)
         {struct tuple_types} : list (IDataType * IColumn) :=
         match tuple_types, tuple_columns with
         | type :: tuple_types', column :: tuple_columns' =>
             units_of type column ++ fields tuple_types' tuple_columns'
         | _, _ => []
         end) tuple_types tuple_columns
  | _, _ => [(type, column)]
  end.

(** A unit is traversed as a whole: assigned to the rows when it is the
    first one, combined into them otherwise. *)
Definition unit_step (seed : Z) (state : list Z * bool)
    (unit : IDataType * IColumn) : result (list Z * bool) :=
  let '(vec_to, is_first) := state in
  let '(type, column) := unit in
  vec_to ← executeAny P with_seed seed is_first type column vec_to;
  Ok (vec_to, false).

(** The units traversed one after the other. *)
Definition traverse_units (seed : Z) (units : list (IDataType * IColumn))
    (state : list Z * bool) : result (list Z * bool) :=
  foldM (unit_step seed) state units.

End ReferenceArguments.

(** The tuples of an argument are well formed: a column that is a tuple
    has a tuple type with one element type for each of its columns, it has
    at least one column, and its columns are well formed with their types. *)
Fixpoint tuples_well_formed (type : IDataType) (column : IColumn) {struct type} : Prop :=
  match tuple_columns_of column with
  | Some tuple_columns =>
      match type with
      | DataTypeTuple tuple_types =>
          tuple_columns <> []
          /\ (fix fields (tuple_types : list IDataType) (tuple_columns : list IColumn)
                {struct tuple_types} : Prop :=
                match tuple_types, tuple_columns with
                | [], [] => True
                | type :: tuple_types', column :: tuple_columns' =>
                    tuples_well_formed type column /\ fields tuple_types' tuple_columns'
                | _, _ => False
                end) tuple_types tuple_columns
      | _ => False
      end
  | None => True
  end.

(** The units of a list of arguments. *)
Definition units_of_arguments (arguments : list (IDataType * IColumn))
  : list (IDataType * IColumn) :=
  flat_map (fun '(type, column) => units_of type column) arguments.

(** A unit is no tuple column: executeForArgument hands it to executeAny. *)
Definition is_unit (argument : IDataType * IColumn) : Prop :=
  tuple_columns_of (snd argument) = None.

Definition well_formed_argument (argument : IDataType * IColumn) : Prop :=
  tuples_well_formed (fst argument) (snd argument).

(** A computation throws: it returns nothing. *)
Definition throws {A : Type} (m : result A) : Prop := exists e, m = Throw e.


(** A column is a ColumnConst. *)
Definition isColumnConst (column : IColumn) : bool :=
  match column with ColumnConst _ _ => true | _ => false end.

(** An argument is a tuple with these fields: the column is a ColumnTuple,
    or a constant one, and the type lists as many element types as the
    column has columns. *)
Definition fields_of (argument : IDataType * IColumn)
  : option (list (IDataType * IColumn)) :=
  match argument with
  | (DataTypeTuple tuple_types, column) =>
      match tuple_columns_of column with
      | Some tuple_columns =>
          if (length tuple_types =? length tuple_columns)%nat
          then Some (zip tuple_types tuple_columns) else None
      | None => None
      end
  | _ => None
  end.

(** The offsets behind the rows of a string column that starts at [start]. *)
Fixpoint offsets_from (start : nat) (rows : list (list byte)) : list nat :=
  match rows with
  | [] => []
  | row :: rows' =>
      let next := (start + length row + 1)%nat in next :: offsets_from next rows'
  end.

(** The bytes of a string column with the rows [rows]: each row is followed
    by a zero byte. *)
Definition chars_of (rows : list (list byte)) : list byte :=
  concat (map (fun row => row ++ [x00]) rows).

(** The ColumnString with the rows [rows]. *)
Definition string_column (rows : list (list byte)) : IColumn :=
  ColumnString (chars_of rows) (offsets_from 0 rows).

(** The ColumnFixedString with the rows [rows] of [n] bytes each. *)
Definition fixed_string_column (n : nat) (rows : list (list byte)) : IColumn :=
  ColumnFixedString n (concat rows).

(** ** Stand-ins for the external libraries *)

(** A stand-in for [CityHash64], to run the model on concrete inputs; no
    theorem depends on the choice. *)
Definition demo_city_h : city_h := {| CityHash64 := fun s => JavaHashImpl.loop 0 s |}.

(** Stand-ins for [intHash32] and [intHash64], written after the functions
    of that name in Common/HashTable/Hash.h. *)
Definition demo_intHash64 (x : Z) : Z :=
  let x := Z.lxor x (Z.shiftr x 33) in
  let x := UInt64 (x * 0xff51afd7ed558ccd) in
  let x := Z.lxor x (Z.shiftr x 33) in
  let x := UInt64 (x * 0xc4ceb9fe1a85ec53) in
  Z.lxor x (Z.shiftr x 33).

Definition demo_intHash32 (salt key : Z) : Z :=
  let key := Z.lxor key salt in
  let key := UInt64 (UInt64 (Z.lnot key) + UInt64 (Z.shiftl key 18)) in
  let key := Z.lxor key (Z.lor (Z.shiftr key 31) (UInt64 (Z.shiftl key 33))) in
  let key := UInt64 (key * 21) in
  let key := Z.lxor key (Z.lor (Z.shiftr key 11) (UInt64 (Z.shiftl key 53))) in
  let key := UInt64 (key + UInt64 (Z.shiftl key 6)) in
  let key := Z.lxor key (Z.lor (Z.shiftr key 22) (UInt64 (Z.shiftl key 42))) in
  UInt32 key.

Definition demo_hash_h : hash_h :=
  {| intHash32 := demo_intHash32; intHash64 := demo_intHash64 |}.

(** A stand-in for [MurmurHash2]. *)
Definition demo_murmur_h : murmur_h :=
  {| MurmurHash2 := fun data seed => UInt32 (JavaHashImpl.loop (UInt32 seed) data) |}.

(** [sizeof(T)]. *)
Definition sizeof (T : FromType.t) : nat :=
  match T with
  | FromType.UInt8 | FromType.Int8 => 1
  | FromType.UInt16 | FromType.Int16 => 2
  | FromType.UInt32 | FromType.Int32 | FromType.Float32 | FromType.Decimal32 => 4
  | FromType.UInt64 | FromType.Int64 | FromType.Float64 | FromType.Decimal64 => 8
  | FromType.UInt128 | FromType.Int128 | FromType.UUID | FromType.Decimal128 => 16
  | FromType.UInt256 | FromType.Int256 | FromType.Decimal256 => 32
  end%nat.

(** The [n] low bytes of [v], the lowest first. *)
Fixpoint little_endian (n : nat) (v : Z) : list byte :=
  match n with
  | O => []
  | S n' =>
      default x00 (Byte.of_N (Z.to_N (v mod 256))) :: little_endian n' (v / 256)
  end.

Fixpoint demo_getDataAt (column : IColumn) (i : nat) : list byte :=
  match column with
  | ColumnOther rows => nth i rows []
  | ColumnConst data _ => demo_getDataAt data 0
  | _ => []
  end.

(** Values in memory on a little-endian machine; a fresh container holds
    zeros. *)
Definition demo_memory_h : memory_h := {|
  object_bytes := fun T v => little_endian (sizeof T) v;
  bit_cast_UInt64 := fun T v => UInt64 (v mod 2 ^ (8 * Z.of_nat (sizeof T)));
  bit_cast_UInt32 := fun T v => UInt32 (v mod 2 ^ (8 * Z.of_nat (sizeof T)));
  uninitialized := fun _ => 0;
  getDataAt := demo_getDataAt
|}.

(** murmurHash2_32WithSeed over the stand-ins. *)
Definition demo_murmurHash2_32WithSeed : Impl :=
  @MurmurHash2Impl32WithSeed demo_hash_h demo_murmur_h.

(** ** The other policies of FunctionAnyHash *)

(** The hash functions of the libraries that the policies wrap.  A digest
    that a library writes to a buffer is the list of the bytes written. *)

(** [<openssl/md5.h>] and [<openssl/sha.h>]: Init, Update with the bytes,
    Final. *)
Class openssl_h := {
  MD5 : list byte -> list byte;
  SHA1 : list byte -> list byte;
  SHA224 : list byte -> list byte;
  SHA256 : list byte -> list byte
}.

(** [<Poco/ByteOrder.h>]: [Poco::ByteOrder::flipBytes] on a UInt64. *)
Class poco_h := { flipBytes : Z -> Z }.

(** [<Common/SipHash.h>]. *)
Class siphash_h := {
  sipHash64 : list byte -> Z;
  sipHash128 : list byte -> list byte
}.

(** [<MurmurHash2.h>]: [MurmurHash64A(data, size, seed)]. *)
Class murmur64_h := { MurmurHash64A : list byte -> Z -> Z }.

(** [<MurmurHash3.h>]: [MurmurHash3_x86_32(data, size, seed, out)] and
    [MurmurHash3_x64_128(data, size, seed, out)]. *)
Class murmur3_h := {
  MurmurHash3_x86_32 : list byte -> Z -> list byte;
  MurmurHash3_x64_128 : list byte -> Z -> list byte
}.

(** [<city.h>]: [CityHash_v1_0_2::Hash128to64(uint128(h1, h2))]. *)
Class city128_h := { Hash128to64 : Z -> Z -> Z }.

(** [<Functions/hiveCityHash.h>]: [HiveCityHash::cityHash64(s, 0, len)]. *)
Class hive_city_h := { HiveCityHash_cityHash64 : list byte -> Z }.

(** [<farmhash.h>], in NAMESPACE_FOR_HASH_FUNCTIONS. *)
Class farmhash_h := {
  Fingerprint : Z -> Z -> Z;        (* Fingerprint(uint128_t(h1, h2)) *)
  Fingerprint64 : list byte -> Z;
  farm_Hash128to64 : Z -> Z -> Z;   (* Hash128to64(uint128_t(h1, h2)) *)
  Hash64 : list byte -> Z
}.

(** [<metrohash.h>]: [metrohash64_1(key, len, seed, out)]. *)
Class metrohash_h := { metrohash64_1 : list byte -> Z -> list byte }.

(** [<xxhash.h>]. *)
Class xxhash_h := {
  XXH32 : list byte -> Z -> Z;
  XXH64 : list byte -> Z -> Z
}.

(** The member of a union that is read after its bytes were written: the
    UInt32 of four bytes and the UInt64 of eight. *)
Class union_h := {
  UInt32_of_bytes : list byte -> Z;
  UInt64_of_bytes : list byte -> Z
}.

Section Policies.
Context `{hash_h} `{memory_h} `{murmur_h} `{city_h}.
Context `{openssl_h} `{poco_h} `{siphash_h} `{murmur64_h} `{murmur3_h}.
Context `{city128_h} `{hive_city_h} `{farmhash_h} `{metrohash_h} `{xxhash_h} `{union_h}.

(** [UInt64 hashes[] = {h1, h2}] read as 16 bytes. *)
Definition hashes_bytes (h1 h2 : Z) : list byte :=
  object_bytes FromType.UInt64 h1 ++ object_bytes FromType.UInt64 h2.

Definition HalfMD5Impl_apply (data : list byte) : Z :=
  (* buf.uint64_data: the first eight bytes of the sixteen of the digest *)
  flipBytes (UInt64_of_bytes (take 8 (MD5 data))).

Definition HalfMD5Impl : Impl := {|
  name := "halfMD5";
  ReturnType := AsUInt64;
  apply := fun data _ => Ok (HalfMD5Impl_apply data);
  combineHashes := fun h1 h2 => Ok (HalfMD5Impl_apply (hashes_bytes h1 h2));
  use_int_hash_for_pods := false
|}.

Definition SipHash64Impl : Impl := {|
  name := "sipHash64";
  ReturnType := AsUInt64;
  apply := fun data _ => Ok (sipHash64 data);
  combineHashes := fun h1 h2 => Ok (sipHash64 (hashes_bytes h1 h2));
  use_int_hash_for_pods := false
|}.

Definition MurmurHash2Impl32 : Impl := {|
  name := "murmurHash2_32";
  ReturnType := AsUInt32;
  apply := fun data _ => Ok (MurmurHash2 data 0);
  combineHashes := fun h1 h2 => Ok (Z.lxor (IntHash32Impl.apply h1) h2);
  use_int_hash_for_pods := false
|}.

Definition MurmurHash2Impl64 : Impl := {|
  name := "murmurHash2_64";
  ReturnType := AsUInt64;
  apply := fun data _ => Ok (MurmurHash64A data 0);
  combineHashes := fun h1 h2 => Ok (Z.lxor (IntHash64Impl.apply h1) h2);
  use_int_hash_for_pods := false
|}.

Definition MurmurHash2Impl64WithSeed : Impl := {|
  name := "murmurHash2_64WithSeed";
  ReturnType := AsUInt64;
  apply := fun data seed => Ok (MurmurHash64A data seed);
  combineHashes := fun h1 h2 => Ok (Z.lxor (IntHash64Impl.apply h1) h2);
  use_int_hash_for_pods := false
|}.

(** To be compatible with gcc. *)
Definition GccMurmurHashImpl : Impl := {|
  name := "gccMurmurHash";
  ReturnType := AsUInt64;
  apply := fun data _ => Ok (MurmurHash64A data 0xc70f6907);
  combineHashes := fun h1 h2 => Ok (Z.lxor (IntHash64Impl.apply h1) h2);
  use_int_hash_for_pods := false
|}.

(** [union { UInt32 h; char bytes[sizeof(h)]; }] after
    [MurmurHash3_x86_32(data, size, seed, bytes)]. *)
Definition MurmurHash3_32 (data : list byte) (seed : Z) : Z :=
  UInt32_of_bytes (MurmurHash3_x86_32 data seed).

(** [union { UInt64 h[2]; char bytes[16]; }] after
    [MurmurHash3_x64_128(data, size, seed, bytes)]: [h[0] ^ h[1]]. *)
Definition MurmurHash3_64 (data : list byte) (seed : Z) : Z :=
  let bytes := MurmurHash3_x64_128 data seed in
  Z.lxor (UInt64_of_bytes (take 8 bytes)) (UInt64_of_bytes (drop 8 bytes)).

Definition MurmurHash3Impl32 : Impl := {|
  name := "murmurHash3_32";
  ReturnType := AsUInt32;
  apply := fun data _ => Ok (MurmurHash3_32 data 0);
  combineHashes := fun h1 h2 => Ok (Z.lxor (IntHash32Impl.apply h1) h2);
  use_int_hash_for_pods := false
|}.

Definition MurmurHash3Impl64 : Impl := {|
  name := "murmurHash3_64";
  ReturnType := AsUInt64;
  apply := fun data _ => Ok (MurmurHash3_64 data 0);
  combineHashes := fun h1 h2 => Ok (Z.lxor (IntHash64Impl.apply h1) h2);
  use_int_hash_for_pods := false
|}.

Definition MurmurHash3Impl32WithSeed : Impl := {|
  name := "murmurHash3_32WithSeed";
  ReturnType := AsUInt32;
  apply := fun data seed => Ok (MurmurHash3_32 data seed);
  combineHashes := fun h1 h2 => Ok (Z.lxor (IntHash32Impl.apply h1) h2);
  use_int_hash_for_pods := false
|}.

Definition MurmurHash3Impl64WithSeed : Impl := {|
  name := "murmurHash3_64WithSeed";
  ReturnType := AsUInt64;
  apply := fun data seed => Ok (MurmurHash3_64 data seed);
  combineHashes := fun h1 h2 => Ok (Z.lxor (IntHash64Impl.apply h1) h2);
  use_int_hash_for_pods := false
|}.

Definition ImplCityHash64 : Impl := {|
  name := "cityHash64";
  ReturnType := AsUInt64;
  apply := fun s _ => Ok (CityHash64 s);
  combineHashes := fun h1 h2 => Ok (Hash128to64 h1 h2);
  use_int_hash_for_pods := true
|}.

Definition ImplHiveCityHash64 : Impl := {|
  name := "hiveCityHash64";
  ReturnType := AsUInt64;
  apply := fun s _ => Ok (HiveCityHash_cityHash64 s);
  combineHashes := fun h1 h2 => Ok (Hash128to64 h1 h2);
  use_int_hash_for_pods := true
|}.

Definition ImplFarmFingerprint64 : Impl := {|
  name := "farmFingerprint64";
  ReturnType := AsUInt64;
  apply := fun s _ => Ok (Fingerprint64 s);
  combineHashes := fun h1 h2 => Ok (Fingerprint h1 h2);
  use_int_hash_for_pods := true
|}.

Definition ImplFarmHash64 : Impl := {|
  name := "farmHash64";
  ReturnType := AsUInt64;
  apply := fun s _ => Ok (Hash64 s);
  combineHashes := fun h1 h2 => Ok (farm_Hash128to64 h1 h2);
  use_int_hash_for_pods := true
|}.

Definition ImplMetroHash64 : Impl := {|
  name := "metroHash64";
  ReturnType := AsUInt64;
  (* union { UInt64 u64; uint8_t u8[sizeof(u64)]; } *)
  apply := fun s _ => Ok (UInt64_of_bytes (metrohash64_1 s 0));
  combineHashes := fun h1 h2 => Ok (Hash128to64 h1 h2);
  use_int_hash_for_pods := true
|}.

Definition ImplXxHash32 : Impl := {|
  name := "xxHash32";
  ReturnType := AsUInt32;
  apply := fun s _ => Ok (XXH32 s 0);
  combineHashes := fun h1 h2 => Ok (Z.lxor (IntHash32Impl.apply h1) h2);
  use_int_hash_for_pods := false
|}.

Definition ImplXxHash64 : Impl := {|
  name := "xxHash64";
  ReturnType := AsUInt64;
  apply := fun s _ => Ok (XXH64 s 0);
  combineHashes := fun h1 h2 => Ok (Hash128to64 h1 h2);
  use_int_hash_for_pods := false
|}.

(** The policies of the functions without a seed that combine two
    digests as [IntHash32Impl::apply(h1) ^ h2] or
    [IntHash64Impl::apply(h1) ^ h2]. *)
Definition xor_policies : list Impl :=
  [MurmurHash2Impl32; MurmurHash2Impl64; GccMurmurHashImpl; MurmurHash3Impl32;
   MurmurHash3Impl64; ImplXxHash32].

(** The policies with [use_int_hash_for_pods = true]; their functions
    take no seed. *)
Definition pod_policies : list Impl :=
  [ImplCityHash64; ImplHiveCityHash64; ImplFarmFingerprint64; ImplFarmHash64;
   ImplMetroHash64].

(** The policies of FunctionStringHashFixedString. *)
Definition MD5Impl : FixedImpl :=
  {| fixed_name := "MD5"; fixed_length := 16; fixed_apply := fun data _ => MD5 data |}.
Definition SHA1Impl : FixedImpl :=
  {| fixed_name := "SHA1"; fixed_length := 20; fixed_apply := fun data _ => SHA1 data |}.
Definition SHA224Impl : FixedImpl :=
  {| fixed_name := "SHA224"; fixed_length := 28;
     fixed_apply := fun data _ => SHA224 data |}.
Definition SHA256Impl : FixedImpl :=
  {| fixed_name := "SHA256"; fixed_length := 32;
     fixed_apply := fun data _ => SHA256 data |}.
Definition SipHash128Impl : FixedImpl :=
  {| fixed_name := "sipHash128"; fixed_length := 16;
     fixed_apply := fun data _ => sipHash128 data |}.
Definition MurmurHash3Impl128 : FixedImpl :=
  {| fixed_name := "murmurHash3_128"; fixed_length := 16;
     fixed_apply := fun data _ => MurmurHash3_x64_128 data 0 |}.
Definition MurmurHash3Impl128WithSeed : FixedImpl :=
  {| fixed_name := "murmurHash3_128WithSeed"; fixed_length := 16;
     fixed_apply := fun data seed => MurmurHash3_x64_128 data seed |}.

End Policies.

(** ** FunctionIntHash *)

(** What FunctionIntHash uses of its [Impl]: [apply] takes a UInt64. *)
Record IntImpl : Type := {
  int_ReturnType : HashType;
  int_apply : Z -> Z
}.

Definition IntHash32 `{hash_h} : IntImpl :=
  {| int_ReturnType := IntHash32Impl.ReturnType; int_apply := IntHash32Impl.apply |}.
Definition IntHash64 `{hash_h} : IntImpl :=
  {| int_ReturnType := IntHash64Impl.ReturnType; int_apply := IntHash64Impl.apply |}.

(** The element type of [ColumnVector<ToType>]. *)
Definition column_of_ToType (t : HashType) : FromType.t :=
  match t with
  | AsUInt32 => FromType.UInt32
  | AsUInt64 => FromType.UInt64
  | AsInt32 => FromType.Int32
  end.

Module FunctionIntHash.
Section FunctionIntHash.
Context `{memory_h}.
Variable I : IntImpl.

Definition ToType : HashType := int_ReturnType I.

(** [executeType<FromType>(arguments)].  A value of the column is
    converted to the UInt64 that [Impl::apply] takes.  [arguments[0]] of
    no arguments is undefined in the source; the function is declared
    with one argument, and the model throws
    NUMBER_OF_ARGUMENTS_DOESNT_MATCH. *)
Definition executeType (T : FromType.t) (arguments : list (IDataType * IColumn))
  : result IColumn :=
  match arguments !! 0%nat with
  | Some (_, ColumnVector T' vec_from) =>
      if decide (T' = T) then
        let size := length vec_from in
        vec_to ← for_loop size 0
                   (fun i vec_to =>
                      Ok (<[i := to_type ToType (int_apply I (UInt64 (at_ vec_from i)))]>
                            vec_to))
                   (allocate size);
        Ok (ColumnVector (column_of_ToType ToType) vec_to)
      else Throw ILLEGAL_COLUMN
  | Some _ => Throw ILLEGAL_COLUMN
  | None => Throw NUMBER_OF_ARGUMENTS_DOESNT_MATCH
  end.

Definition executeImpl (arguments : list (IDataType * IColumn)) : result IColumn :=
  match arguments !! 0%nat with
  | Some (from_type, _) =>
      match from_type with
      | DataTypeScalar TypeIndex.UInt8 => executeType FromType.UInt8 arguments
      | DataTypeScalar TypeIndex.UInt16 => executeType FromType.UInt16 arguments
      | DataTypeScalar TypeIndex.UInt32 => executeType FromType.UInt32 arguments
      | DataTypeScalar TypeIndex.UInt64 => executeType FromType.UInt64 arguments
      | DataTypeScalar TypeIndex.Int8 => executeType FromType.Int8 arguments
      | DataTypeScalar TypeIndex.Int16 => executeType FromType.Int16 arguments
      | DataTypeScalar TypeIndex.Int32 => executeType FromType.Int32 arguments
      | DataTypeScalar TypeIndex.Int64 => executeType FromType.Int64 arguments
      | DataTypeScalar TypeIndex.Date => executeType FromType.UInt16 arguments
      | DataTypeScalar TypeIndex.Date32 => executeType FromType.Int32 arguments
      | DataTypeScalar TypeIndex.DateTime => executeType FromType.UInt32 arguments
      | DataTypeScalar TypeIndex.Decimal32 => executeType FromType.Decimal32 arguments
      | DataTypeScalar TypeIndex.Decimal64 => executeType FromType.Decimal64 arguments
      | _ => Throw ILLEGAL_TYPE_OF_ARGUMENT
      end
  | None => Throw NUMBER_OF_ARGUMENTS_DOESNT_MATCH
  end.

End FunctionIntHash.
End FunctionIntHash.

(** The types for which FunctionIntHash::executeImpl has a branch, with the
    element type of the column it looks for. *)
Definition int_hash_type (which : TypeIndex.t) : option FromType.t :=
  match which with
  | TypeIndex.UInt8 => Some FromType.UInt8
  | TypeIndex.UInt16 | TypeIndex.Date => Some FromType.UInt16
  | TypeIndex.UInt32 | TypeIndex.DateTime => Some FromType.UInt32
  | TypeIndex.UInt64 => Some FromType.UInt64
  | TypeIndex.Int8 => Some FromType.Int8
  | TypeIndex.Int16 => Some FromType.Int16
  | TypeIndex.Int32 | TypeIndex.Date32 => Some FromType.Int32
  | TypeIndex.Int64 => Some FromType.Int64
  | TypeIndex.Decimal32 => Some FromType.Decimal32
  | TypeIndex.Decimal64 => Some FromType.Decimal64
  | _ => None
  end.

(** ** FunctionURLHash *)

Module FunctionURLHash.
Section FunctionURLHash.
Context `{city_h} `{memory_h}.
(** [column.get64(n)] of IColumn. *)
Variable get64 : IColumn -> nat -> result Z.

(** The loop over the rows of a ColumnString that executeSingleArg and
    executeTwoArgs share; [hash data size] is the hash of the [size] bytes
    at [data]. *)
Definition hash_rows (hash : list byte -> nat -> Z) (chars : list byte)
    (offsets : list nat) : result IColumn :=
  let size := length offsets in
  '(_, out) ← for_loop size 0
    (fun i '(current_offset, out) =>
       let h := hash (drop current_offset chars)
                     (nth i offsets 0 - current_offset - 1)%nat in
       Ok (nth i offsets 0%nat, <[i := h]> out))
    (0%nat, allocate size);
  Ok (ColumnVector FromType.UInt64 out).

Definition executeSingleArg (arguments : list (IDataType * IColumn)) : result IColumn :=
  match arguments with
  | (_, ColumnString chars offsets) :: _ => hash_rows URLHashImpl.apply chars offsets
  | _ => Throw ILLEGAL_COLUMN
  end.

Definition executeTwoArgs (arguments : list (IDataType * IColumn)) : result IColumn :=
  match last arguments with
  | Some (_, level_col) =>
      if negb (isColumnConst level_col) then Throw ILLEGAL_COLUMN
      else
        level ← get64 level_col 0;
        match arguments with
        | (_, ColumnString chars offsets) :: _ =>
            hash_rows (URLHierarchyHashImpl.apply (Z.to_N level)) chars offsets
        | _ => Throw ILLEGAL_COLUMN
        end
  | None => Throw LOGICAL_ERROR
  end.

Definition executeImpl (arguments : list (IDataType * IColumn)) : result IColumn :=
  let arg_count := length arguments in
  if (arg_count =? 1)%nat then executeSingleArg arguments
  else if (arg_count =? 2)%nat then executeTwoArgs arguments
  else Throw LOGICAL_ERROR.

End FunctionURLHash.
End FunctionURLHash.

(** ** Reference notions for calls on string columns *)

(** The arguments of a call on String columns, each given by its rows. *)
Definition string_arguments (columns : list (list (list byte)))
  : list (IDataType * IColumn) :=
  map (fun strings => (DataTypeString, string_column strings)) columns.

(** The values of row [i] of the columns, from left to right. *)
Definition string_row (columns : list (list (list byte))) (i : nat) : list (list byte) :=
  map (fun strings => nth i strings []) columns.

Section StringRowDigest.
Context `{hash_h} `{memory_h}.
Variable P : Impl.
Variable with_seed : bool.

(** The digest of a row with the values [values]: the constant of the
    empty argument list when there is none; otherwise the digest of the
    first value, with the digest of each later value combined into it,
    from left to right. *)
Definition string_row_digest (seed : Z) (values : list (list byte)) : result Z :=
  match values with
  | [] => Ok (as_ToType P 0xe28dbde7fe22e41c)
  | value :: values' =>
      h ← hash_string P with_seed seed value;
      foldM (fun acc value' =>
               h' ← hash_string P with_seed seed value';
               assign_or_combine P false acc h') h values'
  end.

End StringRowDigest.

(** What a computation returns, and 0 when it throws. *)
Definition returned (m : result Z) : Z :=
  match m with Ok v => v | Throw _ => 0 end.

(** murmurHash2_32 over the stand-ins. *)
Definition demo_murmurHash2_32 : Impl := @MurmurHash2Impl32 demo_hash_h demo_murmur_h.

(** A stand-in for [get64] on columns of integers. *)
Definition demo_get64 (column : IColumn) (n : nat) : result Z :=
  match column with
  | ColumnVector _ vec => Ok (UInt64 (at_ vec n))
  | ColumnConst (ColumnVector _ vec) _ => Ok (UInt64 (at_ vec 0))
  | _ => Throw NOT_IMPLEMENTED
  end.

(** Stand-ins for the other libraries. *)
Definition demo_city128_h : city128_h :=
  {| Hash128to64 := fun h1 h2 => UInt64 (31 * h1 + h2) |}.
Definition demo_hive_city_h : hive_city_h :=
  {| HiveCityHash_cityHash64 := fun s => JavaHashImpl.loop 1 s |}.
Definition demo_farmhash_h : farmhash_h :=
  {| Fingerprint := fun h1 h2 => UInt64 (37 * h1 + h2);
     Fingerprint64 := fun s => JavaHashImpl.loop 2 s;
     farm_Hash128to64 := fun h1 h2 => UInt64 (41 * h1 + h2);
     Hash64 := fun s => JavaHashImpl.loop 3 s |}.
Definition demo_metrohash_h : metrohash_h :=
  {| metrohash64_1 := fun s seed => little_endian 8 (JavaHashImpl.loop (UInt32 seed) s) |}.
Definition demo_union_h : union_h :=
  {| UInt32_of_bytes := fun s => JavaHashImpl.loop 0 (take 4 s);
     UInt64_of_bytes := fun s => JavaHashImpl.loop 0 (take 8 s) |}.
Definition demo_murmur64_h : murmur64_h :=
  {| MurmurHash64A := fun data seed => JavaHashImpl.loop (UInt32 seed) data |}.
Definition demo_murmur3_h : murmur3_h :=
  {| MurmurHash3_x86_32 := fun data seed =>
       little_endian 4 (JavaHashImpl.loop (UInt32 seed) data);
     MurmurHash3_x64_128 := fun data seed =>
       little_endian 16 (JavaHashImpl.loop (UInt32 seed) data) |}.
Definition demo_xxhash_h : xxhash_h :=
  {| XXH32 := fun s seed => JavaHashImpl.loop (UInt32 seed) s;
     XXH64 := fun s seed => JavaHashImpl.loop (UInt32 seed) s |}.

(** A policy of FunctionStringHashFixedString over a stand-in: the four
    low bytes of the Java hash. *)
Definition demo_fixed : FixedImpl :=
  {| fixed_name := "demo"; fixed_length := 4;
     fixed_apply := fun data seed => little_endian 4 (JavaHashImpl.loop (UInt32 seed) data) |}.

(** ** Reference notions for the Java hashes *)

(** The UTF-16LE encoding of a text of ASCII characters: each byte is
    followed by a zero byte. *)
Definition utf16le_of_ascii (data : list byte) : list byte :=
  flat_map (fun c => [c; x00]) data.

(** A byte below 0x80. *)
Definition is_ascii (c : byte) : Prop := UInt8 c < 128.

(** * Core/Field.h: the discriminated union Field *)

(** Comparison of doubles; the model keeps a double as its bit pattern. *)
Class float_h := {
  Float64_less : Z -> Z -> bool;
  Float64_less_or_equal : Z -> Z -> bool
}.

(** How the header is compiled: with [NDEBUG] defined or not. *)
Class build_h := { NDEBUG : bool }.

Module Field.

(** The members of [namespace ErrorCodes] that the header declares. *)
Inductive ErrorCode : Set :=
| BAD_TYPE_OF_FIELD
| BAD_GET
| NOT_IMPLEMENTED
| LOGICAL_ERROR
| ILLEGAL_TYPE_OF_ARGUMENT.

(** What a comparison can throw: an [Exception(message, code)] of the
  header, or whatever a comparison of decimals or of bitmaps throws,
  which the header does not define, by its [what()]. *)
Inductive Exception : Set :=
| DB_Exception (code : ErrorCode)
| other (what : string).

(** A computation either returns or throws. *)
Inductive result (A : Type) : Type :=
| Ok (a : A)
| Throw (e : Exception).
Arguments Ok {A} a.
Arguments Throw {A} e.

#[global] Instance result_ret : MRet result := fun A a => Ok a.
#[global] Instance result_bind : MBind result := fun A B k m =>
match m with
| Ok a => k a
| Throw e => Throw e
end.

Definition returns {A : Type} (m : result A) : Prop := exists a, m = Ok a.

(** [m] returns, or throws an exception that is [allowed]. *)
Definition throws_only {A : Type} (allowed : Exception -> Prop) (m : result A) : Prop :=
forall e, m = Throw e -> allowed e.

(** [decimalEqual<T>], [decimalLess<T>] and [decimalLessOrEqual<T>] on
  [(x, y, x_scale, y_scale)], which the header declares and does not
  define; the first argument is the width of [T] in bits. *)
Class decimal_h := {
decimalEqual : Z -> Z -> Z -> Z -> Z -> result bool;
decimalLess : Z -> Z -> Z -> Z -> Z -> result bool;
decimalLessOrEqual : Z -> Z -> Z -> Z -> Z -> result bool
}.

(** [operator==] of BitMap64; the model keeps a bitmap as the list of its
  elements. *)
Class bitmap_h := { BitMap64_equal : list Z -> list Z -> result bool }.

(** [Field::Types]. *)
Module Types.

(** Type tag. *)
Inductive Which : Set :=
| Null | UInt64 | Int64 | Float64 | UInt128 | Int128
| String | Array | Tuple | Decimal32 | Decimal64 | Decimal128
| AggregateFunctionState | Decimal256 | UInt256 | Int256 | Map | UUID
| ByteMap | BitMap64 | SketchBinary
(* Special types for index analysis *)
| NegativeInfinity | PositiveInfinity.

(** The value of the enumerator. *)
Definition value (which : Which) : Z :=
  match which with
  | Null => 0
  | UInt64 => 1
  | Int64 => 2
  | Float64 => 3
  | UInt128 => 4
  | Int128 => 5
  | String => 16
  | Array => 17
  | Tuple => 18
  | Decimal32 => 19
  | Decimal64 => 20
  | Decimal128 => 21
  | AggregateFunctionState => 22
  | Decimal256 => 23
  | UInt256 => 24
  | Int256 => 25
  | Map => 26
  | UUID => 27
  | ByteMap => 28
  | BitMap64 => 29
  | SketchBinary => 30
  | NegativeInfinity => 254
  | PositiveInfinity => 255
  end.

Definition toString (which : Which) : string :=
  match which with
  | Null => "Null"
  | NegativeInfinity => "-Inf"
  | PositiveInfinity => "+Inf"
  | UInt64 => "UInt64"
  | UInt128 => "UInt128"
  | UInt256 => "UInt256"
  | Int64 => "Int64"
  | Int128 => "Int128"
  | Int256 => "Int256"
  | UUID => "UUID"
  | Float64 => "Float64"
  | String => "String"
  | Array => "Array"
  | Tuple => "Tuple"
  | Map => "Map"
  | ByteMap => "Map"
  | Decimal32 => "Decimal32"
  | Decimal64 => "Decimal64"
  | Decimal128 => "Decimal128"
  | Decimal256 => "Decimal256"
  | AggregateFunctionState => "AggregateFunctionState"
  | BitMap64 => "BitMap64"
  | SketchBinary => "SketchBinary"
  end.

End Types.

(** A Field: the tag [which] and the value in [storage] that goes with it.
  Integers are numbers, a double is its bit pattern, a DecimalField is
  its value and its scale, AggregateFunctionStateData is its name and
  its data. *)
Inductive t : Type :=
| Null
| NegativeInfinity
| PositiveInfinity
| UInt64 (x : Z)
| Int64 (x : Z)
| Float64 (bits : Z)
| UInt128 (x : Z)
| Int128 (x : Z)
| UInt256 (x : Z)
| Int256 (x : Z)
| UUID (x : Z)
| String (s : list byte)
| SketchBinary (s : list byte)
| Array (x : list t)
| Tuple (x : list t)
| Map (x : list t)
| ByteMap (x : list (t * t))
| Decimal32 (dec scale : Z)
| Decimal64 (dec scale : Z)
| Decimal128 (dec scale : Z)
| Decimal256 (dec scale : Z)
| AggregateFunctionState (name data : list byte)
| BitMap64 (x : list Z).

(** [getType()]. *)
Definition which (field : t) : Types.Which :=
match field with
| Null => Types.Null
| NegativeInfinity => Types.NegativeInfinity
| PositiveInfinity => Types.PositiveInfinity
| UInt64 _ => Types.UInt64
| Int64 _ => Types.Int64
| Float64 _ => Types.Float64
| UInt128 _ => Types.UInt128
| Int128 _ => Types.Int128
| UInt256 _ => Types.UInt256
| Int256 _ => Types.Int256
| UUID _ => Types.UUID
| String _ => Types.String
| SketchBinary _ => Types.SketchBinary
| Array _ => Types.Array
| Tuple _ => Types.Tuple
| Map _ => Types.Map
| ByteMap _ => Types.ByteMap
| Decimal32 _ _ => Types.Decimal32
| Decimal64 _ _ => Types.Decimal64
| Decimal128 _ _ => Types.Decimal128
| Decimal256 _ _ => Types.Decimal256
| AggregateFunctionState _ _ => Types.AggregateFunctionState
| BitMap64 _ => Types.BitMap64
end.

Definition getTypeName (field : t) : string := Types.toString (which field).

(** Non-valued field are all denoted as Null. *)
Definition isNull (field : t) : bool :=
match which field with
| Types.Null | Types.NegativeInfinity | Types.PositiveInfinity => true
| _ => false
end.

Definition isNegativeInfinity (field : t) : bool :=
match which field with Types.NegativeInfinity => true | _ => false end.

Definition isPositiveInfinity (field : t) : bool :=
match which field with Types.PositiveInfinity => true | _ => false end.

Definition IsDecimal (which : Types.Which) : bool :=
match which with
| Types.Decimal32 | Types.Decimal64 | Types.Decimal128 | Types.Decimal256 => true
| _ => false
end.

(** The three-way lexicographic comparison of two ranges: the first
  position where the elements differ decides; without one, the shorter
  range comes first. *)
Fixpoint list_compare {A : Type} (cmp : A -> A -> comparison) (l1 l2 : list A)
  {struct l1} : comparison :=
match l1, l2 with
| [], [] => Eq
| [], _ :: _ => Lt
| _ :: _, [] => Gt
| x :: l1', y :: l2' =>
    match cmp x y with
    | Eq => list_compare cmp l1' l2'
    | c => c
    end
end.

(** [std::string::compare]: the bytes as unsigned chars, then the lengths. *)
Definition string_compare (a b : list byte) : comparison :=
list_compare (fun x y => Z.compare (UInt8 x) (UInt8 y)) a b.

Definition string_less (a b : list byte) : bool :=
match string_compare a b with Lt => true | _ => false end.
Definition string_less_or_equal (a b : list byte) : bool :=
match string_compare a b with Gt => false | _ => true end.
Definition string_equal (a b : list byte) : bool :=
match string_compare a b with Eq => true | _ => false end.

Section Comparison.
Context {A : Type}.
(** [x < y] and [y < x] on the elements [x] of the first range and [y] of
    the second. *)
Variable less greater : A -> A -> result bool.

(** [std::lexicographical_compare(l1, l2)] with the [<] of the elements,
    which is what [<] of two vectors is: the first position where one is
    less than the other decides; without one, the shorter range is less. *)
Fixpoint lexicographical_compare (l1 l2 : list A) {struct l1} : result bool :=
  match l1, l2 with
  | _, [] => Ok false
  | [], _ :: _ => Ok true
  | x :: l1', y :: l2' =>
      c ← less x y;
      if (c : bool) then Ok true
      else c' ← greater x y;
           if (c' : bool) then Ok false else lexicographical_compare l1' l2'
  end.

(** [std::lexicographical_compare(l2, l1)], by recursion on [l1]. *)
Fixpoint lexicographical_compare_from (l1 l2 : list A) {struct l1} : result bool :=
  match l1, l2 with
  | [], _ => Ok false
  | _ :: _, [] => Ok true
  | x :: l1', y :: l2' =>
      c ← greater x y;
      if (c : bool) then Ok true
      else c' ← less x y;
           if (c' : bool) then Ok false else lexicographical_compare_from l1' l2'
  end.

End Comparison.

(** [==] of two vectors: the sizes, then the elements until two differ. *)
Fixpoint equal_ranges {A : Type} (equal : A -> A -> result bool) (l1 l2 : list A)
  {struct l1} : result bool :=
match l1, l2 with
| [], [] => Ok true
| x :: l1', y :: l2' =>
    c ← equal x y; if (c : bool) then equal_ranges equal l1' l2' else Ok false
| _, _ => Ok false
end.

Definition isInt64OrUInt64FieldType (t : Types.Which) : bool :=
match t with
| Types.Int64 | Types.UInt64 => true
| _ => false
end.

Section Operators.
Context `{build_h} `{float_h} `{decimal_h} `{bitmap_h}.

(** The type check of [Field::get<T>], which is compiled in without
    NDEBUG; [target] is [TypeToEnum<StoredType>::value].  Disregard
    signedness when converting between int64 types. *)
Definition get_check (target : Types.Which) (field : t) : result unit :=
  if negb (Types.value target =? Types.value (which field))%Z
     && (negb (isInt64OrUInt64FieldType target)
         || negb (isInt64OrUInt64FieldType (which field)))
  then if NDEBUG then Ok tt else Throw (DB_Exception LOGICAL_ERROR)
  else Ok tt.

(** [get<T>()] of both operands of a comparison, and then the
    comparison of the values. *)
Definition get {A : Type} (target : Types.Which) (lhs rhs : t) (compared : result A)
  : result A :=
  _ ← get_check target lhs; _ ← get_check target rhs; compared.

(** [operator<] of [std::pair]:
    [x.first < y.first || (!(y.first < x.first) && x.second < y.second)],
    and the same for [y < x]. *)
Definition pair_less (less greater : t -> t -> result bool) (x y : t * t)
  : result bool :=
  c ← less (fst x) (fst y);
  if (c : bool) then Ok true
  else c' ← greater (fst x) (fst y);
       if (c' : bool) then Ok false else less (snd x) (snd y).

Definition pair_greater (less greater : t -> t -> result bool) (x y : t * t)
  : result bool :=
  c ← greater (fst x) (fst y);
  if (c : bool) then Ok true
  else c' ← less (fst x) (fst y);
       if (c' : bool) then Ok false else greater (snd x) (snd y).

(** [operator<]: [less lhs rhs] is [lhs < rhs], and [greater lhs rhs] is
    [rhs < lhs], which the comparison of vectors asks of the elements
    too; the two are defined together by recursion on [lhs].  A value is
    read by [get<T>()], with its type check.  The last branch is not
    reached: behind the comparison of the tags both fields have the
    same tag. *)
Fixpoint less (lhs rhs : t) {struct lhs} : result bool :=
  if Types.value (which lhs) <? Types.value (which rhs) then Ok true
  else if Types.value (which rhs) <? Types.value (which lhs) then Ok false
  else
    match lhs, rhs with
    | Null, _ | NegativeInfinity, _ | PositiveInfinity, _ => Ok false
    | UInt64 x, UInt64 y => get Types.UInt64 lhs rhs (Ok (x <? y))
    | UInt128 x, UInt128 y => get Types.UInt128 lhs rhs (Ok (x <? y))
    | UInt256 x, UInt256 y => get Types.UInt256 lhs rhs (Ok (x <? y))
    | Int64 x, Int64 y => get Types.Int64 lhs rhs (Ok (x <? y))
    | Int128 x, Int128 y => get Types.Int128 lhs rhs (Ok (x <? y))
    | Int256 x, Int256 y => get Types.Int256 lhs rhs (Ok (x <? y))
    | UUID x, UUID y => get Types.UUID lhs rhs (Ok (x <? y))
    | Float64 x, Float64 y => get Types.Float64 lhs rhs (Ok (Float64_less x y))
    | String x, String y => get Types.String lhs rhs (Ok (string_less x y))
    | SketchBinary x, SketchBinary y => get Types.String lhs rhs (Ok (string_less x y))
    | Array x, Array y =>
        get Types.Array lhs rhs (lexicographical_compare less greater x y)
    | Tuple x, Tuple y =>
        get Types.Tuple lhs rhs (lexicographical_compare less greater x y)
    | Map x, Map y => get Types.Map lhs rhs (lexicographical_compare less greater x y)
    | ByteMap x, ByteMap y =>
        get Types.ByteMap lhs rhs
          (lexicographical_compare (pair_less less greater)
             (pair_greater less greater) x y)
    | Decimal32 x sx, Decimal32 y sy =>
        get Types.Decimal32 lhs rhs (decimalLess 32 x y sx sy)
    | Decimal64 x sx, Decimal64 y sy =>
        get Types.Decimal64 lhs rhs (decimalLess 64 x y sx sy)
    | Decimal128 x sx, Decimal128 y sy =>
        get Types.Decimal128 lhs rhs (decimalLess 128 x y sx sy)
    | Decimal256 x sx, Decimal256 y sy =>
        get Types.Decimal256 lhs rhs (decimalLess 256 x y sx sy)
    | AggregateFunctionState _ _, AggregateFunctionState _ _ =>
        get Types.AggregateFunctionState lhs rhs
          (Throw (DB_Exception ILLEGAL_TYPE_OF_ARGUMENT))
    | BitMap64 _, BitMap64 _ => Throw (DB_Exception NOT_IMPLEMENTED)
    | _, _ => Throw (DB_Exception BAD_TYPE_OF_FIELD)
    end
with greater (lhs rhs : t) {struct lhs} : result bool :=
  if Types.value (which rhs) <? Types.value (which lhs) then Ok true
  else if Types.value (which lhs) <? Types.value (which rhs) then Ok false
  else
    match lhs, rhs with
    | Null, _ | NegativeInfinity, _ | PositiveInfinity, _ => Ok false
    | UInt64 x, UInt64 y => get Types.UInt64 lhs rhs (Ok (y <? x))
    | UInt128 x, UInt128 y => get Types.UInt128 lhs rhs (Ok (y <? x))
    | UInt256 x, UInt256 y => get Types.UInt256 lhs rhs (Ok (y <? x))
    | Int64 x, Int64 y => get Types.Int64 lhs rhs (Ok (y <? x))
    | Int128 x, Int128 y => get Types.Int128 lhs rhs (Ok (y <? x))
    | Int256 x, Int256 y => get Types.Int256 lhs rhs (Ok (y <? x))
    | UUID x, UUID y => get Types.UUID lhs rhs (Ok (y <? x))
    | Float64 x, Float64 y => get Types.Float64 lhs rhs (Ok (Float64_less y x))
    | String x, String y => get Types.String lhs rhs (Ok (string_less y x))
    | SketchBinary x, SketchBinary y => get Types.String lhs rhs (Ok (string_less y x))
    | Array x, Array y =>
        get Types.Array lhs rhs (lexicographical_compare_from less greater x y)
    | Tuple x, Tuple y =>
        get Types.Tuple lhs rhs (lexicographical_compare_from less greater x y)
    | Map x, Map y =>
        get Types.Map lhs rhs (lexicographical_compare_from less greater x y)
    | ByteMap x, ByteMap y =>
        get Types.ByteMap lhs rhs
          (lexicographical_compare_from (pair_less less greater)
             (pair_greater less greater) x y)
    | Decimal32 x sx, Decimal32 y sy =>
        get Types.Decimal32 lhs rhs (decimalLess 32 y x sy sx)
    | Decimal64 x sx, Decimal64 y sy =>
        get Types.Decimal64 lhs rhs (decimalLess 64 y x sy sx)
    | Decimal128 x sx, Decimal128 y sy =>
        get Types.Decimal128 lhs rhs (decimalLess 128 y x sy sx)
    | Decimal256 x sx, Decimal256 y sy =>
        get Types.Decimal256 lhs rhs (decimalLess 256 y x sy sx)
    | AggregateFunctionState _ _, AggregateFunctionState _ _ =>
        get Types.AggregateFunctionState lhs rhs
          (Throw (DB_Exception ILLEGAL_TYPE_OF_ARGUMENT))
    | BitMap64 _, BitMap64 _ => Throw (DB_Exception NOT_IMPLEMENTED)
    | _, _ => Throw (DB_Exception BAD_TYPE_OF_FIELD)
    end.

(** [<] of two vectors of fields, with [less] in both directions. *)
Definition less_ranges (l1 l2 : list t) : result bool :=
  lexicographical_compare less (fun x y => less y x) l1 l2.

Definition less_pairs (l1 l2 : list (t * t)) : result bool :=
  lexicographical_compare
    (pair_less less (fun x y => less y x))
    (fun x y => pair_less less (fun x y => less y x) y x) l1 l2.

(** [operator<=]; [<=] of two vectors is [!(rhs < lhs)]. *)
Definition less_or_equal (lhs rhs : t) : result bool :=
  if Types.value (which lhs) <? Types.value (which rhs) then Ok true
  else if Types.value (which rhs) <? Types.value (which lhs) then Ok false
  else
    match lhs, rhs with
    | Null, _ | NegativeInfinity, _ | PositiveInfinity, _ => Ok true
    | UInt64 x, UInt64 y => get Types.UInt64 lhs rhs (Ok (x <=? y))
    | UInt128 x, UInt128 y => get Types.UInt128 lhs rhs (Ok (x <=? y))
    | UInt256 x, UInt256 y => get Types.UInt256 lhs rhs (Ok (x <=? y))
    | Int64 x, Int64 y => get Types.Int64 lhs rhs (Ok (x <=? y))
    | Int128 x, Int128 y => get Types.Int128 lhs rhs (Ok (x <=? y))
    | Int256 x, Int256 y => get Types.Int256 lhs rhs (Ok (x <=? y))
    | UUID x, UUID y => get Types.UUID lhs rhs (Ok (x <=? y))
    | Float64 x, Float64 y => get Types.Float64 lhs rhs (Ok (Float64_less_or_equal x y))
    | String x, String y => get Types.String lhs rhs (Ok (string_less_or_equal x y))
    | SketchBinary x, SketchBinary y =>
        get Types.String lhs rhs (Ok (string_less_or_equal x y))
    | Array x, Array y => get Types.Array lhs rhs (c ← less_ranges y x; Ok (negb c))
    | Tuple x, Tuple y => get Types.Tuple lhs rhs (c ← less_ranges y x; Ok (negb c))
    | Map x, Map y => get Types.Map lhs rhs (c ← less_ranges y x; Ok (negb c))
    | ByteMap x, ByteMap y => get Types.ByteMap lhs rhs (c ← less_pairs y x; Ok (negb c))
    | Decimal32 x sx, Decimal32 y sy =>
        get Types.Decimal32 lhs rhs (decimalLessOrEqual 32 x y sx sy)
    | Decimal64 x sx, Decimal64 y sy =>
        get Types.Decimal64 lhs rhs (decimalLessOrEqual 64 x y sx sy)
    | Decimal128 x sx, Decimal128 y sy =>
        get Types.Decimal128 lhs rhs (decimalLessOrEqual 128 x y sx sy)
    | Decimal256 x sx, Decimal256 y sy =>
        get Types.Decimal256 lhs rhs (decimalLessOrEqual 256 x y sx sy)
    | AggregateFunctionState _ _, AggregateFunctionState _ _ =>
        get Types.AggregateFunctionState lhs rhs
          (Throw (DB_Exception ILLEGAL_TYPE_OF_ARGUMENT))
    | BitMap64 _, BitMap64 _ => Throw (DB_Exception NOT_IMPLEMENTED)
    | _, _ => Throw (DB_Exception BAD_TYPE_OF_FIELD)
    end.

(** [operator==]: more like bitwise equality as opposed to semantic
    equality: Null equals Null and NaN equals NaN. *)
Fixpoint equal (lhs rhs : t) {struct lhs} : result bool :=
  if negb (Types.value (which lhs) =? Types.value (which rhs))%Z then Ok false
  else
    match lhs, rhs with
    | Null, _ | NegativeInfinity, _ | PositiveInfinity, _ => Ok true
    | UInt64 x, UInt64 y => get Types.UInt64 lhs rhs (Ok (x =? y)%Z)
    | Int64 x, Int64 y => get Types.Int64 lhs rhs (Ok (x =? y)%Z)
    (* Compare as UInt64 so that NaNs compare as equal. *)
    | Float64 x, Float64 y => Ok (x =? y)%Z
    | UUID x, UUID y => get Types.UUID lhs rhs (Ok (x =? y)%Z)
    | String x, String y => get Types.String lhs rhs (Ok (string_equal x y))
    | SketchBinary x, SketchBinary y => get Types.String lhs rhs (Ok (string_equal x y))
    | Array x, Array y =>
        get Types.Array lhs rhs
          (if (length x =? length y)%nat then equal_ranges equal x y else Ok false)
    | Tuple x, Tuple y =>
        get Types.Tuple lhs rhs
          (if (length x =? length y)%nat then equal_ranges equal x y else Ok false)
    | Map x, Map y =>
        get Types.Map lhs rhs
          (if (length x =? length y)%nat then equal_ranges equal x y else Ok false)
    | ByteMap x, ByteMap y =>
        get Types.ByteMap lhs rhs
          (if (length x =? length y)%nat
           then equal_ranges
                  (fun p q => c ← equal (fst p) (fst q);
                              if (c : bool) then equal (snd p) (snd q) else Ok false) x y
           else Ok false)
    | UInt128 x, UInt128 y => get Types.UInt128 lhs rhs (Ok (x =? y)%Z)
    | UInt256 x, UInt256 y => get Types.UInt256 lhs rhs (Ok (x =? y)%Z)
    | Int128 x, Int128 y => get Types.Int128 lhs rhs (Ok (x =? y)%Z)
    | Int256 x, Int256 y => get Types.Int256 lhs rhs (Ok (x =? y)%Z)
    | Decimal32 x sx, Decimal32 y sy =>
        get Types.Decimal32 lhs rhs (decimalEqual 32 x y sx sy)
    | Decimal64 x sx, Decimal64 y sy =>
        get Types.Decimal64 lhs rhs (decimalEqual 64 x y sx sy)
    | Decimal128 x sx, Decimal128 y sy =>
        get Types.Decimal128 lhs rhs (decimalEqual 128 x y sx sy)
    | Decimal256 x sx, Decimal256 y sy =>
        get Types.Decimal256 lhs rhs (decimalEqual 256 x y sx sy)
    | AggregateFunctionState name data, AggregateFunctionState name' data' =>
        get Types.AggregateFunctionState lhs rhs
          (if negb (string_equal name name')
           then Throw (DB_Exception ILLEGAL_TYPE_OF_ARGUMENT)
           else Ok (string_equal data data'))
    | BitMap64 x, BitMap64 y => get Types.BitMap64 lhs rhs (BitMap64_equal x y)
    | _, _ => Throw (DB_Exception BAD_TYPE_OF_FIELD)
    end.

(** [operator>], [operator>=] and [operator!=]. *)
Definition greater_than (lhs rhs : t) : result bool := less rhs lhs.
Definition greater_or_equal (lhs rhs : t) : result bool := less_or_equal rhs lhs.
Definition not_equal (lhs rhs : t) : result bool := c ← equal lhs rhs; Ok (negb c).

End Operators.

(** ** Reference notions for the order of fields *)

Section Plain.
Context `{build_h}.

(** Every [get<T>()] that a comparison makes on the field, at any depth,
    passes its type check: the field holds no SketchBinary, which is
    read by [get<String>()], or the check is not compiled in. *)
Fixpoint gets_pass (field : t) : bool :=
  match field with
  | SketchBinary _ => NDEBUG
  | Array x | Tuple x | Map x => forallb gets_pass x
  | ByteMap x => forallb (fun p => gets_pass (fst p) && gets_pass (snd p)) x
  | _ => true
  end.

(** A field without a double, a decimal, an aggregate function state, a
    bitmap or a ByteMap, at any depth, and whose reads pass the type
    check: Null, the infinities, integers, UUIDs, strings, a
    SketchBinary where NDEBUG is defined, and the arrays, tuples and
    maps of such fields. *)
Fixpoint is_plain (field : t) : bool :=
  match field with
  | Null | NegativeInfinity | PositiveInfinity
  | UInt64 _ | Int64 _ | UInt128 _ | Int128 _ | UInt256 _ | Int256 _ | UUID _
  | String _ => true
  | SketchBinary _ => NDEBUG
  | Array x | Tuple x | Map x => forallb is_plain x
  | _ => false
  end.

(** The exceptions of the header that a comparison throws: the one of
    the type check only where the check is compiled in. *)
Definition thrown_by_comparison : list Exception :=
  if NDEBUG
  then [DB_Exception NOT_IMPLEMENTED; DB_Exception ILLEGAL_TYPE_OF_ARGUMENT]
  else [DB_Exception NOT_IMPLEMENTED; DB_Exception ILLEGAL_TYPE_OF_ARGUMENT;
        DB_Exception LOGICAL_ERROR].

Definition thrown_by_equality : list Exception :=
  if NDEBUG
  then [DB_Exception ILLEGAL_TYPE_OF_ARGUMENT]
  else [DB_Exception ILLEGAL_TYPE_OF_ARGUMENT; DB_Exception LOGICAL_ERROR].

(** An exception is one of [own], or one that the comparisons of
    decimals and of bitmaps throw. *)
Definition thrown_or (own : list Exception) (external : Exception -> Prop)
    (e : Exception) : Prop :=
  In e own \/ external e.

End Plain.

Definition pair_compare (cmp : t -> t -> comparison) (p q : t * t) : comparison :=
match cmp (fst p) (fst q) with
| Eq => cmp (snd p) (snd q)
| c => c
end.

(** The order of the fields by tag first, and by value among the fields of
  one tag: numbers by size, strings and vectors lexicographically. *)
Fixpoint compare (a b : t) {struct a} : comparison :=
match Z.compare (Types.value (which a)) (Types.value (which b)) with
| Eq =>
    match a, b with
    | UInt64 x, UInt64 y | Int64 x, Int64 y | Float64 x, Float64 y
    | UInt128 x, UInt128 y | Int128 x, Int128 y
    | UInt256 x, UInt256 y | Int256 x, Int256 y | UUID x, UUID y => Z.compare x y
    | String x, String y | SketchBinary x, SketchBinary y => string_compare x y
    | Array x, Array y | Tuple x, Tuple y | Map x, Map y => list_compare compare x y
    | ByteMap x, ByteMap y => list_compare (pair_compare compare) x y
    | Decimal32 x sx, Decimal32 y sy | Decimal64 x sx, Decimal64 y sy
    | Decimal128 x sx, Decimal128 y sy | Decimal256 x sx, Decimal256 y sy =>
        match Z.compare x y with Eq => Z.compare sx sy | c => c end
    | AggregateFunctionState n d, AggregateFunctionState n' d' =>
        match string_compare n n' with Eq => string_compare d d' | c => c end
    | BitMap64 x, BitMap64 y => list_compare Z.compare x y
    | _, _ => Eq
    end
| c => c
end.

Definition is_Lt (c : comparison) : bool := match c with Lt => true | _ => false end.
Definition is_Gt (c : comparison) : bool := match c with Gt => true | _ => false end.
Definition is_Eq (c : comparison) : bool := match c with Eq => true | _ => false end.

End Field.

(** Stand-ins for the comparison of doubles, of decimals and of bitmaps:
    the doubles by their bit patterns, the decimals of one scale by their
    values; and the two ways to compile the header. *)
Definition demo_float_h : float_h :=
  {| Float64_less := Z.ltb; Float64_less_or_equal := Z.leb |}.
Definition demo_decimal_h : Field.decimal_h :=
  {| Field.decimalEqual := fun _ x y sx sy => Field.Ok ((x =? y) && (sx =? sy))%Z;
     Field.decimalLess := fun _ x y _ _ => Field.Ok (x <? y)%Z;
     Field.decimalLessOrEqual := fun _ x y _ _ => Field.Ok (x <=? y)%Z |}.
Definition demo_bitmap_h : Field.bitmap_h :=
  {| Field.BitMap64_equal := fun x y => Field.Ok (if decide (x = y) then true else false) |}.
Definition release_build : build_h := {| NDEBUG := true |}.
Definition debug_build : build_h := {| NDEBUG := false |}.

(** * Storages/StorageFactory.cpp: the registry of the table engines *)

From stdpp Require gmap strings.

(** What the file takes from the rest of the engine: the syntax trees, the
    data types with [IDataType::cannotBeStoredInTables], the storages, the
    access types with [AccessType::NONE], the identifiers of the tables,
    the descriptions of the columns with [getAll] and [getColumnTTLs], and
    of a context [hasQueryContext()] and [getSettingsRef().log_queries]. *)
Class engine_h := {
  AST : Type;
  DataType : Type;
  StoragePtr : Type;
  AccessType : Type;
  ColumnsDescription : Type;
  ConstraintsDescription : Type;
  ContextPtr : Type;
  UUID : Type;
  StorageID : Type;
  AccessType_NONE : AccessType;
  cannotBeStoredInTables : DataType -> bool;
  getAll : ColumnsDescription -> list (string * DataType);
  getColumnTTLs : ColumnsDescription -> list (string * AST);
  hasQueryContext : ContextPtr -> bool;
  log_queries : ContextPtr -> bool
}.

Module StorageFactory.

(** The members of [namespace ErrorCodes] that the file declares. *)
Inductive ErrorCode : Set :=
| UNKNOWN_STORAGE
| LOGICAL_ERROR
| INCORRECT_QUERY
| ENGINE_REQUIRED
| FUNCTION_CANNOT_HAVE_PARAMETERS
| BAD_ARGUMENTS
| DATA_TYPE_CANNOT_BE_USED_IN_TABLES.

(** What a call can throw: an [Exception(message, code)] of the file, the
  [std::out_of_range] of [std::unordered_map::at], or whatever a creator
  or a call into another file throws, by its [what()].  [null_pointer]
  stands for the dereference of a null [storage_def], where the program
  has no defined behaviour. *)
Inductive Exception : Set :=
| DB_Exception (code : ErrorCode)
| out_of_range
| null_pointer
| other (what : string).

Inductive result (A : Type) : Type :=
| Ok (a : A)
| Throw (e : Exception).
Arguments Ok {A} a.
Arguments Throw {A} e.

#[global] Instance result_ret : MRet result := fun A a => Ok a.
#[global] Instance result_bind : MBind result := fun A B k m =>
match m with
| Ok a => k a
| Throw e => Throw e
end.

(** The calls of [get] into code of other files that can throw: the
  constructor [StorageID(database, table, uuid)], the read of the
  comment [comment->as<ASTLiteral &>().value.get<String>()], and
  [local_context->getQueryContext()->addQueryFactoriesInfo(Storage, name)]. *)
Class calls_h `{engine_h} := {
StorageID_new : string -> string -> UUID -> result StorageID;
comment_value : AST -> result string;
addQueryFactoriesInfo : ContextPtr -> string -> result unit
}.

Section Factory.
Context `{engine_h} {calls : calls_h}.

Definition ASTs : Type := list AST.

(** [ASTFunction]: the name, and the parameters and the arguments, each a
    list of expressions or null. *)
Record ASTFunction : Type := {
  name : string;
  parameters : option ASTs;
  arguments : option ASTs
}.

(** [ASTStorage], with the members that the file reads; a clause is
    null or an expression, and so is the comment. *)
Record ASTStorage : Type := {
  engine : ASTFunction;
  partition_by : option AST;
  primary_key : option AST;
  order_by : option AST;
  unique_key : option AST;
  sample_by : option AST;
  ttl_table : option AST;
  settings : option AST;
  comment : option AST
}.

(** [ASTColumns]: the children of [indices] and of [projections]. *)
Record ASTColumns : Type := {
  indices : option ASTs;
  projections : option ASTs
}.

Record ASTCreateQuery : Type := {
  attach : bool;
  create : bool;
  is_ordinary_view : bool;
  is_materialized_view : bool;
  is_live_view : bool;
  is_dictionary : bool;
  database : string;
  table : string;
  uuid : UUID;
  columns_list : option ASTColumns;
  storage : option ASTStorage
}.

(** [StorageFeatures], with the members that the file reads. *)
Record StorageFeatures : Type := {
  supports_settings : bool;
  supports_skipping_indices : bool;
  supports_projections : bool;
  supports_sort_order : bool;
  supports_ttl : bool;
  source_access_type : AccessType
}.

(** [StorageFactory::Arguments].  [engine_args] is a reference to a list
    that the creator may change; the two contexts are weak pointers,
    [None] when expired. *)
Record Arguments : Type := {
  engine_name : string;
  engine_args : ASTs;
  storage_def : option ASTStorage;
  query : ASTCreateQuery;
  relative_data_path : string;
  table_id : StorageID;
  local_context : option ContextPtr;
  context : option ContextPtr;
  columns : ColumnsDescription;
  constraints : ConstraintsDescription;
  Arguments_attach : bool;
  Arguments_create : bool;
  has_force_restore_data_flag : bool;
  Arguments_comment : string
}.

(** A creator returns the storage, and the list [engine_args] as it has
    left it. *)
Definition CreatorFn : Type := Arguments -> result (StoragePtr * ASTs).

Record Creator : Type := {
  creator_fn : CreatorFn;
  features : StorageFeatures
}.

(** [Storages], a [std::unordered_map<std::string, Creator>]. *)
Definition Storages : Type := gmap.gmap string Creator.

(** Some types are only for intermediate values of expressions and
    cannot be used in tables. *)
Fixpoint checkAllTypesAreAllowedInTable (names_and_types : list (string * DataType))
  : result unit :=
  match names_and_types with
  | [] => Ok tt
  | elem :: rest =>
      if cannotBeStoredInTables (snd elem)
      then Throw (DB_Exception DATA_TYPE_CANNOT_BE_USED_IN_TABLES)
      else checkAllTypesAreAllowedInTable rest
  end.

Definition getContext (arguments : Arguments) : result ContextPtr :=
  match context arguments with
  | Some ptr => Ok ptr
  | None => Throw (DB_Exception LOGICAL_ERROR)
  end.

Definition getLocalContext (arguments : Arguments) : result ContextPtr :=
  match local_context arguments with
  | Some ptr => Ok ptr
  | None => Throw (DB_Exception LOGICAL_ERROR)
  end.

(** [registerStorage]: [emplace] inserts nothing where the name has an
    entry. *)
Definition registerStorage (storages : Storages) (name : string)
    (creator_fn : CreatorFn) (features : StorageFeatures) : result Storages :=
  match storages !! name with
  | None => Ok (<[name := {| creator_fn := creator_fn; features := features |}]> storages)
  | Some _ => Throw (DB_Exception LOGICAL_ERROR)
  end.

(** The lambda [check_feature] of [get]. *)
Definition check_feature (it : Creator) (feature_matcher_fn : StorageFeatures -> bool)
  : result unit :=
  if negb (feature_matcher_fn (features it))
  then Throw (DB_Exception BAD_ARGUMENTS)
  else Ok tt.

Definition is_Some_b {A : Type} (x : option A) : bool :=
  match x with Some _ => true | None => false end.

(** [empty()] of a container. *)
Definition empty {A : Type} (container : list A) : bool :=
  match container with [] => true | _ :: _ => false end.

(** The children of a list of expressions that is not null and not
    empty. *)
Definition has_children (list : option ASTs) : bool :=
  match list with Some (_ :: _) => true | _ => false end.

(** What [get] gives back: the storage, the definition of the storage in
    the query as the call has left it, and the name that has been added
    to the factories of the query log, if one has. *)
Record Created : Type := {
  res : StoragePtr;
  storage_after : option ASTStorage;
  logged : option string
}.

Definition set_arguments (storage_def : ASTStorage) (args : ASTs) : ASTStorage :=
  {| engine := {| name := name (engine storage_def);
                  parameters := parameters (engine storage_def);
                  arguments := Some args |};
     partition_by := partition_by storage_def;
     primary_key := primary_key storage_def;
     order_by := order_by storage_def;
     unique_key := unique_key storage_def;
     sample_by := sample_by storage_def;
     ttl_table := ttl_table storage_def;
     settings := settings storage_def;
     comment := comment storage_def |}.

(** The first part of [get]: the name of the engine, the comment and
    [has_engine_args]. *)
Definition engine_of_query (storages : Storages) (query : ASTCreateQuery)
    (columns : ColumnsDescription) : result (string * string * bool) :=
  let storage_def := storage query in
  if is_ordinary_view query then
    if is_Some_b (storage query) then Throw (DB_Exception INCORRECT_QUERY)
    else Ok ("View"%string, EmptyString, false)
  else if is_live_view query then
    if is_Some_b (storage query) then Throw (DB_Exception INCORRECT_QUERY)
    else Ok ("LiveView"%string, EmptyString, false)
  else if is_dictionary query then
    if is_Some_b (storage query) then Throw (DB_Exception INCORRECT_QUERY)
    else Ok ("Dictionary"%string, EmptyString, false)
  else
    (* Check for some special types, that are not allowed to be stored in
       tables.  Any type is allowed in View. *)
    _ ← checkAllTypesAreAllowedInTable (getAll columns);
    if is_materialized_view query then Ok ("MaterializedView"%string, EmptyString, false)
    else
      match storage_def with
      | None => Throw (DB_Exception ENGINE_REQUIRED)
      | Some storage_def =>
          let engine_def := engine storage_def in
          if is_Some_b (parameters engine_def)
          then Throw (DB_Exception FUNCTION_CANNOT_HAVE_PARAMETERS)
          else
            let has_engine_args := is_Some_b (arguments engine_def) in
            let name := name engine_def in
            if String.eqb name "View" then Throw (DB_Exception INCORRECT_QUERY)
            else if String.eqb name "MaterializedView"
            then Throw (DB_Exception INCORRECT_QUERY)
            else if String.eqb name "LiveView" then Throw (DB_Exception INCORRECT_QUERY)
            else
              match storages !! name with
              | None => Throw (DB_Exception UNKNOWN_STORAGE)
              | Some it =>
                  comment ← match comment storage_def with
                            | Some literal => comment_value literal
                            | None => Ok EmptyString
                            end;
                  _ ← (if is_Some_b (settings storage_def)
                       then check_feature it supports_settings else Ok tt);
                  _ ← (if is_Some_b (partition_by storage_def)
                          || is_Some_b (primary_key storage_def)
                          || is_Some_b (order_by storage_def)
                          || is_Some_b (unique_key storage_def)
                          || is_Some_b (sample_by storage_def)
                       then check_feature it supports_sort_order else Ok tt);
                  _ ← (if is_Some_b (ttl_table storage_def)
                          || negb (empty (getColumnTTLs columns))
                       then check_feature it supports_ttl else Ok tt);
                  _ ← (if match columns_list query with
                          | Some columns_list => has_children (indices columns_list)
                          | None => false
                          end
                       then check_feature it supports_skipping_indices else Ok tt);
                  _ ← (if match columns_list query with
                          | Some columns_list => has_children (projections columns_list)
                          | None => false
                          end
                       then check_feature it supports_projections else Ok tt);
                  Ok (name, comment, has_engine_args)
              end
      end.

(** [StorageFactory::get]; the messages of the exceptions, with the hints
    for an unknown name, and the line of the debug log are left out. *)
Definition get (storages : Storages) (query : ASTCreateQuery)
    (relative_data_path : string) (local_context context : ContextPtr)
    (columns : ColumnsDescription) (constraints : ConstraintsDescription)
    (has_force_restore_data_flag : bool) : result Created :=
  let storage_def := storage query in
  '(name, comment, has_engine_args) ← engine_of_query storages query columns;
  let empty_engine_args : ASTs := [] in
  table_id ← StorageID_new (database query) (table query) (uuid query);
  let arguments :=
    {| engine_name := name;
       engine_args :=
         if (has_engine_args : bool)
         then match storage_def with
              | Some storage_def =>
                  match arguments (engine storage_def) with
                  | Some children => children
                  | None => empty_engine_args
                  end
              | None => empty_engine_args
              end
         else empty_engine_args;
       storage_def := storage_def;
       query := query;
       relative_data_path := relative_data_path;
       table_id := table_id;
       local_context := Some local_context;
       context := Some context;
       columns := columns;
       constraints := constraints;
       Arguments_attach := attach query;
       Arguments_create := create query;
       has_force_restore_data_flag := has_force_restore_data_flag;
       Arguments_comment := comment |} in
  creator ← match storages !! name with
            | Some creator => Ok creator
            | None => Throw out_of_range
            end;
  '(res, engine_args) ← creator_fn creator arguments;
  storage_after ←
    (if (has_engine_args : bool)
     then Ok (option_map (fun storage_def => set_arguments storage_def engine_args)
                storage_def)
     else
       match engine_args with
       | [] => Ok storage_def
       | _ :: _ =>
           (* Storage creator modified empty arguments list, so we should
              modify the query *)
           match storage_def with
           | Some storage_def => Ok (Some (set_arguments storage_def engine_args))
           | None => Throw null_pointer
           end
       end);
  let log := hasQueryContext local_context && log_queries context in
  _ ← (if log then addQueryFactoriesInfo local_context name else Ok tt);
  Ok {| res := res;
        storage_after := storage_after;
        logged := if log then Some name else None |}.

Definition getSourceAccessType (storages : Storages) (table_engine : string)
  : AccessType :=
  match storages !! table_engine with
  | None => AccessType_NONE
  | Some it => source_access_type (features it)
  end.

(** The clauses of the definition of a storage that ask for a feature,
    each with the feature. *)
Definition clauses_supported (query : ASTCreateQuery) (columns : ColumnsDescription)
    (storage_def : ASTStorage) (features : StorageFeatures) : Prop :=
  (is_Some (settings storage_def) -> supports_settings features = true)
  /\ (is_Some (partition_by storage_def) \/ is_Some (primary_key storage_def)
      \/ is_Some (order_by storage_def) \/ is_Some (unique_key storage_def)
      \/ is_Some (sample_by storage_def) -> supports_sort_order features = true)
  /\ (is_Some (ttl_table storage_def) \/ getColumnTTLs columns <> [] ->
      supports_ttl features = true)
  /\ (forall list index rest,
         columns_list query = Some list ->
         indices list = Some (index :: rest) ->
         supports_skipping_indices features = true)
  /\ (forall list projection rest,
         columns_list query = Some list ->
         projections list = Some (projection :: rest) ->
         supports_projections features = true).

(** A CREATE query of a table: no view, no live view, no dictionary and
    no materialized view. *)
Definition is_table (query : ASTCreateQuery) : Prop :=
  is_ordinary_view query = false /\ is_live_view query = false
  /\ is_dictionary query = false /\ is_materialized_view query = false.

End Factory.

End StorageFactory.

(** A stand-in for the engine: syntax trees, types and storages are
    strings, a type that cannot be stored is Nothing, the identifier of a
    table is its names with the UUID, and a context is the pair of
    [hasQueryContext()] and [log_queries]. *)
Definition demo_engine_h : engine_h :=
  {| AST := string;
     DataType := string;
     StoragePtr := string;
     AccessType := nat;
     ColumnsDescription := list (string * string);
     ConstraintsDescription := unit;
     ContextPtr := bool * bool;
     UUID := nat;
     StorageID := string * string * nat;
     AccessType_NONE := 0%nat;
     cannotBeStoredInTables := fun type => String.eqb type "Nothing";
     getAll := fun columns => columns;
     getColumnTTLs := fun _ => [];
     hasQueryContext := fst;
     log_queries := snd |}.

(** The calls over the stand-in: a table has a name or a UUID, a comment
    is its own text, and a name is always added to the query log. *)
Definition demo_calls_h : StorageFactory.calls_h (H := demo_engine_h) :=
  @StorageFactory.Build_calls_h demo_engine_h
    (fun database table uuid =>
       if String.eqb table EmptyString && Nat.eqb uuid 0
       then StorageFactory.Throw (StorageFactory.other "Both table name and UUID are empty")
       else StorageFactory.Ok (database, table, uuid))
    (fun literal => StorageFactory.Ok literal)
    (fun _ _ => StorageFactory.Ok tt).

(** A creator over the stand-in: the storage is the name of the engine,
    and the arguments are left as they are. *)
Definition demo_creator : StorageFactory.CreatorFn (H := demo_engine_h) :=
  fun arguments =>
    StorageFactory.Ok (StorageFactory.engine_name arguments,
                       StorageFactory.engine_args arguments).

Definition demo_features : StorageFactory.StorageFeatures (H := demo_engine_h) :=
  @StorageFactory.Build_StorageFeatures demo_engine_h
    false (* supports_settings *)
    false (* supports_skipping_indices *)
    false (* supports_projections *)
    true  (* supports_sort_order *)
    false (* supports_ttl *)
    7%nat (* source_access_type *).

Definition demo_storages : StorageFactory.Storages (H := demo_engine_h) :=
  <["Memory"%string := {| StorageFactory.creator_fn := demo_creator;
                          StorageFactory.features := demo_features |}]> ∅.

(** CREATE TABLE db.t (x UInt8) ENGINE = [engine](1) ORDER BY x. *)
Definition demo_query (engine : string) : StorageFactory.ASTCreateQuery (H := demo_engine_h) :=
  @StorageFactory.Build_ASTCreateQuery demo_engine_h
    false (* attach *)
    true  (* create *)
    false (* is_ordinary_view *)
    false (* is_materialized_view *)
    false (* is_live_view *)
    false (* is_dictionary *)
    "db"%string "t"%string 0%nat
    None  (* columns_list *)
    (Some (@StorageFactory.Build_ASTStorage demo_engine_h
             (@StorageFactory.Build_ASTFunction demo_engine_h
                engine None (Some ["1"%string]))
             None (* partition_by *)
             None (* primary_key *)
             (Some "x"%string) (* order_by *)
             None (* unique_key *)
             None (* sample_by *)
             None (* ttl_table *)
             None (* settings *)
             None (* comment *))).

(** * Interpreters/ArrayJoinAction.cpp *)

Module ArrayJoinAction.

(** The members of [namespace ErrorCodes] that the file declares. *)
Inductive ErrorCode : Set :=
| LOGICAL_ERROR
| SIZES_OF_ARRAYS_DOESNT_MATCH
| TYPE_MISMATCH.

(** What a call can throw: an [Exception(code, message)] of the file, with
  the bad [typeid_cast] to a reference, which throws LOGICAL_ERROR; the
  exception of [Block::getByName] for a name that the block has not; or
  whatever a function throws, by its [what()].  [null_pointer] stands
  for the dereference of a null pointer, where the program has no
  defined behaviour. *)
Inductive Exception : Set :=
| DB_Exception (code : ErrorCode)
| not_found_column_in_block (name : string)
| null_pointer
| other (what : string).

Inductive result (A : Type) : Type :=
| Ok (a : A)
| Throw (e : Exception).
Arguments Ok {A} a.
Arguments Throw {A} e.

#[global] Instance result_ret : MRet result := fun A a => Ok a.
#[global] Instance result_bind : MBind result := fun A B k m =>
match m with
| Ok a => k a
| Throw e => Throw e
end.

(** The data types that the file tells apart; [nested] is what
  [getNestedType()] returns. *)
Inductive IDataType : Type :=
| DataTypeArray (nested : IDataType)
| DataTypeMap (nested : IDataType)
| DataTypeNullable (nested : IDataType)
| DataTypeUInt64
| DataTypeOther (name : string).

(** The columns that the file tells apart; [nested] is what
  [getNestedColumnPtr()] returns. *)
Inductive IColumn : Type :=
| ColumnArray (data : IColumn) (offsets : list nat)
| ColumnMap (nested : IColumn)
| ColumnNullable (nested : IColumn) (null_map : list bool)
| ColumnConst (data : IColumn) (s : nat)
| ColumnUInt64 (data : list Z)
| ColumnOther (name : string).

(** A [DataTypeArray], as [typeid_cast<const DataTypeArray *>] gives it. *)
Record DataTypeArray_t : Type := { getNestedType : IDataType }.

(** A [ColumnArray], as [typeid_cast<const ColumnArray *>] gives it. *)
Record ColumnArray_t : Type := { getDataPtr : IColumn; getOffsets : list nat }.

(** A pointer is [None] when null. *)
Definition DataTypePtr : Type := option IDataType.
Definition ColumnPtr : Type := option IColumn.

Record ColumnWithTypeAndName : Type := {
column : ColumnPtr;
type : DataTypePtr;
name : string
}.

Definition ColumnsWithTypeAndName : Type := list ColumnWithTypeAndName.

(** A function, built for its arguments and executed:
  [function->build(arguments)->execute(arguments, result_type, rows)]. *)
Definition Function : Type :=
ColumnsWithTypeAndName -> DataTypePtr -> nat -> result IColumn.

(** What the file takes from the columns, the blocks and the factory of the
  functions. *)
Class columns_h := {
convertToFullColumnIfConst : IColumn -> IColumn;
replicate : IColumn -> list nat -> IColumn;
IColumn_size : IColumn -> nat;
hasEqualOffsets : ColumnArray_t -> ColumnArray_t -> bool;
Block_rows : ColumnsWithTypeAndName -> nat;
FunctionFactory_get : string -> Function
}.

Definition typeid_cast_DataTypeArray (type : DataTypePtr) : option DataTypeArray_t :=
match type with
| Some (DataTypeArray nested) => Some {| getNestedType := nested |}
| _ => None
end.

Definition typeid_cast_ColumnArray (column : ColumnPtr) : option ColumnArray_t :=
match column with
| Some (ColumnArray data offsets) => Some {| getDataPtr := data; getOffsets := offsets |}
| _ => None
end.

(** The pointer to a [DataTypeArray] as a pointer to a data type. *)
Definition as_DataTypePtr (type : option DataTypeArray_t) : DataTypePtr :=
match type with
| Some array_type => Some (DataTypeArray (getNestedType array_type))
| None => None
end.

(** [getDataTypeArray(type)], with the nested type of [type]. *)
Definition getDataTypeArray (nested_type : IDataType) : option DataTypeArray_t :=
typeid_cast_DataTypeArray (Some nested_type).

(** ArrayJoin support Array, Nullable(Array) and Map type *)
Definition getArrayJoinDataType (type : DataTypePtr) : option DataTypeArray_t :=
match type with
| Some (DataTypeArray nested) => Some {| getNestedType := nested |}
| Some (DataTypeMap nested) => getDataTypeArray nested
| Some (DataTypeNullable nested) => getDataTypeArray nested
| _ => None
end.

Definition getArrayJoinColumn (column : ColumnPtr) : ColumnPtr :=
match column with
| Some (ColumnArray _ _) => column
| Some (ColumnMap nested) => Some nested
| Some (ColumnNullable nested _) => Some nested
| _ => None
end.

Definition getArrayJoinColumnRawPtr (column : ColumnPtr) : option ColumnArray_t :=
match getArrayJoinColumn column with
| Some col_arr => typeid_cast_ColumnArray (Some col_arr)
| None => None
end.

(** [ptr->...]: the object behind a pointer. *)
Definition deref {A : Type} (ptr : option A) : result A :=
match ptr with
| Some object => Ok object
| None => Throw null_pointer
end.

(** [typeid_cast<const ColumnMap &>] and [typeid_cast<const ColumnArray &>]. *)
Definition typeid_cast_ColumnMap_ref (column : IColumn) : result IColumn :=
match column with
| ColumnMap nested => Ok nested
| _ => Throw (DB_Exception LOGICAL_ERROR)
end.

Definition typeid_cast_ColumnArray_ref (column : IColumn) : result ColumnArray_t :=
match column with
| ColumnArray data offsets => Ok {| getDataPtr := data; getOffsets := offsets |}
| _ => Throw (DB_Exception LOGICAL_ERROR)
end.

(** [Block::getByName]: the column of the name. *)
Fixpoint getByName (block : ColumnsWithTypeAndName) (name' : string)
: result ColumnWithTypeAndName :=
match block with
| [] => Throw (not_found_column_in_block name')
| elem :: rest => if String.eqb (name elem) name' then Ok elem else getByName rest name'
end.

(** An assignment to the reference that [Block::getByName] returns. *)
Fixpoint setByName (block : ColumnsWithTypeAndName) (name' : string)
  (value : ColumnWithTypeAndName) : ColumnsWithTypeAndName :=
match block with
| [] => []
| elem :: rest =>
    if String.eqb (name elem) name' then value :: rest
    else elem :: setByName rest name' value
end.

(** [columns.count(name)] of the set of the names. *)
Definition count (columns : list string) (name' : string) : bool :=
existsb (String.eqb name') columns.

(** A [std::map<String, ColumnPtr>], as the list of its entries by
  ascending key: [map[key] = value], [map[key]] and [map.begin()->second]. *)
Fixpoint map_assign (map : list (string * IColumn)) (key : string) (value : IColumn)
: list (string * IColumn) :=
match map with
| [] => [(key, value)]
| entry :: rest =>
    match String.compare key (fst entry) with
    | Lt => (key, value) :: entry :: rest
    | Eq => (key, value) :: rest
    | Gt => entry :: map_assign rest key value
    end
end.

Fixpoint map_at (map : list (string * IColumn)) (key : string) : ColumnPtr :=
match map with
| [] => None
| entry :: rest => if String.eqb (fst entry) key then Some (snd entry) else map_at rest key
end.

Definition map_begin (map : list (string * IColumn)) : ColumnPtr :=
match map with
| [] => None
| entry :: _ => Some (snd entry)
end.

(** A loop over the elements of a list that threads a state. *)
Fixpoint for_each {St A : Type} (f : St -> A -> result St) (s : St) (l : list A)
: result St :=
match l with
| [] => Ok s
| a :: l' => s' ← f s a; for_each f s' l'
end.

(** A loop over the columns of a block that assigns to each. *)
Fixpoint for_columns (f : ColumnWithTypeAndName -> result ColumnWithTypeAndName)
  (block : ColumnsWithTypeAndName) : result ColumnsWithTypeAndName :=
match block with
| [] => Ok []
| current :: rest =>
    current' ← f current; rest' ← for_columns f rest; Ok (current' :: rest')
end.

Section Action.
Context `{columns_h}.

Definition convertArrayJoinColumn (src_col : ColumnWithTypeAndName)
  : result ColumnWithTypeAndName :=
  src_column ← deref (column src_col);
  Ok {| name := name src_col;
        type := as_DataTypePtr (getArrayJoinDataType (type src_col));
        column := getArrayJoinColumn (Some (convertToFullColumnIfConst src_column)) |}.

(** The members of an [ArrayJoinAction]; [columns] is the set of the
    names in the order of its iteration, and a function is [None] where
    the constructor has not set it. *)
Record t : Type := {
  columns : list string;
  is_left : bool;
  is_unaligned : bool;
  function_length : option Function;
  function_greatest : option Function;
  function_array_resize : option Function;
  function_builder : option Function
}.

(** The constructor, with [enable_unaligned_array_join] of the settings
    of the context. *)
Definition ArrayJoinAction (array_joined_columns_ : list string)
    (array_join_is_left : bool) (enable_unaligned_array_join : bool) : result t :=
  match array_joined_columns_ with
  | [] => Throw (DB_Exception LOGICAL_ERROR)
  | _ :: _ =>
      if enable_unaligned_array_join then
        Ok {| columns := array_joined_columns_;
              is_left := array_join_is_left;
              is_unaligned := enable_unaligned_array_join;
              function_length := Some (FunctionFactory_get "length");
              function_greatest := Some (FunctionFactory_get "greatest");
              function_array_resize := Some (FunctionFactory_get "arrayResize");
              function_builder := None |}
      else if array_join_is_left then
        Ok {| columns := array_joined_columns_;
              is_left := array_join_is_left;
              is_unaligned := enable_unaligned_array_join;
              function_length := None;
              function_greatest := None;
              function_array_resize := None;
              function_builder := Some (FunctionFactory_get "emptyArrayToSingle") |}
      else
        Ok {| columns := array_joined_columns_;
              is_left := array_join_is_left;
              is_unaligned := enable_unaligned_array_join;
              function_length := None;
              function_greatest := None;
              function_array_resize := None;
              function_builder := None |}
  end.

Definition prepare (action : t) (sample : ColumnsWithTypeAndName)
  : result ColumnsWithTypeAndName :=
  for_columns
    (fun current =>
       if negb (count (columns action) (name current)) then Ok current
       else
         match getArrayJoinDataType (type current) with
         | None => Throw (DB_Exception TYPE_MISMATCH)
         | Some type' =>
             Ok {| column := None;
                   type := Some (getNestedType type');
                   name := name current |}
         end)
    sample.

(** The part of [execute] for an unaligned join: all array joined columns
    are resized to the longest one. *)
Definition execute_unaligned (action : t) (block : ColumnsWithTypeAndName)
    (any_array_map_ptr : IColumn) : result (ColumnsWithTypeAndName * IColumn) :=
  let rows := Block_rows block in
  let uint64 := Some DataTypeUInt64 in
  let column_of_max_length :=
    {| column := Some (ColumnConst (ColumnUInt64 [if is_left action then 1 else 0]) rows);
       type := uint64;
       name := EmptyString |} in
  column_of_max_length ←
    for_each
      (fun column_of_max_length name' =>
         src_col ← getByName block name';
         array_col ← convertArrayJoinColumn src_col;
         f_length ← deref (function_length action);
         len_col ← f_length [array_col] uint64 rows;
         f_greatest ← deref (function_greatest action);
         max_col ← f_greatest [column_of_max_length;
                             {| column := Some len_col; type := uint64;
                                name := EmptyString |}] uint64 rows;
         Ok {| column := Some max_col;
               type := type column_of_max_length;
               name := name column_of_max_length |})
      column_of_max_length (columns action);
  for_each
    (fun '(block, any_array_map_ptr) name' =>
       src_col ← getByName block name';
       array_col ← convertArrayJoinColumn src_col;
       f_array_resize ← deref (function_array_resize action);
       resized ← f_array_resize [array_col; column_of_max_length] (type array_col) rows;
       let array_col :=
         {| column := Some resized; type := type array_col; name := name array_col |} in
       Ok (setByName block name' array_col, convertToFullColumnIfConst resized))
    (block, any_array_map_ptr) (columns action).

(** The part of [execute] for a left join: the columns in which empty
    arrays are replaced by arrays with one element. *)
Definition execute_left (action : t) (block : ColumnsWithTypeAndName)
  : result (list (string * IColumn)) :=
  for_each
    (fun non_empty_array_columns name' =>
       src_col ← getByName block name';
       array_col ← convertArrayJoinColumn src_col;
       builder ← deref (function_builder action);
       array_column ← deref (column array_col);
       non_empty ← builder [array_col] (type array_col) (IColumn_size array_column);
       Ok (map_assign non_empty_array_columns name' non_empty))
    [] (columns action).

(** One turn of the last loop of [execute]. *)
Definition execute_column (action : t) (non_empty_array_columns : list (string * IColumn))
    (any_array : ColumnArray_t) (current : ColumnWithTypeAndName)
  : result ColumnWithTypeAndName :=
  if count (columns action) (name current) then
    match getArrayJoinDataType (type current) with
    | None => Throw (DB_Exception TYPE_MISMATCH)
    | Some type' =>
        array_ptr ←
          match typeid_cast_DataTypeArray (type current) with
          | Some _ =>
              array_ptr ← deref (if is_left action && negb (is_unaligned action)
                                 then map_at non_empty_array_columns (name current)
                                 else column current);
              Ok (convertToFullColumnIfConst array_ptr)
          | None =>
              current_column ← deref (column current);
              let map_ptr := convertToFullColumnIfConst current_column in
              nested ← typeid_cast_ColumnMap_ref map_ptr;
              deref (if is_left action && negb (is_unaligned action)
                     then map_at non_empty_array_columns (name current)
                     else Some nested)
          end;
        array ← typeid_cast_ColumnArray_ref array_ptr;
        if negb (is_unaligned action) && negb (hasEqualOffsets array any_array)
        then Throw (DB_Exception SIZES_OF_ARRAYS_DOESNT_MATCH)
        else
          Ok {| column := Some (getDataPtr array);
                type := Some (getNestedType type');
                name := name current |}
    end
  else
    current_column ← deref (column current);
    Ok {| column := Some (replicate current_column (getOffsets any_array));
          type := type current;
          name := name current |}.

Definition execute (action : t) (block : ColumnsWithTypeAndName)
  : result ColumnsWithTypeAndName :=
  match columns action with
  | [] => Throw (DB_Exception LOGICAL_ERROR)
  | begin :: _ =>
      first ← getByName block begin;
      first_column ← deref (column first);
      let any_array_map_ptr := convertToFullColumnIfConst first_column in
      match getArrayJoinColumnRawPtr (Some any_array_map_ptr) with
      | None => Throw (DB_Exception TYPE_MISMATCH)
      | Some any_array =>
          '(block, non_empty_array_columns, any_array) ←
            (if is_unaligned action then
               '(block, any_array_map_ptr) ←
                 execute_unaligned action block any_array_map_ptr;
               match getArrayJoinColumnRawPtr (Some any_array_map_ptr) with
               | None => Throw (DB_Exception TYPE_MISMATCH)
               | Some any_array => Ok (block, [], any_array)
               end
             else if is_left action then
               non_empty_array_columns ← execute_left action block;
               first_non_empty ← deref (map_begin non_empty_array_columns);
               match getArrayJoinColumnRawPtr
                       (Some (convertToFullColumnIfConst first_non_empty)) with
               | None => Throw (DB_Exception TYPE_MISMATCH)
               | Some any_array => Ok (block, non_empty_array_columns, any_array)
               end
             else Ok (block, [], any_array));
          for_columns (execute_column action non_empty_array_columns any_array) block
      end
  end.

(** The names and the types of the columns of a block. *)
Definition names (block : ColumnsWithTypeAndName) : list string := map name block.
Definition types (block : ColumnsWithTypeAndName) : list DataTypePtr := map type block.

(** A column of the block during an unaligned join, against the column
    that [execute] was called with: the name is the same, and the type is
    the same or has been replaced by the type of the array. *)
Definition resized (action : t) (original current : ColumnWithTypeAndName) : Prop :=
  name current = name original
  /\ (type current = type original
      \/ (In (name original) (columns action)
          /\ type current = as_DataTypePtr (getArrayJoinDataType (type original)))).

(** A column after the array join, against the column before it: an
    array joined column has the type of the elements of its array, and
    every other column its type. *)
Definition joined (action : t) (original current : ColumnWithTypeAndName) : Prop :=
  name current = name original
  /\ if count (columns action) (name original)
     then exists array_type,
         getArrayJoinDataType (type original) = Some array_type
         /\ type current = Some (getNestedType array_type)
     else type current = type original.

(** The array of an array joined column, by its type and its full
    column: the column itself, or the nested column of a map. *)
Definition joined_array (type : DataTypePtr) (full : IColumn) : option ColumnArray_t :=
  match typeid_cast_DataTypeArray type with
  | Some _ => typeid_cast_ColumnArray (Some full)
  | None =>
      match full with
      | ColumnMap nested => typeid_cast_ColumnArray (Some nested)
      | _ => None
      end
  end.

(** A column after an array join that is not left and not unaligned,
    against the column before it. *)
Definition expanded (action : t) (any_array : ColumnArray_t)
    (original current : ColumnWithTypeAndName) : Prop :=
  exists original_column,
    column original = Some original_column
    /\ if count (columns action) (name original)
       then exists array,
           joined_array (type original) (convertToFullColumnIfConst original_column)
           = Some array
           /\ hasEqualOffsets array any_array = true
           /\ column current = Some (getDataPtr array)
       else column current = Some (replicate original_column (getOffsets any_array)).

End Action.

End ArrayJoinAction.

(** Stand-ins for the columns: a constant column is the column of its
    value, the rows of a column of numbers are repeated by the offsets, the
    offsets of two arrays are equal as lists, and a function returns its
    first argument. *)
Fixpoint demo_replicate_values (data : list Z) (offsets : list nat) (prev : nat) : list Z :=
  match data, offsets with
  | x :: data', offset :: offsets' =>
      repeat x (offset - prev) ++ demo_replicate_values data' offsets' offset
  | _, _ => []
  end.

Definition demo_columns_h : ArrayJoinAction.columns_h :=
  {| ArrayJoinAction.convertToFullColumnIfConst := fun column =>
       match column with
       | ArrayJoinAction.ColumnConst data _ => data
       | _ => column
       end;
     ArrayJoinAction.replicate := fun column offsets =>
       match column with
       | ArrayJoinAction.ColumnUInt64 data =>
           ArrayJoinAction.ColumnUInt64 (demo_replicate_values data offsets 0)
       | _ => column
       end;
     ArrayJoinAction.IColumn_size := fun column =>
       match column with
       | ArrayJoinAction.ColumnArray _ offsets => length offsets
       | ArrayJoinAction.ColumnUInt64 data => length data
       | _ => 0%nat
       end;
     ArrayJoinAction.hasEqualOffsets := fun array other =>
       bool_decide (ArrayJoinAction.getOffsets array = ArrayJoinAction.getOffsets other);
     ArrayJoinAction.Block_rows := fun block =>
       match block with
       | {| ArrayJoinAction.column := Some (ArrayJoinAction.ColumnArray _ offsets) |} :: _ =>
           length offsets
       | _ => 0%nat
       end;
     ArrayJoinAction.FunctionFactory_get := fun _ arguments _ _ =>
       match arguments with
       | {| ArrayJoinAction.column := Some column |} :: _ => ArrayJoinAction.Ok column
       | _ => ArrayJoinAction.Throw (ArrayJoinAction.other "no argument")
       end |}.

(** ARRAY JOIN a over the block of a, an array of numbers with the rows
    [1, 2] and [3], and k, a column of numbers with the rows 10 and 20. *)
Definition demo_action : ArrayJoinAction.t :=
  {| ArrayJoinAction.columns := ["a"%string];
     ArrayJoinAction.is_left := false;
     ArrayJoinAction.is_unaligned := false;
     ArrayJoinAction.function_length := None;
     ArrayJoinAction.function_greatest := None;
     ArrayJoinAction.function_array_resize := None;
     ArrayJoinAction.function_builder := None |}.

Definition demo_block : ArrayJoinAction.ColumnsWithTypeAndName :=
  [ {| ArrayJoinAction.column :=
         Some (ArrayJoinAction.ColumnArray (ArrayJoinAction.ColumnUInt64 [1; 2; 3])
                 [2; 3]%nat);
       ArrayJoinAction.type :=
         Some (ArrayJoinAction.DataTypeArray ArrayJoinAction.DataTypeUInt64);
       ArrayJoinAction.name := "a"%string |};
    {| ArrayJoinAction.column := Some (ArrayJoinAction.ColumnUInt64 [10; 20]);
       ArrayJoinAction.type := Some ArrayJoinAction.DataTypeUInt64;
       ArrayJoinAction.name := "k"%string |} ].

Definition demo_block_joined : ArrayJoinAction.ColumnsWithTypeAndName :=
  [ {| ArrayJoinAction.column := Some (ArrayJoinAction.ColumnUInt64 [1; 2; 3]);
       ArrayJoinAction.type := Some ArrayJoinAction.DataTypeUInt64;
       ArrayJoinAction.name := "a"%string |};
    {| ArrayJoinAction.column := Some (ArrayJoinAction.ColumnUInt64 [10; 10; 20]);
       ArrayJoinAction.type := Some ArrayJoinAction.DataTypeUInt64;
       ArrayJoinAction.name := "k"%string |} ].

(** The block with a column of Nullable(Array(UInt64)). *)
Definition demo_block_nullable : ArrayJoinAction.ColumnsWithTypeAndName :=
  [ {| ArrayJoinAction.column :=
         Some (ArrayJoinAction.ColumnNullable
                 (ArrayJoinAction.ColumnArray (ArrayJoinAction.ColumnUInt64 [1; 2; 3])
                    [2; 3]%nat)
                 [false; false]);
       ArrayJoinAction.type :=
         Some (ArrayJoinAction.DataTypeNullable
                 (ArrayJoinAction.DataTypeArray ArrayJoinAction.DataTypeUInt64));
       ArrayJoinAction.name := "a"%string |} ].

(** * Theorems *)

(** ** Fixed-width arithmetic *)

Lemma UInt32_range z : 0 <= UInt32 z < 2 ^ 32.
Proof. unfold UInt32. apply Z.mod_pos_bound. lia. Qed.

Lemma UInt32_idem z : UInt32 (UInt32 z) = UInt32 z.
Proof. unfold UInt32. apply Z.mod_mod. lia. Qed.

Lemma UInt32_small z : 0 <= z < 2 ^ 32 -> UInt32 z = z.
Proof. intros Hz. unfold UInt32. apply Z.mod_small. exact Hz. Qed.

Lemma UInt32_Int32 z : UInt32 (Int32 z) = UInt32 z.
Proof.
  unfold Int32. cbv zeta.
  pose proof (UInt32_range z) as Hr.
  destruct (UInt32 z <? 2 ^ 31) eqn:E.
  - apply UInt32_idem.
  - unfold UInt32 at 1.
    replace (UInt32 z - 2 ^ 32) with (UInt32 z + (-1) * 2 ^ 32) by lia.
    rewrite Z.mod_add by lia. apply UInt32_idem.
Qed.

Lemma Int32_small z : 0 <= z < 2 ^ 31 -> Int32 z = z.
Proof.
  intros Hz. unfold Int32. cbv zeta.
  rewrite UInt32_small by lia.
  destruct (z <? 2 ^ 31) eqn:E; [reflexivity | apply Z.ltb_ge in E; lia].
Qed.

Lemma UInt32_add_l a b : UInt32 (UInt32 a + b) = UInt32 (a + b).
Proof. unfold UInt32. apply Zplus_mod_idemp_l. Qed.

Lemma UInt32_add_r a b : UInt32 (a + UInt32 b) = UInt32 (a + b).
Proof. unfold UInt32. apply Zplus_mod_idemp_r. Qed.

Lemma UInt32_mul_r a b : UInt32 (a * UInt32 b) = UInt32 (a * b).
Proof. unfold UInt32. apply Zmult_mod_idemp_r. Qed.

Lemma UInt32_mul_l a b : UInt32 (UInt32 a * b) = UInt32 (a * b).
Proof. unfold UInt32. apply Zmult_mod_idemp_l. Qed.

Lemma Int32_UInt32 z : Int32 (UInt32 z) = Int32 z.
Proof. unfold Int32. cbv zeta. now rewrite UInt32_idem. Qed.

Lemma UInt8_range c : 0 <= UInt8 c < 256.
Proof.
  unfold UInt8. pose proof (Byte.to_N_bounded c) as Hb. lia.
Qed.

(** ** hiveHash is javaHash without the sign bit *)

Lemma land_low31 z : Z.land 0x7FFFFFFF z = z mod 2 ^ 31.
Proof.
  rewrite Z.land_comm. change 0x7FFFFFFF with (Z.ones 31).
  apply Z.land_ones. lia.
Qed.

Lemma mod31_of_mod32 z : (z mod 2 ^ 32) mod 2 ^ 31 = z mod 2 ^ 31.
Proof.
  symmetry. rewrite (Z.div_mod z (2 ^ 32)) at 1 by lia.
  replace (2 ^ 32 * (z / 2 ^ 32) + z mod 2 ^ 32)
    with (z mod 2 ^ 32 + (2 * (z / 2 ^ 32)) * 2 ^ 31) by lia.
  apply Z.mod_add. lia.
Qed.

(** C9. For every byte buffer the per-buffer hash of hiveHash is the
    Java-compatible hash of the same bytes with the sign bit cleared,
    [javaHash(bytes) & 0x7FFFFFFF], and so a non-negative 32-bit signed
    integer. *)
Theorem HiveHash_apply_clears_sign_bit (data : list byte) :
  HiveHashImpl.apply data = Z.land (JavaHashImpl.apply data) 0x7FFFFFFF
  /\ 0 <= HiveHashImpl.apply data <= 0x7FFFFFFF.
Proof.
  unfold HiveHashImpl.apply.
  set (j := JavaHashImpl.apply data).
  assert (Hl : Z.land 0x7FFFFFFF (UInt32 j) = j mod 2 ^ 31).
  { rewrite land_low31. unfold UInt32. apply mod31_of_mod32. }
  rewrite Hl.
  assert (Hr : 0 <= j mod 2 ^ 31 < 2 ^ 31) by (apply Z.mod_pos_bound; lia).
  rewrite Int32_small by exact Hr.
  split.
  - rewrite Z.land_comm. symmetry. apply land_low31.
  - change 0x7FFFFFFF with (2 ^ 31 - 1). lia.
Qed.

(** ** javaHashUTF16LE *)

Lemma pair_list_ind {A : Type} (P : list A -> Prop) :
  P [] -> (forall a, P [a]) -> (forall a b l, P l -> P (a :: b :: l)) ->
  forall l, P l.
Proof.
  intros H0 H1 H2.
  assert (Hboth : forall l, P l /\ forall a, P (a :: l)).
  { induction l as [|b l [IH1 IH2]]; split; auto. }
  intros l. apply Hboth.
Qed.

Lemma lor_shift_byte a b :
  0 <= a < 256 -> 0 <= b < 256 -> Z.lor a (Z.shiftl b 8) = a + 256 * b.
Proof.
  intros Ha Hb.
  assert (Hland : Z.land a (Z.shiftl b 8) = 0).
  { apply Z.bits_inj'. intros n Hn.
    rewrite Z.land_spec, Z.bits_0.
    destruct (Z.ltb_spec n 8) as [Hlt|Hge].
    - rewrite Z.shiftl_spec_low by lia. apply andb_false_r.
    - assert (Ht : Z.testbit a n = false).
      { destruct (Z.eq_dec a 0) as [->|Hne]; [apply Z.bits_0|].
        apply Z.bits_above_log2; [lia|].
        assert (Z.log2 a < 8) by (apply Z.log2_lt_pow2; lia). lia. }
      rewrite Ht. reflexivity. }
  rewrite <- Z.lxor_lor by exact Hland.
  rewrite <- Z.add_nocarry_lxor by exact Hland.
  rewrite Z.shiftl_mul_pow2 by lia. lia.
Qed.

Lemma code_unit_value c0 c1 :
  UInt16 (Z.lor (UInt8 c0) (Z.shiftl (UInt8 c1) 8)) = UInt8 c0 + 256 * UInt8 c1.
Proof.
  pose proof (UInt8_range c0). pose proof (UInt8_range c1).
  rewrite lor_shift_byte by lia.
  unfold UInt16. apply Z.mod_small. lia.
Qed.

Lemma utf16le_units_length data :
  Nat.odd (length data) = false ->
  length data = (2 * length (utf16le_units data))%nat.
Proof.
  induction data as [|a|a b l IH] using pair_list_ind; intros Hodd.
  - reflexivity.
  - discriminate Hodd.
  - cbn [utf16le_units length]. cbn [length] in Hodd.
    change (Nat.odd (S (S (length l)))) with (Nat.odd (length l)) in Hodd.
    rewrite (IH Hodd). lia.
Qed.

Lemma UTF16LE_loop_sum data : forall h,
  UInt32 (JavaHashUTF16LEImpl.loop h data)
  = UInt32 (h * 31 ^ Z.of_nat (length (utf16le_units data))
            + hashCode_sum (utf16le_units data)).
Proof.
  induction data as [|a|a b l IH] using pair_list_ind; intros h.
  - cbn. f_equal. lia.
  - cbn. f_equal. lia.
  - cbn [JavaHashUTF16LEImpl.loop utf16le_units hashCode_sum length].
    rewrite IH, code_unit_value.
    rewrite <- UInt32_add_l, UInt32_mul_l, UInt32_add_l.
    f_equal. rewrite Nat2Z.inj_succ, Z.pow_succ_r by lia. ring.
Qed.

Lemma UTF16LE_hash_after_bom data :
  (if Nat.odd (length data) then Throw BAD_ARGUMENTS
   else Ok (Int32 (JavaHashUTF16LEImpl.loop 0 data)))
  = hash_of_utf16le data.
Proof.
  unfold hash_of_utf16le, java_hashCode.
  destruct (Nat.odd (length data)); [reflexivity|].
  f_equal. rewrite <- Int32_UInt32, UTF16LE_loop_sum, Int32_UInt32.
  f_equal.
Qed.

(** C10. The per-buffer hash of javaHashUTF16LE removes one leading
    byte-order mark [0xFF 0xFE] when there is one; if the number of
    remaining bytes is odd it throws BAD_ARGUMENTS and returns nothing;
    otherwise it returns the Java string hash of the little-endian 16-bit
    code units of the remaining bytes. *)
Theorem JavaHashUTF16LE_apply_spec :
  (forall rest : list byte,
      JavaHashUTF16LEImpl.apply (xff :: xfe :: rest) = hash_of_utf16le rest)
  /\ (forall raw_data : list byte,
      has_bom raw_data = false ->
      JavaHashUTF16LEImpl.apply raw_data = hash_of_utf16le raw_data)
  /\ (forall data : list byte,
      Nat.odd (length data) = true -> hash_of_utf16le data = Throw BAD_ARGUMENTS)
  /\ (forall data : list byte,
      Nat.odd (length data) = false ->
      hash_of_utf16le data = Ok (java_hashCode (utf16le_units data))
      /\ length data = (2 * length (utf16le_units data))%nat).
Proof.
  split; [|split; [|split]].
  - intros rest. unfold JavaHashUTF16LEImpl.apply. cbn [JavaHashUTF16LEImpl.skip_bom].
    change (Byte.eqb xff xff && Byte.eqb xfe xfe) with true. cbv iota zeta.
    apply UTF16LE_hash_after_bom.
  - intros raw_data Hbom. unfold JavaHashUTF16LEImpl.apply. cbv zeta.
    assert (Hskip : JavaHashUTF16LEImpl.skip_bom raw_data = raw_data).
    { destruct raw_data as [|c0 [|c1 rest]]; try reflexivity.
      cbn in Hbom |- *. rewrite Hbom. reflexivity. }
    rewrite Hskip. apply UTF16LE_hash_after_bom.
  - intros data Hodd. unfold hash_of_utf16le. rewrite Hodd. reflexivity.
  - intros data Hodd. split.
    + unfold hash_of_utf16le. rewrite Hodd. reflexivity.
    + apply utf16le_units_length. exact Hodd.
Qed.

Lemma JavaHashUTF16LE_apply_spec_witness :
  JavaHashUTF16LEImpl.apply (bytes "a") = Throw BAD_ARGUMENTS
  /\ JavaHashUTF16LEImpl.apply [x61; x00; x62; x00] = Ok (java_hashCode [97; 98])
  /\ JavaHashUTF16LEImpl.apply [xff; xfe; x61; x00] = Ok (java_hashCode [97]).
Proof.
  destruct JavaHashUTF16LE_apply_spec as (Hbom & Hraw & Hodd & Heven).
  split; [|split].
  - rewrite (Hraw (bytes "a")) by reflexivity.
    apply (Hodd (bytes "a")). reflexivity.
  - rewrite (Hraw [x61; x00; x62; x00]) by reflexivity.
    apply (Heven [x61; x00; x62; x00]). reflexivity.
  - rewrite (Hbom [x61; x00]).
    apply (Heven [x61; x00]). reflexivity.
Defined.

(** ** URLHash *)

Lemma eqb_byte_iff (a b : byte) : Byte.eqb a b = true <-> a = b.
Proof. split; [apply Byte.byte_dec_bl | apply Byte.byte_dec_lb]. Qed.

Lemma is_separator_spec c :
  is_separator c = true <-> c = "/"%byte \/ c = "?"%byte \/ c = "#"%byte.
Proof.
  unfold is_separator. rewrite !orb_true_iff, !eqb_byte_iff. tauto.
Qed.

Section URLHash.
Context `{city_h}.

Lemma URLHash_snoc data c :
  URLHash (data ++ [c])
  = if is_separator c then CityHash64 data else CityHash64 (data ++ [c]).
Proof.
  unfold URLHash, URLHashImpl.apply.
  rewrite length_app. cbn [length].
  replace (length data + 1 - 1)%nat with (length data) by lia.
  assert (Hpos : (0 <? length data + 1)%nat = true) by (apply Nat.ltb_lt; lia).
  rewrite Hpos. cbn [andb].
  rewrite app_nth2 by lia. rewrite Nat.sub_diag. cbn [nth].
  destruct (is_separator c).
  - f_equal. rewrite take_app_length. reflexivity.
  - f_equal. apply firstn_all2. rewrite length_app. cbn. lia.
Qed.

(** C6. When the last byte of a non-empty input is '/', '?' or '#', the
    URL byte-hash is the hash of the input without that one byte (a
    second separator before it stays); for every other input, the empty
    one included, the whole input is hashed.  In particular
    [URLHash("http://x/") = URLHash("http://x")]. *)
Theorem URLHash_strips_one_trailing_separator :
  (forall (data : list byte) (c : byte),
      c = "/"%byte \/ c = "?"%byte \/ c = "#"%byte ->
      URLHash (data ++ [c]) = CityHash64 data)
  /\ (forall (data : list byte) (c : byte),
      ~ (c = "/"%byte \/ c = "?"%byte \/ c = "#"%byte) ->
      URLHash (data ++ [c]) = CityHash64 (data ++ [c]))
  /\ URLHash [] = CityHash64 []
  /\ URLHash (bytes "http://x/") = URLHash (bytes "http://x").
Proof.
  split; [|split; [|split]].
  - intros data c Hc. rewrite URLHash_snoc.
    apply is_separator_spec in Hc. rewrite Hc. reflexivity.
  - intros data c Hc. rewrite URLHash_snoc.
    destruct (is_separator c) eqn:E; [|reflexivity].
    apply is_separator_spec in E. contradiction.
  - reflexivity.
  - reflexivity.
Qed.

End URLHash.

Lemma URLHash_strips_one_trailing_separator_witness :
  URLHash (H := demo_city_h) (bytes "http://x/" ++ ["/"%byte])
  = CityHash64 (city_h := demo_city_h) (bytes "http://x/")
  /\ URLHash (H := demo_city_h) (bytes "http://" ++ ["x"%byte])
     = CityHash64 (city_h := demo_city_h) (bytes "http://x").
Proof.
  destruct (URLHash_strips_one_trailing_separator (H := demo_city_h))
    as (Hstrip & Hkeep & _).
  split.
  - apply (Hstrip (bytes "http://x/") "/"%byte). left. reflexivity.
  - apply (Hkeep (bytes "http://") "x"%byte).
    intros [Hc|[Hc|Hc]]; discriminate Hc.
Defined.

(** ** The URL hierarchy *)

Section URLHierarchy.
Import URLHierarchyHashImpl.

Lemma scan_span p rest pos : scan p rest pos = (pos + span_len p rest)%nat.
Proof.
  revert pos. induction rest as [|c rest IH]; intros pos; cbn.
  - lia.
  - destruct (p c); [rewrite IH|]; lia.
Qed.

Lemma span_len_le p l : (span_len p l <= length l)%nat.
Proof. induction l as [|c l IH]; cbn; [lia|destruct (p c); cbn; lia]. Qed.

Lemma span_len_take p l : forallb p (take (span_len p l) l) = true.
Proof.
  induction l as [|c l IH]; cbn; [reflexivity|].
  destruct (p c) eqn:E; cbn; [rewrite E, IH|]; reflexivity.
Qed.

Lemma span_len_drop p l :
  drop (span_len p l) l = [] \/
  exists c tl, drop (span_len p l) l = c :: tl /\ p c = false.
Proof.
  induction l as [|c l IH]; cbn; [left; reflexivity|].
  destruct (p c) eqn:E; cbn; [exact IH|].
  right. exists c, l. split; [reflexivity|exact E].
Qed.

Lemma span_len_app p l1 l2 :
  forallb p l1 = true -> span_len p (l1 ++ l2) = (length l1 + span_len p l2)%nat.
Proof.
  induction l1 as [|c l1 IH]; cbn; [reflexivity|].
  intros Hall. apply andb_true_iff in Hall as [Hc Hl]. rewrite Hc, IH by exact Hl.
  reflexivity.
Qed.

Lemma span_len_stop p c l : p c = false -> span_len p (c :: l) = 0%nat.
Proof. intros Hc. cbn. rewrite Hc. reflexivity. Qed.

Lemma span_split p l :
  exists pre post,
    l = pre ++ post /\ length pre = span_len p l /\ forallb p pre = true
    /\ (post = [] \/ exists c tl, post = c :: tl /\ p c = false).
Proof.
  exists (take (span_len p l) l), (drop (span_len p l) l).
  split; [symmetry; apply take_drop|].
  split; [apply length_take_le, span_len_le|].
  split; [apply span_len_take|apply span_len_drop].
Qed.

(** *** Counting segments *)

Lemma count_after_separators b seps l :
  forallb is_separator seps = true ->
  count_segments_from b (seps ++ l)
  = match seps with [] => count_segments_from b l | _ => count_segments_from false l end.
Proof.
  revert b. induction seps as [|s seps IH]; intros b Hall; [reflexivity|].
  cbn in Hall. apply andb_true_iff in Hall as [Hs Hall].
  cbn. rewrite Hs. rewrite IH by exact Hall. destruct seps; reflexivity.
Qed.

Lemma count_inside_run run l :
  forallb (fun c => negb (is_separator c)) run = true ->
  count_segments_from true (run ++ l) = count_segments_from true l.
Proof.
  induction run as [|c run IH]; intros Hall; [reflexivity|].
  cbn in Hall. apply andb_true_iff in Hall as [Hc Hall].
  apply negb_true_iff in Hc. cbn. rewrite Hc. apply IH, Hall.
Qed.

Lemma count_run run l :
  forallb (fun c => negb (is_separator c)) run = true -> run <> [] ->
  count_segments_from false (run ++ l) = S (count_segments_from true l).
Proof.
  destruct run as [|c run]; [congruence|]. intros Hall _.
  cbn in Hall. apply andb_true_iff in Hall as [Hc Hall].
  apply negb_true_iff in Hc. cbn. rewrite Hc.
  rewrite count_inside_run by exact Hall. reflexivity.
Qed.

Lemma count_segments_from_le b l :
  (count_segments_from true l <= count_segments_from b l)%nat.
Proof.
  destruct l as [|c l]; cbn; [lia|].
  destruct (is_separator c), b; lia.
Qed.

Lemma count_segments_from_app_le b l1 l2 :
  (count_segments_from b l1 <= count_segments_from b (l1 ++ l2))%nat.
Proof.
  revert b. induction l1 as [|c l1 IH]; intros b; cbn; [lia|].
  destruct (is_separator c); [apply IH|].
  specialize (IH true). lia.
Qed.

(** One turn of the level loop consumes separators, one segment and the
    separator behind it. *)
Lemma count_one_segment seps run s l :
  forallb is_separator seps = true ->
  forallb (fun c => negb (is_separator c)) run = true -> run <> [] ->
  is_separator s = true ->
  count_segments (seps ++ run ++ [s] ++ l) = S (count_segments l).
Proof.
  intros Hseps Hrun Hne Hs. unfold count_segments.
  rewrite count_after_separators by exact Hseps.
  assert (Hgoal : count_segments_from false (run ++ [s] ++ l)
                  = S (count_segments_from false l)).
  { rewrite count_run by assumption. cbn. rewrite Hs. reflexivity. }
  destruct seps; exact Hgoal.
Qed.

Lemma count_last_segment seps run :
  forallb is_separator seps = true ->
  forallb (fun c => negb (is_separator c)) run = true -> run <> [] ->
  count_segments (seps ++ run) = 1%nat.
Proof.
  intros Hseps Hrun Hne. unfold count_segments.
  rewrite count_after_separators by exact Hseps.
  assert (Hgoal : count_segments_from false run = 1%nat).
  { rewrite <- (app_nil_r run). rewrite count_run by assumption. reflexivity. }
  destruct seps; exact Hgoal.
Qed.

Lemma count_only_separators seps :
  forallb is_separator seps = true -> count_segments seps = 0%nat.
Proof.
  intros Hseps. unfold count_segments.
  rewrite <- (app_nil_r seps). rewrite count_after_separators by exact Hseps.
  destruct seps; reflexivity.
Qed.

(** *** The level loop *)

Lemma nonsep_run_last run :
  forallb (fun c => negb (is_separator c)) run = true -> run <> [] ->
  exists u c', run = u ++ [c'] /\ is_separator c' = false.
Proof.
  intros Hall Hne. destruct (exists_last Hne) as (u & c' & ->).
  exists u, c'. split; [reflexivity|].
  rewrite forallb_app in Hall. apply andb_true_iff in Hall as [_ Hc].
  cbn in Hc. rewrite andb_true_r in Hc. apply negb_true_iff, Hc.
Qed.

Lemma level_loop_spec fuel : forall level k done todo,
  (length todo <= fuel)%nat -> (k <= level)%N ->
  exists k' used rest,
    level_loop fuel level (done ++ todo) k (length done)
    = (k', (length done + length used)%nat)
    /\ todo = used ++ rest
    /\ N.to_nat k' = (N.to_nat k + count_segments used)%nat
    /\ (k' <= level)%N
    /\ (k' <> level -> rest = [])
    /\ (rest = [] \/ (k = level /\ used = [])
        \/ exists u c' c, used = u ++ [c'; c]
             /\ is_separator c' = false /\ is_separator c = true).
Proof.
  induction fuel as [|fuel IH]; intros level k done todo Hfuel Hk.
  - destruct todo; [|cbn in Hfuel; lia].
    exists k, [], []. cbn. rewrite Nat.add_0_r.
    repeat split; auto; lia.
  - cbn [level_loop].
    destruct (N.eqb_spec k level) as [Heq|Hne]; cbn [negb andb].
    { exists k, [], todo. cbn. rewrite Nat.add_0_r.
      repeat split; auto; try lia. }
    destruct todo as [|c0 todo0].
    { rewrite app_nil_r, Nat.ltb_irrefl.
      exists k, [], []. cbn. rewrite Nat.add_0_r.
      repeat split; auto; lia. }
    set (todo := c0 :: todo0) in *.
    assert (Hlt : (length done <? length (done ++ todo))%nat = true).
    { apply Nat.ltb_lt. rewrite length_app. cbn. lia. }
    rewrite Hlt. rewrite drop_app_length, scan_span.
    destruct (span_split is_separator todo)
      as (seps & post & Htodo & Hlen & Hseps & Hpost).
    rewrite <- Hlen.
    destruct Hpost as [->|(c & tl & -> & Hc)].
    + (* only separators are left *)
      rewrite app_nil_r in Htodo. subst seps.
      assert (Hend : (length done + length todo =? length (done ++ todo))%nat = true).
      { apply Nat.eqb_eq. rewrite length_app. reflexivity. }
      rewrite Hend.
      exists k, todo, []. rewrite app_nil_r, count_only_separators by exact Hseps.
      repeat split; auto; lia.
    + assert (Hnend : (length done + length seps =? length (done ++ todo))%nat = false).
      { apply Nat.eqb_neq. rewrite Htodo, !length_app. cbn. lia. }
      rewrite Hnend.
      assert (Hdrop : drop (length done + length seps) (done ++ todo) = c :: tl).
      { rewrite Htodo, app_assoc, <- length_app. apply drop_app_length. }
      rewrite Hdrop, scan_span.
      destruct (span_split (fun c => negb (is_separator c)) (c :: tl))
        as (run & post2 & Hpost & Hlen2 & Hrun & Hpost2).
      rewrite <- Hlen2.
      assert (Hrunne : run <> []).
      { intros ->. cbn in Hlen2. rewrite Hc in Hlen2. cbn in Hlen2. discriminate. }
      assert (Hsk : (N.succ k <= level)%N) by lia.
      destruct Hpost2 as [->|(s & tl2 & -> & Hs)].
      * (* the segment runs to the end *)
        rewrite app_nil_r in Hpost.
        assert (Hend : (length done + length seps + length run
                        =? length (done ++ todo))%nat = true).
        { apply Nat.eqb_eq. rewrite Htodo, Hpost, !length_app. lia. }
        rewrite Hend. cbn [negb].
        destruct (IH level (N.succ k) (done ++ todo) [] ltac:(cbn; lia) Hsk)
          as (k' & used' & rest' & Hrun' & Hsplit & Hcount & Hle & _ & _).
        symmetry in Hsplit. apply app_eq_nil in Hsplit as [-> ->].
        rewrite app_nil_r in Hrun'.
        replace (length done + length seps + length run)%nat
          with (length (done ++ todo)) by (apply Nat.eqb_eq in Hend; lia).
        rewrite Hrun'.
        exists k', todo, []. cbn [length]. rewrite app_nil_r, Nat.add_0_r.
        split; [f_equal; rewrite length_app; reflexivity|].
        split; [reflexivity|].
        split.
        { rewrite Hcount, Htodo, Hpost.
          rewrite count_last_segment by assumption. cbn [count_segments count_segments_from]. lia. }
        repeat split; auto.
      * apply negb_false_iff in Hs.
        assert (Hnend2 : (length done + length seps + length run
                          =? length (done ++ todo))%nat = false).
        { apply Nat.eqb_neq. rewrite Htodo, Hpost, !length_app. cbn. lia. }
        rewrite Hnend2. cbn [negb].
        assert (Hdata : done ++ todo = (done ++ seps ++ run ++ [s]) ++ tl2).
        { rewrite Htodo, Hpost. rewrite <- !app_assoc. reflexivity. }
        assert (Hpos : S (length done + length seps + length run)
                       = length (done ++ seps ++ run ++ [s])).
        { rewrite !length_app. cbn. lia. }
        rewrite Hdata, Hpos.
        assert (Hfuel2 : (length tl2 <= fuel)%nat).
        { subst todo. rewrite Htodo, Hpost in Hfuel.
          rewrite !length_app in Hfuel. cbn in Hfuel. lia. }
        destruct (IH level (N.succ k) (done ++ seps ++ run ++ [s]) tl2 Hfuel2 Hsk)
          as (k' & used' & rest' & Hrun' & Hsplit & Hcount & Hle & Hrest & Hbound).
        rewrite Hrun'.
        exists k', (seps ++ run ++ [s] ++ used'), rest'.
        split; [f_equal; rewrite !length_app; cbn; lia|].
        split; [rewrite Htodo, Hpost, Hsplit, <- !app_assoc; reflexivity|].
        split.
        { rewrite Hcount, count_one_segment by assumption. lia. }
        split; [exact Hle|]. split; [exact Hrest|].
        destruct Hbound as [Hb|[[_ ->]|(u & c' & c2 & -> & Hc' & Hc2)]].
        -- left; exact Hb.
        -- right; right.
           destruct (nonsep_run_last run Hrun Hrunne) as (u & c' & -> & Hc').
           exists (seps ++ u), c', s. rewrite app_nil_r, <- !app_assoc.
           repeat split; auto.
        -- right; right.
           exists (seps ++ run ++ [s] ++ u), c', c2. rewrite <- !app_assoc.
           repeat split; auto.
Qed.

(** *** Before the path *)

Lemma after_protocol_split pre suf :
  after_protocol (pre ++ suf) (length pre)
  = match pre, suf with
    | _ :: _, c0 :: c1 :: c2 :: _ :: _ =>
        if Byte.eqb c0 ":" && Byte.eqb c1 "/" && Byte.eqb c2 "/"
        then Some (length pre + 3)%nat else None
    | _, _ => None
    end.
Proof.
  unfold after_protocol.
  assert (H0 : nth (length pre) (pre ++ suf) x00 = nth 0 suf x00).
  { rewrite <- (Nat.add_0_r (length pre)) at 1. apply app_nth2_plus. }
  rewrite H0, !app_nth2_plus, length_app.
  destruct pre as [|p0 pre]; [reflexivity|].
  destruct suf as [|c0 [|c1 [|c2 [|c3 tl]]]]; cbn [length nth];
    repeat match goal with
      | |- context [(?a =? ?b)%nat] => destruct (Nat.eqb_spec a b); try lia
      | |- context [(?a <? ?b)%nat] => destruct (Nat.ltb_spec a b); try lia
      end; cbn [negb orb andb];
    repeat match goal with
      | |- context [Byte.eqb ?a ?b] => destruct (Byte.eqb a b); cbn [negb andb]
      end; reflexivity.
Qed.

Lemma protocol_char_alnum c : is_protocol_char c = true -> is_alnum_lower c = true.
Proof. destruct c; vm_compute; intros Hc; first [exact Hc | reflexivity]. Qed.

Lemma forallb_protocol_alnum l :
  forallb is_protocol_char l = true -> forallb is_alnum_lower l = true.
Proof.
  induction l as [|c l IH]; cbn; [reflexivity|].
  intros Hall. apply andb_true_iff in Hall as [Hc Hall].
  rewrite (protocol_char_alnum c Hc), IH by exact Hall. reflexivity.
Qed.

Lemma findLevelLength_no_scheme level data :
  ~ scheme_form data ->
  findLevelLength level data = if (0 =? level)%N then length data else 0%nat.
Proof.
  intros Hno. unfold findLevelLength. rewrite scan_span. cbn [Nat.add].
  destruct (span_split is_protocol_char data)
    as (pre & suf & Hdata & Hlen & Hpre & _).
  rewrite <- Hlen. rewrite Hdata at 1. rewrite after_protocol_split.
  destruct pre as [|p0 pre]; [reflexivity|].
  destruct suf as [|c0 [|c1 [|c2 [|c3 tl]]]]; try reflexivity.
  destruct (Byte.eqb c0 ":") eqn:E0; [|reflexivity].
  destruct (Byte.eqb c1 "/") eqn:E1; [|reflexivity].
  destruct (Byte.eqb c2 "/") eqn:E2; [|reflexivity].
  exfalso. apply Hno.
  apply eqb_byte_iff in E0, E1, E2. subst c0 c1 c2.
  exists (p0 :: pre), (c3 :: tl).
  split; [exact Hdata|]. split; [discriminate|].
  split; [apply forallb_protocol_alnum, Hpre|discriminate].
Qed.

Lemma findLevelLength_scheme level protocol rest :
  protocol <> [] -> forallb is_protocol_char protocol = true -> rest <> [] ->
  let data := protocol ++ [":"; "/"; "/"]%byte ++ rest in
  let d := path_start protocol rest in
  findLevelLength level data
  = if (0 =? level)%N then d
    else let '(current_level, pos) := level_loop (length data - d) level data 0%N d in
         if (current_level =? level)%N then pos else 0%nat.
Proof.
  intros Hne Hproto Hrest data d. unfold findLevelLength.
  rewrite scan_span. cbn [Nat.add].
  assert (Hspan : span_len is_protocol_char data = length protocol).
  { unfold data. rewrite span_len_app by exact Hproto.
    cbn [app]. rewrite span_len_stop by reflexivity. lia. }
  rewrite Hspan. unfold data at 1. rewrite after_protocol_split.
  destruct protocol as [|p0 protocol]; [congruence|].
  destruct rest as [|c3 tl]; [congruence|].
  cbn [app]. change (Byte.eqb ":" ":" && Byte.eqb "/" "/" && Byte.eqb "/" "/") with true.
  cbv iota.
  set (proto := p0 :: protocol) in *. set (rest := c3 :: tl) in *.
  assert (Hdrop : drop (length proto + 3) data = rest).
  { unfold data. rewrite (app_assoc proto _ rest).
    replace (length proto + 3)%nat with (length (proto ++ [":"; "/"; "/"]%byte))
      by (rewrite length_app; reflexivity).
    apply drop_app_length. }
  rewrite Hdrop, scan_span.
  assert (Hlen : length data = (length proto + 3 + length rest)%nat).
  { unfold data. rewrite !length_app. cbn [length]. lia. }
  pose proof (span_len_le (fun c => negb (is_separator c)) rest) as Hle.
  assert (Hd : (if negb (length proto + 3 + span_len (fun c => negb (is_separator c)) rest
                         =? length data)%nat
                then S (length proto + 3 + span_len (fun c => negb (is_separator c)) rest)
                else (length proto + 3 + span_len (fun c => negb (is_separator c)) rest)%nat)
               = d).
  { unfold d, path_start. cbv zeta. fold proto. fold rest.
    destruct (Nat.eqb_spec (length proto + 3 + span_len (fun c => negb (is_separator c)) rest)
                (length data));
      destruct (Nat.ltb_spec (span_len (fun c => negb (is_separator c)) rest) (length rest));
      cbn [negb]; lia. }
  rewrite Hd. reflexivity.
Qed.

Lemma path_start_le protocol rest :
  (path_start protocol rest <= length (protocol ++ [":"; "/"; "/"]%byte ++ rest))%nat.
Proof.
  unfold path_start. cbv zeta. rewrite !length_app. cbn [length].
  pose proof (span_len_le (fun c => negb (is_separator c)) rest).
  destruct (Nat.ltb_spec (span_len (fun c => negb (is_separator c)) rest) (length rest)); lia.
Qed.

Lemma findLevelLength_scheme_levels level protocol rest :
  protocol <> [] -> forallb is_protocol_char protocol = true -> rest <> [] ->
  level <> 0%N ->
  let data := protocol ++ [":"; "/"; "/"]%byte ++ rest in
  let d := path_start protocol rest in
  ((N.to_nat level <= count_segments (drop d data))%nat ->
     covers_segments data d (N.to_nat level) (findLevelLength level data))
  /\ ((count_segments (drop d data) < N.to_nat level)%nat ->
     findLevelLength level data = 0%nat).
Proof.
  intros Hne Hproto Hrest Hlevel data d.
  pose proof (findLevelLength_scheme level protocol rest Hne Hproto Hrest) as Hfl.
  cbv zeta in Hfl.
  change (protocol ++ [":"; "/"; "/"]%byte ++ rest) with data in Hfl.
  change (path_start protocol rest) with d in Hfl.
  rewrite Hfl. clear Hfl.
  destruct (N.eqb_spec 0 level) as [H0|_]; [congruence|].
  pose proof (path_start_le protocol rest) as Hd. fold data in Hd. fold d in Hd.
  destruct (level_loop_spec (length data - d) level 0%N (take d data) (drop d data))
    as (k' & used & rest' & Hrun & Hsplit & Hcount & Hle & Hlast & Hbound).
  { rewrite length_drop. lia. }
  { lia. }
  rewrite take_drop, length_take_le in Hrun by exact Hd.
  rewrite Hrun. rewrite Hsplit.
  change (N.to_nat 0) with 0%nat in Hcount. cbn [Nat.add] in Hcount.
  pose proof (count_segments_from_app_le false used rest') as Hmono.
  fold (count_segments used) in Hmono. fold (count_segments (used ++ rest')) in Hmono.
  assert (Hlen : length data = (d + length used + length rest')%nat).
  { rewrite <- (take_drop d data) at 1. rewrite length_app, Hsplit, length_app.
    rewrite length_take_le by exact Hd. lia. }
  destruct (N.eqb_spec k' level) as [->|Hk].
  - split; [|lia]. intros _. unfold covers_segments.
    split; [lia|]. split.
    + replace (d + length used - d)%nat with (length used) by lia.
      rewrite Hsplit, take_app_length. lia.
    + destruct Hbound as [->|[[H0 _]|(u & c' & c & -> & Hc' & Hc)]].
      * left. cbn [length] in Hlen. lia.
      * congruence.
      * right. exists c, c'.
        assert (Hdata : data = (take d data ++ u) ++ c' :: c :: rest').
        { rewrite <- (take_drop d data) at 1. rewrite Hsplit, <- !app_assoc. reflexivity. }
        assert (Hl1 : length (take d data ++ u) = (d + length u)%nat).
        { rewrite length_app, length_take_le by exact Hd. reflexivity. }
        rewrite length_app. cbn [length].
        repeat split; try assumption.
        -- rewrite Hdata. rewrite (app_assoc _ [c'] (c :: rest')).
           apply list_lookup_middle. rewrite length_app, Hl1. cbn [length]. lia.
        -- rewrite Hdata at 1. apply list_lookup_middle. rewrite Hl1. lia.
  - split; [|reflexivity].
    intros Hge. rewrite (Hlast Hk), app_nil_r in Hge. lia.
Qed.

Lemma scheme_form_length data : scheme_form data -> (5 <= length data)%nat.
Proof.
  intros (protocol & rest & -> & Hp & _ & Hr).
  rewrite !length_app. cbn [length].
  destruct protocol; [congruence|]. destruct rest; [congruence|]. cbn [length]. lia.
Qed.

Context `{city_h}.

Lemma URLHashImpl_apply_prefix data len :
  (len <= length data)%nat -> URLHashImpl.apply data len = URLHash (take len data).
Proof.
  intros Hlen. unfold URLHash, URLHashImpl.apply.
  rewrite length_take_le by exact Hlen.
  destruct (Nat.ltb_spec 0 len) as [Hpos|Hzero]; cbn [andb].
  - assert (Hnth : nth (len - 1) (take len data) x00 = nth (len - 1) data x00).
    { rewrite <- (take_drop len data) at 2. rewrite app_nth1; [reflexivity|].
      rewrite length_take_le by exact Hlen. lia. }
    rewrite Hnth.
    rewrite take_take, Nat.min_l by lia.
    rewrite (firstn_all2 (n := len) (take len data))
      by (rewrite length_take_le by exact Hlen; lia).
    reflexivity.
  - rewrite (firstn_all2 (n := len) (take len data))
      by (rewrite length_take_le by exact Hlen; lia).
    reflexivity.
Qed.

Lemma URLHash_level_unfold data level :
  URLHash_level data level
  = URLHashImpl.apply data (findLevelLength level data).
Proof.
  unfold URLHash_level, URLHierarchyHashImpl.apply. rewrite firstn_all. reflexivity.
Qed.

(** C5 (as amended).  The two-argument URL hash of an input hashes a
    prefix of it as a whole string.  For an input that does not read
    [protocol://rest] (a protocol name of lower-case letters and digits,
    something behind the slashes) the prefix is the whole input at level
    0 and empty at every other level.  For an input [protocol://rest]
    whose protocol name is made of characters the scan accepts, the
    prefix at level 0 ends where the path starts, and at level N > 0 it
    is the prefix covering exactly N path segments when the path has at
    least N segments, and empty when it has fewer.
    [URLHash("http://x/a/b", 1)] is the hash of ["http://x/a/"]. *)
Theorem URLHierarchy_hash_of_level_prefix :
  (forall (data : list byte) (level : N),
      ~ scheme_form data ->
      URLHash_level data level
      = if (level =? 0)%N then URLHash data else URLHash [])
  /\ (forall (protocol rest : list byte) (level : N),
      protocol <> [] -> forallb is_protocol_char protocol = true -> rest <> [] ->
      let data := protocol ++ [":"; "/"; "/"]%byte ++ rest in
      let d := path_start protocol rest in
      let len := findLevelLength level data in
      URLHash_level data level = URLHash (take len data)
      /\ (level = 0%N -> len = d)
      /\ (level <> 0%N -> (N.to_nat level <= count_segments (drop d data))%nat ->
          covers_segments data d (N.to_nat level) len)
      /\ (level <> 0%N -> (count_segments (drop d data) < N.to_nat level)%nat ->
          len = 0%nat))
  /\ URLHash_level (bytes "http://x/a/b") 1 = URLHash (bytes "http://x/a/")
  /\ URLHash_level (bytes "http://x/a/b") 1 = CityHash64 (bytes "http://x/a").
Proof.
  split; [|split; [|split]].
  - intros data level Hno.
    rewrite URLHash_level_unfold, findLevelLength_no_scheme by exact Hno.
    rewrite N.eqb_sym.
    destruct (level =? 0)%N.
    + rewrite URLHashImpl_apply_prefix by lia. rewrite firstn_all. reflexivity.
    + reflexivity.
  - intros protocol rest level Hne Hproto Hrest data d len.
    pose proof (path_start_le protocol rest) as Hd.
    pose proof (findLevelLength_scheme level protocol rest Hne Hproto Hrest) as H0.
    cbv zeta in H0.
    assert (Hlevels : level <> 0%N ->
              ((N.to_nat level <= count_segments (drop d data))%nat ->
               covers_segments data d (N.to_nat level) len)
              /\ ((count_segments (drop d data) < N.to_nat level)%nat -> len = 0%nat)).
    { intros Hl. apply findLevelLength_scheme_levels; assumption. }
    assert (Hlen : (len <= length data)%nat).
    { destruct (N.eq_dec level 0%N) as [Hz|Hl].
      - unfold len, data. rewrite H0, Hz. exact Hd.
      - destruct (Hlevels Hl) as [Hcov Hzero].
        destruct (Nat.le_gt_cases (N.to_nat level) (count_segments (drop d data)))
          as [Hge|Hlt].
        + destruct (Hcov Hge) as [[_ Hle] _]. exact Hle.
        + rewrite (Hzero Hlt). lia. }
    split; [rewrite URLHash_level_unfold; apply URLHashImpl_apply_prefix, Hlen|].
    split; [intros Hz; unfold len, data; rewrite H0, Hz; reflexivity|].
    split; intros Hl; apply Hlevels, Hl.
  - reflexivity.
  - reflexivity.
Qed.

End URLHierarchy.

Lemma URLHierarchy_hash_of_level_prefix_witness :
  URLHash_level (H := demo_city_h) (bytes "a/b") 2 = URLHash (H := demo_city_h) []
  /\ covers_segments (bytes "http://x/a/b") 9 1
       (URLHierarchyHashImpl.findLevelLength 1 (bytes "http://x/a/b"))
  /\ URLHierarchyHashImpl.findLevelLength 3 (bytes "http://x/a/b") = 0%nat.
Proof.
  destruct (URLHierarchy_hash_of_level_prefix (H := demo_city_h)) as (Hno & Hyes & _).
  split; [|split].
  - apply (Hno (bytes "a/b") 2%N).
    intros Hform. apply scheme_form_length in Hform. cbn in Hform. lia.
  - apply (Hyes (bytes "http") (bytes "x/a/b") 1%N); try discriminate; try reflexivity.
    vm_compute. lia.
  - apply (Hyes (bytes "http") (bytes "x/a/b") 3%N); try discriminate; try reflexivity.
    vm_compute. lia.
Defined.

(** The lengths of the prefixes of ["http://x/a/b"] at the levels 0 to 3. *)
Example findLevelLength_levels :
  map (fun level => URLHierarchyHashImpl.findLevelLength level (bytes "http://x/a/b"))
    [0; 1; 2; 3]%N
  = [9; 11; 12; 0]%nat.
Proof. reflexivity. Qed.

(** The scan of the protocol name stops at the letters a and z and at the
    digits 0 and 9: ["s3a://x/a/b"] is taken as an input without a protocol. *)
Example findLevelLength_protocol_with_a :
  map (fun level => URLHierarchyHashImpl.findLevelLength level (bytes "s3a://x/a/b"))
    [0; 1]%N
  = [11; 0]%nat
  /\ scheme_form (bytes "s3a://x/a/b").
Proof.
  split; [reflexivity|].
  exists (bytes "s3a"), (bytes "x/a/b").
  split; [reflexivity|]. split; [discriminate|]. split; [reflexivity|discriminate].
Qed.

(** C5, as first stated, at an input with fewer path segments than the
    level: ["http://x/a/b"] reads [protocol://rest] and has the two path
    segments [a] and [b]; at level 3 the hashed prefix is empty, and it does
    not cover three segments. *)
Lemma URLHierarchy_level_beyond_path :
  scheme_form (bytes "http://x/a/b")
  /\ URLHierarchyHashImpl.findLevelLength 3 (bytes "http://x/a/b") = 0%nat
  /\ ~ covers_segments (bytes "http://x/a/b")
        (path_start (bytes "http") (bytes "x/a/b")) 3
        (URLHierarchyHashImpl.findLevelLength 3 (bytes "http://x/a/b")).
Proof.
  split; [|split].
  - exists (bytes "http"), (bytes "x/a/b").
    split; [reflexivity|]. split; [discriminate|]. split; [reflexivity|discriminate].
  - reflexivity.
  - intros (Hrange & _). vm_compute in Hrange. lia.
Qed.

(** ** Loops over the rows *)

Lemma bind_Ok {A B : Type} (a : A) (k : A -> result B) : (Ok a ≫= k) = k a.
Proof. reflexivity. Qed.

Lemma bind_Throw {A B : Type} (e : ErrorCode) (k : A -> result B) :
  (Throw e ≫= k) = Throw e.
Proof. reflexivity. Qed.

Lemma bind_assoc {A B C : Type} (m : result A) (k : A -> result B) (k' : B -> result C) :
  ((m ≫= k) ≫= k') = (m ≫= fun a => k a ≫= k').
Proof. destruct m; reflexivity. Qed.

Lemma bind_ret {A : Type} (m : result A) : (m ≫= Ok) = m.
Proof. destruct m; reflexivity. Qed.

Lemma bind_ext {A B : Type} (m : result A) (k k' : A -> result B) :
  (forall a, k a = k' a) -> (m ≫= k) = (m ≫= k').
Proof. intros Hk. destruct m; [apply Hk|reflexivity]. Qed.

Lemma for_loop_ext {St : Type} n : forall i (body body' : nat -> St -> result St) s,
  (forall j s', (i <= j < i + n)%nat -> body j s' = body' j s') ->
  for_loop n i body s = for_loop n i body' s.
Proof.
  induction n as [|n IH]; intros i body body' s Hb; [reflexivity|].
  cbn [for_loop]. rewrite (Hb i s) by lia.
  apply bind_ext. intros s'. apply IH. intros j s'' Hj. apply Hb. lia.
Qed.

Lemma at_middle (pre suf : list Z) a : at_ (pre ++ a :: suf) (length pre) = a.
Proof. unfold at_. apply nth_middle. Qed.

Lemma insert_middle (pre suf : list Z) a v :
  <[length pre := v]> (pre ++ a :: suf) = pre ++ v :: suf.
Proof.
  rewrite insert_app_r_alt by lia. rewrite Nat.sub_diag. reflexivity.
Qed.

Section Rows.
Context `{hash_h} `{memory_h}.
Variable P : Impl.
Variable with_seed : bool.

Lemma map_rows_ext f g : forall vec i,
  (forall j acc, (i <= j < i + length vec)%nat -> f j acc = g j acc) ->
  map_rows f i vec = map_rows g i vec.
Proof.
  induction vec as [|a vec IH]; intros i Hfg; [reflexivity|].
  cbn [map_rows]. rewrite (Hfg i a) by (cbn; lia).
  apply bind_ext. intros v. rewrite (IH (S i)); [reflexivity|].
  intros j acc Hj. apply Hfg. cbn. lia.
Qed.


(** A loop that rewrites the slot of each row is [map_rows]. *)
Lemma for_loop_rows (f : nat -> Z -> result Z) (body : nat -> list Z -> result (list Z)) :
  (forall i vec, (i < length vec)%nat ->
     body i vec = v ← f i (at_ vec i); Ok (<[i := v]> vec)) ->
  forall suf pre,
    for_loop (length suf) (length pre) body (pre ++ suf)
    = r ← map_rows f (length pre) suf; Ok (pre ++ r).
Proof.
  intros Hbody. induction suf as [|a suf IH]; intros pre.
  - cbn. reflexivity.
  - cbn [length for_loop map_rows].
    rewrite Hbody by (rewrite length_app; cbn; lia).
    rewrite at_middle, !bind_assoc. apply bind_ext. intros v.
    rewrite bind_Ok, insert_middle.
    replace (pre ++ v :: suf) with ((pre ++ [v]) ++ suf)
      by (rewrite <- app_assoc; reflexivity).
    replace (S (length pre)) with (length (pre ++ [v]))
      by (rewrite length_app; cbn; lia).
    rewrite IH, !bind_assoc. apply bind_ext. intros r.
    rewrite !bind_Ok, <- app_assoc. reflexivity.
Qed.

Lemma for_loop_rows_0 (f : nat -> Z -> result Z) body vec :
  (forall i vec, (i < length vec)%nat ->
     body i vec = v ← f i (at_ vec i); Ok (<[i := v]> vec)) ->
  for_loop (length vec) 0 body vec = map_rows f 0 vec.
Proof.
  intros Hbody.
  pose proof (for_loop_rows f body Hbody vec []) as Hloop.
  cbn [app length] in Hloop. rewrite Hloop.
  destruct (map_rows f 0 vec); reflexivity.
Qed.

Lemma store_assign_or_combine first i h vec :
  store P first i h vec
  = v ← assign_or_combine P first (at_ vec i) h; Ok (<[i := v]> vec).
Proof.
  unfold store, assign_or_combine. destruct first; [reflexivity|].
  rewrite bind_assoc. reflexivity.
Qed.

Lemma map_rows_assign hash : forall vec i,
  map_rows (fun _ acc => assign_or_combine P true acc hash) i vec
  = Ok (replicate (length vec) hash).
Proof.
  induction vec as [|a vec IH]; intros i; [reflexivity|].
  cbn [map_rows length replicate assign_or_combine]. rewrite bind_Ok, IH. reflexivity.
Qed.

Lemma store_const_rows first hash vec :
  store_const P first hash vec
  = map_rows (fun _ acc => assign_or_combine P first acc hash) 0 vec.
Proof.
  unfold store_const. cbv zeta. destruct first.
  - symmetry. apply map_rows_assign.
  - apply for_loop_rows_0. intros i vec' _. apply store_assign_or_combine.
Qed.

(** A digest that does not depend on the row may be computed once, in
    front of the rows, when there is a row. *)
Lemma map_rows_hash_once (m : result Z) (g : Z -> Z -> result Z) : forall vec i,
  vec <> [] ->
  map_rows (fun _ acc => h ← m; g acc h) i vec
  = h ← m; map_rows (fun _ acc => g acc h) i vec.
Proof.
  intros vec i Hne. destruct m as [h|e].
  - reflexivity.
  - destruct vec; [congruence|reflexivity].
Qed.

Lemma at_replicate n (v : Z) i : (i < n)%nat -> at_ (replicate n v) i = v.
Proof.
  intros Hi. unfold at_. apply nth_lookup_Some with (d := 0).
  apply lookup_replicate_2. exact Hi.
Qed.

(** *** Scalars *)

Lemma executeIntType_dense seed T first data vec :
  length vec = length data ->
  executeIntType P with_seed seed T first (ColumnVector T data) vec
  = map_rows (fun i acc => h ← hash_pod P with_seed seed T (at_ data i);
                           assign_or_combine P first acc h) 0 vec.
Proof.
  intros Hlen. unfold executeIntType. rewrite decide_True by reflexivity.
  rewrite <- Hlen. apply for_loop_rows_0. intros i vec' _.
  rewrite bind_assoc. apply bind_ext. intros h. apply store_assign_or_combine.
Qed.

Lemma executeIntType_const seed T first v n vec :
  executeIntType P with_seed seed T first (ColumnConst (ColumnVector T [v]) n) vec
  = h ← hash_pod P with_seed seed T v;
    map_rows (fun _ acc => assign_or_combine P first acc h) 0 vec.
Proof.
  unfold executeIntType. rewrite decide_True by reflexivity. cbv zeta.
  change (at_ [v] 0) with v. apply bind_ext. intros h. apply store_const_rows.
Qed.

Lemma executeBigIntType_dense seed T first data vec :
  length vec = length data ->
  executeBigIntType P with_seed seed T first (ColumnVector T data) vec
  = map_rows (fun i acc =>
                h ← (h ← applyWithSeed P with_seed seed (object_bytes T (at_ data i));
                     Ok (as_ToType P h));
                assign_or_combine P first acc h) 0 vec.
Proof.
  intros Hlen. unfold executeBigIntType. rewrite decide_True by reflexivity.
  rewrite <- Hlen. apply for_loop_rows_0. intros i vec' _.
  rewrite !bind_assoc. apply bind_ext. intros h. rewrite bind_Ok.
  apply store_assign_or_combine.
Qed.

Lemma executeBigIntType_const seed T first v n vec :
  executeBigIntType P with_seed seed T first (ColumnConst (ColumnVector T [v]) n) vec
  = h ← (h ← applyWithSeed P with_seed seed (object_bytes T v); Ok (as_ToType P h));
    map_rows (fun _ acc => assign_or_combine P first acc h) 0 vec.
Proof.
  unfold executeBigIntType. rewrite decide_True by reflexivity. cbv zeta.
  change (at_ [v] 0) with v. rewrite bind_assoc. apply bind_ext. intros h.
  rewrite bind_Ok. apply store_const_rows.
Qed.

Lemma executeAny_scalar_dense seed first which data vec :
  length vec = length data ->
  executeAny P with_seed seed first (DataTypeScalar which)
    (ColumnVector (from_type which) data) vec
  = map_rows (fun i acc => h ← hash_scalar P with_seed seed which (at_ data i);
                           assign_or_combine P first acc h) 0 vec.
Proof.
  intros Hlen. cbn [executeAny]. unfold from_type, hash_scalar.
  destruct (scalar_path which) as [T|T].
  - apply executeIntType_dense, Hlen.
  - apply executeBigIntType_dense, Hlen.
Qed.

Lemma executeAny_scalar_const seed first which v n vec :
  executeAny P with_seed seed first (DataTypeScalar which)
    (ColumnConst (ColumnVector (from_type which) [v]) n) vec
  = h ← hash_scalar P with_seed seed which v;
    map_rows (fun _ acc => assign_or_combine P first acc h) 0 vec.
Proof.
  cbn [executeAny]. unfold from_type, hash_scalar.
  destruct (scalar_path which) as [T|T].
  - apply executeIntType_const.
  - apply executeBigIntType_const.
Qed.

(** *** Loops that carry the current offset *)

Lemma for_loop_offsets (offsets : list nat) (g : nat -> nat -> nat -> Z -> result Z)
    (body : nat -> nat * list Z -> result (nat * list Z)) :
  (forall i cur vec, (i < length vec)%nat ->
     body i (cur, vec)
     = v ← g i cur (nth i offsets 0%nat) (at_ vec i);
       Ok (nth i offsets 0%nat, <[i := v]> vec)) ->
  forall suf pre,
    for_loop (length suf) (length pre) body (prev_offset offsets (length pre), pre ++ suf)
    = r ← map_rows (fun i acc => g i (prev_offset offsets i) (nth i offsets 0%nat) acc)
            (length pre) suf;
      Ok (prev_offset offsets (length pre + length suf), pre ++ r).
Proof.
  intros Hbody. induction suf as [|a suf IH]; intros pre.
  - cbn. rewrite Nat.add_0_r. reflexivity.
  - cbn [length for_loop map_rows].
    rewrite Hbody by (rewrite length_app; cbn; lia).
    rewrite at_middle, !bind_assoc. apply bind_ext. intros v.
    rewrite bind_Ok, insert_middle.
    replace (pre ++ v :: suf) with ((pre ++ [v]) ++ suf)
      by (rewrite <- app_assoc; reflexivity).
    change (nth (length pre) offsets 0%nat) with (prev_offset offsets (S (length pre))).
    replace (S (length pre)) with (length (pre ++ [v]))
      by (rewrite length_app; cbn; lia).
    rewrite IH, !bind_assoc. apply bind_ext. intros r.
    rewrite !bind_Ok, <- app_assoc. cbn [app].
    do 2 f_equal. rewrite length_app. cbn. f_equal. lia.
Qed.

Lemma for_loop_offsets_0 offsets g body vec :
  (forall i cur vec, (i < length vec)%nat ->
     body i (cur, vec)
     = v ← g i cur (nth i offsets 0%nat) (at_ vec i);
       Ok (nth i offsets 0%nat, <[i := v]> vec)) ->
  (r ← for_loop (length vec) 0 body (0%nat, vec); Ok (snd r))
  = map_rows (fun i acc => g i (prev_offset offsets i) (nth i offsets 0%nat) acc) 0 vec.
Proof.
  intros Hbody.
  pose proof (for_loop_offsets offsets g body Hbody vec []) as Hloop.
  cbn [app length prev_offset] in Hloop. rewrite Hloop, bind_assoc.
  destruct (map_rows _ 0 vec); reflexivity.
Qed.

End Rows.

(** *** String columns *)

Lemma offsets_from_length rows : forall start, length (offsets_from start rows) = length rows.
Proof. induction rows as [|r rows IH]; intros start; cbn; [reflexivity|]. now rewrite IH. Qed.

Lemma offsets_from_nth rows : forall start i,
  (i < length rows)%nat ->
  nth i (offsets_from start rows) 0%nat
  = (start + length (chars_of (take i rows)) + length (nth i rows []) + 1)%nat.
Proof.
  induction rows as [|r rows IH]; intros start i Hi; [cbn in Hi; lia|].
  destruct i as [|i].
  - cbn. lia.
  - cbn [offsets_from nth take]. rewrite IH by (cbn in Hi; lia).
    unfold chars_of. cbn [map concat]. rewrite !length_app. cbn [length]. lia.
Qed.

Lemma take_S_nth (rows : list (list byte)) i :
  (i < length rows)%nat -> take (S i) rows = take i rows ++ [nth i rows []].
Proof.
  intros Hi. apply take_S_r.
  destruct (lookup_lt_is_Some_2 rows i Hi) as [x Hx].
  rewrite Hx. f_equal. symmetry. apply nth_lookup_Some with (d := []). exact Hx.
Qed.

Lemma prev_offset_string rows i :
  (i < length rows)%nat ->
  prev_offset (offsets_from 0 rows) i = length (chars_of (take i rows)).
Proof.
  intros Hi. destruct i as [|i]; [reflexivity|].
  cbn [prev_offset]. rewrite offsets_from_nth by lia.
  rewrite (take_S_nth rows i) by lia.
  unfold chars_of. rewrite map_app, concat_app, !length_app.
  cbn [map concat length]. rewrite app_nil_r, length_app. cbn [length]. lia.
Qed.

Lemma string_column_slice rows i :
  (i < length rows)%nat ->
  slice (chars_of rows) (prev_offset (offsets_from 0 rows) i)
    (nth i (offsets_from 0 rows) 0%nat - prev_offset (offsets_from 0 rows) i - 1)
  = nth i rows [].
Proof.
  intros Hi. rewrite prev_offset_string, offsets_from_nth by exact Hi.
  replace (0 + length (chars_of (take i rows)) + length (nth i rows []) + 1
           - length (chars_of (take i rows)) - 1)%nat
    with (length (nth i rows [])) by lia.
  unfold slice.
  assert (Hrows : rows = take i rows ++ nth i rows [] :: drop (S i) rows).
  { symmetry. apply take_drop_middle.
    destruct (lookup_lt_is_Some_2 rows i Hi) as [x Hx].
    rewrite Hx. f_equal. symmetry. apply nth_lookup_Some with (d := []). exact Hx. }
  assert (Hchars : chars_of rows
                   = chars_of (take i rows)
                     ++ nth i rows [] ++ [x00] ++ chars_of (drop (S i) rows)).
  { rewrite Hrows at 1. unfold chars_of.
    rewrite map_app, concat_app. cbn [map concat].
    rewrite <- !app_assoc. reflexivity. }
  rewrite Hchars, drop_app_length. apply take_app_length.
Qed.

Lemma concat_fixed_length k (rows : list (list byte)) :
  Forall (fun row => length row = k) rows -> length (concat rows) = (length rows * k)%nat.
Proof.
  induction 1 as [|r rows Hr _ IH]; [reflexivity|].
  cbn [concat length]. rewrite length_app, IH, Hr. lia.
Qed.

Lemma fixed_string_slice k (rows : list (list byte)) : forall i,
  Forall (fun row => length row = k) rows -> (i < length rows)%nat ->
  slice (concat rows) (i * k) k = nth i rows [].
Proof.
  induction rows as [|r rows IH]; intros i Hall Hi; [cbn in Hi; lia|].
  apply Forall_cons in Hall as [Hr Hall].
  destruct i as [|i].
  - cbn [Nat.mul nth concat]. unfold slice. cbn [drop].
    rewrite <- Hr. apply take_app_length.
  - cbn [nth concat]. unfold slice.
    replace (S i * k)%nat with (length r + i * k)%nat by (rewrite Hr; lia).
    rewrite drop_app_add. apply IH; [exact Hall|cbn in Hi; lia].
Qed.

Section Strings.
Context `{hash_h} `{memory_h}.
Variable P : Impl.
Variable with_seed : bool.

Lemma executeString_dense seed first rows vec :
  length vec = length rows ->
  executeString P with_seed seed first (string_column rows) vec
  = map_rows (fun i acc => h ← hash_string P with_seed seed (nth i rows []);
                           assign_or_combine P first acc h) 0 vec.
Proof.
  intros Hlen. unfold executeString, string_column. cbv zeta.
  rewrite offsets_from_length, <- Hlen.
  rewrite (for_loop_offsets_0 (offsets_from 0 rows)
             (fun i cur next acc =>
                h ← hash_string P with_seed seed (slice (chars_of rows) cur (next - cur - 1));
                assign_or_combine P first acc h)).
  - apply map_rows_ext. intros j acc Hj.
    rewrite string_column_slice by lia. reflexivity.
  - intros i cur vec' _. unfold hash_string.
    rewrite !bind_assoc. apply bind_ext. intros h.
    rewrite bind_Ok, store_assign_or_combine, !bind_assoc. reflexivity.
Qed.

Lemma executeString_const seed first s n vec :
  executeString P with_seed seed first (ColumnConst (string_column [s]) n) vec
  = h ← hash_string P with_seed seed s;
    map_rows (fun _ acc => assign_or_combine P first acc h) 0 vec.
Proof.
  unfold executeString, string_column, hash_string.
  assert (Hval : getValue_String (ColumnString (chars_of [s]) (offsets_from 0 [s]))
                 = Some s).
  { cbn [getValue_String offsets_from nth chars_of map concat]. unfold slice.
    cbn [drop]. rewrite app_nil_r. f_equal.
    replace (0 + length s + 1 - 1)%nat with (length s) by lia.
    apply take_app_length. }
  rewrite Hval, bind_assoc. apply bind_ext. intros h.
  rewrite bind_Ok. apply store_const_rows.
Qed.

Lemma executeString_fixed_dense seed first k rows vec :
  (0 < k)%nat -> Forall (fun row => length row = k) rows ->
  length vec = length rows ->
  executeString P with_seed seed first (fixed_string_column k rows) vec
  = map_rows (fun i acc => h ← hash_string P with_seed seed (nth i rows []);
                           assign_or_combine P first acc h) 0 vec.
Proof.
  intros Hk Hall Hlen. unfold executeString, fixed_string_column. cbv zeta.
  rewrite (concat_fixed_length k rows Hall), Nat.div_mul by lia.
  rewrite <- Hlen.
  rewrite (for_loop_rows_0
             (fun i acc => h ← hash_string P with_seed seed (slice (concat rows) (i * k) k);
                           assign_or_combine P first acc h)).
  - apply map_rows_ext. intros j acc Hj.
    rewrite fixed_string_slice by (try assumption; lia). reflexivity.
  - intros i vec' _. unfold hash_string.
    rewrite !bind_assoc. apply bind_ext. intros h.
    rewrite bind_Ok. apply store_assign_or_combine.
Qed.

Lemma executeString_fixed_const seed first s n vec :
  executeString P with_seed seed first (ColumnConst (ColumnFixedString (length s) s) n) vec
  = h ← hash_string P with_seed seed s;
    map_rows (fun _ acc => assign_or_combine P first acc h) 0 vec.
Proof.
  unfold executeString, hash_string. cbn [getValue_String].
  unfold slice. cbn [drop]. rewrite firstn_all.
  rewrite bind_assoc. apply bind_ext. intros h.
  rewrite bind_Ok. apply store_const_rows.
Qed.

End Strings.

(** ** Constant columns *)

Lemma nth_replicate_lt {A : Type} (d x : A) n i : (i < n)%nat -> nth i (replicate n x) d = x.
Proof. intros Hi. apply nth_lookup_Some. apply lookup_replicate_2. exact Hi. Qed.

Section ConstantColumns.
Context `{hash_h} `{memory_h}.
Variable P : Impl.
Variable with_seed : bool.

Lemma map_rows_same_value (m : nat -> result Z) (m0 : result Z) first vec :
  vec <> [] ->
  (forall i, (i < length vec)%nat -> m i = m0) ->
  map_rows (fun i acc => h ← m i; assign_or_combine P first acc h) 0 vec
  = h ← m0; map_rows (fun _ acc => assign_or_combine P first acc h) 0 vec.
Proof.
  intros Hne Hm.
  rewrite <- (map_rows_hash_once m0 (assign_or_combine P first)) by exact Hne.
  apply map_rows_ext. intros j acc Hj. rewrite Hm by lia. reflexivity.
Qed.

(** C7. For every policy and every value [v] of a scalar type, of String
    or of FixedString: over n > 0 rows, the traversal of the constant
    column of [v] leaves in every row what the traversal of the dense
    column with [v] in every row leaves there, as the first unit and as a
    later one: the digest of [v], computed once, is assigned to or
    combined into every row. *)
Theorem constant_column_as_dense_column (seed : Z) (first : bool) (n : nat)
    (vec_to : list Z) :
  (0 < n)%nat -> length vec_to = n ->
  let broadcast (hash : result Z) : result (list Z) :=
    h ← hash; map_rows (fun _ acc => assign_or_combine P first acc h) 0 vec_to in
  (forall (which : TypeIndex.t) (v : Z),
      let type := DataTypeScalar which in
      let const := ColumnConst (ColumnVector (from_type which) [v]) n in
      let dense := ColumnVector (from_type which) (replicate n v) in
      executeAny P with_seed seed first type const vec_to
      = executeAny P with_seed seed first type dense vec_to
      /\ executeAny P with_seed seed first type const vec_to
         = broadcast (hash_scalar P with_seed seed which v))
  /\ (forall v : list byte,
      let const := ColumnConst (string_column [v]) n in
      let dense := string_column (replicate n v) in
      executeAny P with_seed seed first DataTypeString const vec_to
      = executeAny P with_seed seed first DataTypeString dense vec_to
      /\ executeAny P with_seed seed first DataTypeString const vec_to
         = broadcast (hash_string P with_seed seed v))
  /\ (forall v : list byte,
      v <> [] ->
      let type := DataTypeFixedString (length v) in
      let const := ColumnConst (ColumnFixedString (length v) v) n in
      let dense := fixed_string_column (length v) (replicate n v) in
      executeAny P with_seed seed first type const vec_to
      = executeAny P with_seed seed first type dense vec_to
      /\ executeAny P with_seed seed first type const vec_to
         = broadcast (hash_string P with_seed seed v)).
Proof.
  intros Hn Hlen broadcast.
  assert (Hne : vec_to <> []) by (intros ->; cbn in Hlen; lia).
  split; [|split].
  - intros which v type const dense.
    assert (Hconst : executeAny P with_seed seed first type const vec_to
                     = broadcast (hash_scalar P with_seed seed which v))
      by apply executeAny_scalar_const.
    split; [|exact Hconst]. rewrite Hconst. unfold type, dense.
    rewrite executeAny_scalar_dense by (rewrite length_replicate; exact Hlen).
    symmetry. unfold broadcast.
    apply (map_rows_same_value
             (fun i => hash_scalar P with_seed seed which (at_ (replicate n v) i)));
      [exact Hne|].
    intros i Hi. rewrite at_replicate by lia. reflexivity.
  - intros v const dense.
    assert (Hconst : executeAny P with_seed seed first DataTypeString const vec_to
                     = broadcast (hash_string P with_seed seed v))
      by apply executeString_const.
    split; [|exact Hconst]. rewrite Hconst. unfold dense. cbn [executeAny].
    rewrite executeString_dense by (rewrite length_replicate; exact Hlen).
    symmetry. unfold broadcast.
    apply (map_rows_same_value
             (fun i => hash_string P with_seed seed (nth i (replicate n v) [])));
      [exact Hne|].
    intros i Hi. rewrite nth_replicate_lt by lia. reflexivity.
  - intros v Hv type const dense.
    assert (Hconst : executeAny P with_seed seed first type const vec_to
                     = broadcast (hash_string P with_seed seed v))
      by apply executeString_fixed_const.
    split; [|exact Hconst]. rewrite Hconst. unfold dense, type. cbn [executeAny].
    rewrite executeString_fixed_dense.
    + symmetry. unfold broadcast.
      apply (map_rows_same_value
               (fun i => hash_string P with_seed seed (nth i (replicate n v) [])));
        [exact Hne|].
      intros i Hi. rewrite nth_replicate_lt by lia. reflexivity.
    + destruct v; [congruence|cbn; lia].
    + apply Forall_replicate. reflexivity.
    + rewrite length_replicate. exact Hlen.
Qed.

End ConstantColumns.

Lemma constant_column_as_dense_column_witness :
  let P := demo_murmurHash2_32WithSeed in
  executeAny (H := demo_hash_h) (H0 := demo_memory_h) P true 7 false
    (DataTypeScalar TypeIndex.UInt16)
    (ColumnConst (ColumnVector FromType.UInt16 [513]) 2) [10; 20]
  = executeAny (H := demo_hash_h) (H0 := demo_memory_h) P true 7 false
      (DataTypeScalar TypeIndex.UInt16)
      (ColumnVector FromType.UInt16 [513; 513]) [10; 20].
Proof.
  intros P.
  destruct (constant_column_as_dense_column (H := demo_hash_h) (H0 := demo_memory_h)
              P true 7 false 2 [10; 20] ltac:(lia) eq_refl) as (Hscalar & _).
  apply (Hscalar TypeIndex.UInt16 513).
Defined.

(** ** Arrays *)

Lemma repeat_offsets_length n total offsets :
  length (repeat_offsets n total offsets) = (n * length offsets)%nat.
Proof.
  unfold repeat_offsets. generalize 0%nat.
  induction n as [|n IH]; intros j; [reflexivity|].
  cbn [seq map concat]. rewrite length_app, length_map, IH. lia.
Qed.

Section Arrays.
Context `{hash_h} `{memory_h}.
Variable P : Impl.
Variable with_seed : bool.

Lemma at_insert (vec : list Z) i v : (i < length vec)%nat -> at_ (<[i := v]> vec) i = v.
Proof.
  intros Hi. unfold at_. apply nth_lookup_Some with (d := 0).
  apply list_lookup_insert_eq. exact Hi.
Qed.

Lemma insert_at (vec : list Z) i : (i < length vec)%nat -> <[i := at_ vec i]> vec = vec.
Proof.
  intros Hi. apply list_insert_id. unfold at_.
  destruct (lookup_lt_is_Some_2 vec i Hi) as [x Hx].
  rewrite Hx. f_equal. symmetry. apply nth_lookup_Some with (d := 0). exact Hx.
Qed.

(** The loop over the elements of row [i] rewrites the slot of the row. *)
Lemma for_loop_elements i (t : nat -> Z) n : forall j vec,
  (i < length vec)%nat ->
  for_loop n j (fun j vec => store P false i (t j) vec) vec
  = v ← fold_combine P (at_ vec i) (map t (seq j n)); Ok (<[i := v]> vec).
Proof.
  induction n as [|n IH]; intros j vec Hi.
  - cbn. rewrite insert_at by exact Hi. reflexivity.
  - cbn [for_loop seq map fold_combine].
    rewrite store_assign_or_combine, !bind_assoc. apply bind_ext. intros v.
    rewrite bind_Ok, IH by (rewrite length_insert; exact Hi).
    rewrite at_insert by exact Hi. apply bind_ext. intros v'.
    rewrite list_insert_insert_eq. reflexivity.
Qed.

Lemma hash_size_count n :
  hash_size P n
  = as_ToType P (if is_UInt64 (ReturnType P)
                 then IntHash64Impl.apply (Z.of_nat n)
                 else IntHash32Impl.apply (Z.of_nat n)).
Proof. unfold hash_size, ToType. destruct (is_UInt64 (ReturnType P)); reflexivity. Qed.

Lemma executeArray_full_rows nested first data offsets vec_to :
  length vec_to = length offsets ->
  executeArray_full P nested first data offsets vec_to
  = vec_temp ← nested data (allocate (size data));
    map_rows (fun i acc => array_row_digest P first acc (row_elements offsets vec_temp i))
      0 vec_to.
Proof.
  intros Hlen. unfold executeArray_full. cbv zeta.
  apply bind_ext. intros vec_temp. rewrite <- Hlen.
  apply (for_loop_offsets_0 offsets
           (fun i cur next acc =>
              array_row_digest P first acc (map (at_ vec_temp) (seq cur (next - cur))))).
  intros i cur vec Hi.
  rewrite store_assign_or_combine.
  unfold array_row_digest. cbv zeta.
  rewrite length_map, length_seq, <- hash_size_count.
  rewrite !bind_assoc. apply bind_ext. intros start.
  rewrite bind_Ok, for_loop_elements by (rewrite length_insert; exact Hi).
  rewrite at_insert by exact Hi.
  rewrite !bind_assoc. apply bind_ext. intros v.
  rewrite !bind_Ok, list_insert_insert_eq. reflexivity.
Qed.

(** C1. The digest of a row of an array column: the number of elements
    goes through IntHash64Impl when the policy returns UInt64 and through
    IntHash32Impl otherwise, and is assigned to the row (first unit) or
    combined into it (later unit); then the digests of the elements of
    the row are folded in with combineHashes of the policy, by ascending
    index.  The digests of the elements come from a traversal of the
    nested column and type as a first unit.  A constant array column is
    made a full column first. *)
Theorem executeArray_row_digests (seed : Z) (first : bool) (nested_type : IDataType)
    (vec_to : list Z) :
  (forall (data : IColumn) (offsets : list nat),
      length vec_to = length offsets ->
      executeArray P with_seed seed first (DataTypeArray nested_type)
        (ColumnArray data offsets) vec_to
      = vec_temp ← executeAny P with_seed seed true nested_type data (allocate (size data));
        map_rows
          (fun i acc => array_row_digest P first acc (row_elements offsets vec_temp i))
          0 vec_to)
  /\ (forall (data : IColumn) (offsets : list nat) (s : nat),
      let const := ColumnConst (ColumnArray data offsets) s in
      executeArray P with_seed seed first (DataTypeArray nested_type) const vec_to
      = executeArray P with_seed seed first (DataTypeArray nested_type)
          (convertToFullColumn const) vec_to
      /\ exists data' offsets',
           convertToFullColumn const = ColumnArray data' offsets'
           /\ length offsets' = (s * length offsets)%nat)
  /\ (forall column : IColumn,
      executeAny P with_seed seed first (DataTypeArray nested_type) column vec_to
      = executeArray P with_seed seed first (DataTypeArray nested_type) column vec_to).
Proof.
  split; [|split].
  - intros data offsets Hlen. cbn [executeArray executeArray_with].
    apply executeArray_full_rows, Hlen.
  - intros data offsets s const. split; [reflexivity|].
    eexists _, _. split; [reflexivity|]. apply repeat_offsets_length.
  - reflexivity.
Qed.

End Arrays.

Lemma executeArray_row_digests_witness :
  executeArray (H := demo_hash_h) (H0 := demo_memory_h) demo_murmurHash2_32WithSeed true 7 false
    (DataTypeArray (DataTypeScalar TypeIndex.UInt8))
    (ColumnArray (ColumnVector FromType.UInt8 [1; 2; 3]) [2; 3]%nat) [10; 20]
  = vec_temp ← executeAny (H := demo_hash_h) (H0 := demo_memory_h)
                 demo_murmurHash2_32WithSeed true 7 true
                 (DataTypeScalar TypeIndex.UInt8) (ColumnVector FromType.UInt8 [1; 2; 3])
                 (allocate (H := demo_memory_h) 3);
    map_rows
      (fun i acc =>
         array_row_digest (H := demo_hash_h) demo_murmurHash2_32WithSeed false acc
           (row_elements [2; 3]%nat vec_temp i))
      0 [10; 20].
Proof.
  destruct (executeArray_row_digests (H := demo_hash_h) (H0 := demo_memory_h)
              demo_murmurHash2_32WithSeed true 7 false (DataTypeScalar TypeIndex.UInt8)
              [10; 20]) as (Hfull & _).
  apply (Hfull (ColumnVector FromType.UInt8 [1; 2; 3]) [2; 3]%nat).
  reflexivity.
Defined.

(** ** The loop over the arguments *)

Lemma for_loop_list {St A : Type} (f : St -> A -> result St) (e : ErrorCode) :
  forall (suf pre : list A) (s : St),
    for_loop (length suf) (length pre)
      (fun i s => match (pre ++ suf) !! i with Some a => f s a | None => Throw e end) s
    = foldM f s suf.
Proof.
  induction suf as [|a suf IH]; intros pre s; [reflexivity|].
  cbn [length for_loop foldM].
  rewrite list_lookup_middle by reflexivity.
  apply bind_ext. intros s'.
  replace (pre ++ a :: suf) with ((pre ++ [a]) ++ suf) by (rewrite <- app_assoc; reflexivity).
  replace (S (length pre)) with (length (pre ++ [a])) by (rewrite length_app; cbn; lia).
  apply IH.
Qed.

Lemma for_loop_take {St A : Type} (f : St -> A -> result St) (e : ErrorCode)
    (l : list A) (n : nat) (s : St) :
  (n <= length l)%nat ->
  for_loop n 0 (fun i s => match l !! i with Some a => f s a | None => Throw e end) s
  = foldM f s (take n l).
Proof.
  intros Hn.
  rewrite <- (for_loop_list f e (take n l) [] s). cbn [app length].
  rewrite length_take_le by exact Hn.
  apply for_loop_ext. intros j s' Hj. rewrite lookup_take_lt by lia. reflexivity.
Qed.

Lemma foldM_app {St A : Type} (f : St -> A -> result St) (l1 l2 : list A) (s : St) :
  foldM f s (l1 ++ l2) = s' ← foldM f s l1; foldM f s' l2.
Proof.
  revert s. induction l1 as [|a l1 IH]; intros s; [reflexivity|].
  cbn [app foldM]. rewrite bind_assoc. apply bind_ext. intros s'. apply IH.
Qed.

Lemma foldM_ext {St A : Type} (f g : St -> A -> result St) (l : list A) (s : St) :
  (forall s a, f s a = g s a) -> foldM f s l = foldM g s l.
Proof.
  intros Hfg. revert s. induction l as [|a l IH]; intros s; [reflexivity|].
  cbn [foldM]. rewrite Hfg. apply bind_ext. intros s'. apply IH.
Qed.

Section Arguments.
Context `{hash_h} `{memory_h}.
Variable P : Impl.
Variable with_seed : bool.

Lemma read_seed_size arguments seed size :
  read_seed with_seed arguments = Ok (seed, size) -> (size <= length arguments)%nat.
Proof.
  unfold read_seed. cbv zeta. destruct with_seed.
  - destruct (last arguments) as [[type column]|]; [|discriminate].
    destruct column; try discriminate.
    destruct (getValue_UInt32 column); [|discriminate].
    cbn. intros [= _ <-]. lia.
  - intros [= _ <-]. lia.
Qed.

Lemma executeImpl_traverse arguments rows :
  executeImpl P with_seed arguments rows
  = '(seed, size) ← read_seed with_seed arguments;
    traverse_arguments P with_seed seed (take size arguments) rows.
Proof.
  unfold executeImpl.
  destruct (read_seed with_seed arguments) as [[seed size]|e] eqn:Hseed; [|reflexivity].
  apply read_seed_size in Hseed. rewrite !bind_Ok. cbv zeta.
  unfold traverse_arguments.
  rewrite (for_loop_ext size 0 _
             (fun i s => match arguments !! i with
                         | Some a => argument_step P with_seed seed s a
                         | None => Throw LOGICAL_ERROR
                         end))
    by (intros j s' _; destruct (arguments !! j) as [[t c]|]; reflexivity).
  rewrite (for_loop_take (argument_step P with_seed seed)
             LOGICAL_ERROR arguments size) by exact Hseed.
  - destruct size as [|size]; [reflexivity|].
    destruct arguments as [|a arguments]; [cbn in Hseed; lia|]. reflexivity.
Qed.

End Arguments.

(** ** No arguments *)

Section NoArguments.
Context `{hash_h} `{memory_h}.
Variable P : Impl.

(** C3. With no argument but the seed, the call succeeds for every number
    of rows and gives a column of that many rows, each holding
    [0xe28dbde7fe22e41c] converted to the return type of the policy; that
    is [0xe28dbde7fe22e41c] itself for UInt64, and never zero. *)
Theorem executeImpl_no_arguments (rows : nat) :
  let digest := as_ToType P 0xe28dbde7fe22e41c in
  executeImpl P false [] rows = Ok (replicate rows digest)
  /\ (forall (type : IDataType) (data : IColumn) (s : nat) (seed : Z),
      getValue_UInt32 data = Ok seed ->
      executeImpl P true [(type, ColumnConst data s)] rows = Ok (replicate rows digest))
  /\ length (replicate rows digest) = rows
  /\ (ReturnType P = AsUInt64 -> digest = 0xe28dbde7fe22e41c)
  /\ digest <> 0.
Proof.
  intros digest. split; [reflexivity|]. split; [|split; [|split]].
  - intros type data s seed Hseed. unfold executeImpl, read_seed.
    cbn [last length]. rewrite Hseed. reflexivity.
  - apply length_replicate.
  - intros HP. unfold digest, as_ToType, ToType. rewrite HP. reflexivity.
  - unfold digest, as_ToType, ToType. destruct (ReturnType P); vm_compute; discriminate.
Qed.

End NoArguments.

Lemma executeImpl_no_arguments_witness :
  executeImpl (H := demo_hash_h) (H0 := demo_memory_h) demo_murmurHash2_32WithSeed true
    [(DataTypeScalar TypeIndex.UInt8, ColumnConst (ColumnVector FromType.UInt8 [3]) 2)] 2
  = Ok [0xfe22e41c; 0xfe22e41c].
Proof.
  destruct (executeImpl_no_arguments (H := demo_hash_h) (H0 := demo_memory_h)
              demo_murmurHash2_32WithSeed 2) as (_ & Hseed & _).
  apply (Hseed (DataTypeScalar TypeIndex.UInt8) (ColumnVector FromType.UInt8 [3]) 2%nat 3).
  reflexivity.
Defined.

(** ** The seed *)

Lemma getValue_UInt32_range data seed :
  getValue_UInt32 data = Ok seed -> 0 <= seed < 2 ^ 32.
Proof.
  unfold getValue_UInt32.
  destruct data as [T vec| | | | | | | |]; try discriminate.
  destruct T; try discriminate; intros [= <-]; apply UInt32_range.
Qed.

Section Seed.
Context `{hash_h} `{memory_h}.
Variable P : Impl.
Variable F : FixedImpl.

Lemma fixed_digests_loop seed (rows : list (list byte)) : forall suf pre acc,
  rows = pre ++ suf ->
  for_loop (length suf) (length pre)
    (fun i '(current_offset, chars_to) =>
       let digest :=
         fixed_apply F
           (slice (chars_of rows) current_offset
              (nth i (offsets_from 0 rows) 0 - current_offset - 1)%nat) seed in
       Ok (nth i (offsets_from 0 rows) 0%nat, chars_to ++ digest))
    (prev_offset (offsets_from 0 rows) (length pre), acc)
  = Ok (prev_offset (offsets_from 0 rows) (length rows),
        acc ++ concat (map (fun row => fixed_apply F row seed) suf)).
Proof.
  induction suf as [|row suf IH]; intros pre acc Hrows.
  - cbn. rewrite app_nil_r in *. subst pre. reflexivity.
  - cbn [length for_loop map concat]. rewrite bind_Ok.
    rewrite string_column_slice by (rewrite Hrows, length_app; cbn; lia).
    assert (Hrow : nth (length pre) rows [] = row).
    { rewrite Hrows. apply nth_middle. }
    rewrite Hrow.
    change (nth (length pre) (offsets_from 0 rows) 0%nat)
      with (prev_offset (offsets_from 0 rows) (S (length pre))).
    replace (S (length pre)) with (length (pre ++ [row]))
      by (rewrite length_app; cbn; lia).
    rewrite IH by (rewrite Hrows, <- app_assoc; reflexivity).
    rewrite <- app_assoc. reflexivity.
Qed.

(** C8. A function with a seed looks at the column of its last argument
    first.  When that is no ColumnConst, the call throws LOGICAL_ERROR,
    whatever the other arguments are.  When it is, the seed is read from
    it once, as one UInt32, and every row is hashed with that seed. *)
Theorem seed_is_one_constant :
  (forall (arguments : list (IDataType * IColumn)) (type : IDataType)
          (column : IColumn) (rows : nat),
      isColumnConst column = false ->
      executeImpl P true (arguments ++ [(type, column)]) rows = Throw LOGICAL_ERROR)
  /\ (forall (arguments : list (IDataType * IColumn)) (type : IDataType)
             (column : IColumn),
      isColumnConst column = false ->
      executeImpl_fixed F true (arguments ++ [(type, column)]) = Throw LOGICAL_ERROR)
  /\ (forall (arguments : list (IDataType * IColumn)) (type : IDataType)
             (data : IColumn) (s rows : nat),
      executeImpl P true (arguments ++ [(type, ColumnConst data s)]) rows
      = seed ← getValue_UInt32 data; traverse_arguments P true seed arguments rows)
  /\ (forall (data : IColumn) (seed : Z),
      getValue_UInt32 data = Ok seed -> 0 <= seed < 2 ^ 32)
  /\ (forall (strings : list (list byte)) (type : IDataType) (data : IColumn)
             (s : nat) (seed : Z),
      getValue_UInt32 data = Ok seed ->
      executeImpl P true
        [(DataTypeString, string_column strings); (type, ColumnConst data s)]
        (length strings)
      = map_rows (fun i _ => h ← apply P (nth i strings []) seed; Ok (as_ToType P h))
          0 (allocate (length strings)))
  /\ (forall (strings : list (list byte)) (type : IDataType) (data : IColumn)
             (s : nat) (seed : Z),
      getValue_UInt32 data = Ok seed ->
      executeImpl_fixed F true
        [(DataTypeString, string_column strings); (type, ColumnConst data s)]
      = Ok (ColumnFixedString (fixed_length F)
              (concat (map (fun row => fixed_apply F row seed) strings)))).
Proof.
  split; [|split; [|split; [|split; [|split]]]].
  - intros arguments type column rows Hconst.
    unfold executeImpl, read_seed. cbv zeta. rewrite last_snoc.
    destruct column; try reflexivity. discriminate.
  - intros arguments type column Hconst.
    unfold executeImpl_fixed. rewrite last_snoc.
    destruct column; try reflexivity. discriminate.
  - intros arguments type data s rows.
    rewrite executeImpl_traverse. unfold read_seed. cbv zeta. rewrite last_snoc.
    rewrite bind_assoc. apply bind_ext. intros seed. rewrite bind_Ok.
    rewrite length_app. cbn [length].
    replace (length arguments + 1 - 1)%nat with (length arguments) by lia.
    rewrite take_app_length. reflexivity.
  - apply getValue_UInt32_range.
  - intros strings type data s seed Hseed.
    rewrite executeImpl_traverse. unfold read_seed. cbv zeta.
    cbn [last length]. rewrite Hseed, !bind_Ok. cbn [Nat.sub take].
    unfold traverse_arguments. cbn [foldM argument_step].
    unfold string_column. cbn [executeForArgument tuple_columns_of].
    rewrite !bind_assoc. cbn [executeAny]. fold (string_column strings).
    rewrite executeString_dense
      by (unfold allocate; rewrite length_map, length_seq; reflexivity).
    match goal with
    | |- (?m ≫= _) = ?m' =>
        assert (Hm : m = m');
        [|rewrite Hm; generalize m'; intros [r|e]; reflexivity]
    end.
    apply map_rows_ext. intros j acc _. unfold hash_string, applyWithSeed.
    rewrite bind_assoc. apply bind_ext. intros h. reflexivity.
  - intros strings type data s seed Hseed.
    unfold executeImpl_fixed. cbn [last]. rewrite Hseed, bind_Ok.
    cbn [lookup list_lookup string_column].
    rewrite offsets_from_length.
    pose proof (fixed_digests_loop seed strings strings [] [] eq_refl) as Hloop.
    cbn [length prev_offset app] in Hloop. rewrite Hloop. reflexivity.
Qed.

End Seed.

(** ** Tuples *)

(** Induction over types, with the element types of a tuple. *)
Lemma IDataType_nested_ind (Q : IDataType -> Prop) :
  (forall which, Q (DataTypeScalar which)) ->
  Q DataTypeString ->
  (forall n, Q (DataTypeFixedString n)) ->
  (forall nested, Q nested -> Q (DataTypeArray nested)) ->
  (forall elems, Forall Q elems -> Q (DataTypeTuple elems)) ->
  (forall nested, Q nested -> Q (DataTypeMap nested)) ->
  (forall nested, Q nested -> Q (DataTypeByteMap nested)) ->
  Q DataTypeOther ->
  forall type, Q type.
Proof.
  intros Hscalar Hstring Hfixed Harray Htuple Hmap Hbytemap Hother.
  fix IH 1. intros [which| |n|nested|elems|nested|nested|].
  - apply Hscalar.
  - apply Hstring.
  - apply Hfixed.
  - apply Harray, IH.
  - apply Htuple. induction elems as [|t elems IHelems]; constructor; [apply IH|exact IHelems].
  - apply Hmap, IH.
  - apply Hbytemap, IH.
  - apply Hother.
Qed.

Section Tuples.
Context `{hash_h} `{memory_h}.
Variable P : Impl.
Variable with_seed : bool.

Lemma executeForArgument_unfold seed type column state :
  executeForArgument P with_seed seed type column state
  = state' ←
      match tuple_columns_of column with
      | Some tuple_columns =>
          match type with
          | DataTypeTuple tuple_types =>
              if (length tuple_types <? length tuple_columns)%nat
              then (_ ← foldM (argument_step P with_seed seed) state (zip tuple_types tuple_columns);
                    Throw LOGICAL_ERROR)
              else foldM (argument_step P with_seed seed) state (zip tuple_types tuple_columns)
          | _ => Throw LOGICAL_ERROR
          end
      | None =>
          vec_to ← executeAny P with_seed seed (snd state) type column (fst state);
          Ok (vec_to, snd state)
      end;
    Ok (fst state', false).
Proof.
  destruct type; cbn [executeForArgument];
    destruct (tuple_columns_of column) as [tuple_columns|];
    try destruct state as [vec_to is_first]; try reflexivity.
  apply (f_equal (fun m => m ≫= _)).
  revert tuple_columns vec_to is_first.
  induction elems as [|t elems IH]; intros [|c columns] vec_to is_first;
    try reflexivity.
  cbn [length zip zip_with foldM argument_step].
  change (S (length elems) <? S (length columns))%nat
    with (length elems <? length columns)%nat.
  destruct (executeForArgument P with_seed seed t c (vec_to, is_first))
    as [[vec_to' is_first']|e].
  - rewrite !bind_Ok. rewrite IH.
    destruct (length elems <? length columns)%nat; reflexivity.
  - rewrite !bind_Throw. destruct (length elems <? length columns)%nat; reflexivity.
Qed.

Lemma executeForArgument_flag seed type column state vec_to is_first :
  executeForArgument P with_seed seed type column state = Ok (vec_to, is_first) ->
  is_first = false.
Proof.
  rewrite executeForArgument_unfold.
  match goal with |- (?m ≫= _) = _ -> _ => destruct m as [st|e] end;
    [|discriminate].
  rewrite bind_Ok. intros [= _ <-]. reflexivity.
Qed.

Lemma foldM_step_flag seed : forall units state state',
  units <> [] ->
  foldM (argument_step P with_seed seed) state units = Ok state' -> snd state' = false.
Proof.
  induction units as [|[type column] units IH]; intros state state' Hne; [congruence|].
  cbn [foldM argument_step].
  destruct (executeForArgument P with_seed seed type column state)
    as [[vec_to is_first]|e] eqn:Hfirst; [|discriminate].
  rewrite bind_Ok. apply executeForArgument_flag in Hfirst. subst is_first.
  destruct units as [|u units].
  - cbn. intros [= <-]. reflexivity.
  - apply IH. discriminate.
Qed.

Lemma fields_of_Some type column units :
  fields_of (type, column) = Some units ->
  exists tuple_types tuple_columns,
    type = DataTypeTuple tuple_types
    /\ tuple_columns_of column = Some tuple_columns
    /\ length tuple_types = length tuple_columns
    /\ units = zip tuple_types tuple_columns.
Proof.
  unfold fields_of. destruct type; try discriminate.
  destruct (tuple_columns_of column) as [tuple_columns|]; [|discriminate].
  destruct (Nat.eqb_spec (length elems) (length tuple_columns)); [|discriminate].
  intros [= <-]. exists elems, tuple_columns. repeat split; auto.
Qed.

(** A tuple argument is traversed as its fields are, one after the other. *)
Lemma executeForArgument_fields seed type column units state :
  fields_of (type, column) = Some units -> units <> [] ->
  executeForArgument P with_seed seed type column state
  = foldM (argument_step P with_seed seed) state units.
Proof.
  intros Hfields Hne.
  destruct (fields_of_Some _ _ _ Hfields)
    as (tuple_types & tuple_columns & -> & Hcols & Hlen & ->).
  rewrite executeForArgument_unfold, Hcols, Hlen, Nat.ltb_irrefl.
  destruct (foldM (argument_step P with_seed seed) state (zip tuple_types tuple_columns))
    as [[vec_to is_first]|e] eqn:Hfold; [|reflexivity].
  apply foldM_step_flag in Hfold; [|exact Hne].
  cbn in Hfold. subst is_first. reflexivity.
Qed.

Lemma traverse_arguments_fields seed pre argument units post rows :
  fields_of argument = Some units -> units <> [] ->
  traverse_arguments P with_seed seed (pre ++ argument :: post) rows
  = traverse_arguments P with_seed seed (pre ++ units ++ post) rows.
Proof.
  intros Hfields Hne. unfold traverse_arguments. cbv zeta.
  assert (Hvec : forall A (a b : A),
             match pre ++ argument :: post with [] => a | _ => b end
             = match pre ++ units ++ post with [] => a | _ => b end).
  { intros A a b. destruct pre; [|reflexivity].
    destruct units; [congruence|reflexivity]. }
  rewrite Hvec. f_equal.
  rewrite !foldM_app. apply bind_ext. intros state.
  cbn [foldM]. destruct argument as [type column].
  change (argument_step P with_seed seed state (type, column))
    with (executeForArgument P with_seed seed type column state).
  rewrite (executeForArgument_fields seed type column units state Hfields Hne).
  rewrite foldM_app. reflexivity.
Qed.

Lemma take_all_but_last {A : Type} (l : list A) (x : A) :
  take (length (l ++ [x]) - 1) (l ++ [x]) = l.
Proof.
  rewrite length_app. cbn [length].
  replace (length l + 1 - 1)%nat with (length l) by lia.
  apply take_app_length.
Qed.

Lemma executeImpl_snoc arguments type column rows :
  executeImpl P true (arguments ++ [(type, column)]) rows
  = match column with
    | ColumnConst data _ =>
        seed ← getValue_UInt32 data; traverse_arguments P true seed arguments rows
    | _ => Throw LOGICAL_ERROR
    end.
Proof.
  rewrite executeImpl_traverse. unfold read_seed. cbv zeta. rewrite last_snoc.
  destruct column; try reflexivity.
  rewrite bind_assoc. apply bind_ext. intros seed.
  rewrite bind_Ok, take_all_but_last. reflexivity.
Qed.

Lemma executeImpl_no_seed arguments rows :
  executeImpl P false arguments rows = traverse_arguments P false 0 arguments rows.
Proof.
  rewrite executeImpl_traverse. unfold read_seed. cbv zeta.
  rewrite bind_Ok, firstn_all. reflexivity.
Qed.

End Tuples.

Lemma units_of_leaf type column :
  tuple_columns_of column = None -> units_of type column = [(type, column)].
Proof. intros Hleaf. destruct type; cbn [units_of]; rewrite Hleaf; reflexivity. Qed.

Lemma units_of_tuple tuple_types column tuple_columns :
  tuple_columns_of column = Some tuple_columns ->
  units_of (DataTypeTuple tuple_types) column
  = concat (zip_with units_of tuple_types tuple_columns).
Proof.
  intros Hcols. cbn [units_of]. rewrite Hcols. clear Hcols column.
  revert tuple_columns.
  induction tuple_types as [|t tuple_types IH]; intros [|c tuple_columns]; try reflexivity.
  cbn [zip_with concat]. f_equal. apply IH.
Qed.

Lemma tuples_well_formed_tuple tuple_types column tuple_columns :
  tuple_columns_of column = Some tuple_columns ->
  tuples_well_formed (DataTypeTuple tuple_types) column ->
  tuple_columns <> [] /\ Forall2 tuples_well_formed tuple_types tuple_columns.
Proof.
  intros Hcols. cbn [tuples_well_formed]. rewrite Hcols. intros [Hne Hfields].
  split; [exact Hne|]. clear Hne Hcols column.
  revert tuple_columns Hfields.
  induction tuple_types as [|t tuple_types IH]; intros [|c tuple_columns] Hfields;
    try contradiction.
  - constructor.
  - destruct Hfields as [Ht Hfields]. constructor; [exact Ht|apply IH, Hfields].
Qed.

Lemma tuples_well_formed_other type column tuple_columns :
  tuple_columns_of column = Some tuple_columns ->
  tuples_well_formed type column ->
  exists tuple_types, type = DataTypeTuple tuple_types.
Proof.
  intros Hcols. destruct type; cbn [tuples_well_formed]; rewrite Hcols;
    try contradiction.
  intros _. eexists. reflexivity.
Qed.

Section Units.
Context `{hash_h} `{memory_h}.
Variable P : Impl.
Variable with_seed : bool.

Lemma executeForArgument_leaf seed type column state :
  tuple_columns_of column = None ->
  executeForArgument P with_seed seed type column state
  = unit_step P with_seed seed state (type, column).
Proof.
  intros Hleaf. rewrite executeForArgument_unfold, Hleaf.
  destruct state as [vec_to is_first]. cbn [fst snd unit_step].
  rewrite bind_assoc. apply bind_ext. intros v. reflexivity.
Qed.

Lemma traverse_units_flag seed : forall units state state',
  units <> [] ->
  traverse_units P with_seed seed units state = Ok state' -> snd state' = false.
Proof.
  unfold traverse_units.
  induction units as [|[type column] units IH]; intros [vec_to is_first] state' Hne;
    [congruence|].
  cbn [foldM unit_step].
  destruct (executeAny P with_seed seed is_first type column vec_to) as [v|e];
    [|discriminate].
  rewrite !bind_Ok. destruct units as [|u units].
  - cbn. intros [= <-]. reflexivity.
  - apply IH. discriminate.
Qed.

(** An argument with well-formed tuples is traversed as its units are,
    one after the other, and none of them is a tuple. *)
Lemma executeForArgument_units seed type : forall column state,
  tuples_well_formed type column ->
  executeForArgument P with_seed seed type column state
  = traverse_units P with_seed seed (units_of type column) state
  /\ units_of type column <> []
  /\ Forall is_unit (units_of type column).
Proof.
  induction type as [which| |n|nested _|elems IH|nested _|nested _|]
    using IDataType_nested_ind; intros column state Hwf;
    destruct (tuple_columns_of column) as [tuple_columns|] eqn:Hcols;
    try (destruct (tuples_well_formed_other _ _ _ Hcols Hwf) as [tys Htys];
         discriminate Htys);
    try (rewrite (units_of_leaf _ column Hcols);
         split; [|split; [discriminate|repeat constructor; exact Hcols]];
         rewrite (executeForArgument_leaf _ _ _ _ Hcols);
         unfold traverse_units; cbn [foldM];
         destruct (unit_step _ _ _ _ _); reflexivity).
  destruct (tuples_well_formed_tuple _ _ _ Hcols Hwf) as [Hne Hfields].
  rewrite (units_of_tuple _ _ _ Hcols).
  assert (Hlen : length elems = length tuple_columns)
    by (eapply Forall2_length; exact Hfields).
  assert (Hall : forall state,
             foldM (argument_step P with_seed seed) state (zip elems tuple_columns)
             = traverse_units P with_seed seed
                 (concat (zip_with units_of elems tuple_columns)) state
             /\ (tuple_columns <> [] ->
                 concat (zip_with units_of elems tuple_columns) <> [])
             /\ Forall is_unit (concat (zip_with units_of elems tuple_columns))).
  { clear Hne Hlen Hcols Hwf state. induction Hfields as [|t c tys cols Ht Hrest IHrest].
    - intros state. split; [reflexivity|]. split; [congruence|constructor].
    - apply Forall_cons in IH as [IHt IH]. intros state.
      destruct (IHt c state Ht) as (Hrun & Hnonempty & Hunits).
      cbn [zip zip_with concat foldM argument_step].
      split; [|split].
      + rewrite Hrun. unfold traverse_units. rewrite foldM_app.
        apply bind_ext. intros state'. apply (IHrest IH state').
      + intros _ Hnil. apply app_eq_nil in Hnil as [Hnil _]. contradiction.
      + apply Forall_app. split; [exact Hunits|].
        apply (IHrest IH state). }
  destruct (Hall state) as (Hrun & Hnonempty & Hunits).
  split; [|split; [apply Hnonempty, Hne|exact Hunits]].
  rewrite executeForArgument_unfold, Hcols, Hlen, Nat.ltb_irrefl, Hrun.
  destruct (traverse_units P with_seed seed
              (concat (zip_with units_of elems tuple_columns)) state)
    as [[vec_to is_first]|e] eqn:Hfold; [|reflexivity].
  apply traverse_units_flag in Hfold; [|apply Hnonempty, Hne].
  cbn in Hfold. subst is_first. reflexivity.
Qed.

End Units.

Lemma is_unit_well_formed argument : is_unit argument -> well_formed_argument argument.
Proof.
  destruct argument as [type column]. unfold is_unit, well_formed_argument. cbn [fst snd].
  intros Hleaf. destruct type; cbn [tuples_well_formed]; rewrite Hleaf; exact I.
Qed.

Lemma units_of_arguments_units units :
  Forall is_unit units -> units_of_arguments units = units.
Proof.
  unfold units_of_arguments.
  induction 1 as [|[type column] units Hunit _ IH]; [reflexivity|].
  cbn [flat_map]. rewrite IH, (units_of_leaf type column Hunit). reflexivity.
Qed.

Section FlattenedArguments.
Context `{hash_h} `{memory_h}.
Variable P : Impl.
Variable with_seed : bool.

Lemma foldM_arguments_units seed arguments :
  Forall well_formed_argument arguments ->
  (forall state,
      foldM (argument_step P with_seed seed) state arguments
      = traverse_units P with_seed seed (units_of_arguments arguments) state)
  /\ (arguments <> [] -> units_of_arguments arguments <> [])
  /\ Forall is_unit (units_of_arguments arguments).
Proof.
  unfold units_of_arguments.
  induction 1 as [|[type column] arguments Hwf _ (IHrun & IHne & IHunits)].
  - split; [reflexivity|]. split; [congruence|constructor].
  - cbn [flat_map]. split; [|split].
    + intros state. cbn [foldM argument_step].
      destruct (executeForArgument_units P with_seed seed type column state Hwf)
        as (Hrun & _ & _).
      rewrite Hrun. unfold traverse_units. rewrite foldM_app.
      apply bind_ext. intros state'. apply IHrun.
    + intros _ Hnil. apply app_eq_nil in Hnil as [Hnil _].
      destruct (executeForArgument_units P with_seed seed type column ([], true) Hwf)
        as (_ & Hne & _).
      contradiction.
    + apply Forall_app. split; [|exact IHunits].
      destruct (executeForArgument_units P with_seed seed type column ([], true) Hwf)
        as (_ & _ & Hunits).
      exact Hunits.
Qed.

Lemma traverse_arguments_as_units seed arguments rows :
  Forall well_formed_argument arguments ->
  traverse_arguments P with_seed seed arguments rows
  = state ← traverse_units P with_seed seed (units_of_arguments arguments)
              (match arguments with
               | [] => replicate rows (as_ToType P 0xe28dbde7fe22e41c)
               | _ => allocate rows
               end, true);
    Ok (fst state).
Proof.
  intros Hwf. unfold traverse_arguments. cbv zeta.
  destruct (foldM_arguments_units seed arguments Hwf) as (Hrun & _ & _).
  rewrite Hrun. reflexivity.
Qed.

Lemma traverse_arguments_units seed arguments rows :
  Forall well_formed_argument arguments ->
  traverse_arguments P with_seed seed arguments rows
  = traverse_arguments P with_seed seed (units_of_arguments arguments) rows.
Proof.
  intros Hwf.
  destruct (foldM_arguments_units seed arguments Hwf) as (_ & Hne & Hunits).
  rewrite (traverse_arguments_as_units seed arguments rows Hwf).
  rewrite (traverse_arguments_as_units seed (units_of_arguments arguments) rows)
    by (eapply Forall_impl; [exact Hunits|apply is_unit_well_formed]).
  rewrite (units_of_arguments_units _ Hunits).
  destruct arguments as [|a arguments]; [reflexivity|].
  destruct (units_of_arguments (a :: arguments)) eqn:E; [|reflexivity].
  exfalso. apply Hne; [discriminate|reflexivity].
Qed.

End FlattenedArguments.

Section TupleArguments.
Context `{hash_h} `{memory_h}.
Variable P : Impl.

(** C2.  A call argument that is a tuple gives the result column that its
    fields give as arguments of their own, in the order of the fields,
    and the call gives the result of its units, where no unit is a tuple:
    the first unit is assigned to the rows, every later one is combined
    into them.  A tuple type has at least one element; that is what
    [units <> []] and [well_formed_argument] ask of the tuples, at any
    depth. *)
Theorem tuple_argument_as_its_fields (rows : nat) :
  (forall (pre post units : list (IDataType * IColumn))
          (argument : IDataType * IColumn),
      fields_of argument = Some units -> units <> [] ->
      executeImpl P false (pre ++ argument :: post) rows
      = executeImpl P false (pre ++ units ++ post) rows
      /\ forall seed_argument : IDataType * IColumn,
           executeImpl P true (pre ++ argument :: post ++ [seed_argument]) rows
           = executeImpl P true (pre ++ units ++ post ++ [seed_argument]) rows)
  /\ (forall arguments : list (IDataType * IColumn),
      Forall well_formed_argument arguments ->
      let units := units_of_arguments arguments in
      Forall is_unit units
      /\ executeImpl P false arguments rows = executeImpl P false units rows
      /\ (forall seed_argument : IDataType * IColumn,
           executeImpl P true (arguments ++ [seed_argument]) rows
           = executeImpl P true (units ++ [seed_argument]) rows)
      /\ executeImpl P false arguments rows
         = state ← traverse_units P false 0 units
                     (match arguments with
                      | [] => replicate rows (as_ToType P 0xe28dbde7fe22e41c)
                      | _ => allocate rows
                      end, true);
           Ok (fst state)).
Proof.
  split.
  - intros pre post units argument Hfields Hne. split.
    + rewrite !executeImpl_no_seed. apply traverse_arguments_fields; assumption.
    + intros [type column].
      replace (pre ++ argument :: post ++ [(type, column)])
        with ((pre ++ argument :: post) ++ [(type, column)])
        by (rewrite <- app_assoc; reflexivity).
      replace (pre ++ units ++ post ++ [(type, column)])
        with ((pre ++ units ++ post) ++ [(type, column)])
        by (rewrite <- !app_assoc; reflexivity).
      rewrite !executeImpl_snoc. destruct column; try reflexivity.
      apply bind_ext. intros seed. apply traverse_arguments_fields; assumption.
  - intros arguments Hwf units.
    destruct (foldM_arguments_units P false 0 arguments Hwf) as (_ & _ & Hunits).
    split; [exact Hunits|]. split; [|split].
    + rewrite !executeImpl_no_seed. apply traverse_arguments_units, Hwf.
    + intros [type column]. rewrite !executeImpl_snoc.
      destruct column; try reflexivity.
      apply bind_ext. intros seed. apply traverse_arguments_units, Hwf.
    + rewrite executeImpl_no_seed. apply traverse_arguments_as_units, Hwf.
Qed.

End TupleArguments.

Lemma tuple_argument_as_its_fields_witness :
  executeImpl (H := demo_hash_h) (H0 := demo_memory_h) demo_murmurHash2_32WithSeed false
    [(DataTypeTuple [DataTypeString; DataTypeScalar TypeIndex.UInt8],
      ColumnTuple [string_column [bytes "a"]; ColumnVector FromType.UInt8 [1]])] 1
  = executeImpl (H := demo_hash_h) (H0 := demo_memory_h) demo_murmurHash2_32WithSeed false
      [(DataTypeString, string_column [bytes "a"]);
       (DataTypeScalar TypeIndex.UInt8, ColumnVector FromType.UInt8 [1])] 1.
Proof.
  destruct (tuple_argument_as_its_fields (H := demo_hash_h) (H0 := demo_memory_h)
              demo_murmurHash2_32WithSeed 1) as (Hfields & _).
  apply (Hfields [] []
           [(DataTypeString, string_column [bytes "a"]);
            (DataTypeScalar TypeIndex.UInt8, ColumnVector FromType.UInt8 [1])]
           (DataTypeTuple [DataTypeString; DataTypeScalar TypeIndex.UInt8],
            ColumnTuple [string_column [bytes "a"]; ColumnVector FromType.UInt8 [1]])).
  - reflexivity.
  - discriminate.
Defined.

(** ** One slot for every row *)

Lemma for_loop_invariant {St : Type} (Inv : St -> Prop)
    (body : nat -> St -> result St) n : forall i s s',
  (forall j s1 s2, Inv s1 -> body j s1 = Ok s2 -> Inv s2) ->
  Inv s -> for_loop n i body s = Ok s' -> Inv s'.
Proof.
  induction n as [|n IH]; intros i s s' Hbody Hinv; cbn [for_loop].
  - intros [= <-]. exact Hinv.
  - destruct (body i s) as [s1|e] eqn:Hstep; [|discriminate].
    rewrite bind_Ok. apply IH; [exact Hbody|]. exact (Hbody i s s1 Hinv Hstep).
Qed.

Lemma bind_Ok_inv {A B : Type} (m : result A) (k : A -> result B) (b : B) :
  (m ≫= k) = Ok b -> exists a, m = Ok a /\ k a = Ok b.
Proof. destruct m as [a|e]; [|discriminate]. intros Hk. exists a. split; [reflexivity|exact Hk]. Qed.

Section Lengths.
Context `{hash_h} `{memory_h}.
Variable P : Impl.
Variable with_seed : bool.

Lemma store_length first i h vec r :
  store P first i h vec = Ok r -> length r = length vec.
Proof.
  unfold store. destruct first.
  - intros [= <-]. apply length_insert.
  - intros Hr. apply bind_Ok_inv in Hr as (v & _ & [= <-]). apply length_insert.
Qed.

Lemma store_loop_length n (f : nat -> list Z -> result (list Z)) : forall i vec r,
  (forall j v1 v2, f j v1 = Ok v2 -> length v2 = length v1) ->
  for_loop n i f vec = Ok r -> length r = length vec.
Proof.
  intros i vec r Hf.
  apply (for_loop_invariant (fun v => length v = length vec)); [|reflexivity].
  intros j v1 v2 Hv1 Hstep. rewrite (Hf j v1 v2 Hstep). exact Hv1.
Qed.

Lemma store_const_length first hash vec r :
  store_const P first hash vec = Ok r -> length r = length vec.
Proof.
  unfold store_const. cbv zeta. destruct first.
  - intros [= <-]. apply length_replicate.
  - apply store_loop_length. intros j v1 v2. apply store_length.
Qed.

Lemma offset_loop_length n (f : nat -> nat * list Z -> result (nat * list Z)) :
  forall i cur vec r,
    (forall j c v1 s2, f j (c, v1) = Ok s2 -> length (snd s2) = length v1) ->
    for_loop n i f (cur, vec) = Ok r -> length (snd r) = length vec.
Proof.
  intros i cur vec r Hf.
  apply (for_loop_invariant (fun s => length (snd s) = length vec)); [|reflexivity].
  intros j [c v1] s2 Hv1 Hstep. rewrite (Hf j c v1 s2 Hstep). exact Hv1.
Qed.

Lemma executeIntType_length seed T first column vec r :
  executeIntType P with_seed seed T first column vec = Ok r -> length r = length vec.
Proof.
  unfold executeIntType. destruct column as [T' data| | | | | | |data s|]; try discriminate.
  - destruct (decide (T' = T)); [|discriminate].
    apply store_loop_length. intros j v1 v2 Hstep.
    apply bind_Ok_inv in Hstep as (h & _ & Hstore). apply (store_length _ _ _ _ _ Hstore).
  - destruct data as [T' data| | | | | | | |]; try discriminate.
    destruct (decide (T' = T)); [|discriminate]. cbv zeta.
    intros Hr. apply bind_Ok_inv in Hr as (h & _ & Hstore).
    apply (store_const_length _ _ _ _ Hstore).
Qed.

Lemma executeBigIntType_length seed T first column vec r :
  executeBigIntType P with_seed seed T first column vec = Ok r -> length r = length vec.
Proof.
  unfold executeBigIntType.
  destruct column as [T' data| | | | | | |data s|]; try discriminate.
  - destruct (decide (T' = T)); [|discriminate].
    apply store_loop_length. intros j v1 v2 Hstep.
    apply bind_Ok_inv in Hstep as (h & _ & Hstore). apply (store_length _ _ _ _ _ Hstore).
  - destruct data as [T' data| | | | | | | |]; try discriminate.
    destruct (decide (T' = T)); [|discriminate]. cbv zeta.
    intros Hr. apply bind_Ok_inv in Hr as (h & _ & Hstore).
    apply (store_const_length _ _ _ _ Hstore).
Qed.

Lemma executeGeneric_length seed first column vec r :
  executeGeneric P with_seed seed first column vec = Ok r -> length r = length vec.
Proof.
  unfold executeGeneric. apply store_loop_length. intros j v1 v2 Hstep. cbv zeta in Hstep.
  apply bind_Ok_inv in Hstep as (h & _ & Hstore). apply (store_length _ _ _ _ _ Hstore).
Qed.

Lemma executeString_length seed first column vec r :
  executeString P with_seed seed first column vec = Ok r -> length r = length vec.
Proof.
  unfold executeString.
  destruct column as [|data offsets|n data| | | | |data s|]; try discriminate.
  - cbv zeta. intros Hr. apply bind_Ok_inv in Hr as (st & Hloop & [= <-]).
    revert Hloop. apply offset_loop_length. intros j c v1 s2 Hstep.
    apply bind_Ok_inv in Hstep as (h & _ & Hstep).
    apply bind_Ok_inv in Hstep as (v2 & Hstore & [= <-]).
    apply (store_length _ _ _ _ _ Hstore).
  - cbv zeta. apply store_loop_length. intros j v1 v2 Hstep.
    apply bind_Ok_inv in Hstep as (h & _ & Hstore). apply (store_length _ _ _ _ _ Hstore).
  - destruct (getValue_String data); [|discriminate].
    intros Hr. apply bind_Ok_inv in Hr as (h & _ & Hstore).
    apply (store_const_length _ _ _ _ Hstore).
Qed.

Lemma executeArray_full_length nested first data offsets vec r :
  executeArray_full P nested first data offsets vec = Ok r -> length r = length vec.
Proof.
  unfold executeArray_full. cbv zeta. intros Hr.
  apply bind_Ok_inv in Hr as (vec_temp & _ & Hr).
  apply bind_Ok_inv in Hr as (st & Hloop & [= <-]).
  revert Hloop. apply offset_loop_length. intros j c v1 s2 Hstep.
  apply bind_Ok_inv in Hstep as (v2 & Hstore & Hstep).
  apply bind_Ok_inv in Hstep as (v3 & Hinner & [= <-]).
  cbn [snd]. rewrite <- (store_length _ _ _ _ _ Hstore).
  revert Hinner. apply store_loop_length. intros j' v v' Hv. apply (store_length _ _ _ _ _ Hv).
Qed.

Lemma executeArray_with_length nested first column vec r :
  executeArray_with P nested first column vec = Ok r -> length r = length vec.
Proof.
  unfold executeArray_with.
  destruct column as [| | |data offsets| | | |data s|]; try discriminate.
  - apply executeArray_full_length.
  - destruct data; try discriminate.
    destruct (convertToFullColumn _); try discriminate.
    apply executeArray_full_length.
Qed.

Lemma executeTuple_fields_length
    (field : IDataType -> IColumn -> list Z -> result (list Z)) tuple_types :
  Forall (fun type => forall column vec r,
            field type column vec = Ok r -> length r = length vec) tuple_types ->
  forall tuple_columns vec r,
    executeTuple_fields field tuple_types tuple_columns vec = Ok r ->
    length r = length vec.
Proof.
  induction 1 as [|type tuple_types Htype _ IH]; intros [|column tuple_columns] vec r;
    cbn [executeTuple_fields]; try discriminate; try (intros [= <-]; reflexivity).
  intros Hr. apply bind_Ok_inv in Hr as (v & Hfield & Hrest).
  rewrite (IH _ _ _ Hrest). apply (Htype _ _ _ Hfield).
Qed.

(** The traversal of a column leaves as many slots as it found. *)
Lemma executeAny_length seed type : forall first column vec r,
  executeAny P with_seed seed first type column vec = Ok r -> length r = length vec.
Proof.
  induction type as [which| |n|nested _|elems IH|nested _|nested _|]
    using IDataType_nested_ind; intros first column vec r; cbn [executeAny].
  - destruct (scalar_path which); [apply executeIntType_length|apply executeBigIntType_length].
  - apply executeString_length.
  - apply executeString_length.
  - apply executeArray_with_length.
  - destruct (tuple_columns_of column); [|discriminate].
    apply executeTuple_fields_length.
    eapply Forall_impl; [exact IH|]. intros type Htype c v r'. apply Htype.
  - destruct (nested_of_map column); [|discriminate].
    destruct nested; try discriminate. apply executeArray_with_length.
  - destruct (nested_of_byte_map column); [|discriminate].
    destruct nested; try discriminate. apply executeArray_with_length.
  - apply executeGeneric_length.
Qed.

End Lengths.

(** ** Policies that do not combine *)

Lemma throws_not_returns {A : Type} (m : result A) : throws m <-> ~ returns m.
Proof.
  split.
  - intros [e ->] [a Ha]. discriminate.
  - intros Hno. destruct m as [a|e]; [|exists e; reflexivity].
    exfalso. apply Hno. exists a. reflexivity.
Qed.

Lemma throws_bind_l {A B : Type} (m : result A) (k : A -> result B) :
  throws m -> throws (m ≫= k).
Proof. intros [e ->]. exists e. reflexivity. Qed.






Section NotCombinable.
Context `{hash_h} `{memory_h}.
Variable P : Impl.
Variable with_seed : bool.
Hypothesis combineHashes_throws :
  forall h1 h2, combineHashes P h1 h2 = Throw NOT_IMPLEMENTED.











End NotCombinable.

Section NotCombinableCalls.
Context `{hash_h} `{memory_h}.
Variable P : Impl.
Hypothesis combineHashes_throws :
  forall h1 h2, combineHashes P h1 h2 = Throw NOT_IMPLEMENTED.

Lemma allocate_length n : length (allocate n) = n.
Proof. unfold allocate. rewrite length_map, length_seq. reflexivity. Qed.


Hypothesis apply_returns : forall data seed, exists h, apply P data seed = Ok h.



End NotCombinableCalls.

Section JavaHashes.
Context `{hash_h} `{memory_h}.


End JavaHashes.



Lemma seed_is_one_constant_witness :
  executeImpl (H := demo_hash_h) (H0 := demo_memory_h) demo_murmurHash2_32WithSeed true
    [(DataTypeString, string_column [bytes "a"; bytes "b"]);
     (DataTypeScalar TypeIndex.UInt64,
      ColumnConst (ColumnVector FromType.UInt64 [0x100000007]) 2)] 2
  = map_rows
      (fun i _ => h ← apply demo_murmurHash2_32WithSeed (nth i [bytes "a"; bytes "b"] []) 7;
                  Ok (as_ToType demo_murmurHash2_32WithSeed h))
      0 (allocate (H := demo_memory_h) 2)
  /\ executeImpl (H := demo_hash_h) (H0 := demo_memory_h) demo_murmurHash2_32WithSeed true
       [(DataTypeString, string_column [bytes "a"]);
        (DataTypeScalar TypeIndex.UInt64, ColumnVector FromType.UInt64 [7])] 1
     = Throw LOGICAL_ERROR.
Proof.
  destruct (seed_is_one_constant (H := demo_hash_h) (H0 := demo_memory_h)
              demo_murmurHash2_32WithSeed
              {| fixed_name := "demo"; fixed_length := 0; fixed_apply := fun _ _ => [] |})
    as (Hnot_const & _ & _ & _ & Hstrings & _).
  split.
  - apply (Hstrings [bytes "a"; bytes "b"] (DataTypeScalar TypeIndex.UInt64)
             (ColumnVector FromType.UInt64 [0x100000007]) 2%nat 7).
    reflexivity.
  - apply (Hnot_const [(DataTypeString, string_column [bytes "a"])]
             (DataTypeScalar TypeIndex.UInt64) (ColumnVector FromType.UInt64 [7]) 1%nat).
    reflexivity.
Defined.

(** * More of FunctionsHashing.h *)

(** ** One argument *)

Lemma map_rows_pure (g : nat -> Z) : forall (vec : list Z) i,
  map_rows (fun j _ => Ok (g j)) i vec = Ok (map g (seq i (length vec))).
Proof.
  induction vec as [|a vec IH]; intros i; [reflexivity|].
  cbn [map_rows length seq map]. rewrite bind_Ok, IH. reflexivity.
Qed.

Lemma map_at_seq {A : Type} (f : Z -> A) (data : list Z) :
  map (fun j => f (at_ data j)) (seq 0 (length data)) = map f data.
Proof.
  induction data as [|a data IH] using rev_ind; [reflexivity|].
  rewrite length_app, Nat.add_comm. cbn [length Nat.add].
  rewrite seq_S, !map_app. cbn [map Nat.add]. f_equal.
  - rewrite <- IH. apply map_ext_in. intros j Hj. apply in_seq in Hj.
    unfold at_. rewrite app_nth1 by lia. reflexivity.
  - unfold at_. rewrite nth_middle. reflexivity.
Qed.

Section OneUnit.
Context `{hash_h} `{memory_h}.
Variable P : Impl.
Variable with_seed : bool.

Lemma map_rows_first (d : nat -> result Z) (vec : list Z) i :
  map_rows (fun j acc => h ← d j; assign_or_combine P true acc h) i vec
  = map_rows (fun j _ => d j) i vec.
Proof.
  apply map_rows_ext. intros j acc _. unfold assign_or_combine. apply bind_ret.
Qed.

(** A call with one argument that is no tuple traverses it as the first
    unit over a fresh container. *)
Lemma traverse_one_unit seed type column rows :
  tuple_columns_of column = None ->
  traverse_arguments P with_seed seed [(type, column)] rows
  = executeAny P with_seed seed true type column (allocate rows).
Proof.
  intros Hleaf. unfold traverse_arguments. cbn [foldM argument_step].
  rewrite executeForArgument_leaf by exact Hleaf. cbn [unit_step].
  destruct (executeAny P with_seed seed true type column (allocate rows)); reflexivity.
Qed.

End OneUnit.

(** ** Policies with use_int_hash_for_pods *)

Section PodPolicies.
Context `{hash_h} `{memory_h} `{city_h}.
Context `{city128_h} `{hive_city_h} `{farmhash_h} `{metrohash_h} `{union_h}.

(** cityHash64, hiveCityHash64, farmFingerprint64, farmHash64 and
    metroHash64 are the policies with [use_int_hash_for_pods], and each
    returns UInt64.  So the 32-bit branch of executeIntType is never
    taken, and a call of one of them on one column of a type that goes
    through executeIntType gives, in every row, [intHash64] of the bits
    of the value xor-ed with the constant of IntHash64Impl, whatever the
    hash of the policy is; a constant column gives that of its value. *)
Theorem pod_policies_hash_numbers_with_intHash64 :
  let digest (T : FromType.t) (v : Z) : Z :=
    UInt64 (intHash64 (Z.lxor (bit_cast_UInt64 T v) 0x4CF2D2BAAE6DA887)) in
  Forall (fun P : Impl =>
      use_int_hash_for_pods P = true
      /\ ReturnType P = AsUInt64
      /\ (forall (which : TypeIndex.t) (T : FromType.t) (data : list Z),
           scalar_path which = IntType T ->
           executeImpl P false [(DataTypeScalar which, ColumnVector T data)] (length data)
           = Ok (map (digest T) data))
      /\ (forall (which : TypeIndex.t) (T : FromType.t) (v : Z) (rows : nat),
           scalar_path which = IntType T ->
           executeImpl P false
             [(DataTypeScalar which, ColumnConst (ColumnVector T [v]) rows)] rows
           = Ok (replicate rows (digest T v))))
    pod_policies.
Proof.
  intros digest.
  assert (Hall : forall P : Impl,
             use_int_hash_for_pods P = true -> ReturnType P = AsUInt64 ->
             use_int_hash_for_pods P = true
             /\ ReturnType P = AsUInt64
             /\ (forall (which : TypeIndex.t) (T : FromType.t) (data : list Z),
                  scalar_path which = IntType T ->
                  executeImpl P false [(DataTypeScalar which, ColumnVector T data)]
                    (length data)
                  = Ok (map (digest T) data))
             /\ (forall (which : TypeIndex.t) (T : FromType.t) (v : Z) (rows : nat),
                  scalar_path which = IntType T ->
                  executeImpl P false
                    [(DataTypeScalar which, ColumnConst (ColumnVector T [v]) rows)] rows
                  = Ok (replicate rows (digest T v)))).
  { intros P Hpod H64. split; [exact Hpod|]. split; [exact H64|].
    assert (Hpod_digest : forall T v, hash_pod P false 0 T v = Ok (digest T v)).
    { intros T v. unfold hash_pod, as_ToType, ToType. rewrite Hpod, H64. reflexivity. }
    split.
    - intros which T data Hpath.
      rewrite executeImpl_no_seed, traverse_one_unit by reflexivity.
      cbn [executeAny]. rewrite Hpath.
      rewrite executeIntType_dense by apply allocate_length.
      rewrite map_rows_first.
      rewrite (map_rows_ext _ (fun j _ => Ok (digest T (at_ data j))))
        by (intros j acc _; apply Hpod_digest).
      rewrite map_rows_pure, allocate_length. f_equal. apply map_at_seq.
    - intros which T v rows Hpath.
      rewrite executeImpl_no_seed, traverse_one_unit by reflexivity.
      cbn [executeAny]. rewrite Hpath, executeIntType_const, Hpod_digest, bind_Ok.
      rewrite map_rows_assign, allocate_length. reflexivity. }
  repeat constructor; apply Hall; reflexivity.
Qed.

End PodPolicies.

(** ** FixedString and String *)

Section FixedStrings.
Context `{hash_h} `{memory_h}.
Variable P : Impl.
Variable with_seed : bool.

(** A column of FixedString(n) is hashed as the String column whose rows
    hold the same [n] bytes, padding included: as the first unit and as a
    later one, and as the one argument of a call. *)
Theorem fixed_string_column_as_string_column (n : nat) (rows : list (list byte)) :
  (0 < n)%nat -> Forall (fun row => length row = n) rows ->
  (forall (seed : Z) (first : bool) (vec_to : list Z),
      length vec_to = length rows ->
      executeAny P with_seed seed first (DataTypeFixedString n)
        (fixed_string_column n rows) vec_to
      = executeAny P with_seed seed first DataTypeString (string_column rows) vec_to)
  /\ executeImpl P false [(DataTypeFixedString n, fixed_string_column n rows)] (length rows)
     = executeImpl P false [(DataTypeString, string_column rows)] (length rows).
Proof.
  intros Hn Hall.
  assert (Hany : forall (seed : Z) (first : bool) (vec_to : list Z),
             length vec_to = length rows ->
             executeAny P with_seed seed first (DataTypeFixedString n)
               (fixed_string_column n rows) vec_to
             = executeAny P with_seed seed first DataTypeString (string_column rows)
                 vec_to).
  { intros seed first vec_to Hlen. cbn [executeAny].
    rewrite executeString_fixed_dense, executeString_dense by assumption.
    reflexivity. }
  split; [exact Hany|].
  rewrite !executeImpl_no_seed, !traverse_one_unit by reflexivity.
  cbn [executeAny].
  rewrite executeString_fixed_dense, executeString_dense
    by (try assumption; apply allocate_length).
  reflexivity.
Qed.

End FixedStrings.

Lemma fixed_string_column_as_string_column_witness :
  executeImpl (H := demo_hash_h) (H0 := demo_memory_h) JavaHash false
    [(DataTypeFixedString 2, fixed_string_column 2 [bytes "ab"; bytes "cd"])] 2
  = executeImpl (H := demo_hash_h) (H0 := demo_memory_h) JavaHash false
      [(DataTypeString, string_column [bytes "ab"; bytes "cd"])] 2.
Proof.
  apply (fixed_string_column_as_string_column (H := demo_hash_h) (H0 := demo_memory_h)
           JavaHash false 2 [bytes "ab"; bytes "cd"]).
  - lia.
  - repeat constructor.
Defined.

(** ** One digest for every row *)

Section ResultRows.
Context `{hash_h} `{memory_h}.
Variable P : Impl.
Variable with_seed : bool.

Lemma foldM_invariant {St A : Type} (Inv : St -> Prop) (f : St -> A -> result St) :
  forall (l : list A) (s s' : St),
    Forall (fun a => forall s1 s2, Inv s1 -> f s1 a = Ok s2 -> Inv s2) l ->
    Inv s -> foldM f s l = Ok s' -> Inv s'.
Proof.
  induction l as [|a l IH]; intros s s' Hall Hinv; cbn [foldM].
  - intros [= <-]. exact Hinv.
  - apply Forall_cons in Hall as [Ha Hall].
    intros Hfold. apply bind_Ok_inv in Hfold as (s1 & Hstep & Hrest).
    apply (IH s1 s' Hall); [|exact Hrest]. exact (Ha s s1 Hinv Hstep).
Qed.

Lemma executeForArgument_length seed (n : nat) (type : IDataType) :
  forall (column : IColumn) (state state' : list Z * bool),
    length (fst state) = n ->
    executeForArgument P with_seed seed type column state = Ok state' ->
    length (fst state') = n.
Proof.
  induction type as [which| |k|nested _|elems IH|nested _|nested _|]
    using IDataType_nested_ind; intros column state state' Hlen;
    rewrite executeForArgument_unfold; intros Hrun;
    apply bind_Ok_inv in Hrun as (st & Hrun & [= <-]); cbn [fst];
    destruct (tuple_columns_of column) as [tuple_columns|]; try discriminate;
    try (apply bind_Ok_inv in Hrun as (v & Hany & [= <-]); cbn [fst];
         rewrite (executeAny_length _ _ _ _ _ _ _ _ Hany); exact Hlen).
  destruct (length elems <? length tuple_columns)%nat.
  - apply bind_Ok_inv in Hrun as (s1 & _ & Habs). discriminate.
  - revert Hlen Hrun.
    apply (foldM_invariant (fun s => length (fst s) = n)).
    clear - IH. revert tuple_columns.
    induction IH as [|type elems Htype _ IHelems]; intros [|c tuple_columns];
      cbn [zip zip_with]; constructor.
    + intros s1 s2 Hs1 Hstep. exact (Htype c s1 s2 Hs1 Hstep).
    + apply IHelems.
Qed.

(** A call that returns gives one digest for every row of the block:
    the result column has [input_rows_count] rows, whatever the
    arguments are. *)
Theorem executeImpl_one_digest_per_row (arguments : list (IDataType * IColumn))
    (input_rows_count : nat) (col_to : list Z) :
  executeImpl P with_seed arguments input_rows_count = Ok col_to ->
  length col_to = input_rows_count.
Proof.
  rewrite executeImpl_traverse. intros Hrun.
  apply bind_Ok_inv in Hrun as ([seed size] & _ & Hrun).
  unfold traverse_arguments in Hrun.
  apply bind_Ok_inv in Hrun as (state & Hfold & [= <-]).
  revert Hfold.
  apply (foldM_invariant (fun s => length (fst s) = input_rows_count)).
  - apply Forall_forall. intros [type column] _ s1 s2 Hs1 Hstep.
    exact (executeForArgument_length seed input_rows_count type column s1 s2 Hs1 Hstep).
  - cbn [fst]. destruct (take size arguments).
    + apply length_replicate.
    + apply allocate_length.
Qed.

End ResultRows.

Lemma executeImpl_one_digest_per_row_witness :
  executeImpl (H := demo_hash_h) (H0 := demo_memory_h) JavaHash false
    [(DataTypeString, string_column [bytes "ab"; bytes "ad"])] 2
  = Ok [3105; 3107]
  /\ length [3105; 3107] = 2%nat.
Proof.
  split; [reflexivity|].
  apply (executeImpl_one_digest_per_row (H := demo_hash_h) (H0 := demo_memory_h)
           JavaHash false [(DataTypeString, string_column [bytes "ab"; bytes "ad"])] 2).
  reflexivity.
Defined.

(** ** Maps *)

Section Maps.
Context `{hash_h} `{memory_h}.
Variable P : Impl.
Variable with_seed : bool.

(** A Map column is hashed as its nested array column is, and a constant
    Map column as its materialized column.  A ByteMap column is hashed as
    its nested array column too, but no constant column is accepted for
    the type ByteMap: executeByteMap looks for a constant ColumnMap,
    materializes it and finds the full column to be no ColumnByteMap, so
    every constant column ends with ILLEGAL_COLUMN, and a call with a
    constant ByteMap column among its arguments never returns. *)
Theorem constant_byte_map_is_an_illegal_column (seed : Z) (first : bool)
    (element_type : IDataType) (vec_to : list Z) :
  (forall (nested_type : IDataType) (data : IColumn) (s : nat),
      executeAny P with_seed seed first (DataTypeByteMap nested_type)
        (ColumnConst data s) vec_to
      = Throw ILLEGAL_COLUMN)
  /\ (forall nested : IColumn,
      executeAny P with_seed seed first (DataTypeByteMap (DataTypeArray element_type))
        (ColumnByteMap nested) vec_to
      = executeAny P with_seed seed first (DataTypeArray element_type) nested vec_to)
  /\ (forall nested : IColumn,
      executeAny P with_seed seed first (DataTypeMap (DataTypeArray element_type))
        (ColumnMap nested) vec_to
      = executeAny P with_seed seed first (DataTypeArray element_type) nested vec_to)
  /\ (forall (nested : IColumn) (s : nat),
      executeAny P with_seed seed first (DataTypeMap (DataTypeArray element_type))
        (ColumnConst (ColumnMap nested) s) vec_to
      = executeAny P with_seed seed first (DataTypeMap (DataTypeArray element_type))
          (convertToFullColumn (ColumnConst (ColumnMap nested) s)) vec_to)
  /\ (forall (pre post : list (IDataType * IColumn)) (nested_type : IDataType)
             (nested : IColumn) (s rows : nat),
      throws (executeImpl P false
                (pre ++ (DataTypeByteMap nested_type, ColumnConst (ColumnByteMap nested) s)
                     :: post) rows))
  /\ (forall (post : list (IDataType * IColumn)) (nested_type : IDataType)
             (nested : IColumn) (s rows : nat),
      executeImpl P false
        ((DataTypeByteMap nested_type, ColumnConst (ColumnByteMap nested) s) :: post) rows
      = Throw ILLEGAL_COLUMN).
Proof.
  assert (Hconst : forall (ws : bool) (sd : Z) (fst_ : bool) (nested_type : IDataType)
                          (data : IColumn) (s : nat) (vec : list Z),
             executeAny P ws sd fst_ (DataTypeByteMap nested_type)
               (ColumnConst data s) vec
             = Throw ILLEGAL_COLUMN).
  { intros ws sd fst_ nested_type data s vec. cbn [executeAny].
    destruct data; reflexivity. }
  assert (Hstep : forall (nested_type : IDataType) (nested : IColumn) (s : nat)
                         (state : list Z * bool),
             argument_step P false 0 state
               (DataTypeByteMap nested_type, ColumnConst (ColumnByteMap nested) s)
             = Throw ILLEGAL_COLUMN).
  { intros nested_type nested s [vec is_first]. cbn [argument_step].
    rewrite executeForArgument_leaf by reflexivity. cbn [unit_step].
    rewrite Hconst. reflexivity. }
  split; [intros; apply Hconst|].
  split; [reflexivity|]. split; [reflexivity|]. split; [reflexivity|].
  split.
  - intros pre post nested_type nested s rows.
    rewrite executeImpl_no_seed. unfold traverse_arguments.
    rewrite foldM_app. cbn [foldM]. apply throws_bind_l.
    match goal with |- throws (?m ≫= _) => destruct m as [state|e] end.
    + rewrite bind_Ok, Hstep, bind_Throw. eexists. reflexivity.
    + eexists. reflexivity.
  - intros post nested_type nested s rows.
    rewrite executeImpl_no_seed. unfold traverse_arguments.
    cbn [foldM]. rewrite Hstep. reflexivity.
Qed.

End Maps.

(** ** Calls on string columns *)

Lemma map_rows_pure_acc (g : nat -> Z -> Z) : forall (vec : list Z) i,
  map_rows (fun j acc => Ok (g j acc)) i vec
  = Ok (map (fun k => g (i + k)%nat (at_ vec k)) (seq 0 (length vec))).
Proof.
  induction vec as [|a vec IH]; intros i; [reflexivity|].
  cbn [map_rows length]. rewrite bind_Ok, IH, bind_Ok.
  cbn [seq map]. rewrite Nat.add_0_r. do 2 f_equal.
  rewrite <- seq_shift, map_map. apply map_ext. intros k.
  replace (S i + k)%nat with (i + S k)%nat by lia. reflexivity.
Qed.

Lemma foldM_pure {St A : Type} (g : St -> A -> St) (l : list A) : forall s : St,
  foldM (fun s a => Ok (g s a)) s l = Ok (fold_left g l s).
Proof. induction l as [|a l IH]; intros s; [reflexivity|]. cbn. apply IH. Qed.

Lemma mapM_pure {A B : Type} (g : A -> B) (l : list A) :
  mapM (fun a => Ok (g a)) l = Ok (map g l).
Proof. induction l as [|a l IH]; [reflexivity|]. cbn. rewrite IH. reflexivity. Qed.

Lemma mapM_ext_in {A B : Type} (f g : A -> result B) (l : list A) :
  (forall a, In a l -> f a = g a) -> mapM f l = mapM g l.
Proof.
  induction l as [|a l IH]; intros Hfg; [reflexivity|].
  cbn. rewrite (Hfg a) by (left; reflexivity). rewrite IH; [reflexivity|].
  intros b Hb. apply Hfg. right. exact Hb.
Qed.

Lemma replicate_map_seq {A : Type} (x : A) n : forall i,
  replicate n x = map (fun _ => x) (seq i n).
Proof. induction n as [|n IH]; intros i; cbn; [reflexivity|]. f_equal. apply IH. Qed.

Lemma map_nth_seq_all {A B : Type} (f : A -> B) (d : A) (l : list A) :
  map (fun i => f (nth i l d)) (seq 0 (length l)) = map f l.
Proof.
  induction l as [|a l IH] using rev_ind; [reflexivity|].
  rewrite length_app, Nat.add_comm. cbn [length Nat.add].
  rewrite seq_S, !map_app. cbn [map Nat.add]. f_equal.
  - rewrite <- IH. apply map_ext_in. intros j Hj. apply in_seq in Hj.
    rewrite app_nth1 by lia. reflexivity.
  - rewrite nth_middle. reflexivity.
Qed.

Lemma map_at_seq_self (vec : list Z) : map (at_ vec) (seq 0 (length vec)) = vec.
Proof. rewrite (map_at_seq (fun v => v)). apply map_id. Qed.

Section PureStrings.
Context `{hash_h} `{memory_h}.
Variable P : Impl.
Variable with_seed : bool.
Variable apply_ : list byte -> Z -> Z.
Variable combine_ : Z -> Z -> Z.
Hypothesis apply_returns : forall data seed, apply P data seed = Ok (apply_ data seed).
Hypothesis combine_returns : forall h1 h2, combineHashes P h1 h2 = Ok (combine_ h1 h2).
Variable seed : Z.

Lemma hash_string_pure value :
  hash_string P with_seed seed value
  = Ok (as_ToType P (apply_ value (if with_seed then seed else 0))).
Proof.
  unfold hash_string, applyWithSeed.
  destruct with_seed; rewrite apply_returns; reflexivity.
Qed.

Lemma combine_string_pure acc value :
  (h ← hash_string P with_seed seed value; assign_or_combine P false acc h)
  = Ok (as_ToType P
          (combine_ acc (as_ToType P (apply_ value (if with_seed then seed else 0))))).
Proof.
  rewrite hash_string_pure, bind_Ok. unfold assign_or_combine.
  rewrite combine_returns. reflexivity.
Qed.

Lemma string_row_digest_pure values :
  string_row_digest P with_seed seed values
  = Ok (match values with
        | [] => as_ToType P 0xe28dbde7fe22e41c
        | value :: values' =>
            fold_left
              (fun acc value' =>
                 as_ToType P
                   (combine_ acc
                      (as_ToType P (apply_ value' (if with_seed then seed else 0)))))
              values' (as_ToType P (apply_ value (if with_seed then seed else 0)))
        end).
Proof.
  destruct values as [|value values']; [reflexivity|].
  cbn [string_row_digest]. rewrite hash_string_pure, bind_Ok.
  rewrite (foldM_ext _ (fun acc value' =>
                          Ok (as_ToType P
                                (combine_ acc
                                   (as_ToType P
                                      (apply_ value' (if with_seed then seed else 0)))))))
    by (intros; apply combine_string_pure).
  apply foldM_pure.
Qed.

Lemma string_unit_first strings vec :
  length vec = length strings ->
  argument_step P with_seed seed (vec, true) (DataTypeString, string_column strings)
  = Ok (map (fun i => as_ToType P
                        (apply_ (nth i strings []) (if with_seed then seed else 0)))
          (seq 0 (length strings)), false).
Proof.
  intros Hlen. cbn [argument_step].
  rewrite executeForArgument_leaf by reflexivity. cbn [unit_step executeAny].
  rewrite executeString_dense by exact Hlen.
  rewrite map_rows_first.
  rewrite (map_rows_ext _
             (fun j _ => Ok (as_ToType P
                               (apply_ (nth j strings [])
                                  (if with_seed then seed else 0)))))
    by (intros; apply hash_string_pure).
  rewrite map_rows_pure, Hlen. reflexivity.
Qed.

Lemma string_unit_later strings vec :
  length vec = length strings ->
  argument_step P with_seed seed (vec, false) (DataTypeString, string_column strings)
  = Ok (map (fun i =>
               as_ToType P
                 (combine_ (at_ vec i)
                    (as_ToType P
                       (apply_ (nth i strings []) (if with_seed then seed else 0)))))
          (seq 0 (length strings)), false).
Proof.
  intros Hlen. cbn [argument_step].
  rewrite executeForArgument_leaf by reflexivity. cbn [unit_step executeAny].
  rewrite executeString_dense by exact Hlen.
  rewrite (map_rows_ext _
             (fun j acc =>
                Ok (as_ToType P
                      (combine_ acc
                         (as_ToType P
                            (apply_ (nth j strings [])
                               (if with_seed then seed else 0)))))))
    by (intros; apply combine_string_pure).
  rewrite map_rows_pure_acc, Hlen. reflexivity.
Qed.

Lemma string_units_later rows : forall columns vec,
  length vec = rows ->
  Forall (fun strings => length strings = rows) columns ->
  foldM (argument_step P with_seed seed) (vec, false) (string_arguments columns)
  = Ok (map (fun i =>
               fold_left
                 (fun acc value' =>
                    as_ToType P
                      (combine_ acc
                         (as_ToType P
                            (apply_ value' (if with_seed then seed else 0)))))
                 (string_row columns i) (at_ vec i))
          (seq 0 rows), false).
Proof.
  induction columns as [|strings columns IH]; intros vec Hlen Hall.
  - cbn [string_arguments map foldM string_row fold_left].
    rewrite <- Hlen, map_at_seq_self. reflexivity.
  - apply Forall_cons in Hall as [Hstrings Hall].
    cbn [string_arguments map foldM].
    rewrite string_unit_later by congruence. rewrite bind_Ok.
    fold (string_arguments columns). rewrite Hstrings.
    rewrite IH by (try assumption; rewrite length_map, length_seq; reflexivity).
    do 2 f_equal. apply map_ext_in. intros i Hi. apply in_seq in Hi.
    cbn [string_row map fold_left]. f_equal.
    unfold at_ at 1.
    rewrite (nth_indep _ 0 (as_ToType P (combine_ (at_ vec 0%nat)
               (as_ToType P (apply_ (nth 0%nat strings [])
                               (if with_seed then seed else 0))))))
      by (rewrite length_map, length_seq; lia).
    rewrite (map_nth (fun i => as_ToType P (combine_ (at_ vec i)
               (as_ToType P (apply_ (nth i strings [])
                               (if with_seed then seed else 0)))))).
    rewrite seq_nth by lia. reflexivity.
Qed.

Lemma traverse_strings_pure (columns : list (list (list byte))) (rows : nat) :
  Forall (fun strings => length strings = rows) columns ->
  traverse_arguments P with_seed seed (string_arguments columns) rows
  = mapM (fun i => string_row_digest P with_seed seed (string_row columns i)) (seq 0 rows).
Proof.
  intros Hall.
  rewrite (mapM_ext_in _ _ _ (fun i _ => string_row_digest_pure (string_row columns i))).
  rewrite mapM_pure.
  unfold traverse_arguments.
  destruct columns as [|strings columns].
  - cbn [string_arguments map foldM]. rewrite bind_Ok. cbn [fst string_row map].
    f_equal. apply replicate_map_seq.
  - apply Forall_cons in Hall as [Hstrings Hall].
    cbn [string_arguments map foldM].
    rewrite string_unit_first by (rewrite allocate_length; congruence).
    rewrite bind_Ok. fold (string_arguments columns).
    rewrite Hstrings.
    rewrite (string_units_later rows)
      by (try assumption; rewrite length_map, length_seq; reflexivity).
    rewrite bind_Ok. cbn [fst]. f_equal. apply map_ext_in. intros i Hi.
    apply in_seq in Hi. cbn [string_row map]. f_equal.
    unfold at_.
    rewrite (nth_indep _ 0 (as_ToType P (apply_ (nth 0%nat strings [])
                               (if with_seed then seed else 0))))
      by (rewrite length_map, length_seq; lia).
    rewrite (map_nth (fun i => as_ToType P (apply_ (nth i strings [])
                               (if with_seed then seed else 0)))).
    rewrite seq_nth by lia. reflexivity.
Qed.

End PureStrings.

Section StringCalls.
Context `{hash_h} `{memory_h}.
Variable P : Impl.

(** For a policy whose hash and whose combination always return (every
    policy of the file but javaHash, javaHashUTF16LE and hiveHash), a
    call on String columns of [rows] rows returns, and row [i] of the
    result is made of the values in row [i] alone: the digest of the
    first, with the digest of each later one combined into it from left
    to right; with a seed, every value is hashed with it. *)
Theorem strings_are_hashed_row_by_row (columns : list (list (list byte))) (rows : nat) :
  (forall data seed, returns (apply P data seed)) ->
  (forall h1 h2, returns (combineHashes P h1 h2)) ->
  Forall (fun strings => length strings = rows) columns ->
  executeImpl P false (string_arguments columns) rows
  = mapM (fun i => string_row_digest P false 0 (string_row columns i)) (seq 0 rows)
  /\ returns (executeImpl P false (string_arguments columns) rows)
  /\ (forall (type : IDataType) (data : IColumn) (s : nat) (seed : Z),
       getValue_UInt32 data = Ok seed ->
       executeImpl P true (string_arguments columns ++ [(type, ColumnConst data s)]) rows
       = mapM (fun i => string_row_digest P true seed (string_row columns i))
           (seq 0 rows)).
Proof.
  intros Happly Hcombine Hall.
  pose (apply_ := fun data seed => returned (apply P data seed)).
  pose (combine_ := fun h1 h2 => returned (combineHashes P h1 h2)).
  assert (Ha : forall data seed, apply P data seed = Ok (apply_ data seed)).
  { intros data seed. unfold apply_. destruct (Happly data seed) as [h ->]. reflexivity. }
  assert (Hc : forall h1 h2, combineHashes P h1 h2 = Ok (combine_ h1 h2)).
  { intros h1 h2. unfold combine_. destruct (Hcombine h1 h2) as [h ->]. reflexivity. }
  assert (Hno_seed :
            executeImpl P false (string_arguments columns) rows
            = mapM (fun i => string_row_digest P false 0 (string_row columns i))
                (seq 0 rows)).
  { rewrite executeImpl_no_seed.
    apply (traverse_strings_pure P false apply_ combine_ Ha Hc 0 columns rows Hall). }
  split; [exact Hno_seed|]. split.
  - rewrite Hno_seed.
    rewrite (mapM_ext_in _ _ _
               (fun i _ => string_row_digest_pure P false apply_ combine_ Ha Hc 0
                             (string_row columns i))).
    rewrite mapM_pure. eexists. reflexivity.
  - intros type data s seed Hseed. rewrite executeImpl_snoc, Hseed, bind_Ok.
    apply (traverse_strings_pure P true apply_ combine_ Ha Hc seed columns rows Hall).
Qed.

End StringCalls.

Lemma strings_are_hashed_row_by_row_witness :
  executeImpl (H := demo_hash_h) (H0 := demo_memory_h) demo_murmurHash2_32 false
    (string_arguments [[bytes "a"; bytes "b"]; [bytes "c"; bytes "d"]]) 2
  = mapM (fun i =>
            string_row_digest demo_murmurHash2_32 false 0
              (string_row [[bytes "a"; bytes "b"]; [bytes "c"; bytes "d"]] i))
      (seq 0 2).
Proof.
  apply (strings_are_hashed_row_by_row (H := demo_hash_h) (H0 := demo_memory_h)
           demo_murmurHash2_32 [[bytes "a"; bytes "b"]; [bytes "c"; bytes "d"]] 2).
  - intros data seed. eexists. reflexivity.
  - intros h1 h2. eexists. reflexivity.
  - repeat constructor.
Defined.

(** ** Policies that combine with xor *)

Lemma lxor_cancel_common (a b c : Z) : Z.lxor (Z.lxor a b) (Z.lxor a c) = Z.lxor b c.
Proof.
  apply Z.bits_inj'. intros n _. rewrite !Z.lxor_spec.
  destruct (Z.testbit a n), (Z.testbit b n), (Z.testbit c n); reflexivity.
Qed.

Lemma mod_pow2_lxor (n a b : Z) :
  0 <= n -> Z.lxor a b mod 2 ^ n = Z.lxor (a mod 2 ^ n) (b mod 2 ^ n).
Proof.
  intros Hn. rewrite <- !Z.land_ones by exact Hn.
  apply Z.bits_inj'. intros k _.
  rewrite !Z.lxor_spec, !Z.land_spec, !Z.lxor_spec.
  destruct (Z.testbit a k), (Z.testbit b k), (Z.testbit (Z.ones n) k); reflexivity.
Qed.

Lemma to_type_unsigned_lxor (t : HashType) (a b : Z) :
  t <> AsInt32 -> to_type t (Z.lxor a b) = Z.lxor (to_type t a) (to_type t b).
Proof.
  destruct t; intros Ht; try congruence; unfold to_type, UInt32, UInt64;
    apply mod_pow2_lxor; lia.
Qed.

Lemma to_type_unsigned_idem (t : HashType) (a : Z) :
  t <> AsInt32 -> to_type t (to_type t a) = to_type t a.
Proof.
  destruct t; intros Ht; try congruence; unfold to_type, UInt32, UInt64;
    apply Z.mod_mod; lia.
Qed.

Lemma zip_with_map_seq {A : Type} (f : Z -> Z -> A) (g1 g2 : nat -> Z) (l : list nat) :
  zip_with f (map g1 l) (map g2 l) = map (fun i => f (g1 i) (g2 i)) l.
Proof. induction l as [|i l IH]; [reflexivity|]. cbn. rewrite IH. reflexivity. Qed.

Section XorPolicies.
Context `{hash_h} `{memory_h}.

Lemma xor_policy_cancels (P : Impl) (apply_ : list byte -> Z -> Z) (mix : Z -> Z) :
  ReturnType P <> AsInt32 ->
  (forall data seed, apply P data seed = Ok (apply_ data seed)) ->
  (forall h1 h2, combineHashes P h1 h2 = Ok (Z.lxor (mix h1) h2)) ->
  forall (x y z : list (list byte)) (rows : nat),
    length x = rows -> length y = rows -> length z = rows ->
    exists xy xz y' z' : list Z,
      executeImpl P false (string_arguments [x; y]) rows = Ok xy
      /\ executeImpl P false (string_arguments [x; z]) rows = Ok xz
      /\ executeImpl P false (string_arguments [y]) rows = Ok y'
      /\ executeImpl P false (string_arguments [z]) rows = Ok z'
      /\ zip_with Z.lxor xy xz = zip_with Z.lxor y' z'.
Proof.
  intros Ht Ha Hc x y z rows Hx Hy Hz.
  assert (Hcall : forall columns,
             Forall (fun strings => length strings = rows) columns ->
             executeImpl P false (string_arguments columns) rows
             = Ok (map (fun i =>
                          returned (string_row_digest P false 0 (string_row columns i)))
                     (seq 0 rows))).
  { intros columns Hall. rewrite executeImpl_no_seed.
    rewrite (traverse_strings_pure P false apply_ _ Ha Hc 0 columns rows Hall).
    rewrite (mapM_ext_in _
               (fun i => Ok (returned (string_row_digest P false 0
                                         (string_row columns i)))));
      [apply mapM_pure|].
    intros i _.
    rewrite (string_row_digest_pure P false apply_ _ Ha Hc 0). reflexivity. }
  do 4 eexists.
  split; [apply Hcall; repeat constructor; assumption|].
  split; [apply Hcall; repeat constructor; assumption|].
  split; [apply Hcall; repeat constructor; assumption|].
  split; [apply Hcall; repeat constructor; assumption|].
  rewrite !zip_with_map_seq. apply map_ext. intros i.
  rewrite !(string_row_digest_pure P false apply_ _ Ha Hc 0).
  cbn [string_row map fold_left returned]. unfold as_ToType, ToType.
  rewrite !to_type_unsigned_lxor, !to_type_unsigned_idem by exact Ht.
  apply lxor_cancel_common.
Qed.

End XorPolicies.

Section XorPolicyTable.
Context `{hash_h} `{memory_h} `{murmur_h} `{murmur64_h} `{murmur3_h} `{xxhash_h} `{union_h}.

(** murmurHash2_32, murmurHash2_64, gccMurmurHash, murmurHash3_32,
    murmurHash3_64 and xxHash32 combine two digests as
    [intHash(h1) xor h2].  So in the digest of two String arguments the
    second argument enters by xor alone: for columns [x], [y], [z] with as
    many rows, the digests of [(x, y)] and of [(x, z)] differ, row by row
    and as bit patterns, exactly as the digests of [y] and of [z] do,
    whatever [x] holds. *)
Theorem xor_policies_cancel_the_first_argument :
  Forall (fun P : Impl =>
      forall (x y z : list (list byte)) (rows : nat),
        length x = rows -> length y = rows -> length z = rows ->
        exists xy xz y' z' : list Z,
          executeImpl P false (string_arguments [x; y]) rows = Ok xy
          /\ executeImpl P false (string_arguments [x; z]) rows = Ok xz
          /\ executeImpl P false (string_arguments [y]) rows = Ok y'
          /\ executeImpl P false (string_arguments [z]) rows = Ok z'
          /\ zip_with Z.lxor xy xz = zip_with Z.lxor y' z')
    xor_policies.
Proof.
  repeat constructor.
  - apply (xor_policy_cancels MurmurHash2Impl32 (fun data _ => MurmurHash2 data 0)
             IntHash32Impl.apply); [discriminate|reflexivity|reflexivity].
  - apply (xor_policy_cancels MurmurHash2Impl64 (fun data _ => MurmurHash64A data 0)
             IntHash64Impl.apply); [discriminate|reflexivity|reflexivity].
  - apply (xor_policy_cancels GccMurmurHashImpl
             (fun data _ => MurmurHash64A data 0xc70f6907)
             IntHash64Impl.apply); [discriminate|reflexivity|reflexivity].
  - apply (xor_policy_cancels MurmurHash3Impl32 (fun data _ => MurmurHash3_32 data 0)
             IntHash32Impl.apply); [discriminate|reflexivity|reflexivity].
  - apply (xor_policy_cancels MurmurHash3Impl64 (fun data _ => MurmurHash3_64 data 0)
             IntHash64Impl.apply); [discriminate|reflexivity|reflexivity].
  - apply (xor_policy_cancels ImplXxHash32 (fun data _ => XXH32 data 0)
             IntHash32Impl.apply); [discriminate|reflexivity|reflexivity].
Qed.

End XorPolicyTable.

(** ** FunctionIntHash *)

Lemma for_loop_assign `{memory_h} (g : nat -> Z) (size : nat) :
  for_loop size 0 (fun i vec_to => Ok (<[i := g i]> vec_to)) (allocate size)
  = Ok (map g (seq 0 size)).
Proof.
  rewrite <- (allocate_length size) at 1 3.
  rewrite (for_loop_rows_0 (fun i _ => Ok (g i))) by (intros; reflexivity).
  apply map_rows_pure.
Qed.

Section IntHashRows.
Context `{memory_h}.
Variable I : IntImpl.

Lemma executeType_dense T type data rest :
  FunctionIntHash.executeType I T ((type, ColumnVector T data) :: rest)
  = Ok (ColumnVector (column_of_ToType (int_ReturnType I))
          (map (fun v => to_type (int_ReturnType I) (int_apply I (UInt64 v))) data)).
Proof.
  unfold FunctionIntHash.executeType. cbn [lookup list_lookup].
  rewrite decide_True by reflexivity. cbv zeta.
  rewrite (for_loop_assign
             (fun i => to_type (FunctionIntHash.ToType I)
                         (int_apply I (UInt64 (at_ data i))))).
  rewrite bind_Ok. unfold FunctionIntHash.ToType. do 2 f_equal.
  apply (map_at_seq (fun v => to_type (int_ReturnType I) (int_apply I (UInt64 v)))).
Qed.

Lemma executeType_other_column T type column rest :
  (forall data, column <> ColumnVector T data) ->
  FunctionIntHash.executeType I T ((type, column) :: rest) = Throw ILLEGAL_COLUMN.
Proof.
  intros Hcolumn. unfold FunctionIntHash.executeType. cbn [lookup list_lookup].
  destruct column as [T' data| | | | | | | |]; try reflexivity.
  destruct (decide (T' = T)) as [->|]; [|reflexivity].
  destruct (Hcolumn data). reflexivity.
Qed.

Lemma executeImpl_dispatch which column rest :
  FunctionIntHash.executeImpl I ((DataTypeScalar which, column) :: rest)
  = match int_hash_type which with
    | Some T => FunctionIntHash.executeType I T ((DataTypeScalar which, column) :: rest)
    | None => Throw ILLEGAL_TYPE_OF_ARGUMENT
    end.
Proof. destruct which; reflexivity. Qed.

(** intHash32 and intHash64 look at their first argument alone.  For
    the integers of 8 to 64 bits, Date, Date32, DateTime, Decimal32 and
    Decimal64 they return a column with as many rows, row [i] holding
    [Impl::apply] of the value of row [i] converted to UInt64 (a negative
    value by sign extension); dates go as the integers that store them.
    Every other type throws ILLEGAL_TYPE_OF_ARGUMENT, among them the
    enumerations, the floating point types, the integers of 128 and 256
    bits and UUID, which FunctionAnyHash does hash.  A column that is not
    the vector of the type, a constant column included, throws
    ILLEGAL_COLUMN. *)
Theorem int_hash_of_every_row :
  (forall (which : TypeIndex.t) (T : FromType.t) (data : list Z)
          (rest : list (IDataType * IColumn)),
      int_hash_type which = Some T ->
      let digest v := to_type (int_ReturnType I) (int_apply I (UInt64 v)) in
      FunctionIntHash.executeImpl I ((DataTypeScalar which, ColumnVector T data) :: rest)
      = Ok (ColumnVector (column_of_ToType (int_ReturnType I)) (map digest data))
      /\ size (ColumnVector (column_of_ToType (int_ReturnType I)) (map digest data))
         = length data)
  /\ (forall (which : TypeIndex.t) (column : IColumn) (rest : list (IDataType * IColumn)),
      int_hash_type which = None ->
      FunctionIntHash.executeImpl I ((DataTypeScalar which, column) :: rest)
      = Throw ILLEGAL_TYPE_OF_ARGUMENT)
  /\ (forall (type : IDataType) (column : IColumn) (rest : list (IDataType * IColumn)),
      (forall which, type <> DataTypeScalar which) ->
      FunctionIntHash.executeImpl I ((type, column) :: rest)
      = Throw ILLEGAL_TYPE_OF_ARGUMENT)
  /\ (forall (which : TypeIndex.t) (T : FromType.t) (column : IColumn)
             (rest : list (IDataType * IColumn)),
      int_hash_type which = Some T ->
      (forall data, column <> ColumnVector T data) ->
      FunctionIntHash.executeImpl I ((DataTypeScalar which, column) :: rest)
      = Throw ILLEGAL_COLUMN)
  /\ Forall (fun which => int_hash_type which = None)
       [TypeIndex.Enum8; TypeIndex.Enum16; TypeIndex.Float32; TypeIndex.Float64;
        TypeIndex.UInt128; TypeIndex.UInt256; TypeIndex.Int128; TypeIndex.Int256;
        TypeIndex.UUID; TypeIndex.Decimal128; TypeIndex.Decimal256].
Proof.
  split; [|split; [|split; [|split]]].
  - intros which T data rest Htype digest. split.
    + rewrite executeImpl_dispatch, Htype. apply executeType_dense.
    + cbn [size]. apply length_map.
  - intros which column rest Htype. rewrite executeImpl_dispatch, Htype. reflexivity.
  - intros type column rest Htype. unfold FunctionIntHash.executeImpl.
    cbn [lookup list_lookup].
    destruct type as [which| | | | | | |]; try reflexivity.
    destruct (Htype which). reflexivity.
  - intros which T column rest Htype Hcolumn.
    rewrite executeImpl_dispatch, Htype. apply executeType_other_column, Hcolumn.
  - repeat constructor.
Qed.

End IntHashRows.

Lemma int_hash_of_every_row_witness :
  FunctionIntHash.executeImpl (H := demo_memory_h) (IntHash64 (H := demo_hash_h))
    [(DataTypeScalar TypeIndex.Date, ColumnVector FromType.UInt16 [19000; 19001])]
  = Ok (ColumnVector FromType.UInt64
          (map (fun v => UInt64 (demo_intHash64 (Z.lxor (UInt64 v) 0x4CF2D2BAAE6DA887)))
             [19000; 19001]))
  /\ FunctionIntHash.executeImpl (H := demo_memory_h) (IntHash64 (H := demo_hash_h))
       [(DataTypeScalar TypeIndex.Float64, ColumnVector FromType.Float64 [0])]
     = Throw ILLEGAL_TYPE_OF_ARGUMENT
  /\ FunctionIntHash.executeImpl (H := demo_memory_h) (IntHash64 (H := demo_hash_h))
       [(DataTypeScalar TypeIndex.UInt8, ColumnConst (ColumnVector FromType.UInt8 [1]) 3)]
     = Throw ILLEGAL_COLUMN.
Proof.
  destruct (int_hash_of_every_row (H := demo_memory_h) (IntHash64 (H := demo_hash_h)))
    as (Hrows & Htype & _ & Hcolumn & _).
  split; [|split].
  - apply (Hrows TypeIndex.Date FromType.UInt16 [19000; 19001] []). reflexivity.
  - apply (Htype TypeIndex.Float64). reflexivity.
  - apply (Hcolumn TypeIndex.UInt8 FromType.UInt8); [reflexivity|discriminate].
Defined.

(** ** The length that findLevelLength returns *)

Section LevelLength.
Context `{city_h}.
Import URLHierarchyHashImpl.

Lemma after_protocol_lt data pos pos' :
  after_protocol data pos = Some pos' -> (pos' < length data)%nat.
Proof.
  unfold after_protocol. cbv zeta.
  repeat match goal with
         | |- context [if ?b then _ else _] => destruct b eqn:?; try discriminate
         end.
  intros [= <-].
  match goal with
  | Hlt : negb (_ <? _)%nat = false |- (?p + 3 < _)%nat =>
      apply negb_false_iff, Nat.ltb_lt in Hlt; exact Hlt
  end.
Qed.

Lemma findLevelLength_le (level : N) (data : list byte) :
  (findLevelLength level data <= length data)%nat.
Proof.
  unfold findLevelLength. cbv zeta.
  destruct (after_protocol data (scan is_protocol_char data 0)) as [pos|] eqn:Hafter.
  - apply after_protocol_lt in Hafter.
    set (domain := scan (fun c => negb (is_separator c)) (drop pos data) pos).
    assert (Hdomain : (pos <= domain <= length data)%nat).
    { unfold domain. rewrite scan_span.
      pose proof (span_len_le (fun c => negb (is_separator c)) (drop pos data)) as Hle.
      rewrite length_drop in Hle. lia. }
    set (start := if negb (domain =? length data)%nat then S domain else domain).
    assert (Hstart : (start <= length data)%nat).
    { unfold start. destruct (Nat.eqb_spec domain (length data)); cbn [negb]; lia. }
    destruct (0 =? level)%N; [exact Hstart|].
    destruct (level_loop_spec (length data - start) level 0%N (take start data)
                (drop start data))
      as (k' & used & rest & Hloop & Htodo & _);
      [rewrite length_drop; lia|lia|].
    rewrite take_drop, length_take_le in Hloop by exact Hstart.
    rewrite Hloop.
    destruct (k' =? level)%N; [|lia].
    apply (f_equal (@length byte)) in Htodo.
    rewrite length_drop, length_app in Htodo. lia.
  - destruct (0 =? level)%N; lia.
Qed.

(** The length that findLevelLength returns is a length of a prefix of
    the input: URLHierarchyHashImpl::apply never hands URLHashImpl::apply
    a size beyond the bytes it was given, whatever the level and the
    bytes are. *)
Theorem findLevelLength_within_the_input (level : N) (data : list byte) :
  (findLevelLength level data <= length data)%nat.
Proof. exact (findLevelLength_le level data). Qed.

End LevelLength.

(** ** FunctionURLHash *)

Section URLHashRows.
Context `{city_h} `{memory_h}.
Variable get64 : IColumn -> nat -> result Z.

Lemma hash_rows_loop (hash : list byte -> nat -> Z) (rows : list (list byte)) :
  forall suf pre out,
    rows = pre ++ suf -> length out = length rows ->
    for_loop (length suf) (length pre)
      (fun i '(current_offset, out) =>
         let h := hash (drop current_offset (chars_of rows))
                       (nth i (offsets_from 0 rows) 0 - current_offset - 1)%nat in
         Ok (nth i (offsets_from 0 rows) 0%nat, <[i := h]> out))
      (prev_offset (offsets_from 0 rows) (length pre), out)
    = Ok (prev_offset (offsets_from 0 rows) (length rows),
          take (length pre) out
          ++ map (fun i => hash (drop (prev_offset (offsets_from 0 rows) i) (chars_of rows))
                             (length (nth i rows [])))
               (seq (length pre) (length suf))).
Proof.
  induction suf as [|row suf IH]; intros pre out Hrows Hout.
  - cbn [length for_loop seq map]. rewrite app_nil_r in *. subst pre.
    rewrite firstn_all2 by lia. reflexivity.
  - cbn [length for_loop]. cbv zeta. rewrite bind_Ok.
    assert (Hpre : (length pre < length rows)%nat)
      by (rewrite Hrows, length_app; cbn; lia).
    assert (Hsize : (nth (length pre) (offsets_from 0 rows) 0
                     - prev_offset (offsets_from 0 rows) (length pre) - 1)%nat
                    = length (nth (length pre) rows [])).
    { rewrite prev_offset_string, offsets_from_nth by exact Hpre. lia. }
    rewrite Hsize.
    change (nth (length pre) (offsets_from 0 rows) 0%nat)
      with (prev_offset (offsets_from 0 rows) (S (length pre))).
    replace (S (length pre)) with (length (pre ++ [row]))
      by (rewrite length_app; cbn; lia).
    rewrite IH;
      [|rewrite Hrows, <- app_assoc; reflexivity|rewrite length_insert; exact Hout].
    f_equal. f_equal.
    rewrite length_app. cbn [length seq map].
    replace (length pre + 1)%nat with (S (length pre)) by lia.
    rewrite (take_S_r (<[length pre := _]> out) (length pre)
               (hash (drop (prev_offset (offsets_from 0 rows) (length pre))
                        (chars_of rows))
                  (length (nth (length pre) rows []))))
      by (apply list_lookup_insert_eq; lia).
    rewrite take_insert_ge by lia. rewrite <- app_assoc. reflexivity.
Qed.

Lemma hash_rows_string_column (hash : list byte -> nat -> Z)
    (row_hash : list byte -> Z) (rows : list (list byte)) :
  (forall data size, (size <= length data)%nat -> hash data size = row_hash (take size data)) ->
  FunctionURLHash.hash_rows hash (chars_of rows) (offsets_from 0 rows)
  = Ok (ColumnVector FromType.UInt64 (map row_hash rows)).
Proof.
  intros Hhash. unfold FunctionURLHash.hash_rows. cbv zeta.
  rewrite offsets_from_length.
  pose proof (hash_rows_loop hash rows rows [] (allocate (length rows)) eq_refl
                (allocate_length _)) as Hloop.
  cbn [length prev_offset] in Hloop. rewrite Hloop, bind_Ok. cbn [take app].
  do 2 f_equal.
  rewrite <- (map_nth_seq_all row_hash [] rows).
  apply map_ext_in. intros i Hi. apply in_seq in Hi.
  assert (Hslice : take (length (nth i rows []))
                     (drop (prev_offset (offsets_from 0 rows) i) (chars_of rows))
                   = nth i rows []).
  { pose proof (string_column_slice rows i ltac:(lia)) as Hs. unfold slice in Hs.
    rewrite prev_offset_string, offsets_from_nth in Hs by lia.
    rewrite prev_offset_string by lia.
    replace (0 + length (chars_of (take i rows)) + length (nth i rows []) + 1
             - length (chars_of (take i rows)) - 1)%nat
      with (length (nth i rows [])) in Hs by lia.
    exact Hs. }
  rewrite Hhash; [rewrite Hslice; reflexivity|].
  apply (f_equal (@length byte)) in Hslice. rewrite length_take in Hslice. lia.
Qed.

(** URLHash over a String column gives, for every row, the URL hash of
    the bytes of that row; with a second argument, which has to be a
    constant column, it gives the hash of the URL hierarchy at the level
    that [get64(0)] reads from the constant, the same level for every
    row.  A first column that is no ColumnString, a constant one
    included, and a second column that is no constant throw
    ILLEGAL_COLUMN; a call with no argument or with more than two throws
    LOGICAL_ERROR. *)
Theorem URLHash_of_every_row :
  (forall (type : IDataType) (urls : list (list byte)),
      FunctionURLHash.executeImpl get64 [(type, string_column urls)]
      = Ok (ColumnVector FromType.UInt64 (map URLHash urls)))
  /\ (forall (type level_type : IDataType) (urls : list (list byte))
             (level_col : IColumn) (level : Z),
      isColumnConst level_col = true -> get64 level_col 0 = Ok level ->
      FunctionURLHash.executeImpl get64 [(type, string_column urls); (level_type, level_col)]
      = Ok (ColumnVector FromType.UInt64
              (map (fun url => URLHash_level url (Z.to_N level)) urls)))
  /\ (forall (first second : IDataType * IColumn),
      isColumnConst (snd second) = false ->
      FunctionURLHash.executeImpl get64 [first; second] = Throw ILLEGAL_COLUMN)
  /\ (forall (type : IDataType) (column : IColumn),
      (forall chars offsets, column <> ColumnString chars offsets) ->
      FunctionURLHash.executeImpl get64 [(type, column)] = Throw ILLEGAL_COLUMN)
  /\ (forall arguments : list (IDataType * IColumn),
      length arguments <> 1%nat -> length arguments <> 2%nat ->
      FunctionURLHash.executeImpl get64 arguments = Throw LOGICAL_ERROR).
Proof.
  split; [|split; [|split; [|split]]].
  - intros type urls. unfold FunctionURLHash.executeImpl. cbn [length Nat.eqb].
    unfold FunctionURLHash.executeSingleArg, string_column.
    apply hash_rows_string_column. intros data size Hsize.
    apply URLHashImpl_apply_prefix, Hsize.
  - intros type level_type urls level_col level Hconst Hlevel.
    unfold FunctionURLHash.executeImpl. cbn [length Nat.eqb].
    unfold FunctionURLHash.executeTwoArgs. cbn [last].
    rewrite Hconst, Hlevel, bind_Ok. cbn [negb]. unfold string_column.
    apply hash_rows_string_column. intros data size Hsize.
    unfold URLHash_level, URLHierarchyHashImpl.apply.
    rewrite firstn_all.
    pose proof (findLevelLength_le (Z.to_N level) (take size data)) as Hlen.
    rewrite length_take_le in Hlen by exact Hsize.
    rewrite !URLHashImpl_apply_prefix
      by (rewrite ?length_take_le by exact Hsize; lia).
    rewrite take_take, Nat.min_l by exact Hlen. reflexivity.
  - intros first [level_type level_col] Hconst. cbn [snd] in Hconst.
    unfold FunctionURLHash.executeImpl. cbn [length Nat.eqb].
    unfold FunctionURLHash.executeTwoArgs. cbn [last]. rewrite Hconst. reflexivity.
  - intros type column Hcolumn. unfold FunctionURLHash.executeImpl. cbn [length Nat.eqb].
    unfold FunctionURLHash.executeSingleArg.
    destruct column as [| chars offsets| | | | | | |]; try reflexivity.
    destruct (Hcolumn chars offsets). reflexivity.
  - intros arguments H1 H2. unfold FunctionURLHash.executeImpl. cbv zeta.
    destruct (Nat.eqb_spec (length arguments) 1); [contradiction|].
    destruct (Nat.eqb_spec (length arguments) 2); [contradiction|]. reflexivity.
Qed.

End URLHashRows.

Lemma URLHash_of_every_row_witness :
  FunctionURLHash.executeImpl (H := demo_city_h) (H0 := demo_memory_h) demo_get64
    [(DataTypeString, string_column [bytes "http://x/a/b"; bytes "x"]);
     (DataTypeScalar TypeIndex.UInt8, ColumnConst (ColumnVector FromType.UInt8 [1]) 2)]
  = Ok (ColumnVector FromType.UInt64
          (map (fun url => URLHash_level (H := demo_city_h) url (Z.to_N 1))
             [bytes "http://x/a/b"; bytes "x"])).
Proof.
  destruct (URLHash_of_every_row (H := demo_city_h) (H0 := demo_memory_h) demo_get64)
    as (_ & Hlevel & _).
  apply (Hlevel DataTypeString (DataTypeScalar TypeIndex.UInt8)
           [bytes "http://x/a/b"; bytes "x"]
           (ColumnConst (ColumnVector FromType.UInt8 [1]) 2) 1); reflexivity.
Defined.

(** ** FunctionStringHashFixedString *)

Lemma for_loop_append {A : Type} (g : nat -> list A) : forall n i (acc : list A),
  for_loop n i (fun j acc => Ok (acc ++ g j)) acc = Ok (acc ++ concat (map g (seq i n))).
Proof.
  induction n as [|n IH]; intros i acc; cbn [for_loop seq map concat].
  - rewrite app_nil_r. reflexivity.
  - rewrite bind_Ok, IH, <- app_assoc. reflexivity.
Qed.

Lemma concat_digests_length {A : Type} (k : nat) (f : A -> list byte) (l : list A) :
  (forall a, length (f a) = k) -> length (concat (map f l)) = (length l * k)%nat.
Proof.
  intros Hf. induction l as [|a l IH]; [reflexivity|].
  cbn [map concat length]. rewrite length_app, IH, Hf. lia.
Qed.

Section FixedDigests.
Variable F : FixedImpl.

(** A function with a digest of fixed length (MD5, SHA1, SHA224, SHA256,
    sipHash128, murmurHash3_128) looks at its first argument alone.  For
    a String column and for a FixedString column it returns the
    FixedString column of the digests of the rows, in the order of the
    rows; a row of a FixedString column is hashed with all its [n]
    bytes, so it has the digest of the String with these bytes.  When the
    policy writes [length] > 0 bytes for every input, the result has as
    many rows as the argument.  A column of another class, a constant
    one included, throws ILLEGAL_COLUMN. *)
Theorem fixed_digest_of_every_row :
  let digests (rows : list (list byte)) : IColumn :=
    ColumnFixedString (fixed_length F) (concat (map (fun row => fixed_apply F row 0) rows)) in
  (forall (type : IDataType) (rows : list (list byte)) (rest : list (IDataType * IColumn)),
      executeImpl_fixed F false ((type, string_column rows) :: rest) = Ok (digests rows))
  /\ (forall (type : IDataType) (n : nat) (rows : list (list byte))
             (rest : list (IDataType * IColumn)),
      (0 < n)%nat -> Forall (fun row => length row = n) rows ->
      executeImpl_fixed F false ((type, fixed_string_column n rows) :: rest)
      = Ok (digests rows))
  /\ (forall rows : list (list byte),
      (0 < fixed_length F)%nat ->
      (forall data seed, length (fixed_apply F data seed) = fixed_length F) ->
      size (digests rows) = length rows)
  /\ (forall (type : IDataType) (column : IColumn) (rest : list (IDataType * IColumn)),
      (forall chars offsets, column <> ColumnString chars offsets) ->
      (forall n chars, column <> ColumnFixedString n chars) ->
      executeImpl_fixed F false ((type, column) :: rest) = Throw ILLEGAL_COLUMN).
Proof.
  intros digests. split; [|split; [|split]].
  - intros type rows rest. unfold executeImpl_fixed, string_column.
    rewrite bind_Ok. cbn [lookup list_lookup]. cbv zeta.
    rewrite offsets_from_length.
    pose proof (fixed_digests_loop F 0 rows rows [] [] eq_refl) as Hloop.
    cbn [length prev_offset app] in Hloop. rewrite Hloop. reflexivity.
  - intros type n rows rest Hn Hall. unfold executeImpl_fixed, fixed_string_column.
    rewrite bind_Ok. cbn [lookup list_lookup]. cbv zeta.
    rewrite (concat_fixed_length n rows Hall), Nat.div_mul by lia.
    rewrite (for_loop_append (fun i => fixed_apply F (slice (concat rows) (i * n) n) 0)).
    rewrite bind_Ok. cbn [app]. unfold digests. do 3 f_equal.
    rewrite <- (map_nth_seq_all (fun row => fixed_apply F row 0) [] rows).
    apply map_ext_in. intros i Hi. apply in_seq in Hi.
    rewrite fixed_string_slice by (try assumption; lia). reflexivity.
  - intros rows Hpos Hlen. unfold digests. cbn [size].
    rewrite (concat_digests_length (fixed_length F)) by (intros; apply Hlen).
    apply Nat.div_mul. lia.
  - intros type column rest Hstring Hfixed. unfold executeImpl_fixed.
    rewrite bind_Ok. cbn [lookup list_lookup].
    destruct column as [|chars offsets|n chars| | | | | |]; try reflexivity.
    + destruct (Hstring chars offsets). reflexivity.
    + destruct (Hfixed n chars). reflexivity.
Qed.

End FixedDigests.

Lemma fixed_digest_of_every_row_witness :
  executeImpl_fixed demo_fixed false
    [(DataTypeFixedString 2, fixed_string_column 2 [bytes "ab"; bytes "cd"])]
  = executeImpl_fixed demo_fixed false
      [(DataTypeString, string_column [bytes "ab"; bytes "cd"])]
  /\ executeImpl_fixed demo_fixed false
       [(DataTypeString, ColumnConst (string_column [bytes "ab"]) 2)]
     = Throw ILLEGAL_COLUMN.
Proof.
  destruct (fixed_digest_of_every_row demo_fixed) as (Hstring & Hfixed & _ & Hother).
  split.
  - rewrite (Hstring DataTypeString [bytes "ab"; bytes "cd"] []).
    apply (Hfixed (DataTypeFixedString 2) 2%nat [bytes "ab"; bytes "cd"] []).
    + lia.
    + repeat constructor.
  - apply (Hother DataTypeString (ColumnConst (string_column [bytes "ab"]) 2) []);
      discriminate.
Defined.

Lemma pod_policies_hash_numbers_with_intHash64_witness :
  executeImpl (H := demo_hash_h) (H0 := demo_memory_h)
    (ImplCityHash64 (H2 := demo_city_h) (H8 := demo_city128_h)) false
    [(DataTypeScalar TypeIndex.Date, ColumnVector FromType.UInt16 [19000; 19001])] 2
  = Ok (map (fun v => UInt64 (demo_intHash64 (Z.lxor (UInt64 (v mod 2 ^ 16))
                                               0x4CF2D2BAAE6DA887)))
          [19000; 19001]).
Proof.
  pose proof (pod_policies_hash_numbers_with_intHash64
                (H := demo_hash_h) (H0 := demo_memory_h) (H1 := demo_city_h)
                (H2 := demo_city128_h) (H3 := demo_hive_city_h) (H4 := demo_farmhash_h)
                (H5 := demo_metrohash_h) (H6 := demo_union_h)) as Hall.
  cbv zeta in Hall. apply Forall_cons in Hall as [(_ & _ & Hdense & _) _].
  apply (Hdense TypeIndex.Date FromType.UInt16 [19000; 19001]). reflexivity.
Defined.

Lemma xor_policies_cancel_the_first_argument_witness :
  exists xy xz y' z' : list Z,
    executeImpl (H := demo_hash_h) (H0 := demo_memory_h) demo_murmurHash2_32 false
      (string_arguments [[bytes "x"]; [bytes "y"]]) 1 = Ok xy
    /\ executeImpl (H := demo_hash_h) (H0 := demo_memory_h) demo_murmurHash2_32 false
         (string_arguments [[bytes "x"]; [bytes "z"]]) 1 = Ok xz
    /\ executeImpl (H := demo_hash_h) (H0 := demo_memory_h) demo_murmurHash2_32 false
         (string_arguments [[bytes "y"]]) 1 = Ok y'
    /\ executeImpl (H := demo_hash_h) (H0 := demo_memory_h) demo_murmurHash2_32 false
         (string_arguments [[bytes "z"]]) 1 = Ok z'
    /\ zip_with Z.lxor xy xz = zip_with Z.lxor y' z'.
Proof.
  pose proof (xor_policies_cancel_the_first_argument
                (H := demo_hash_h) (H0 := demo_memory_h) (H1 := demo_murmur_h)
                (H2 := demo_murmur64_h) (H3 := demo_murmur3_h) (H4 := demo_xxhash_h)
                (H5 := demo_union_h)) as Hall.
  apply Forall_cons in Hall as [Hmurmur _].
  apply (Hmurmur [bytes "x"] [bytes "y"] [bytes "z"] 1%nat); reflexivity.
Defined.

(** ** javaHash *)

Lemma JavaHash_loop_sum data : forall h,
  UInt32 (JavaHashImpl.loop h data)
  = UInt32 (h * 31 ^ Z.of_nat (length data) + hashCode_sum (map Int8 data)).
Proof.
  induction data as [|c data IH]; intros h.
  - cbn. f_equal. lia.
  - cbn [JavaHashImpl.loop map hashCode_sum length].
    rewrite IH, length_map.
    rewrite <- UInt32_add_l, UInt32_mul_l, UInt32_add_l.
    rewrite <- UInt32_add_l, <- UInt32_mul_l, UInt32_add_r, UInt32_mul_l, UInt32_add_l.
    f_equal. rewrite Nat2Z.inj_succ, Z.pow_succ_r by lia. ring.
Qed.

Lemma Int32_congruent a b : UInt32 a = UInt32 b -> Int32 a = Int32 b.
Proof. intros Hab. unfold Int32. cbv zeta. rewrite Hab. reflexivity. Qed.

Lemma hashCode_sum_app (a b : list Z) :
  hashCode_sum (a ++ b) = hashCode_sum a * 31 ^ Z.of_nat (length b) + hashCode_sum b.
Proof.
  induction a as [|c a IH]; [cbn; lia|].
  cbn [app hashCode_sum]. rewrite IH, length_app, Nat2Z.inj_add, Z.pow_add_r by lia.
  ring.
Qed.

(** javaHash of a byte string is the polynomial of Java's
    [String.hashCode], [c0 * 31^(n-1) + c1 * 31^(n-2) + ... + c(n-1)] in
    32-bit two's complement arithmetic, over the bytes read as signed
    chars; the empty string hashes to 0.  So the hash of a concatenation
    comes from the hashes of the parts:
    [javaHash(a ++ b) = javaHash(a) * 31^|b| + javaHash(b)] as an Int32. *)
Theorem JavaHash_apply_is_the_hashCode_polynomial :
  (forall data : list byte, JavaHashImpl.apply data = java_hashCode (map Int8 data))
  /\ JavaHashImpl.apply [] = 0
  /\ (forall a b : list byte,
      JavaHashImpl.apply (a ++ b)
      = Int32 (JavaHashImpl.apply a * 31 ^ Z.of_nat (length b) + JavaHashImpl.apply b)).
Proof.
  assert (Hpoly : forall data : list byte,
             JavaHashImpl.apply data = java_hashCode (map Int8 data)).
  { intros data. unfold JavaHashImpl.apply, java_hashCode.
    apply Int32_congruent. rewrite JavaHash_loop_sum. f_equal. }
  split; [exact Hpoly|]. split; [reflexivity|].
  intros a b. rewrite !Hpoly. unfold java_hashCode.
  apply Int32_congruent.
  rewrite map_app, hashCode_sum_app, length_map.
  rewrite <- (UInt32_add_l (Int32 _ * _)), <- (UInt32_add_r _ (Int32 _)).
  rewrite <- UInt32_mul_l, !UInt32_Int32, UInt32_mul_l, UInt32_add_l, UInt32_add_r.
  reflexivity.
Qed.

Lemma Int8_ascii c : is_ascii c -> Int8 c = UInt8 c.
Proof.
  unfold is_ascii, Int8. intros Hc.
  destruct (Z.ltb_spec (UInt8 c) 128); [reflexivity|lia].
Qed.

Lemma utf16le_units_of_ascii data :
  utf16le_units (utf16le_of_ascii data) = map UInt8 data.
Proof.
  induction data as [|c data IH]; [reflexivity|].
  cbn [utf16le_of_ascii flat_map app utf16le_units map].
  fold (utf16le_of_ascii data). rewrite IH. f_equal.
  change (UInt8 x00) with 0. lia.
Qed.

Lemma utf16le_of_ascii_length data :
  length (utf16le_of_ascii data) = (2 * length data)%nat.
Proof.
  induction data as [|c data IH]; [reflexivity|].
  cbn [utf16le_of_ascii flat_map app length]. fold (utf16le_of_ascii data).
  rewrite IH. lia.
Qed.

(** For a text of ASCII characters javaHash of the bytes is Java's
    [String.hashCode] of the text, and javaHashUTF16LE of the UTF-16LE
    encoding of the text returns it too: the two functions agree on the
    two encodings of the same ASCII text. *)
Theorem javaHashUTF16LE_agrees_with_javaHash_on_ascii (data : list byte) :
  Forall is_ascii data ->
  JavaHashImpl.apply data = java_hashCode (map UInt8 data)
  /\ JavaHashUTF16LEImpl.apply (utf16le_of_ascii data) = Ok (JavaHashImpl.apply data).
Proof.
  intros Hascii.
  assert (Hmap : map Int8 data = map UInt8 data).
  { apply map_ext_in. intros c Hc. apply Int8_ascii.
    rewrite Forall_forall in Hascii. apply Hascii.
    apply list_elem_of_In. exact Hc. }
  assert (Hjava : JavaHashImpl.apply data = java_hashCode (map UInt8 data)).
  { rewrite <- Hmap. unfold JavaHashImpl.apply, java_hashCode.
    apply Int32_congruent. rewrite JavaHash_loop_sum. f_equal. }
  split; [exact Hjava|].
  unfold JavaHashUTF16LEImpl.apply. cbv zeta.
  assert (Hskip : JavaHashUTF16LEImpl.skip_bom (utf16le_of_ascii data)
                  = utf16le_of_ascii data).
  { destruct data as [|c data]; [reflexivity|].
    cbn [utf16le_of_ascii flat_map app JavaHashUTF16LEImpl.skip_bom].
    change (Byte.eqb x00 xfe) with false. rewrite andb_false_r. reflexivity. }
  rewrite Hskip, UTF16LE_hash_after_bom. unfold hash_of_utf16le.
  rewrite utf16le_of_ascii_length.
  replace (Nat.odd (2 * length data)) with false
    by (symmetry; rewrite <- Nat.negb_even, Nat.even_mul; reflexivity).
  rewrite utf16le_units_of_ascii, Hjava. reflexivity.
Qed.

Lemma javaHashUTF16LE_agrees_with_javaHash_on_ascii_witness :
  JavaHashImpl.apply (bytes "ab") = java_hashCode [97; 98]
  /\ JavaHashUTF16LEImpl.apply [x61; x00; x62; x00] = Ok (JavaHashImpl.apply (bytes "ab")).
Proof.
  apply (javaHashUTF16LE_agrees_with_javaHash_on_ascii (bytes "ab")).
  repeat constructor.
Defined.

(** * Core/Field.h *)

(** ** Lexicographic comparison *)

Section ListCompare.
Context {A : Type}.
Variable cmp : A -> A -> comparison.

Lemma list_compare_eq (l1 : list A) :
  Forall (fun x => forall y, cmp x y = Eq -> x = y) l1 ->
  forall l2, Field.list_compare cmp l1 l2 = Eq -> l1 = l2.
Proof.
  induction 1 as [|x l1 Hx _ IH]; intros [|y l2]; cbn; try discriminate;
    [reflexivity|].
  destruct (cmp x y) eqn:Exy; try discriminate.
  intros Hrest. rewrite (Hx y Exy), (IH l2 Hrest). reflexivity.
Qed.

Lemma list_compare_antisym (l1 : list A) :
  Forall (fun x => forall y, cmp y x = CompOpp (cmp x y)) l1 ->
  forall l2, Field.list_compare cmp l2 l1 = CompOpp (Field.list_compare cmp l1 l2).
Proof.
  induction 1 as [|x l1 Hx _ IH]; intros [|y l2]; cbn; try reflexivity.
  rewrite Hx. destruct (cmp x y); cbn; [apply IH|reflexivity|reflexivity].
Qed.

Lemma list_compare_trans (l1 : list A) :
  (forall y z, cmp y z = Eq -> y = z) ->
  Forall (fun x => forall y z, cmp x y = Lt -> cmp y z = Lt -> cmp x z = Lt) l1 ->
  forall l2 l3,
    Field.list_compare cmp l1 l2 = Lt -> Field.list_compare cmp l2 l3 = Lt ->
    Field.list_compare cmp l1 l3 = Lt.
Proof.
  intros Heq. induction 1 as [|x l1 Hx _ IH]; intros [|y l2] [|z l3]; cbn;
    try discriminate; try reflexivity.
  destruct (cmp x y) eqn:Exy; try discriminate.
  - apply Heq in Exy. subst y.
    destruct (cmp x z); try discriminate; [apply IH|reflexivity].
  - intros _. destruct (cmp y z) eqn:Eyz; try discriminate.
    + apply Heq in Eyz. subst z. rewrite Exy. reflexivity.
    + intros _. rewrite (Hx y z Exy Eyz). reflexivity.
Qed.

End ListCompare.

Lemma UInt8_injective (x y : byte) : UInt8 x = UInt8 y -> x = y.
Proof.
  unfold UInt8. intros Hxy. apply N2Z.inj in Hxy.
  apply (f_equal Byte.of_N) in Hxy.
  rewrite !Byte.of_to_N in Hxy. congruence.
Qed.

Lemma string_compare_eq (a b : list byte) : Field.string_compare a b = Eq -> a = b.
Proof.
  apply list_compare_eq. apply Forall_forall. intros x _ y Hxy.
  apply Z.compare_eq in Hxy. apply UInt8_injective, Hxy.
Qed.

Lemma string_compare_antisym (a b : list byte) :
  Field.string_compare b a = CompOpp (Field.string_compare a b).
Proof.
  apply list_compare_antisym. apply Forall_forall. intros x _ y.
  apply Z.compare_antisym.
Qed.

Lemma Z_compare_trans_lt (x y z : Z) : (x ?= y) = Lt -> (y ?= z) = Lt -> (x ?= z) = Lt.
Proof. rewrite !Z.compare_lt_iff. lia. Qed.

Lemma string_compare_trans (a b c : list byte) :
  Field.string_compare a b = Lt -> Field.string_compare b c = Lt ->
  Field.string_compare a c = Lt.
Proof.
  apply list_compare_trans.
  - intros y z Hyz. apply Z.compare_eq in Hyz. apply UInt8_injective, Hyz.
  - apply Forall_forall. intros x _ y z. apply Z_compare_trans_lt.
Qed.

(** Induction over fields, with the elements of the vectors. *)
Lemma Field_nested_ind (Q : Field.t -> Prop) :
  (forall field,
      match field with
      | Field.Array _ | Field.Tuple _ | Field.Map _ | Field.ByteMap _ => False
      | _ => True
      end -> Q field) ->
  (forall x, Forall Q x -> Q (Field.Array x)) ->
  (forall x, Forall Q x -> Q (Field.Tuple x)) ->
  (forall x, Forall Q x -> Q (Field.Map x)) ->
  (forall x, Forall (fun p => Q (fst p) /\ Q (snd p)) x -> Q (Field.ByteMap x)) ->
  forall field, Q field.
Proof.
  intros Hleaf Harray Htuple Hmap Hbytemap.
  fix IH 1. intros field.
  destruct field as [| | | | | | | | | | | | |x|x|x|x| | | | | |];
    try (apply Hleaf; exact I).
  - apply Harray. induction x as [|f x IHx]; constructor; [apply IH|exact IHx].
  - apply Htuple. induction x as [|f x IHx]; constructor; [apply IH|exact IHx].
  - apply Hmap. induction x as [|f x IHx]; constructor; [apply IH|exact IHx].
  - apply Hbytemap. induction x as [|[k v] x IHx]; constructor;
      [split; apply IH|exact IHx].
Qed.

(** ** The order of the fields *)

Lemma Z_compare_pair_eq (x y sx sy : Z) :
  match x ?= y with Eq => sx ?= sy | c => c end = Eq -> x = y /\ sx = sy.
Proof.
  destruct (x ?= y) eqn:Exy; try discriminate.
  intros Hs. split; apply Z.compare_eq; assumption.
Qed.

Lemma list_Z_compare_eq (x y : list Z) : Field.list_compare Z.compare x y = Eq -> x = y.
Proof.
  apply list_compare_eq. apply Forall_forall. intros a _ b. apply Z.compare_eq.
Qed.

Lemma compare_eq (a : Field.t) : forall b, Field.compare a b = Eq -> a = b.
Proof.
  induction a as [a Hleaf|x IH|x IH|x IH|x IH] using Field_nested_ind; intros b.
  - destruct a; try contradiction; destruct b; cbn; try discriminate;
      try reflexivity;
      try (intros Hc; apply Z.compare_eq in Hc; congruence);
      try (intros Hc; apply string_compare_eq in Hc; congruence);
      try (intros Hc; apply Z_compare_pair_eq in Hc as [-> ->]; reflexivity).
    + match goal with
      | |- context [match Field.string_compare ?n ?n' with _ => _ end] =>
          destruct (Field.string_compare n n') eqn:En
      end; try discriminate.
      intros Hd. apply string_compare_eq in En, Hd. congruence.
    + intros Hc. apply list_Z_compare_eq in Hc. congruence.
  - destruct b; cbn; try discriminate. intros Hc. f_equal.
    revert Hc. apply list_compare_eq. exact IH.
  - destruct b; cbn; try discriminate. intros Hc. f_equal.
    revert Hc. apply list_compare_eq. exact IH.
  - destruct b; cbn; try discriminate. intros Hc. f_equal.
    revert Hc. apply list_compare_eq. exact IH.
  - destruct b; cbn; try discriminate. intros Hc. f_equal.
    revert Hc. apply list_compare_eq.
    eapply Forall_impl; [exact IH|]. intros [k v] [Hk Hv] [k' v'].
    cbn [fst snd] in Hk, Hv. unfold Field.pair_compare. cbn [fst snd].
    destruct (Field.compare k k') eqn:Ek; try discriminate.
    intros Ev. rewrite (Hk k' Ek), (Hv v' Ev). reflexivity.
Qed.

Lemma Z_compare_pair_antisym (x y sx sy : Z) :
  match y ?= x with Eq => sy ?= sx | c => c end
  = CompOpp (match x ?= y with Eq => sx ?= sy | c => c end).
Proof.
  rewrite (Z.compare_antisym x y), (Z.compare_antisym sx sy).
  destruct (x ?= y); reflexivity.
Qed.

Lemma compare_antisym (a : Field.t) : forall b,
  Field.compare b a = CompOpp (Field.compare a b).
Proof.
  induction a as [a Hleaf|x IH|x IH|x IH|x IH] using Field_nested_ind; intros b.
  - destruct a; try contradiction; destruct b; cbn; try reflexivity;
      try apply Z.compare_antisym; try apply string_compare_antisym;
      try apply Z_compare_pair_antisym.
    + match goal with
      | |- context [match Field.string_compare ?n ?n' with _ => _ end] =>
          rewrite (string_compare_antisym n' n)
      end.
      match goal with
      | |- context [CompOpp (Field.string_compare ?n ?n')] =>
          destruct (Field.string_compare n n')
      end; cbn; try reflexivity. apply string_compare_antisym.
    + apply list_compare_antisym. apply Forall_forall. intros u _ v.
      apply Z.compare_antisym.
  - destruct b; cbn; try reflexivity. apply list_compare_antisym. exact IH.
  - destruct b; cbn; try reflexivity. apply list_compare_antisym. exact IH.
  - destruct b; cbn; try reflexivity. apply list_compare_antisym. exact IH.
  - destruct b; cbn; try reflexivity. apply list_compare_antisym.
    eapply Forall_impl; [exact IH|]. intros [k v] [Hk Hv] [k' v'].
    cbn [fst snd] in Hk, Hv. unfold Field.pair_compare. cbn [fst snd].
    rewrite Hk, Hv. destruct (Field.compare k k'); reflexivity.
Qed.

Lemma compare_refl (a : Field.t) : Field.compare a a = Eq.
Proof.
  pose proof (compare_antisym a a) as Ha.
  destruct (Field.compare a a); [reflexivity|discriminate|discriminate].
Qed.

Lemma value_injective (w w' : Field.Types.Which) :
  Field.Types.value w = Field.Types.value w' -> w = w'.
Proof. destruct w, w'; cbn; intros Hw; try reflexivity; discriminate Hw. Qed.

Lemma compare_tag_lt (a b : Field.t) :
  Field.Types.value (Field.which a) < Field.Types.value (Field.which b) ->
  Field.compare a b = Lt.
Proof.
  intros Hlt. apply Z.compare_lt_iff in Hlt.
  destruct a; cbn [Field.compare]; rewrite Hlt; reflexivity.
Qed.

Lemma compare_tag_gt (a b : Field.t) :
  Field.Types.value (Field.which b) < Field.Types.value (Field.which a) ->
  Field.compare a b = Gt.
Proof.
  intros Hlt. apply Z.compare_gt_iff in Hlt.
  destruct a; cbn [Field.compare]; rewrite Hlt; reflexivity.
Qed.

Lemma compare_Lt_tags (a b : Field.t) :
  Field.compare a b = Lt ->
  Field.Types.value (Field.which a) < Field.Types.value (Field.which b)
  \/ Field.which a = Field.which b.
Proof.
  intros Hab.
  destruct (Z.compare_spec (Field.Types.value (Field.which a))
              (Field.Types.value (Field.which b))) as [Heq|Hlt|Hgt].
  - right. apply value_injective, Heq.
  - left. exact Hlt.
  - rewrite (compare_tag_gt a b Hgt) in Hab. discriminate.
Qed.

Lemma Z_compare_pair_trans (x y z sx sy sz : Z) :
  match x ?= y with Eq => sx ?= sy | c => c end = Lt ->
  match y ?= z with Eq => sy ?= sz | c => c end = Lt ->
  match x ?= z with Eq => sx ?= sz | c => c end = Lt.
Proof.
  destruct (Z.compare_spec x y), (Z.compare_spec y z); try discriminate;
    destruct (Z.compare_spec x z); try lia; try reflexivity;
    rewrite ?Z.compare_lt_iff; lia.
Qed.

Lemma string_compare_pair_trans (x y z sx sy sz : list byte) :
  match Field.string_compare x y with Eq => Field.string_compare sx sy | c => c end = Lt ->
  match Field.string_compare y z with Eq => Field.string_compare sy sz | c => c end = Lt ->
  match Field.string_compare x z with Eq => Field.string_compare sx sz | c => c end = Lt.
Proof.
  destruct (Field.string_compare x y) eqn:Exy; try discriminate;
    destruct (Field.string_compare y z) eqn:Eyz; try discriminate.
  - apply string_compare_eq in Exy, Eyz. subst y z.
    replace (Field.string_compare x x) with Eq.
    + apply string_compare_trans.
    + symmetry. pose proof (string_compare_antisym x x) as Hx.
      destruct (Field.string_compare x x); [reflexivity|discriminate|discriminate].
  - apply string_compare_eq in Exy. subst y. rewrite Eyz. reflexivity.
  - apply string_compare_eq in Eyz. subst z. rewrite Exy. reflexivity.
  - rewrite (string_compare_trans x y z Exy Eyz). reflexivity.
Qed.

Lemma compare_trans (a : Field.t) : forall b c,
  Field.compare a b = Lt -> Field.compare b c = Lt -> Field.compare a c = Lt.
Proof.
  induction a as [a Hleaf|x IH|x IH|x IH|x IH] using Field_nested_ind;
    intros b c Hab Hbc;
    (destruct (compare_Lt_tags _ _ Hab) as [Hlt|Htag];
     [apply compare_tag_lt;
      destruct (compare_Lt_tags _ _ Hbc) as [Hlt'|Htag']; [lia|rewrite <- Htag'; exact Hlt]|]);
    (destruct (compare_Lt_tags _ _ Hbc) as [Hlt'|Htag'];
     [apply compare_tag_lt; rewrite Htag; exact Hlt'|]).
  - destruct a; try contradiction; destruct b; try discriminate Htag;
      destruct c; try discriminate Htag'; cbn in Hab, Hbc |- *;
      try discriminate;
      try (eapply Z_compare_trans_lt; eassumption);
      try (eapply string_compare_trans; eassumption);
      try (eapply Z_compare_pair_trans; eassumption);
      try (eapply string_compare_pair_trans; eassumption).
    revert Hab Hbc. apply list_compare_trans.
    + intros u v. apply Z.compare_eq.
    + apply Forall_forall. intros u _ v w. apply Z_compare_trans_lt.
  - destruct b; try discriminate Htag; destruct c; try discriminate Htag';
      cbn in Hab, Hbc |- *.
    revert Hab Hbc. apply list_compare_trans; [intros u v; apply compare_eq|exact IH].
  - destruct b; try discriminate Htag; destruct c; try discriminate Htag';
      cbn in Hab, Hbc |- *.
    revert Hab Hbc. apply list_compare_trans; [intros u v; apply compare_eq|exact IH].
  - destruct b; try discriminate Htag; destruct c; try discriminate Htag';
      cbn in Hab, Hbc |- *.
    revert Hab Hbc. apply list_compare_trans; [intros u v; apply compare_eq|exact IH].
  - destruct b; try discriminate Htag; destruct c; try discriminate Htag';
      cbn in Hab, Hbc |- *.
    revert Hab Hbc. apply list_compare_trans.
    + intros [k v] [k' v']. unfold Field.pair_compare. cbn [fst snd].
      destruct (Field.compare k k') eqn:Ek; try discriminate.
      intros Ev. rewrite (compare_eq _ _ Ek), (compare_eq _ _ Ev). reflexivity.
    + eapply Forall_impl; [exact IH|]. intros [k v] [Hk Hv] [k' v'] [k'' v''].
      cbn [fst snd] in Hk, Hv. unfold Field.pair_compare. cbn [fst snd].
      destruct (Field.compare k k') eqn:Ekk'; try discriminate;
        destruct (Field.compare k' k'') eqn:Ek'k''; try discriminate.
      * apply compare_eq in Ekk', Ek'k''. subst k' k''.
        rewrite compare_refl. apply Hv.
      * apply compare_eq in Ekk'. subst k'. rewrite Ek'k''. reflexivity.
      * apply compare_eq in Ek'k''. subst k''. rewrite Ekk'. reflexivity.
      * rewrite (Hk k' k'' Ekk' Ek'k''). reflexivity.
Qed.

(** ** The operators on plain fields *)

Section FieldOperators.
Context `{build_h} `{float_h} `{Field.decimal_h} `{Field.bitmap_h}.

Lemma field_bind_Ok {A B : Type} (a : A) (k : A -> Field.result B) :
  (Field.Ok a ≫= k) = k a.
Proof. reflexivity. Qed.

Lemma lexicographical_compare_link {A : Type} (Q : A -> Prop)
    (less greater : A -> A -> Field.result bool) (cmp : A -> A -> comparison) (l1 : list A) :
  Forall (fun x => forall y, Q y ->
              less x y = Field.Ok (Field.is_Lt (cmp x y))
              /\ greater x y = Field.Ok (Field.is_Gt (cmp x y))) l1 ->
  forall l2, Forall Q l2 ->
    Field.lexicographical_compare less greater l1 l2
    = Field.Ok (Field.is_Lt (Field.list_compare cmp l1 l2))
    /\ Field.lexicographical_compare_from less greater l1 l2
       = Field.Ok (Field.is_Gt (Field.list_compare cmp l1 l2)).
Proof.
  induction 1 as [|x l1 Hx _ IH]; intros [|y l2] Hl2; cbn;
    try (split; reflexivity).
  apply Forall_cons in Hl2 as [Hy Hl2].
  destruct (Hx y Hy) as [-> ->]. rewrite !field_bind_Ok.
  destruct (cmp x y); cbn; rewrite ?field_bind_Ok; cbn; try (split; reflexivity).
  apply IH, Hl2.
Qed.

Lemma equal_ranges_link {A : Type} (Q : A -> Prop)
    (equal : A -> A -> Field.result bool) (cmp : A -> A -> comparison) (l1 : list A) :
  Forall (fun x => forall y, Q y -> equal x y = Field.Ok (Field.is_Eq (cmp x y))) l1 ->
  forall l2, Forall Q l2 ->
    (if (length l1 =? length l2)%nat then Field.equal_ranges equal l1 l2 else Field.Ok false)
    = Field.Ok (Field.is_Eq (Field.list_compare cmp l1 l2)).
Proof.
  intros Hall l2 Hl2.
  assert (Hranges : Field.equal_ranges equal l1 l2
                    = Field.Ok (Field.is_Eq (Field.list_compare cmp l1 l2))).
  { revert l2 Hl2. induction Hall as [|x l1 Hx _ IH]; intros [|y l2] Hl2; cbn;
      try reflexivity.
    apply Forall_cons in Hl2 as [Hy Hl2]. rewrite (Hx y Hy), field_bind_Ok.
    destruct (cmp x y); cbn; try reflexivity. apply IH, Hl2. }
  destruct (Nat.eqb_spec (length l1) (length l2)) as [Hlen|Hlen]; [exact Hranges|].
  f_equal. clear - Hlen. revert l2 Hlen.
  induction l1 as [|x l1 IH]; intros [|y l2] Hlen; cbn in *; try reflexivity;
    try congruence.
  destruct (cmp x y); try reflexivity. apply IH. congruence.
Qed.

Lemma ltb_is_Lt (x y : Z) : (x <? y) = Field.is_Lt (x ?= y).
Proof. unfold Z.ltb. destruct (x ?= y); reflexivity. Qed.

Lemma gtb_is_Gt (x y : Z) : (y <? x) = Field.is_Gt (x ?= y).
Proof. unfold Z.ltb. rewrite (Z.compare_antisym x y). destruct (x ?= y); reflexivity. Qed.

Lemma eqb_is_Eq (x y : Z) : (x =? y)%Z = Field.is_Eq (x ?= y).
Proof.
  destruct (Z.eqb_spec x y) as [->|Hne].
  - rewrite Z.compare_refl. reflexivity.
  - destruct (Z.compare_spec x y); [contradiction|reflexivity|reflexivity].
Qed.

Lemma string_less_is_Lt (x y : list byte) :
  Field.string_less x y = Field.is_Lt (Field.string_compare x y).
Proof. reflexivity. Qed.

Lemma string_greater_is_Gt (x y : list byte) :
  Field.string_less y x = Field.is_Gt (Field.string_compare x y).
Proof.
  unfold Field.string_less. rewrite (string_compare_antisym x y).
  destruct (Field.string_compare x y); reflexivity.
Qed.

Lemma string_equal_is_Eq (x y : list byte) :
  Field.string_equal x y = Field.is_Eq (Field.string_compare x y).
Proof. reflexivity. Qed.

Lemma operators_Array (x y : list Field.t) :
  Field.less (Field.Array x) (Field.Array y)
  = Field.lexicographical_compare Field.less Field.greater x y
  /\ Field.greater (Field.Array x) (Field.Array y)
     = Field.lexicographical_compare_from Field.less Field.greater x y
  /\ Field.equal (Field.Array x) (Field.Array y)
     = (if (length x =? length y)%nat
        then Field.equal_ranges Field.equal x y else Field.Ok false)
  /\ Field.compare (Field.Array x) (Field.Array y)
     = Field.list_compare Field.compare x y.
Proof. repeat split; reflexivity. Qed.

Lemma operators_Tuple (x y : list Field.t) :
  Field.less (Field.Tuple x) (Field.Tuple y)
  = Field.lexicographical_compare Field.less Field.greater x y
  /\ Field.greater (Field.Tuple x) (Field.Tuple y)
     = Field.lexicographical_compare_from Field.less Field.greater x y
  /\ Field.equal (Field.Tuple x) (Field.Tuple y)
     = (if (length x =? length y)%nat
        then Field.equal_ranges Field.equal x y else Field.Ok false)
  /\ Field.compare (Field.Tuple x) (Field.Tuple y)
     = Field.list_compare Field.compare x y.
Proof. repeat split; reflexivity. Qed.

Lemma operators_Map (x y : list Field.t) :
  Field.less (Field.Map x) (Field.Map y)
  = Field.lexicographical_compare Field.less Field.greater x y
  /\ Field.greater (Field.Map x) (Field.Map y)
     = Field.lexicographical_compare_from Field.less Field.greater x y
  /\ Field.equal (Field.Map x) (Field.Map y)
     = (if (length x =? length y)%nat
        then Field.equal_ranges Field.equal x y else Field.Ok false)
  /\ Field.compare (Field.Map x) (Field.Map y)
     = Field.list_compare Field.compare x y.
Proof. repeat split; reflexivity. Qed.

Lemma is_plain_elements (x : list Field.t) :
  forallb Field.is_plain x = true -> Forall (fun f => Field.is_plain f = true) x.
Proof.
  intros Hx. apply Forall_forall. intros f Hf.
  rewrite forallb_forall in Hx. apply Hx. apply list_elem_of_In. exact Hf.
Qed.

Lemma operators_ranges (x y : list Field.t) :
  Forall
    (fun a => forall b,
         Field.is_plain a = true -> Field.is_plain b = true ->
         Field.less a b = Field.Ok (Field.is_Lt (Field.compare a b))
         /\ Field.greater a b = Field.Ok (Field.is_Gt (Field.compare a b))
         /\ Field.equal a b = Field.Ok (Field.is_Eq (Field.compare a b))) x ->
  forallb Field.is_plain x = true -> forallb Field.is_plain y = true ->
  Field.lexicographical_compare Field.less Field.greater x y
  = Field.Ok (Field.is_Lt (Field.list_compare Field.compare x y))
  /\ Field.lexicographical_compare_from Field.less Field.greater x y
     = Field.Ok (Field.is_Gt (Field.list_compare Field.compare x y))
  /\ (if (length x =? length y)%nat
      then Field.equal_ranges Field.equal x y else Field.Ok false)
     = Field.Ok (Field.is_Eq (Field.list_compare Field.compare x y)).
Proof.
  intros IH Hx Hy. apply is_plain_elements in Hx, Hy.
  assert (Hboth : Forall (fun a => Field.is_plain a = true
                                   /\ forall b, Field.is_plain b = true ->
                                        Field.less a b
                                        = Field.Ok (Field.is_Lt (Field.compare a b))
                                        /\ Field.greater a b
                                           = Field.Ok (Field.is_Gt (Field.compare a b))
                                        /\ Field.equal a b
                                           = Field.Ok (Field.is_Eq (Field.compare a b))) x).
  { rewrite Forall_forall in IH, Hx |- *. intros a Ha.
    split; [apply Hx, Ha|]. intros b Hb. apply IH; [exact Ha|apply Hx, Ha|exact Hb]. }
  destruct (lexicographical_compare_link (fun f => Field.is_plain f = true)
              Field.less Field.greater Field.compare x) with (l2 := y) as [Hl Hg].
  { eapply Forall_impl; [exact Hboth|]. intros a [_ Ha] b Hb.
    destruct (Ha b Hb) as (Hless & Hgreater & _). split; assumption. }
  { exact Hy. }
  split; [exact Hl|]. split; [exact Hg|].
  apply (equal_ranges_link (fun f => Field.is_plain f = true)); [|exact Hy].
  eapply Forall_impl; [exact Hboth|]. intros a [_ Ha] b Hb.
  apply (Ha b Hb).
Qed.

Lemma operators_compare (a : Field.t) : forall b,
  Field.is_plain a = true -> Field.is_plain b = true ->
  Field.less a b = Field.Ok (Field.is_Lt (Field.compare a b))
  /\ Field.greater a b = Field.Ok (Field.is_Gt (Field.compare a b))
  /\ Field.equal a b = Field.Ok (Field.is_Eq (Field.compare a b)).
Proof.
  induction a as [a Hleaf|x IH|x IH|x IH|x IH] using Field_nested_ind;
    intros b Ha Hb.
  - destruct a; try contradiction; try discriminate Ha;
      destruct b; try discriminate Hb; cbn in Ha |- *;
      try (match goal with Hn : NDEBUG = true |- _ => rewrite Hn end; cbn);
      rewrite <- ?ltb_is_Lt, <- ?gtb_is_Gt, <- ?eqb_is_Eq,
        <- ?string_less_is_Lt, <- ?string_greater_is_Gt, <- ?string_equal_is_Eq;
      repeat split; reflexivity.
  - destruct b; try discriminate Hb; try (cbn; repeat split; reflexivity).
    destruct (operators_Array x x0) as (-> & -> & -> & ->).
    apply operators_ranges; assumption.
  - destruct b; try discriminate Hb; try (cbn; repeat split; reflexivity).
    destruct (operators_Tuple x x0) as (-> & -> & -> & ->).
    apply operators_ranges; assumption.
  - destruct b; try discriminate Hb; try (cbn; repeat split; reflexivity).
    destruct (operators_Map x x0) as (-> & -> & -> & ->).
    apply operators_ranges; assumption.
  - discriminate Ha.
Qed.

Lemma leb_is_not_Gt (x y : Z) : (x <=? y) = negb (Field.is_Gt (x ?= y)).
Proof. unfold Z.leb. destruct (x ?= y); reflexivity. Qed.

Lemma string_less_or_equal_is_not_Gt (x y : list byte) :
  Field.string_less_or_equal x y = negb (Field.is_Gt (Field.string_compare x y)).
Proof. unfold Field.string_less_or_equal. destruct (Field.string_compare x y); reflexivity. Qed.

Lemma is_Lt_CompOpp (c : comparison) : Field.is_Lt (CompOpp c) = Field.is_Gt c.
Proof. destruct c; reflexivity. Qed.

Lemma is_Gt_CompOpp (c : comparison) : Field.is_Gt (CompOpp c) = Field.is_Lt c.
Proof. destruct c; reflexivity. Qed.

Lemma less_ranges_compare (x y : list Field.t) :
  forallb Field.is_plain x = true -> forallb Field.is_plain y = true ->
  Field.less_ranges y x = Field.Ok (Field.is_Gt (Field.list_compare Field.compare x y)).
Proof.
  intros Hx Hy. apply is_plain_elements in Hx, Hy. unfold Field.less_ranges.
  destruct (lexicographical_compare_link (fun f => Field.is_plain f = true)
              Field.less (fun u v => Field.less v u) Field.compare y) with (l2 := x)
    as [Hl _].
  - rewrite Forall_forall in Hy |- *. intros u Hu v Hv.
    destruct (operators_compare u v (Hy u Hu) Hv) as (Huv & _ & _).
    destruct (operators_compare v u Hv (Hy u Hu)) as (Hvu & _ & _).
    split; [exact Huv|].
    rewrite Hvu, (compare_antisym u v), is_Lt_CompOpp. reflexivity.
  - exact Hx.
  - rewrite Hl. f_equal.
    rewrite (list_compare_antisym Field.compare x), is_Lt_CompOpp; [reflexivity|].
    apply Forall_forall. intros u _ v. apply compare_antisym.
Qed.

Lemma less_or_equal_compare (a b : Field.t) :
  Field.is_plain a = true -> Field.is_plain b = true ->
  Field.less_or_equal a b = Field.Ok (negb (Field.is_Gt (Field.compare a b))).
Proof.
  intros Ha Hb.
  destruct a; try discriminate Ha; destruct b; try discriminate Hb;
    try (cbn in Ha |- *;
         try (match goal with Hn : NDEBUG = true |- _ => rewrite Hn end; cbn);
         rewrite <- ?leb_is_not_Gt, <- ?string_less_or_equal_is_not_Gt;
         reflexivity);
    cbn [Field.is_plain] in Ha, Hb;
    change (Field.less_or_equal (Field.Array x) (Field.Array x0))
      with (c ← Field.less_ranges x0 x; Field.Ok (negb c)) ||
    change (Field.less_or_equal (Field.Tuple x) (Field.Tuple x0))
      with (c ← Field.less_ranges x0 x; Field.Ok (negb c)) ||
    change (Field.less_or_equal (Field.Map x) (Field.Map x0))
      with (c ← Field.less_ranges x0 x; Field.Ok (negb c));
    rewrite less_ranges_compare by assumption; reflexivity.
Qed.

Lemma less_tags (a b : Field.t) :
  Field.less a b
  = if Field.Types.value (Field.which a) <? Field.Types.value (Field.which b)
    then Field.Ok true
    else if Field.Types.value (Field.which b) <? Field.Types.value (Field.which a)
         then Field.Ok false else Field.less a b.
Proof.
  destruct a; cbn;
    repeat match goal with
           | |- context [if ?c then _ else _] => destruct c
           end; reflexivity.
Qed.

Lemma less_or_equal_tags (a b : Field.t) :
  Field.less_or_equal a b
  = if Field.Types.value (Field.which a) <? Field.Types.value (Field.which b)
    then Field.Ok true
    else if Field.Types.value (Field.which b) <? Field.Types.value (Field.which a)
         then Field.Ok false else Field.less_or_equal a b.
Proof.
  unfold Field.less_or_equal.
  repeat match goal with
         | |- context [if ?c then _ else _] => destruct c
         end; reflexivity.
Qed.

Lemma equal_tags (a b : Field.t) :
  Field.equal a b
  = if negb (Field.Types.value (Field.which a) =? Field.Types.value (Field.which b))%Z
    then Field.Ok false else Field.equal a b.
Proof.
  destruct a; cbn;
    repeat match goal with
           | |- context [if ?c then _ else _] => destruct c
           end; reflexivity.
Qed.

End FieldOperators.

Section FieldOrder.
Context `{build_h} `{float_h} `{Field.decimal_h} `{Field.bitmap_h}.

(** Two fields with different tags are compared by the tags alone, by
    the values of the enumerators of [Types::Which], and no comparison of
    values is reached: the operators return for every pair of such
    fields, also where the comparison of two fields of one tag throws.
    So Null is below every field with a value, and both infinities,
    NegativeInfinity too, are above every field with a value. *)
Theorem fields_of_different_types_compare_by_tag (a b : Field.t) :
  Field.Types.value (Field.which a) < Field.Types.value (Field.which b) ->
  Field.less a b = Field.Ok true
  /\ Field.less b a = Field.Ok false
  /\ Field.less_or_equal a b = Field.Ok true
  /\ Field.less_or_equal b a = Field.Ok false
  /\ Field.greater_than b a = Field.Ok true
  /\ Field.equal a b = Field.Ok false
  /\ Field.equal b a = Field.Ok false
  /\ Field.not_equal a b = Field.Ok true.
Proof.
  intros Hlt.
  assert (Hab : (Field.Types.value (Field.which a) <? Field.Types.value (Field.which b))
                = true) by (apply Z.ltb_lt; exact Hlt).
  assert (Hba : (Field.Types.value (Field.which b) <? Field.Types.value (Field.which a))
                = false) by (apply Z.ltb_ge; lia).
  assert (Heq : (Field.Types.value (Field.which a) =? Field.Types.value (Field.which b))%Z
                = false) by (apply Z.eqb_neq; lia).
  assert (Heq' : (Field.Types.value (Field.which b) =? Field.Types.value (Field.which a))%Z
                 = false) by (apply Z.eqb_neq; lia).
  assert (Hless : Field.less a b = Field.Ok true) by (rewrite less_tags, Hab; reflexivity).
  assert (Hequal : Field.equal a b = Field.Ok false)
    by (rewrite equal_tags, Heq; reflexivity).
  split; [exact Hless|].
  split; [rewrite less_tags, Hba, Hab; reflexivity|].
  split; [rewrite less_or_equal_tags, Hab; reflexivity|].
  split; [rewrite less_or_equal_tags, Hba, Hab; reflexivity|].
  split; [exact Hless|].
  split; [exact Hequal|].
  split; [rewrite equal_tags, Heq'; reflexivity|].
  unfold Field.not_equal. rewrite Hequal. reflexivity.
Qed.

(** On the fields without a double, a decimal, an aggregate function
    state, a bitmap or a ByteMap in them, and without a SketchBinary
    unless NDEBUG is defined (the operators read a SketchBinary by
    [get<String>()], whose type check throws where it is compiled in),
    the operators never throw, [<] is a strict total order, [==] holds
    exactly for equal fields, and [<=] is [<] or [==]. *)
Theorem less_is_a_strict_total_order_on_plain_fields :
  (forall a b : Field.t,
      Field.is_plain a = true -> Field.is_plain b = true ->
      Field.returns (Field.less a b) /\ Field.returns (Field.less_or_equal a b)
      /\ Field.returns (Field.equal a b))
  /\ (forall a : Field.t, Field.is_plain a = true -> Field.less a a = Field.Ok false)
  /\ (forall a b c : Field.t,
      Field.is_plain a = true -> Field.is_plain b = true -> Field.is_plain c = true ->
      Field.less a b = Field.Ok true -> Field.less b c = Field.Ok true -> Field.less a c = Field.Ok true)
  /\ (forall a b : Field.t,
      Field.is_plain a = true -> Field.is_plain b = true ->
      Field.less a b = Field.Ok true -> Field.less b a = Field.Ok false)
  /\ (forall a b : Field.t,
      Field.is_plain a = true -> Field.is_plain b = true ->
      Field.less a b = Field.Ok false -> Field.less b a = Field.Ok false -> a = b)
  /\ (forall a b : Field.t,
      Field.is_plain a = true -> Field.is_plain b = true ->
      (Field.equal a b = Field.Ok true <-> a = b))
  /\ (forall a b : Field.t,
      Field.is_plain a = true -> Field.is_plain b = true ->
      (Field.less_or_equal a b = Field.Ok true <-> Field.less a b = Field.Ok true \/ a = b)).
Proof.
  assert (Hless : forall a b,
             Field.is_plain a = true -> Field.is_plain b = true ->
             Field.less a b = Field.Ok (Field.is_Lt (Field.compare a b))).
  { intros a b Ha Hb. apply (operators_compare a b Ha Hb). }
  assert (Hequal : forall a b,
             Field.is_plain a = true -> Field.is_plain b = true ->
             Field.equal a b = Field.Ok (Field.is_Eq (Field.compare a b))).
  { intros a b Ha Hb. apply (operators_compare a b Ha Hb). }
  split; [|split; [|split; [|split; [|split; [|split]]]]].
  - intros a b Ha Hb.
    rewrite Hless, Hequal, less_or_equal_compare by assumption.
    repeat split; eexists; reflexivity.
  - intros a Ha. rewrite Hless, compare_refl by assumption. reflexivity.
  - intros a b c Ha Hb Hc. rewrite !Hless by assumption.
    intros [= Hab] [= Hbc]. f_equal.
    destruct (Field.compare a b) eqn:Eab; try discriminate.
    destruct (Field.compare b c) eqn:Ebc; try discriminate.
    rewrite (compare_trans a b c Eab Ebc). reflexivity.
  - intros a b Ha Hb. rewrite !Hless by assumption.
    rewrite (compare_antisym a b). intros [= Hab]. f_equal.
    destruct (Field.compare a b); try discriminate. reflexivity.
  - intros a b Ha Hb. rewrite !Hless by assumption.
    rewrite (compare_antisym a b). intros [= Hab] [= Hba].
    apply compare_eq. destruct (Field.compare a b); try discriminate. reflexivity.
  - intros a b Ha Hb. rewrite Hequal by assumption. split.
    + intros [= Hab]. apply compare_eq.
      destruct (Field.compare a b); try discriminate. reflexivity.
    + intros ->. rewrite compare_refl. reflexivity.
  - intros a b Ha Hb. rewrite less_or_equal_compare, Hless by assumption. split.
    + intros [= Hab]. destruct (Field.compare a b) eqn:Eab; try discriminate.
      * right. apply compare_eq, Eab.
      * left. reflexivity.
    + intros [[= Hab]| ->].
      * destruct (Field.compare a b); try discriminate. reflexivity.
      * rewrite compare_refl. reflexivity.
Qed.

End FieldOrder.

(** ** The exceptions of the operators *)

Section FieldExceptions.
Context `{build_h} `{float_h} `{Field.decimal_h} `{Field.bitmap_h}.

Lemma throws_only_Ok {A : Type} (allowed : Field.Exception -> Prop) (a : A) :
  Field.throws_only allowed (Field.Ok a).
Proof. intros e [=]. Qed.

Lemma throws_only_Throw {A : Type} (allowed : Field.Exception -> Prop)
    (e : Field.Exception) :
  allowed e -> Field.throws_only allowed (Field.Throw (A := A) e).
Proof. intros He e' [= <-]. exact He. Qed.

Lemma throws_only_bind {A B : Type} (allowed : Field.Exception -> Prop)
    (m : Field.result A) (k : A -> Field.result B) :
  Field.throws_only allowed m -> (forall a, Field.throws_only allowed (k a)) ->
  Field.throws_only allowed (m ≫= k).
Proof.
  intros Hm Hk. destruct m as [a|e]; [apply Hk|].
  intros e' [= <-]. apply Hm. reflexivity.
Qed.

Lemma throws_only_if {A : Type} (allowed : Field.Exception -> Prop) (c : bool)
    (m m' : Field.result A) :
  Field.throws_only allowed m -> Field.throws_only allowed m' ->
  Field.throws_only allowed (if c then m else m').
Proof. destruct c; intros; assumption. Qed.

Lemma throws_only_impl {A : Type} (allowed allowed' : Field.Exception -> Prop)
    (m : Field.result A) :
  (forall e, allowed e -> allowed' e) ->
  Field.throws_only allowed m -> Field.throws_only allowed' m.
Proof. intros Himpl Hm e He. apply Himpl, Hm, He. Qed.

Lemma lexicographical_compare_throws {A : Type} (allowed : Field.Exception -> Prop)
    (less greater : A -> A -> Field.result bool) (l1 : list A) :
  Forall (fun x => forall y, Field.throws_only allowed (less x y)
                             /\ Field.throws_only allowed (greater x y)) l1 ->
  forall l2,
    Field.throws_only allowed (Field.lexicographical_compare less greater l1 l2)
    /\ Field.throws_only allowed (Field.lexicographical_compare_from less greater l1 l2).
Proof.
  induction 1 as [|x l1 Hx _ IH]; intros [|y l2]; cbn;
    try (split; apply throws_only_Ok).
  destruct (Hx y) as [Hless Hgreater]. destruct (IH l2) as [IHl IHg].
  split; apply throws_only_bind; try assumption; intros c;
    apply throws_only_if; try apply throws_only_Ok;
    apply throws_only_bind; try assumption; intros c';
    apply throws_only_if; try apply throws_only_Ok; assumption.
Qed.

Lemma equal_ranges_throws {A : Type} (allowed : Field.Exception -> Prop)
    (equal : A -> A -> Field.result bool) (l1 : list A) :
  Forall (fun x => forall y, Field.throws_only allowed (equal x y)) l1 ->
  forall l2, Field.throws_only allowed (Field.equal_ranges equal l1 l2).
Proof.
  induction 1 as [|x l1 Hx _ IH]; intros [|y l2]; cbn; try apply throws_only_Ok.
  apply throws_only_bind; [apply Hx|]. intros c.
  apply throws_only_if; [apply IH|apply throws_only_Ok].
Qed.

Lemma operators_ByteMap (x y : list (Field.t * Field.t)) :
  Field.less (Field.ByteMap x) (Field.ByteMap y)
  = Field.lexicographical_compare (Field.pair_less Field.less Field.greater)
      (Field.pair_greater Field.less Field.greater) x y
  /\ Field.greater (Field.ByteMap x) (Field.ByteMap y)
     = Field.lexicographical_compare_from (Field.pair_less Field.less Field.greater)
         (Field.pair_greater Field.less Field.greater) x y
  /\ Field.equal (Field.ByteMap x) (Field.ByteMap y)
     = (if (length x =? length y)%nat
        then Field.equal_ranges
               (fun p q => c ← Field.equal (fst p) (fst q);
                           if (c : bool) then Field.equal (snd p) (snd q)
                           else Field.Ok false)
               x y
        else Field.Ok false).
Proof. repeat split; reflexivity. Qed.

Lemma less_or_equal_vectors (x y : list Field.t) (p q : list (Field.t * Field.t)) :
  Field.less_or_equal (Field.Array x) (Field.Array y)
  = (c ← Field.less_ranges y x; Field.Ok (negb c))
  /\ Field.less_or_equal (Field.Tuple x) (Field.Tuple y)
     = (c ← Field.less_ranges y x; Field.Ok (negb c))
  /\ Field.less_or_equal (Field.Map x) (Field.Map y)
     = (c ← Field.less_ranges y x; Field.Ok (negb c))
  /\ Field.less_or_equal (Field.ByteMap p) (Field.ByteMap q)
     = (c ← Field.less_pairs q p; Field.Ok (negb c)).
Proof. repeat split; reflexivity. Qed.

(** [greater] is [less] with the operands exchanged. *)
Lemma lexicographical_compare_swap {A : Type} (less greater : A -> A -> Field.result bool)
    (l1 : list A) :
  Forall (fun x => forall y, greater x y = less y x /\ greater y x = less x y) l1 ->
  forall l2,
    Field.lexicographical_compare_from less greater l1 l2
    = Field.lexicographical_compare less greater l2 l1
    /\ Field.lexicographical_compare_from less greater l2 l1
       = Field.lexicographical_compare less greater l1 l2.
Proof.
  induction 1 as [|x l1 Hx _ IH]; intros [|y l2]; cbn; try (split; reflexivity).
  destruct (Hx y) as [Hxy Hyx]. destruct (IH l2) as [IH1 IH2].
  rewrite Hxy, Hyx, IH1, IH2. split; reflexivity.
Qed.

Lemma greater_is_less_swapped (a : Field.t) :
  forall b, Field.greater a b = Field.less b a /\ Field.greater b a = Field.less a b.
Proof.
  induction a as [a Hleaf|x IH|x IH|x IH|x IH] using Field_nested_ind; intros b.
  - destruct a; try contradiction; destruct b; split; reflexivity.
  - destruct b; try (split; reflexivity).
    match goal with
    | |- context [Field.less (Field.Array _) (Field.Array ?y)] =>
        destruct (operators_Array x y) as (-> & -> & _);
        destruct (operators_Array y x) as (-> & -> & _)
    end.
    apply lexicographical_compare_swap, IH.
  - destruct b; try (split; reflexivity).
    match goal with
    | |- context [Field.less (Field.Tuple _) (Field.Tuple ?y)] =>
        destruct (operators_Tuple x y) as (-> & -> & _);
        destruct (operators_Tuple y x) as (-> & -> & _)
    end.
    apply lexicographical_compare_swap, IH.
  - destruct b; try (split; reflexivity).
    match goal with
    | |- context [Field.less (Field.Map _) (Field.Map ?y)] =>
        destruct (operators_Map x y) as (-> & -> & _);
        destruct (operators_Map y x) as (-> & -> & _)
    end.
    apply lexicographical_compare_swap, IH.
  - destruct b; try (split; reflexivity).
    match goal with
    | |- context [Field.less (Field.ByteMap _) (Field.ByteMap ?y)] =>
        destruct (operators_ByteMap x y) as (-> & -> & _);
        destruct (operators_ByteMap y x) as (-> & -> & _)
    end.
    apply lexicographical_compare_swap.
    eapply Forall_impl; [exact IH|]. intros [k v] [Hk Hv] [k' v']. cbn [fst snd] in *.
    destruct (Hk k') as [Hk1 Hk2]. destruct (Hv v') as [Hv1 Hv2].
    unfold Field.pair_less, Field.pair_greater. cbn [fst snd].
    rewrite Hk1, Hk2, Hv1, Hv2. split; reflexivity.
Qed.

End FieldExceptions.

Section FieldThrows.
Context `{build_h} `{float_h} `{Field.decimal_h} `{Field.bitmap_h}.
Variable external : Field.Exception -> Prop.
Hypothesis decimalEqual_throws : forall w x y sx sy,
  Field.throws_only external (Field.decimalEqual w x y sx sy).
Hypothesis decimalLess_throws : forall w x y sx sy,
  Field.throws_only external (Field.decimalLess w x y sx sy).
Hypothesis decimalLessOrEqual_throws : forall w x y sx sy,
  Field.throws_only external (Field.decimalLessOrEqual w x y sx sy).
Hypothesis BitMap64_equal_throws : forall x y,
  Field.throws_only external (Field.BitMap64_equal x y).

Ltac throws_leaf :=
  repeat first
    [ apply throws_only_Ok
    | apply throws_only_Throw; cbn; tauto
    | eapply throws_only_impl;
      [|first [apply decimalEqual_throws | apply decimalLess_throws
              | apply decimalLessOrEqual_throws | apply BitMap64_equal_throws]];
      intros ? ?; right; assumption
    | apply throws_only_if
    | apply throws_only_bind; [|intros ?] ].

Lemma less_throws (a : Field.t) :
  forall b,
    Field.throws_only (Field.thrown_or Field.thrown_by_comparison external)
      (Field.less a b)
    /\ Field.throws_only (Field.thrown_or Field.thrown_by_comparison external)
         (Field.greater a b).
Proof.
  induction a as [a Hleaf|x IH|x IH|x IH|x IH] using Field_nested_ind; intros b.
  - destruct a; try contradiction; destruct b;
      unfold Field.thrown_or, Field.thrown_by_comparison; cbn;
      destruct NDEBUG; cbn; split; throws_leaf.
  - destruct b; try (split; intros e [=]; fail).
    match goal with
    | |- context [Field.less (Field.Array _) (Field.Array ?y)] =>
        destruct (operators_Array x y) as (-> & -> & _)
    end.
    apply lexicographical_compare_throws, IH.
  - destruct b; try (split; intros e [=]; fail).
    match goal with
    | |- context [Field.less (Field.Tuple _) (Field.Tuple ?y)] =>
        destruct (operators_Tuple x y) as (-> & -> & _)
    end.
    apply lexicographical_compare_throws, IH.
  - destruct b; try (split; intros e [=]; fail).
    match goal with
    | |- context [Field.less (Field.Map _) (Field.Map ?y)] =>
        destruct (operators_Map x y) as (-> & -> & _)
    end.
    apply lexicographical_compare_throws, IH.
  - destruct b; try (split; intros e [=]; fail).
    match goal with
    | |- context [Field.less (Field.ByteMap _) (Field.ByteMap ?y)] =>
        destruct (operators_ByteMap x y) as (-> & -> & _)
    end.
    apply lexicographical_compare_throws.
    eapply Forall_impl; [exact IH|]. intros [k v] [Hk Hv] [k' v']. cbn [fst snd] in *.
    destruct (Hk k') as [Hkl Hkg]. destruct (Hv v') as [Hvl Hvg].
    unfold Field.pair_less, Field.pair_greater. cbn [fst snd].
    split; apply throws_only_bind; try assumption; intros c;
      apply throws_only_if; try apply throws_only_Ok;
      apply throws_only_bind; try assumption; intros c';
      apply throws_only_if; try apply throws_only_Ok; assumption.
Qed.

Lemma less_ranges_throws (x y : list Field.t) :
  Field.throws_only (Field.thrown_or Field.thrown_by_comparison external)
    (Field.less_ranges x y).
Proof.
  unfold Field.less_ranges. apply lexicographical_compare_throws.
  apply Forall_forall. intros a _ b. split; apply less_throws.
Qed.

Lemma less_pairs_throws (x y : list (Field.t * Field.t)) :
  Field.throws_only (Field.thrown_or Field.thrown_by_comparison external)
    (Field.less_pairs x y).
Proof.
  assert (Hpair : forall p q : Field.t * Field.t,
             Field.throws_only (Field.thrown_or Field.thrown_by_comparison external)
               (Field.pair_less Field.less (fun x y => Field.less y x) p q)).
  { intros [k v] [k' v']. unfold Field.pair_less. cbn [fst snd].
    apply throws_only_bind; [apply less_throws|]. intros c.
    apply throws_only_if; [apply throws_only_Ok|].
    apply throws_only_bind; [apply less_throws|]. intros c'.
    apply throws_only_if; [apply throws_only_Ok|apply less_throws]. }
  unfold Field.less_pairs. apply lexicographical_compare_throws.
  apply Forall_forall. intros a _ b. split; apply Hpair.
Qed.

Lemma less_or_equal_throws (a b : Field.t) :
  Field.throws_only (Field.thrown_or Field.thrown_by_comparison external)
    (Field.less_or_equal a b).
Proof.
  destruct a, b;
    try (intros e [=]; fail);
    try (unfold Field.thrown_or, Field.thrown_by_comparison; cbn;
         destruct NDEBUG; cbn; throws_leaf; fail).
  - match goal with
    | |- context [Field.less_or_equal (Field.Array ?x) (Field.Array ?y)] =>
        destruct (less_or_equal_vectors x y [] []) as (-> & _)
    end.
    apply throws_only_bind; [apply less_ranges_throws|intros c; apply throws_only_Ok].
  - match goal with
    | |- context [Field.less_or_equal (Field.Tuple ?x) (Field.Tuple ?y)] =>
        destruct (less_or_equal_vectors x y [] []) as (_ & -> & _)
    end.
    apply throws_only_bind; [apply less_ranges_throws|intros c; apply throws_only_Ok].
  - match goal with
    | |- context [Field.less_or_equal (Field.Map ?x) (Field.Map ?y)] =>
        destruct (less_or_equal_vectors x y [] []) as (_ & _ & -> & _)
    end.
    apply throws_only_bind; [apply less_ranges_throws|intros c; apply throws_only_Ok].
  - match goal with
    | |- context [Field.less_or_equal (Field.ByteMap ?x) (Field.ByteMap ?y)] =>
        destruct (less_or_equal_vectors [] [] x y) as (_ & _ & _ & ->)
    end.
    apply throws_only_bind; [apply less_pairs_throws|intros c; apply throws_only_Ok].
Qed.

Lemma equal_throws (a : Field.t) :
  forall b,
    Field.throws_only (Field.thrown_or Field.thrown_by_equality external)
      (Field.equal a b).
Proof.
  induction a as [a Hleaf|x IH|x IH|x IH|x IH] using Field_nested_ind; intros b.
  - destruct a; try contradiction; destruct b;
      unfold Field.thrown_or, Field.thrown_by_equality; cbn;
      destruct NDEBUG; cbn; throws_leaf.
  - destruct b; try (intros e [=]; fail).
    match goal with
    | |- context [Field.equal (Field.Array _) (Field.Array ?y)] =>
        destruct (operators_Array x y) as (_ & _ & -> & _)
    end.
    apply throws_only_if; [apply equal_ranges_throws, IH|apply throws_only_Ok].
  - destruct b; try (intros e [=]; fail).
    match goal with
    | |- context [Field.equal (Field.Tuple _) (Field.Tuple ?y)] =>
        destruct (operators_Tuple x y) as (_ & _ & -> & _)
    end.
    apply throws_only_if; [apply equal_ranges_throws, IH|apply throws_only_Ok].
  - destruct b; try (intros e [=]; fail).
    match goal with
    | |- context [Field.equal (Field.Map _) (Field.Map ?y)] =>
        destruct (operators_Map x y) as (_ & _ & -> & _)
    end.
    apply throws_only_if; [apply equal_ranges_throws, IH|apply throws_only_Ok].
  - destruct b; try (intros e [=]; fail).
    match goal with
    | |- context [Field.equal (Field.ByteMap _) (Field.ByteMap ?y)] =>
        destruct (operators_ByteMap x y) as (_ & _ & ->)
    end.
    apply throws_only_if; [|apply throws_only_Ok].
    apply equal_ranges_throws.
    eapply Forall_impl; [exact IH|]. intros [k v] [Hk Hv] [k' v']. cbn [fst snd] in *.
    apply throws_only_bind; [apply Hk|]. intros c.
    apply throws_only_if; [apply Hv|apply throws_only_Ok].
Qed.

(** The comparisons of two fields throw nothing but
    NOT_IMPLEMENTED, ILLEGAL_TYPE_OF_ARGUMENT, the LOGICAL_ERROR of the
    type check of [get] where that check is compiled in, and what the
    comparisons of two decimals and of two bitmaps throw; [==] and [!=]
    throw no NOT_IMPLEMENTED.  So the exception "Bad type of Field"
    behind the switch is thrown only if one of those comparisons throws
    it, also not from the elements of arrays, tuples and maps.
    NOT_IMPLEMENTED is thrown by [<] for two bitmaps,
    ILLEGAL_TYPE_OF_ARGUMENT for two aggregate function states, by [==]
    for those of different names, and LOGICAL_ERROR for two SketchBinary
    fields, which are read by [get<String>()], in a build without
    NDEBUG. *)
Theorem comparisons_never_throw_bad_type_of_field (a b : Field.t) :
  Field.throws_only (Field.thrown_or Field.thrown_by_comparison external)
    (Field.less a b)
  /\ Field.throws_only (Field.thrown_or Field.thrown_by_comparison external)
       (Field.less_or_equal a b)
  /\ Field.throws_only (Field.thrown_or Field.thrown_by_comparison external)
       (Field.greater_than a b)
  /\ Field.throws_only (Field.thrown_or Field.thrown_by_comparison external)
       (Field.greater_or_equal a b)
  /\ Field.throws_only (Field.thrown_or Field.thrown_by_equality external)
       (Field.equal a b)
  /\ Field.throws_only (Field.thrown_or Field.thrown_by_equality external)
       (Field.not_equal a b)
  /\ ~ In (Field.DB_Exception Field.BAD_TYPE_OF_FIELD) Field.thrown_by_comparison
  /\ ~ In (Field.DB_Exception Field.BAD_TYPE_OF_FIELD) Field.thrown_by_equality
  /\ (forall x y,
         Field.less (Field.Array [Field.BitMap64 x]) (Field.Array [Field.BitMap64 y])
         = Field.Throw (Field.DB_Exception Field.NOT_IMPLEMENTED))
  /\ (forall n d n' d',
         Field.less_or_equal (Field.AggregateFunctionState n d)
           (Field.AggregateFunctionState n' d')
         = Field.Throw (Field.DB_Exception Field.ILLEGAL_TYPE_OF_ARGUMENT))
  /\ (forall n d n' d',
         Field.string_equal n n' = false ->
         Field.equal (Field.AggregateFunctionState n d)
           (Field.AggregateFunctionState n' d')
         = Field.Throw (Field.DB_Exception Field.ILLEGAL_TYPE_OF_ARGUMENT))
  /\ (NDEBUG = false ->
      forall x y,
        Field.less (Field.SketchBinary x) (Field.SketchBinary y)
        = Field.Throw (Field.DB_Exception Field.LOGICAL_ERROR)
        /\ Field.less_or_equal (Field.SketchBinary x) (Field.SketchBinary y)
           = Field.Throw (Field.DB_Exception Field.LOGICAL_ERROR)
        /\ Field.equal (Field.SketchBinary x) (Field.SketchBinary y)
           = Field.Throw (Field.DB_Exception Field.LOGICAL_ERROR)).
Proof.
  split; [apply less_throws|].
  split; [apply less_or_equal_throws|].
  split; [apply less_throws|].
  split; [apply less_or_equal_throws|].
  split; [apply equal_throws|].
  split; [apply throws_only_bind; [apply equal_throws|intros c; apply throws_only_Ok]|].
  split; [unfold Field.thrown_by_comparison; destruct NDEBUG; cbn;
          intros Hin; repeat destruct Hin as [[=]|Hin]; exact Hin|].
  split; [unfold Field.thrown_by_equality; destruct NDEBUG; cbn;
          intros Hin; repeat destruct Hin as [[=]|Hin]; exact Hin|].
  split; [reflexivity|].
  split; [intros n d n' d'; cbn; reflexivity|].
  split; [intros n d n' d' Hn; cbn; rewrite Hn; reflexivity|].
  intros Hbuild x y. cbn. rewrite Hbuild. repeat split; reflexivity.
Qed.

End FieldThrows.

(** ** Equality of fields *)

Lemma string_equal_refl (a : list byte) : Field.string_equal a a = true.
Proof.
  unfold Field.string_equal. pose proof (string_compare_antisym a a) as Ha.
  destruct (Field.string_compare a a); [reflexivity|discriminate|discriminate].
Qed.

Lemma string_equal_sym (a b : list byte) :
  Field.string_equal a b = Field.string_equal b a.
Proof.
  unfold Field.string_equal. rewrite (string_compare_antisym a b).
  destruct (Field.string_compare a b); reflexivity.
Qed.

Lemma equal_ranges_refl {A : Type} (equal : A -> A -> Field.result bool)
    (pass : A -> bool) (e : Field.Exception) (l : list A) :
  Forall (fun x => equal x x = if pass x then Field.Ok true else Field.Throw e) l ->
  Field.equal_ranges equal l l
  = if forallb pass l then Field.Ok true else Field.Throw e.
Proof.
  induction 1 as [|x l Hx _ IH]; cbn; [reflexivity|].
  rewrite Hx. destruct (pass x); cbn; [exact IH|reflexivity].
Qed.

Lemma equal_ranges_sym {A : Type} (equal : A -> A -> Field.result bool) (l1 : list A) :
  Forall (fun x => forall y, equal x y = equal y x) l1 ->
  forall l2, Field.equal_ranges equal l1 l2 = Field.equal_ranges equal l2 l1.
Proof.
  induction 1 as [|x l1 Hx _ IH]; intros [|y l2]; cbn; try reflexivity.
  rewrite (Hx y), (IH l2). reflexivity.
Qed.

Section FieldEquality.
Context `{build_h} `{float_h} `{Field.decimal_h} `{Field.bitmap_h}.
Hypothesis decimalEqual_refl :
  forall w x s, Field.decimalEqual w x x s s = Field.Ok true.
Hypothesis decimalEqual_sym :
  forall w x y sx sy, Field.decimalEqual w x y sx sy = Field.decimalEqual w y x sy sx.
Hypothesis BitMap64_equal_refl : forall x, Field.BitMap64_equal x x = Field.Ok true.
Hypothesis BitMap64_equal_sym :
  forall x y, Field.BitMap64_equal x y = Field.BitMap64_equal y x.

Lemma equal_refl (a : Field.t) :
  Field.equal a a
  = if Field.gets_pass a then Field.Ok true
    else Field.Throw (Field.DB_Exception Field.LOGICAL_ERROR).
Proof.
  induction a as [a Hleaf|x IH|x IH|x IH|x IH] using Field_nested_ind.
  - destruct a; try contradiction; cbn;
      rewrite ?Z.eqb_refl, ?string_equal_refl, ?decimalEqual_refl,
        ?BitMap64_equal_refl; try reflexivity.
    destruct NDEBUG; reflexivity.
  - destruct (operators_Array x x) as (_ & _ & -> & _).
    rewrite Nat.eqb_refl. cbn [Field.gets_pass]. apply equal_ranges_refl, IH.
  - destruct (operators_Tuple x x) as (_ & _ & -> & _).
    rewrite Nat.eqb_refl. cbn [Field.gets_pass]. apply equal_ranges_refl, IH.
  - destruct (operators_Map x x) as (_ & _ & -> & _).
    rewrite Nat.eqb_refl. cbn [Field.gets_pass]. apply equal_ranges_refl, IH.
  - destruct (operators_ByteMap x x) as (_ & _ & ->).
    rewrite Nat.eqb_refl. cbn [Field.gets_pass].
    apply (equal_ranges_refl _
             (fun p => Field.gets_pass (fst p) && Field.gets_pass (snd p))).
    eapply Forall_impl; [exact IH|]. intros [k v] [Hk Hv]. cbn [fst snd] in *.
    rewrite Hk. destruct (Field.gets_pass k); cbn; [exact Hv|reflexivity].
Qed.

Lemma equal_sym (a : Field.t) : forall b, Field.equal a b = Field.equal b a.
Proof.
  induction a as [a Hleaf|x IH|x IH|x IH|x IH] using Field_nested_ind; intros b.
  - destruct a; try contradiction; destruct b; cbn; try reflexivity;
      destruct NDEBUG; cbn; try reflexivity;
      try (first [apply decimalEqual_sym | apply BitMap64_equal_sym
                 | f_equal; first [apply Z.eqb_sym | apply string_equal_sym]]);
      match goal with
      | |- context [if negb (Field.string_equal ?n ?n') then _
                    else Field.Ok (Field.string_equal ?d ?d')] =>
          rewrite (string_equal_sym n n'), (string_equal_sym d d'); reflexivity
      end.
  - destruct b; try reflexivity.
    match goal with
    | |- context [Field.equal (Field.Array _) (Field.Array ?y)] =>
        destruct (operators_Array x y) as (_ & _ & -> & _);
        destruct (operators_Array y x) as (_ & _ & -> & _);
        rewrite (Nat.eqb_sym (length y)), (equal_ranges_sym _ x IH y)
    end.
    reflexivity.
  - destruct b; try reflexivity.
    match goal with
    | |- context [Field.equal (Field.Tuple _) (Field.Tuple ?y)] =>
        destruct (operators_Tuple x y) as (_ & _ & -> & _);
        destruct (operators_Tuple y x) as (_ & _ & -> & _);
        rewrite (Nat.eqb_sym (length y)), (equal_ranges_sym _ x IH y)
    end.
    reflexivity.
  - destruct b; try reflexivity.
    match goal with
    | |- context [Field.equal (Field.Map _) (Field.Map ?y)] =>
        destruct (operators_Map x y) as (_ & _ & -> & _);
        destruct (operators_Map y x) as (_ & _ & -> & _);
        rewrite (Nat.eqb_sym (length y)), (equal_ranges_sym _ x IH y)
    end.
    reflexivity.
  - destruct b; try reflexivity.
    match goal with
    | |- context [Field.equal (Field.ByteMap _) (Field.ByteMap ?y)] =>
        destruct (operators_ByteMap x y) as (_ & _ & ->);
        destruct (operators_ByteMap y x) as (_ & _ & ->);
        rewrite (Nat.eqb_sym (length y)); destruct (length x =? length y)%nat;
        [|reflexivity]; apply equal_ranges_sym
    end.
    eapply Forall_impl; [exact IH|]. intros [k v] [Hk Hv] [k' v']. cbn [fst snd] in *.
    rewrite (Hk k'), (Hv v'). reflexivity.
Qed.

(** Where the equality of two decimals and of two bitmaps returns
    true on equal operands and the same in both orders, [==] of a field
    with itself returns true, for a NaN and an aggregate function state
    too, if every [get] of the comparison passes its type check, and
    throws LOGICAL_ERROR otherwise: for a field that holds a
    SketchBinary, read by [get<String>()], in a build without NDEBUG.
    [a == b] and [b == a] return or throw the same, and so do [!=]. *)
Theorem field_equality_is_reflexive_and_symmetric (a b : Field.t) :
  Field.equal a a
  = (if Field.gets_pass a then Field.Ok true
     else Field.Throw (Field.DB_Exception Field.LOGICAL_ERROR))
  /\ Field.not_equal a a
     = (if Field.gets_pass a then Field.Ok false
        else Field.Throw (Field.DB_Exception Field.LOGICAL_ERROR))
  /\ Field.equal a b = Field.equal b a
  /\ Field.not_equal a b = Field.not_equal b a.
Proof.
  unfold Field.not_equal. rewrite equal_refl, (equal_sym a b).
  destruct (Field.gets_pass a); repeat split; reflexivity.
Qed.

End FieldEquality.

(** The theorems at fields of several kinds, over the stand-ins. *)
Lemma fields_of_different_types_compare_by_tag_witness :
  Field.less (H := debug_build) (H0 := demo_float_h) (H1 := demo_decimal_h)
    (Field.BitMap64 [1; 2]) (Field.NegativeInfinity) = Field.Ok true
  /\ Field.equal (H := debug_build) (H1 := demo_decimal_h) (H2 := demo_bitmap_h)
       (Field.NegativeInfinity) (Field.BitMap64 [1; 2]) = Field.Ok false.
Proof.
  destruct (fields_of_different_types_compare_by_tag
              (H := debug_build) (H0 := demo_float_h) (H1 := demo_decimal_h)
              (H2 := demo_bitmap_h)
              (Field.BitMap64 [1; 2]) Field.NegativeInfinity)
    as (Hless & _ & _ & _ & _ & _ & Hequal & _).
  - reflexivity.
  - split; [exact Hless|exact Hequal].
Defined.

Lemma less_is_a_strict_total_order_on_plain_fields_witness :
  Field.less (H := debug_build) (H0 := demo_float_h) (H1 := demo_decimal_h)
    (Field.Array [Field.UInt64 1; Field.String [x61; x62]])
    (Field.Array [Field.UInt64 1; Field.String [x61; x62]; Field.Null]) = Field.Ok true
  /\ Field.less (H := debug_build) (H0 := demo_float_h) (H1 := demo_decimal_h)
       (Field.Array [Field.UInt64 1; Field.String [x61; x62]])
       (Field.Tuple [Field.Int64 (-7)]) = Field.Ok true.
Proof.
  destruct (less_is_a_strict_total_order_on_plain_fields
              (H := debug_build) (H0 := demo_float_h) (H1 := demo_decimal_h)
              (H2 := demo_bitmap_h))
    as (_ & _ & Htrans & _).
  assert (Hfirst : Field.less (H := debug_build) (H0 := demo_float_h)
                     (H1 := demo_decimal_h)
                     (Field.Array [Field.UInt64 1; Field.String [x61; x62]])
                     (Field.Array [Field.UInt64 1; Field.String [x61; x62]; Field.Null])
                   = Field.Ok true) by reflexivity.
  split; [exact Hfirst|].
  apply (Htrans _ (Field.Array [Field.UInt64 1; Field.String [x61; x62]; Field.Null]));
    reflexivity.
Defined.

Lemma field_equality_is_reflexive_and_symmetric_witness :
  Field.equal (H := debug_build) (H1 := demo_decimal_h) (H2 := demo_bitmap_h)
    (Field.Array [Field.Float64 9221120237041090560; Field.Decimal32 5 2;
                  Field.BitMap64 [1]; Field.SketchBinary [x61]])
    (Field.Array [Field.Float64 9221120237041090560; Field.Decimal32 5 2;
                  Field.BitMap64 [1]; Field.SketchBinary [x61]])
  = Field.Throw (Field.DB_Exception Field.LOGICAL_ERROR)
  /\ Field.equal (H := debug_build) (H1 := demo_decimal_h) (H2 := demo_bitmap_h)
       (Field.Array [Field.Float64 9221120237041090560; Field.Decimal32 5 2;
                     Field.BitMap64 [1]; Field.SketchBinary [x61]])
       (Field.Array [Field.Float64 0])
     = Field.equal (H := debug_build) (H1 := demo_decimal_h) (H2 := demo_bitmap_h)
         (Field.Array [Field.Float64 0])
         (Field.Array [Field.Float64 9221120237041090560; Field.Decimal32 5 2;
                       Field.BitMap64 [1]; Field.SketchBinary [x61]]).
Proof.
  destruct (@field_equality_is_reflexive_and_symmetric debug_build demo_float_h
              demo_decimal_h demo_bitmap_h)
    with (a := Field.Array [Field.Float64 9221120237041090560; Field.Decimal32 5 2;
                            Field.BitMap64 [1]; Field.SketchBinary [x61]])
         (b := Field.Array [Field.Float64 0])
    as (Hrefl & _ & Hsym & _).
  - intros w x s. cbn. rewrite !Z.eqb_refl. reflexivity.
  - intros w x y sx sy. cbn. rewrite (Z.eqb_sym x y), (Z.eqb_sym sx sy). reflexivity.
  - intros x. cbn. destruct (decide (x = x)); congruence.
  - intros x y. cbn. destruct (decide (x = y)), (decide (y = x)); congruence.
  - split; [exact Hrefl|exact Hsym].
Defined.

Lemma comparisons_never_throw_bad_type_of_field_witness :
  Field.throws_only
    (Field.thrown_or (Field.thrown_by_comparison (H := debug_build)) (fun _ => False))
    (Field.less (H := debug_build) (H0 := demo_float_h) (H1 := demo_decimal_h)
       (Field.Array [Field.Decimal32 5 2; Field.SketchBinary [x61]])
       (Field.Array [Field.Decimal32 5 2; Field.SketchBinary [x62]]))
  /\ Field.less (H := debug_build) (H0 := demo_float_h) (H1 := demo_decimal_h)
       (Field.SketchBinary [x61]) (Field.SketchBinary [x62])
     = Field.Throw (Field.DB_Exception Field.LOGICAL_ERROR).
Proof.
  destruct (@comparisons_never_throw_bad_type_of_field debug_build demo_float_h
              demo_decimal_h demo_bitmap_h (fun _ => False))
    with (a := Field.Array [Field.Decimal32 5 2; Field.SketchBinary [x61]])
         (b := Field.Array [Field.Decimal32 5 2; Field.SketchBinary [x62]])
    as (Hless & _ & _ & _ & _ & _ & _ & _ & _ & _ & _ & Hsketch).
  - intros w x y sx sy e Habs. discriminate Habs.
  - intros w x y sx sy e Habs. discriminate Habs.
  - intros w x y sx sy e Habs. discriminate Habs.
  - intros x y e Habs. discriminate Habs.
  - split; [exact Hless|]. apply (Hsketch eq_refl [x61] [x62]).
Defined.

(** * Storages/StorageFactory.cpp *)

Section StorageFactoryTheorems.
Context `{engine_h} {calls : StorageFactory.calls_h}.
Import StorageFactory.

Lemma factory_bind_Ok_inv {A B : Type} (m : StorageFactory.result A)
    (k : A -> StorageFactory.result B) (b : B) :
  m ≫= k = StorageFactory.Ok b -> exists a, m = StorageFactory.Ok a /\ k a = StorageFactory.Ok b.
Proof. destruct m as [a|e]; [intros Hk; exists a; split; [reflexivity|exact Hk]|intros [=]]. Qed.


Lemma checkAllTypesAreAllowedInTable_Ok (names_and_types : list (string * DataType)) :
  forall u, StorageFactory.checkAllTypesAreAllowedInTable names_and_types = StorageFactory.Ok u ->
  Forall (fun elem => cannotBeStoredInTables (snd elem) = false) names_and_types.
Proof.
  induction names_and_types as [|elem rest IH]; cbn; intros u Hu; [constructor|].
  destruct (cannotBeStoredInTables (snd elem)) eqn:Helem; [discriminate|].
  constructor; [exact Helem|]. apply (IH u Hu).
Qed.


Lemma check_feature_Ok (c : bool) (it : StorageFactory.Creator)
    (f : StorageFactory.StorageFeatures -> bool) (u : unit) :
  (if c then StorageFactory.check_feature it f else StorageFactory.Ok tt) = StorageFactory.Ok u ->
  c = true -> f (StorageFactory.features it) = true.
Proof.
  intros Hc ->. unfold StorageFactory.check_feature in Hc.
  destruct (f (StorageFactory.features it)); [reflexivity|discriminate].
Qed.


Lemma is_Some_b_true {A : Type} (x : option A) :
  StorageFactory.is_Some_b x = true <-> is_Some x.
Proof.
  destruct x; cbn; split; try discriminate; try reflexivity; eauto.
  intros [? [=]].
Qed.

Lemma engine_of_query_table (storages : Storages) (query : ASTCreateQuery)
    (columns : ColumnsDescription) (engine_name comment : string)
    (has_engine_args : bool) :
  is_table query ->
  engine_of_query storages query columns = Ok (engine_name, comment, has_engine_args) ->
  exists storage_def it,
    storage query = Some storage_def
    /\ engine_name = name (engine storage_def)
    /\ match StorageFactory.comment storage_def with
       | Some literal => comment_value literal
       | None => Ok EmptyString
       end = Ok comment
    /\ has_engine_args = is_Some_b (arguments (engine storage_def))
    /\ parameters (engine storage_def) = None
    /\ engine_name <> "View"%string /\ engine_name <> "MaterializedView"%string
    /\ engine_name <> "LiveView"%string
    /\ storages !! engine_name = Some it
    /\ Forall (fun elem => cannotBeStoredInTables (snd elem) = false) (getAll columns)
    /\ clauses_supported query columns storage_def (features it).
Proof.
  intros (Hview & Hlive & Hdictionary & Hmaterialized) Hget.
  unfold engine_of_query in Hget. rewrite Hview, Hlive, Hdictionary in Hget.
  apply factory_bind_Ok_inv in Hget as (u & Htypes & Hget).
  rewrite Hmaterialized in Hget.
  destruct (storage query) as [storage_def|] eqn:Hstorage; [|discriminate].
  destruct (parameters (engine storage_def)) as [p|] eqn:Hparameters; [discriminate|].
  cbn [is_Some_b] in Hget.
  destruct (String.eqb_spec (name (engine storage_def)) "View") as [|Hv]; [discriminate|].
  destruct (String.eqb_spec (name (engine storage_def)) "MaterializedView") as [|Hm];
    [discriminate|].
  destruct (String.eqb_spec (name (engine storage_def)) "LiveView") as [|Hl];
    [discriminate|].
  destruct (storages !! name (engine storage_def)) as [it|] eqn:Hit; [|discriminate].
  apply factory_bind_Ok_inv in Hget as (comment' & Hcomment & Hget).
  apply factory_bind_Ok_inv in Hget as (u1 & Hsettings & Hget).
  apply factory_bind_Ok_inv in Hget as (u2 & Hsort & Hget).
  apply factory_bind_Ok_inv in Hget as (u3 & Httl & Hget).
  apply factory_bind_Ok_inv in Hget as (u4 & Hindices & Hget).
  apply factory_bind_Ok_inv in Hget as (u5 & Hprojections & Hget).
  injection Hget as <- <- <-.
  exists storage_def, it. repeat split; try assumption; try reflexivity.
  - apply (checkAllTypesAreAllowedInTable_Ok _ u Htypes).
  - intros Hs. apply (check_feature_Ok _ _ _ _ Hsettings). apply is_Some_b_true, Hs.
  - intros Hs. apply (check_feature_Ok _ _ _ _ Hsort).
    rewrite !orb_true_iff, !is_Some_b_true. tauto.
  - intros Hs. apply (check_feature_Ok _ _ _ _ Httl).
    rewrite orb_true_iff, is_Some_b_true.
    destruct Hs as [Hs|Hs]; [left; exact Hs|right].
    destruct (getColumnTTLs columns); [congruence|reflexivity].
  - intros list index rest Hlist Hi. apply (check_feature_Ok _ _ _ _ Hindices).
    rewrite Hlist. cbn. rewrite Hi. reflexivity.
  - intros list projection rest Hlist Hp. apply (check_feature_Ok _ _ _ _ Hprojections).
    rewrite Hlist. cbn. rewrite Hp. reflexivity.
Qed.


(** A name can be registered once: [registerStorage] returns for a name
    without an entry, the access type of the name is then the one of the
    features given and the other names keep their entries, and every
    later registration of the name throws LOGICAL_ERROR. *)
Theorem registerStorage_registers_a_name_once (storages storages' : Storages)
    (name : string) (creator_fn : CreatorFn) (features : StorageFeatures) :
  registerStorage storages name creator_fn features = Ok storages' ->
  storages !! name = None
  /\ getSourceAccessType storages name = AccessType_NONE
  /\ getSourceAccessType storages' name = source_access_type features
  /\ storages' !! name
     = Some {| StorageFactory.creator_fn := creator_fn;
               StorageFactory.features := features |}
  /\ (forall other, other <> name -> storages' !! other = storages !! other)
  /\ (forall creator_fn' features',
         registerStorage storages' name creator_fn' features'
         = Throw (DB_Exception LOGICAL_ERROR)).
Proof.
  unfold registerStorage, getSourceAccessType.
  destruct (storages !! name) as [it|] eqn:Hname; [discriminate|].
  intros [= <-]. unfold Storages in *. rewrite fin_maps.lookup_insert_eq. cbn.
  repeat split; try reflexivity.
  intros other Hother. apply fin_maps.lookup_insert_ne. congruence.
Qed.

(** Where [get] returns for the CREATE query of a table, the query names
    an engine, without parameters, that is registered and is none of
    View, MaterializedView and LiveView; the types of all columns can be
    stored in tables; the engine has the feature of every clause of the
    query that asks for one; and the storage is what the creator of that
    engine has returned for the name and the arguments of the engine.
    The arguments of the engine in the query are afterwards what the
    creator has left of them. *)
Theorem get_creates_a_table_by_the_creator_of_its_engine
    (storages : Storages) (query : ASTCreateQuery) (relative_data_path : string)
    (local_context context : ContextPtr) (columns : ColumnsDescription)
    (constraints : ConstraintsDescription) (has_force_restore_data_flag : bool)
    (created : Created) :
  is_table query ->
  get storages query relative_data_path local_context context columns constraints
    has_force_restore_data_flag = Ok created ->
  exists storage_def it arguments engine_args,
    storage query = Some storage_def
    /\ storages !! name (engine storage_def) = Some it
    /\ name (engine storage_def) <> "View"%string
    /\ name (engine storage_def) <> "MaterializedView"%string
    /\ name (engine storage_def) <> "LiveView"%string
    /\ parameters (engine storage_def) = None
    /\ Forall (fun elem => cannotBeStoredInTables (snd elem) = false) (getAll columns)
    /\ clauses_supported query columns storage_def (features it)
    /\ StorageFactory.creator_fn it arguments = Ok (res created, engine_args)
    /\ engine_name arguments = name (engine storage_def)
    /\ StorageFactory.engine_args arguments
       = match StorageFactory.arguments (engine storage_def) with
         | Some children => children
         | None => []
         end
    /\ StorageFactory.query arguments = query
    /\ StorageFactory.columns arguments = columns
    /\ storage_after created
       = Some match StorageFactory.arguments (engine storage_def), engine_args with
              | None, [] => storage_def
              | _, _ => set_arguments storage_def engine_args
              end
    /\ logged created
       = (if hasQueryContext local_context && log_queries context
          then Some (name (engine storage_def)) else None).
Proof.
  intros Htable Hget. unfold get in Hget.
  apply factory_bind_Ok_inv in Hget as ([[engine_name comment] has_engine_args] & Hengine & Hget).
  destruct (engine_of_query_table _ _ _ _ _ _ Htable Hengine)
    as (storage_def & it & Hstorage & -> & Hcomment & -> & Hparameters & Hv & Hm & Hl
        & Hit & Htypes & Hclauses).
  apply factory_bind_Ok_inv in Hget as (table_id & Htable_id & Hget).
  rewrite Hit, Hstorage in Hget. cbn [mbind result_bind] in Hget.
  apply factory_bind_Ok_inv in Hget as ([storage engine_args] & Hcreator & Hget).
  apply factory_bind_Ok_inv in Hget as (after & Hafter & Hget).
  apply factory_bind_Ok_inv in Hget as (u & _ & Hget).
  injection Hget as <-. cbn [res storage_after logged].
  exists storage_def, it. eexists. exists engine_args.
  repeat (split; [assumption|]).
  split; [exact Hcreator|]. cbn.
  destruct (StorageFactory.arguments (engine storage_def)) as [children|] eqn:Hchildren;
    cbn in Hafter |- *.
  - injection Hafter as <-. repeat split; reflexivity.
  - destruct engine_args as [|arg engine_args]; injection Hafter as <-;
      repeat split; reflexivity.
Qed.


End StorageFactoryTheorems.

(** The theorems over the stand-ins: the registration of Memory, and the
    CREATE queries of a table with the engine Memory and with an engine
    that is not registered. *)
Lemma registerStorage_registers_a_name_once_witness :
  StorageFactory.getSourceAccessType demo_storages "Memory" = 7%nat
  /\ StorageFactory.registerStorage demo_storages "Memory" demo_creator demo_features
     = StorageFactory.Throw (StorageFactory.DB_Exception StorageFactory.LOGICAL_ERROR).
Proof.
  destruct (registerStorage_registers_a_name_once (H := demo_engine_h)
              ∅ demo_storages "Memory" demo_creator demo_features)
    as (_ & _ & Haccess & _ & _ & Hagain).
  - reflexivity.
  - split; [exact Haccess|apply Hagain].
Defined.

Lemma get_creates_a_table_by_the_creator_of_its_engine_witness :
  exists it,
    demo_storages !! "Memory"%string = Some it
    /\ StorageFactory.supports_sort_order (StorageFactory.features it) = true.
Proof.
  destruct (get_creates_a_table_by_the_creator_of_its_engine (H := demo_engine_h)
              (calls := demo_calls_h)
              demo_storages (demo_query "Memory") "data/" (true, true) (true, true)
              [("x"%string, "UInt8"%string)] tt false
              (@StorageFactory.Build_Created demo_engine_h "Memory"%string
                 (StorageFactory.storage (demo_query "Memory")) (Some "Memory"%string)))
    as (storage_def & it & arguments & engine_args & Hstorage & Hit & _ & _ & _ & _ & _
        & Hclauses & _).
  - repeat split; reflexivity.
  - vm_compute. reflexivity.
  - injection Hstorage as <-. exists it. split; [exact Hit|].
    destruct Hclauses as (_ & Hsort & _). apply Hsort.
    right. right. left. eexists. reflexivity.
Defined.


(** * Interpreters/ArrayJoinAction.cpp *)

Section ArrayJoinActionTheorems.
Context `{ArrayJoinAction.columns_h}.
Import ArrayJoinAction.

Lemma join_bind_Ok_inv {A B : Type} (m : ArrayJoinAction.result A)
    (k : A -> ArrayJoinAction.result B) (b : B) :
  m ≫= k = Ok b -> exists a, m = Ok a /\ k a = Ok b.
Proof. destruct m as [a|e]; [intros Hk; exists a; split; [reflexivity|exact Hk]|intros [=]]. Qed.

Lemma deref_Ok {A : Type} (ptr : option A) (object : A) :
  deref ptr = Ok object -> ptr = Some object.
Proof. destruct ptr; cbn; congruence. Qed.

Lemma for_columns_Ok (f : ColumnWithTypeAndName -> ArrayJoinAction.result ColumnWithTypeAndName)
    (block : ColumnsWithTypeAndName) :
  forall block', for_columns f block = Ok block' ->
  Forall2 (fun current current' => f current = Ok current') block block'.
Proof.
  induction block as [|current rest IH]; cbn; intros block' Hblock.
  - injection Hblock as <-. constructor.
  - apply join_bind_Ok_inv in Hblock as (current' & Hcurrent & Hblock).
    apply join_bind_Ok_inv in Hblock as (rest' & Hrest & Hblock).
    injection Hblock as <-. constructor; [exact Hcurrent|apply IH, Hrest].
Qed.

Lemma for_columns_Forall2 (f : ColumnWithTypeAndName -> ArrayJoinAction.result ColumnWithTypeAndName)
    (block block' : ColumnsWithTypeAndName) :
  Forall2 (fun current current' => f current = Ok current') block block' ->
  for_columns f block = Ok block'.
Proof.
  induction 1 as [|current current' rest rest' Hcurrent _ IH]; cbn; [reflexivity|].
  rewrite Hcurrent. cbn. rewrite IH. reflexivity.
Qed.

Lemma for_each_invariant {St A : Type} (P : St -> Prop)
    (f : St -> A -> ArrayJoinAction.result St) (l : list A) :
  (forall s a s', In a l -> P s -> f s a = Ok s' -> P s') ->
  forall s s', P s -> for_each f s l = Ok s' -> P s'.
Proof.
  induction l as [|a l IH]; cbn; intros Hf s s' Hs Hl.
  - injection Hl as <-. exact Hs.
  - apply join_bind_Ok_inv in Hl as (s1 & Ha & Hl).
    apply (IH (fun s a s' Hin => Hf s a s' (or_intror Hin)) s1 s');
      [apply (Hf s a s1); [left; reflexivity|exact Hs|exact Ha]|exact Hl].
Qed.

Lemma Forall2_compose {A B C : Type} (R : A -> B -> Prop) (S : B -> C -> Prop)
    (T : A -> C -> Prop) (l1 : list A) (l2 : list B) (l3 : list C) :
  (forall a b c, R a b -> S b c -> T a c) ->
  Forall2 R l1 l2 -> Forall2 S l2 l3 -> Forall2 T l1 l3.
Proof.
  intros HT H12. revert l3. induction H12 as [|a b l1 l2 Hab _ IH]; intros l3 H23;
    inversion H23; subst; constructor; eauto.
Qed.

Lemma count_In (columns : list string) (name : string) :
  count columns name = true <-> In name columns.
Proof.
  unfold count. rewrite existsb_exists. split.
  - intros (x & Hx & Heq). apply String.eqb_eq in Heq. subst. exact Hx.
  - intros Hin. exists name. split; [exact Hin|apply String.eqb_refl].
Qed.

Lemma getArrayJoinDataType_idempotent (type : DataTypePtr) (array_type : DataTypeArray_t) :
  getArrayJoinDataType (as_DataTypePtr (getArrayJoinDataType type)) = Some array_type ->
  getArrayJoinDataType type = Some array_type.
Proof.
  destruct (getArrayJoinDataType type) as [[nested]|]; cbn; [|discriminate].
  intros [= <-]. reflexivity.
Qed.

Lemma setByName_resized (action : t) (original block : ColumnsWithTypeAndName)
    (name' : string) (src_col value : ColumnWithTypeAndName) :
  Forall2 (resized action) original block ->
  In name' (columns action) ->
  getByName block name' = Ok src_col ->
  name value = name src_col ->
  type value = as_DataTypePtr (getArrayJoinDataType (type src_col)) ->
  Forall2 (resized action) original (setByName block name' value).
Proof.
  intros Hblock Hin. induction Hblock as [|o e original block [Hname Htype] Hrest IH];
    cbn; intros Hsrc Hn Ht; [constructor|].
  destruct (String.eqb_spec (name e) name') as [He|He].
  - injection Hsrc as <-. constructor; [|exact Hrest]. split; [congruence|].
    right. split; [congruence|]. rewrite Ht.
    destruct Htype as [->|[_ ->]]; [reflexivity|].
    destruct (getArrayJoinDataType (type o)) as [[nested]|]; reflexivity.
  - constructor; [split; assumption|]. apply IH; assumption.
Qed.

Lemma convertArrayJoinColumn_Ok (src_col array_col : ColumnWithTypeAndName) :
  convertArrayJoinColumn src_col = Ok array_col ->
  name array_col = name src_col
  /\ type array_col = as_DataTypePtr (getArrayJoinDataType (type src_col))
  /\ exists src_column,
      column src_col = Some src_column
      /\ column array_col
         = getArrayJoinColumn (Some (convertToFullColumnIfConst src_column)).
Proof.
  unfold convertArrayJoinColumn. intros Hconvert.
  apply join_bind_Ok_inv in Hconvert as (src_column & Hsrc & Hconvert).
  apply deref_Ok in Hsrc. injection Hconvert as <-. cbn.
  repeat split. exists src_column. split; [exact Hsrc|reflexivity].
Qed.

Lemma resized_refl (action : t) (block : ColumnsWithTypeAndName) :
  Forall2 (resized action) block block.
Proof.
  induction block as [|current rest IH]; constructor; [|exact IH].
  split; [reflexivity|left; reflexivity].
Qed.

Lemma execute_unaligned_resized (action : t) (block block' : ColumnsWithTypeAndName)
    (any_array_map_ptr any_array_map_ptr' : IColumn) :
  execute_unaligned action block any_array_map_ptr = Ok (block', any_array_map_ptr') ->
  Forall2 (resized action) block block'.
Proof.
  unfold execute_unaligned. intros Hexecute.
  apply join_bind_Ok_inv in Hexecute as (column_of_max_length & _ & Hexecute).
  revert Hexecute.
  apply (for_each_invariant
           (fun s : ColumnsWithTypeAndName * IColumn => Forall2 (resized action) block (fst s)))
    with (s := (block, any_array_map_ptr)) (s' := (block', any_array_map_ptr'));
    [|apply resized_refl].
  intros [block1 any1] name' [block2 any2] Hin Hblock1 Hstep. cbn [fst] in *.
  apply join_bind_Ok_inv in Hstep as (src_col & Hsrc & Hstep).
  apply join_bind_Ok_inv in Hstep as (array_col & Harray & Hstep).
  apply join_bind_Ok_inv in Hstep as (f_array_resize & _ & Hstep).
  apply join_bind_Ok_inv in Hstep as (resized_column & _ & Hstep).
  injection Hstep as <- <-.
  apply convertArrayJoinColumn_Ok in Harray as (Hname & Htype & _).
  apply (setByName_resized action block block1 name' src_col); assumption.
Qed.

(** [execute] is its last loop, over the block that an unaligned join has
    resized and over the block itself otherwise. *)
Lemma execute_Ok (action : t) (block block' : ColumnsWithTypeAndName) :
  execute action block = Ok block' ->
  exists block1 non_empty_array_columns any_array,
    Forall2 (resized action) block block1
    /\ (is_unaligned action = false -> block1 = block)
    /\ Forall2 (fun current current' =>
                  execute_column action non_empty_array_columns any_array current
                  = Ok current') block1 block'.
Proof.
  unfold execute. intros Hexecute.
  destruct (columns action) as [|begin columns'] eqn:Hcolumns; [discriminate|].
  apply join_bind_Ok_inv in Hexecute as (first & _ & Hexecute).
  apply join_bind_Ok_inv in Hexecute as (first_column & _ & Hexecute).
  destruct (getArrayJoinColumnRawPtr (Some (convertToFullColumnIfConst first_column)))
    as [any_array|]; [|discriminate].
  apply join_bind_Ok_inv in Hexecute
      as ([[block1 non_empty_array_columns] any_array'] & Hmode & Hexecute).
  exists block1, non_empty_array_columns, any_array'.
  apply for_columns_Ok in Hexecute.
  destruct (is_unaligned action) eqn:Hunaligned.
  - apply join_bind_Ok_inv in Hmode as ([block2 any2] & Hresize & Hmode).
    destruct (getArrayJoinColumnRawPtr (Some any2)); [|discriminate].
    injection Hmode as <- <- <-.
    split; [apply (execute_unaligned_resized _ _ _ _ _ Hresize)|].
    split; [discriminate|exact Hexecute].
  - assert (block1 = block) as ->.
    { destruct (is_left action).
      - apply join_bind_Ok_inv in Hmode as (non_empty & _ & Hmode).
        apply join_bind_Ok_inv in Hmode as (first_non_empty & _ & Hmode).
        destruct (getArrayJoinColumnRawPtr
                    (Some (convertToFullColumnIfConst first_non_empty)));
          [|discriminate].
        injection Hmode as <- _ _. reflexivity.
      - injection Hmode as <- _ _. reflexivity. }
    split; [apply resized_refl|]. split; [reflexivity|exact Hexecute].
Qed.

Lemma execute_column_joined (action : t)
    (non_empty_array_columns : list (string * IColumn)) (any_array : ColumnArray_t)
    (current current' : ColumnWithTypeAndName) :
  execute_column action non_empty_array_columns any_array current = Ok current' ->
  name current' = name current
  /\ if count (columns action) (name current)
     then exists array_type,
         getArrayJoinDataType (type current) = Some array_type
         /\ type current' = Some (getNestedType array_type)
     else type current' = type current.
Proof.
  unfold execute_column. intros Hcurrent.
  destruct (count (columns action) (name current)).
  - destruct (getArrayJoinDataType (type current)) as [array_type|]; [|discriminate].
    apply join_bind_Ok_inv in Hcurrent as (array_ptr & _ & Hcurrent).
    apply join_bind_Ok_inv in Hcurrent as (array & _ & Hcurrent).
    destruct (negb (is_unaligned action) && negb (hasEqualOffsets array any_array));
      [discriminate|].
    injection Hcurrent as <-. cbn. split; [reflexivity|].
    exists array_type. split; reflexivity.
  - apply join_bind_Ok_inv in Hcurrent as (current_column & _ & Hcurrent).
    injection Hcurrent as <-. cbn. split; reflexivity.
Qed.

Lemma prepare_of_joined (action : t) (block block' : ColumnsWithTypeAndName) :
  Forall2 (joined action) block block' ->
  exists sample,
    prepare action block = Ok sample
    /\ names sample = names block /\ types sample = types block'.
Proof.
  unfold prepare, names, types.
  induction 1 as [|current current' rest rest' [Hname Htype] _ (sample & IH & Hnames & Htypes)];
    cbn.
  - exists []. repeat split.
  - destruct (count (columns action) (name current)); cbn.
    + destruct Htype as (array_type & -> & Htype). cbn. rewrite IH. cbn.
      eexists. split; [reflexivity|]. cbn. rewrite Hnames, Htypes, Htype.
      split; reflexivity.
    + rewrite IH. cbn. eexists. split; [reflexivity|]. cbn.
      rewrite Hnames, Htypes, Htype. split; reflexivity.
Qed.

Lemma joined_of_resized (action : t)
    (non_empty_array_columns : list (string * IColumn)) (any_array : ColumnArray_t)
    (original current current' : ColumnWithTypeAndName) :
  resized action original current ->
  execute_column action non_empty_array_columns any_array current = Ok current' ->
  joined action original current'.
Proof.
  intros [Hname1 Htype1] Hcurrent.
  apply execute_column_joined in Hcurrent as [Hname Htype].
  split; [congruence|]. rewrite Hname1 in Htype.
  destruct (count (columns action) (name original)) eqn:Hcount.
  - destruct Htype as (array_type & Harray & Htype). exists array_type.
    split; [|exact Htype].
    destruct Htype1 as [<-|[_ Htype1]]; [exact Harray|].
    rewrite Htype1 in Harray. apply getArrayJoinDataType_idempotent, Harray.
  - destruct Htype1 as [<-|[Hin _]]; [exact Htype|].
    apply count_In in Hin. congruence.
Qed.

(** Where [execute] returns, the block has the columns that it had, by
    their names, and their types are the ones that [prepare] has given
    for the block: the type of the elements for an array joined column,
    the type that it had for every other. *)
Theorem execute_gives_the_types_of_prepare (action : t)
    (block block' : ColumnsWithTypeAndName) :
  execute action block = Ok block' ->
  names block' = names block
  /\ exists sample,
      prepare action block = Ok sample
      /\ names sample = names block
      /\ types sample = types block'.
Proof.
  intros Hexecute.
  destruct (execute_Ok _ _ _ Hexecute)
    as (block1 & non_empty_array_columns & any_array & Hresized & _ & Hcolumns).
  assert (Hjoined : Forall2 (joined action) block block').
  { apply (Forall2_compose _ _ _ _ _ _
             (joined_of_resized action non_empty_array_columns any_array)
             Hresized Hcolumns). }
  split; [|apply prepare_of_joined, Hjoined].
  clear - Hjoined. unfold names.
  induction Hjoined as [|current current' rest rest' [Hname _] _ IH]; cbn;
    [reflexivity|]. rewrite Hname, IH. reflexivity.
Qed.

Lemma execute_column_expanded (action : t)
    (non_empty_array_columns : list (string * IColumn)) (any_array : ColumnArray_t)
    (current current' : ColumnWithTypeAndName) :
  is_left action = false -> is_unaligned action = false ->
  execute_column action non_empty_array_columns any_array current = Ok current' ->
  expanded action any_array current current'.
Proof.
  unfold execute_column, expanded, joined_array. intros -> -> Hcurrent. cbn in Hcurrent.
  destruct (count (columns action) (name current)).
  - destruct (getArrayJoinDataType (type current)) as [array_type|]; [|discriminate].
    apply join_bind_Ok_inv in Hcurrent as (array_ptr & Harray_ptr & Hcurrent).
    apply join_bind_Ok_inv in Hcurrent as (array & Harray & Hcurrent).
    destruct (hasEqualOffsets array any_array) eqn:Hoffsets; [|discriminate].
    injection Hcurrent as <-. cbn.
    destruct (typeid_cast_DataTypeArray (type current)).
    + apply join_bind_Ok_inv in Harray_ptr as (current_column & Hcolumn & Harray_ptr).
      apply deref_Ok in Hcolumn. injection Harray_ptr as <-.
      exists current_column. split; [exact Hcolumn|]. exists array.
      destruct (convertToFullColumnIfConst current_column); try discriminate.
      injection Harray as <-. repeat split. exact Hoffsets.
    + apply join_bind_Ok_inv in Harray_ptr as (current_column & Hcolumn & Harray_ptr).
      apply deref_Ok in Hcolumn.
      apply join_bind_Ok_inv in Harray_ptr as (nested & Hnested & Harray_ptr).
      injection Harray_ptr as <-.
      exists current_column. split; [exact Hcolumn|]. exists array.
      destruct (convertToFullColumnIfConst current_column); try discriminate.
      injection Hnested as ->. destruct nested; try discriminate.
      injection Harray as <-. repeat split. exact Hoffsets.
  - apply join_bind_Ok_inv in Hcurrent as (current_column & Hcolumn & Hcurrent).
    apply deref_Ok in Hcolumn. injection Hcurrent as <-. cbn.
    exists current_column. split; [exact Hcolumn|reflexivity].
Qed.

(** Where an array join that is not left and not unaligned returns, the
    array joined columns are arrays, or maps over arrays, with the
    offsets of the array of the first of them, and each has become the
    column of the elements of its array; every other column has been
    replicated by these offsets. *)
Theorem execute_expands_the_rows_by_the_offsets_of_the_arrays (action : t)
    (block block' : ColumnsWithTypeAndName) :
  is_left action = false -> is_unaligned action = false ->
  execute action block = Ok block' ->
  exists begin first first_column any_array,
    head (columns action) = Some begin
    /\ getByName block begin = Ok first
    /\ column first = Some first_column
    /\ getArrayJoinColumnRawPtr (Some (convertToFullColumnIfConst first_column))
       = Some any_array
    /\ Forall2 (expanded action any_array) block block'.
Proof.
  intros Hleft Hunaligned Hexecute. unfold execute in Hexecute.
  destruct (columns action) as [|begin columns'] eqn:Hcolumns; [discriminate|].
  apply join_bind_Ok_inv in Hexecute as (first & Hfirst & Hexecute).
  apply join_bind_Ok_inv in Hexecute as (first_column & Hfirst_column & Hexecute).
  apply deref_Ok in Hfirst_column.
  destruct (getArrayJoinColumnRawPtr (Some (convertToFullColumnIfConst first_column)))
    as [any_array|] eqn:Hany; [|discriminate].
  rewrite Hleft, Hunaligned in Hexecute. cbn in Hexecute.
  apply for_columns_Ok in Hexecute.
  exists begin, first, first_column, any_array.
  repeat (split; [reflexivity || assumption|]).
  eapply Forall2_impl; [exact Hexecute|]. intros current current' Hcurrent.
  apply (execute_column_expanded action [] any_array current current' Hleft Hunaligned).
  exact Hcurrent.
Qed.

(** An array join that is not unaligned throws for every block with an
    array joined column of a type Nullable(...) whose full column is no
    map: the cast of the column to a map fails, although
    [getArrayJoinDataType] and [prepare] take Nullable(Array) for the
    type of an array join. *)
Theorem execute_throws_for_a_nullable_array (action : t)
    (block : ColumnsWithTypeAndName) (current : ColumnWithTypeAndName)
    (nested : IDataType) (current_column : IColumn) :
  is_unaligned action = false ->
  In current block ->
  In (name current) (columns action) ->
  type current = Some (DataTypeNullable nested) ->
  column current = Some current_column ->
  (forall map_nested, convertToFullColumnIfConst current_column <> ColumnMap map_nested) ->
  exists e, execute action block = Throw e.
Proof.
  intros Hunaligned Hin Hname Htype Hcolumn Hfull.
  destruct (execute action block) as [block'|e] eqn:Hexecute; [|exists e; reflexivity].
  exfalso.
  destruct (execute_Ok _ _ _ Hexecute)
    as (block1 & non_empty_array_columns & any_array & _ & Hblock1 & Hcolumns).
  rewrite (Hblock1 Hunaligned) in Hcolumns. clear - Hcolumns Hin Hname Htype Hcolumn Hfull.
  induction Hcolumns as [|c c' rest rest' Hc _ IH]; [contradiction|].
  destruct Hin as [->|Hin]; [|apply IH, Hin].
  unfold execute_column in Hc. apply count_In in Hname. rewrite Hname, Htype in Hc.
  cbn in Hc. destruct nested; try discriminate Hc.
  apply join_bind_Ok_inv in Hc as (array_ptr & Harray_ptr & _).
  rewrite Hcolumn in Harray_ptr. cbn in Harray_ptr.
  apply join_bind_Ok_inv in Harray_ptr as (map_nested & Hmap & _).
  destruct (convertToFullColumnIfConst current_column) eqn:Hconvert; try discriminate.
  eapply Hfull. reflexivity.
Qed.

End ArrayJoinActionTheorems.

(** The theorems at the array join of an array of numbers with the rows
    [1, 2] and [3], over the stand-ins. *)
Lemma execute_gives_the_types_of_prepare_witness :
  ArrayJoinAction.execute (H := demo_columns_h) demo_action demo_block
  = ArrayJoinAction.Ok demo_block_joined
  /\ exists sample,
      ArrayJoinAction.prepare demo_action demo_block = ArrayJoinAction.Ok sample
      /\ ArrayJoinAction.types sample = ArrayJoinAction.types demo_block_joined.
Proof.
  assert (Hexecute : ArrayJoinAction.execute (H := demo_columns_h) demo_action demo_block
                     = ArrayJoinAction.Ok demo_block_joined) by reflexivity.
  split; [exact Hexecute|].
  destruct (execute_gives_the_types_of_prepare (H := demo_columns_h)
              demo_action demo_block demo_block_joined Hexecute)
    as (_ & sample & Hprepare & _ & Htypes).
  exists sample. split; [exact Hprepare|exact Htypes].
Defined.

Lemma execute_expands_the_rows_by_the_offsets_of_the_arrays_witness :
  ArrayJoinAction.execute (H := demo_columns_h) demo_action demo_block
  = ArrayJoinAction.Ok demo_block_joined
  /\ exists any_array,
      Forall2 (ArrayJoinAction.expanded (H := demo_columns_h) demo_action any_array)
        demo_block demo_block_joined.
Proof.
  assert (Hexecute : ArrayJoinAction.execute (H := demo_columns_h) demo_action demo_block
                     = ArrayJoinAction.Ok demo_block_joined) by reflexivity.
  split; [exact Hexecute|].
  destruct (execute_expands_the_rows_by_the_offsets_of_the_arrays (H := demo_columns_h)
              demo_action demo_block demo_block_joined)
    as (_ & _ & _ & any_array & _ & _ & _ & _ & Hexpanded).
  - reflexivity.
  - reflexivity.
  - exact Hexecute.
  - exists any_array. exact Hexpanded.
Defined.

Lemma execute_throws_for_a_nullable_array_witness :
  exists e,
    ArrayJoinAction.execute (H := demo_columns_h) demo_action demo_block_nullable
    = ArrayJoinAction.Throw e.
Proof.
  apply (execute_throws_for_a_nullable_array (H := demo_columns_h) demo_action
           demo_block_nullable
           {| ArrayJoinAction.column :=
                Some (ArrayJoinAction.ColumnNullable
                        (ArrayJoinAction.ColumnArray (ArrayJoinAction.ColumnUInt64 [1; 2; 3])
                           [2; 3]%nat)
                        [false; false]);
              ArrayJoinAction.type :=
                Some (ArrayJoinAction.DataTypeNullable
                        (ArrayJoinAction.DataTypeArray ArrayJoinAction.DataTypeUInt64));
              ArrayJoinAction.name := "a"%string |}
           (ArrayJoinAction.DataTypeArray ArrayJoinAction.DataTypeUInt64)
           (ArrayJoinAction.ColumnNullable
              (ArrayJoinAction.ColumnArray (ArrayJoinAction.ColumnUInt64 [1; 2; 3])
                 [2; 3]%nat)
              [false; false])).
  - reflexivity.
  - left. reflexivity.
  - left. reflexivity.
  - reflexivity.
  - reflexivity.
  - intros map_nested. cbn. discriminate.
Defined.
